(** * finance-advisor-agent: retrieval, ingestion and the tool-calling agent

    A shallow embedding of [backend/app/services/rag_service.py],
    [backend/app/services/ai_agent.py], [backend/app/routers/integrations.py]
    and the tables of [backend/app/models.py]; then of the endpoints of
    [backend/app/routers/chat.py] and [backend/app/routers/tasks.py] and of
    [GoogleService._parse_email].

    Stateful code is written in an exception-and-state monad over a [World]
    that holds the committed database tables, the process-local [sync_status]
    dictionary, the wall clock and the trace of calls made to the outside
    (OpenAI, Gmail, HubSpot).  The outside itself is an [Env] of oracles. *)

From Stdlib Require Import ZArith QArith Ascii String List Permutation Sorted Bool Lia.
From stdpp Require Import gmap strings pretty.
Import ListNotations.
Open Scope string_scope.
Open Scope Z_scope.

(** ** Text: the operations of Python's [str] and PostgreSQL's [ILIKE]

    Characters are 7-bit ASCII; bytes above 127 are neither letters nor
    white space here. *)
Module Text.

Definition dq : string := String "034"%char EmptyString.
Definition nl : string := String "010"%char EmptyString.

Definition is_upper (c : ascii) : bool :=
  let n := nat_of_ascii c in ((65 <=? n) && (n <=? 90))%nat.

Definition lower_char (c : ascii) : ascii :=
  if is_upper c then ascii_of_nat (nat_of_ascii c + 32) else c.

(** [str.lower()] *)
Fixpoint lower (s : string) : string :=
  match s with
  | EmptyString => EmptyString
  | String c s' => String (lower_char c) (lower s')
  end.

(** [str.isspace()] on one ASCII character: TAB..CR, FS..US and the space. *)
Definition is_space (c : ascii) : bool :=
  let n := nat_of_ascii c in
  (((9 <=? n) && (n <=? 13)) || ((28 <=? n) && (n <=? 32)))%nat.

Fixpoint lstrip (s : string) : string :=
  match s with
  | EmptyString => EmptyString
  | String c s' => if is_space c then lstrip s' else s
  end.

Fixpoint rstrip (s : string) : string :=
  match s with
  | EmptyString => EmptyString
  | String c s' =>
      match rstrip s' with
      | EmptyString => if is_space c then EmptyString else String c EmptyString
      | r => String c r
      end
  end.

(** [str.strip()] *)
Definition strip (s : string) : string := rstrip (lstrip s).

(** [s.replace(' ', '')] *)
Fixpoint remove_spaces (s : string) : string :=
  match s with
  | EmptyString => EmptyString
  | String c s' =>
      if Ascii.eqb c " " then remove_spaces s' else String c (remove_spaces s')
  end.

(** Python truth value of a string, and of an optional one ([None] is false). *)
Definition truthy (s : string) : bool :=
  match s with EmptyString => false | _ => true end.

Definition truthy_opt (o : option string) : bool :=
  match o with Some s => truthy s | None => false end.

(** [text[:n]] *)
Definition take_chars (n : nat) (s : string) : string := substring 0 n s.

(** An f-string field holding an optional value prints [None] for [None]. *)
Definition fmt_opt (o : option string) : string :=
  match o with Some s => s | None => "None" end.

(** [s.startswith(p)] *)
Fixpoint starts_with (p s : string) : bool :=
  match p with
  | EmptyString => true
  | String a p' =>
      match s with
      | EmptyString => false
      | String b s' => Ascii.eqb a b && starts_with p' s'
      end
  end.

(** [needle in hay] *)
Fixpoint contains (needle hay : string) : bool :=
  starts_with needle hay ||
  match hay with
  | EmptyString => false
  | String _ hay' => contains needle hay'
  end.

(** Case-insensitive containment, the reading of "sender contains the query". *)
Definition contains_ci (needle hay : string) : bool :=
  contains (lower needle) (lower hay).

(** *** LIKE patterns

    PostgreSQL reads [%] as any run of characters, [_] as any one character
    and a backslash as the escape that makes the next character literal.
    A pattern that ends in a lone escape is rejected by PostgreSQL; the
    patterns built below always end in [%], so the case is read as a literal
    backslash here. *)
Inductive tok : Type :=
| TAny
| TOne
| TLit (c : ascii).

Definition is_meta (c : ascii) : bool :=
  Ascii.eqb c "%" || Ascii.eqb c "_" || Ascii.eqb c "\".

Fixpoint like_tokens (p : string) : list tok :=
  match p with
  | EmptyString => []
  | String c p' =>
      if Ascii.eqb c "\" then
        match p' with
        | EmptyString => [TLit c]
        | String d p'' => TLit d :: like_tokens p''
        end
      else if Ascii.eqb c "%" then TAny :: like_tokens p'
      else if Ascii.eqb c "_" then TOne :: like_tokens p'
      else TLit c :: like_tokens p'
  end.

Fixpoint like_match (p : list tok) : string -> bool :=
  match p with
  | [] => fun s => match s with EmptyString => true | _ => false end
  | TAny :: p' =>
      fix star (s : string) : bool :=
        like_match p' s ||
        match s with
        | EmptyString => false
        | String _ s' => star s'
        end
  | TOne :: p' =>
      fun s => match s with
               | EmptyString => false
               | String _ s' => like_match p' s'
               end
  | TLit a :: p' =>
      fun s => match s with
               | EmptyString => false
               | String c s' => Ascii.eqb a c && like_match p' s'
               end
  end.

(** [text ILIKE pattern]: both sides are lower-cased, then matched. *)
Definition ilike (text pattern : string) : bool :=
  like_match (like_tokens (lower pattern)) (lower text).

Fixpoint no_meta (s : string) : bool :=
  match s with
  | EmptyString => true
  | String c s' => negb (is_meta c) && no_meta s'
  end.

Fixpoint lits (q : string) : list tok :=
  match q with
  | EmptyString => []
  | String c q' => TLit c :: lits q'
  end.

(** [sep.join(parts)] *)
Fixpoint join (sep : string) (parts : list string) : string :=
  match parts with
  | [] => EmptyString
  | [p] => p
  | p :: rest => p ++ sep ++ join sep rest
  end.

(** A quoted word inside a prompt. *)
Definition q (s : string) : string := dq ++ s ++ dq.

End Text.


(** ** JSON values, as [json.loads] produces them (numbers are integers here) *)
#[local] Unset Elimination Schemes.
Inductive json : Type :=
| JNull
| JBool (b : bool)
| JNum (n : Z)
| JStr (s : string)
| JArr (items : list json)
| JObj (fields : list (string * json)).
#[local] Set Elimination Schemes.

(** ** Python exceptions: the class name and [str(e)].  Only subclasses of
    [Exception] are modelled, the ones [except Exception] catches. *)
Record Exn : Type := mk_exn { exn_class : string; exn_msg : string }.

(** What an outside call answers. *)
Inductive Res (A : Type) : Type :=
| Ok (a : A)
| Err (e : Exn).
Arguments Ok {A} a.
Arguments Err {A} e.

Module Py.

Fixpoint assoc {A : Type} (k : string) (l : list (string * A)) : option A :=
  match l with
  | [] => None
  | (k', v) :: l' => if String.eqb k k' then Some v else assoc k l'
  end.

(** [bool(v)] *)
Definition truthy (v : json) : bool :=
  match v with
  | JNull => false
  | JBool b => b
  | JNum n => negb (n =? 0)
  | JStr s => Text.truthy s
  | JArr l => match l with [] => false | _ => true end
  | JObj l => match l with [] => false | _ => true end
  end.

(** [d[k]]: [KeyError] on a dict without the key, [TypeError] on anything
    that is not a dict. *)
Definition subscript (d : json) (k : string) : Res json :=
  match d with
  | JObj fields =>
      match assoc k fields with
      | Some v => Ok v
      | None => Err (mk_exn "KeyError" ("'" ++ k ++ "'"))
      end
  | _ => Err (mk_exn "TypeError" "indices must be integers or the object is not subscriptable")
  end.

(** [type(v).__name__] *)
Definition type_name (v : json) : string :=
  match v with
  | JNull => "NoneType"
  | JBool _ => "bool"
  | JNum _ => "int"
  | JStr _ => "str"
  | JArr _ => "list"
  | JObj _ => "dict"
  end.

(** [d.get(k)]: [None] when the key is absent, [AttributeError] on anything
    that is not a dict. *)
Definition get (d : json) (k : string) : Res json :=
  match d with
  | JObj fields =>
      match assoc k fields with
      | Some v => Ok v
      | None => Ok JNull
      end
  | _ => Err (mk_exn "AttributeError"
                ("'" ++ type_name d ++ "' object has no attribute 'get'"))
  end.

End Py.

(** ** The tables of [models.py]

    Only the columns the modelled code reads or writes are kept.  A nullable
    column is an [option]. *)
Definition Vec : Type := list Q.

Record User : Type := {
  user_id : Z;
  google_access_token : option string;
  hubspot_access_token : option string
}.

Record Email : Type := {
  email_id : Z;
  email_user_id : Z;
  gmail_id : string;
  thread_id : option string;
  subject : option string;
  from_email : option string;
  to_emails : list string;
  cc_emails : list string;
  body_text : option string;
  body_html : option string;
  received_at : option Z;
  email_embedding : option Vec
}.

Record Contact : Type := {
  contact_id : Z;
  contact_user_id : Z;
  hubspot_id : string;
  contact_email : option string;
  first_name : option string;
  last_name : option string;
  phone : option string;
  company : option string;
  notes : option string;
  raw_data : json;
  contact_embedding : option Vec
}.

Record Task : Type := {
  task_id : Z;
  task_user_id : Z;
  task_type : json;
  task_status : string;
  task_description : json;
  input_data : json
}.

Record OngoingInstruction : Type := {
  instruction_id : Z;
  instruction_user_id : Z;
  instruction : string;
  trigger_type : option string;
  is_active : option bool
}.

Record DB : Type := {
  users : list User;
  emails : list Email;
  contacts : list Contact;
  tasks : list Task;
  ongoing_instructions : list OngoingInstruction
}.

(** ** [sync_status]: one entry per user and source.  The dictionary of an
    entry always holds [syncing] and [started_at]; the other keys appear
    when a run ends. *)
Record SyncEntry : Type := {
  syncing : bool;
  started_at : string;
  completed_at : option string;
  imported_count : option Z;
  error : option string
}.

(** ** Calls to the outside *)
Record ToolCall : Type := {
  tool_call_id : string;
  function_name : string;
  function_arguments : string
}.

(** [response.choices[0].message] *)
Record AssistantMessage : Type := {
  content : option string;
  tool_calls : list ToolCall
}.

Inductive Message : Type :=
| MsgSystem (text : string)
| MsgUser (text : string)
| MsgHistory (role text : string)
| MsgAssistant (m : AssistantMessage)
| MsgTool (call_id : string) (text : string).

(** The arguments of [openai_client.chat.completions.create]; the model is
    always [gpt-4]. *)
Record ChatRequest : Type := {
  req_messages : list Message;
  req_tools : bool;
  req_temperature : option Q;
  req_max_tokens : option Z
}.

(** The capability calls of the tool dispatcher, with the values the model
    supplied. *)
Inductive ProviderCall : Type :=
| SendEmail (to subject body cc : json)
| CreateCalendarEvent (summary start_time end_time attendees description : json)
| ListCalendarEvents (time_min time_max : json)
| SearchContacts (query : json)
| CreateContact (email first last phone company : json)
| CreateNote (contact note : json).

Inductive Event : Type :=
| EvEmbed (text : string)
| EvChat (req : ChatRequest)
| EvListEmails (token : string) (page_token query : option string)
| EvGetEmail (token : string) (gmail_id : string)
| EvListContacts (token : string) (after : option string)
| EvGetContactNotes (token : string) (hubspot_id : string)
| EvProvider (token : string) (call : ProviderCall).

(** What [GoogleService._parse_email] returns for a fetched message; the
    received date is the instant its ISO text denotes. *)
Record ParsedEmail : Type := {
  p_thread_id : option string;
  p_subject : string;
  p_from_email : string;
  p_to_emails : list string;
  p_cc_emails : list string;
  p_body_text : string;
  p_body_html : string;
  p_received_at : option Z
}.

(** One page of [list_emails]: the message ids and [nextPageToken]. *)
Record EmailPage : Type := {
  page_messages : list string;
  next_page_token : option string
}.

(** One contact of [list_all_contacts]: its id, its [properties] dictionary
    (a value may be null) and the whole object, kept as [raw_data]. *)
Record ContactData : Type := {
  cd_id : string;
  cd_properties : list (string * option string);
  cd_raw : json
}.

Record ContactPage : Type := {
  page_results : list ContactData;
  paging_next_after : option string
}.

(** ** The outside: OpenAI, pgvector's distance, the JSON codec
    ([json_dumps] takes the [indent] argument), Gmail ([gmail_get_email] is
    [get_email] followed by [_parse_email]), HubSpot, the renderings of a
    time stamp, [dateutil_naive], the naive local reading that
    [dateutil.parser.parse] and [astimezone] give of a received date ([None]
    when parsing raises), and [naive_timestamp], what [timestamp()] makes of
    a naive date.  Each is an oracle of its arguments. *)
Record Env : Type := {
  embeddings_create : string -> Res Vec;
  chat_completions_create : ChatRequest -> Res AssistantMessage;
  cosine_distance : Vec -> Vec -> Q;
  json_loads : string -> Res json;
  json_dumps : option Z -> json -> string;
  gmail_list_emails : string -> option string -> option string -> Res EmailPage;
  gmail_get_email : string -> string -> Res ParsedEmail;
  hubspot_list_all_contacts : string -> option string -> Res ContactPage;
  hubspot_get_contact_notes : string -> string -> Res (list (option string));
  provider : string -> ProviderCall -> Res json;
  isoformat : Z -> string;
  strftime : string -> Z -> string;
  str_datetime : Z -> string;
  dateutil_naive : Z -> option Z;
  naive_timestamp : Z -> Z
}.

(** ** The world and the monad

    A world holds the committed tables, the [sync_status] dictionary of the
    process, the clock and the calls made to the outside so far.  It is a
    state of a session in which no statement has failed: the code never
    rolls a session back, and after a failed statement every further
    statement of the same request or background task raises. *)
Record World : Type := {
  db : DB;
  sync_status : gmap Z (gmap string SyncEntry);
  clock : Z;
  trace : list Event
}.

(** How a piece of code ends: it returns, it raises, or its [while True]
    loop is still running when the fuel is spent. *)
Inductive Out (A : Type) : Type :=
| Ret (a : A)
| Raise (e : Exn)
| Diverge.
Arguments Ret {A} a.
Arguments Raise {A} e.
Arguments Diverge {A}.

Definition M (A : Type) : Type := World -> Out A * World.

Definition ret {A : Type} (a : A) : M A := fun w => (Ret a, w).

Definition bind {A B : Type} (m : M A) (k : A -> M B) : M B :=
  fun w =>
    match m w with
    | (Ret a, w') => k a w'
    | (Raise e, w') => (Raise e, w')
    | (Diverge, w') => (Diverge, w')
    end.

Notation "x <- m ;; k" := (bind m (fun x => k))
  (at level 100, m at next level, right associativity).
Notation "m ;;; k" := (bind m (fun _ => k))
  (at level 100, right associativity).

Definition raise {A : Type} (e : Exn) : M A := fun w => (Raise e, w).

Definition diverge {A : Type} : M A := fun w => (Diverge, w).

(** [try: m  except Exception as e: h e] *)
Definition try_except {A : Type} (m : M A) (h : Exn -> M A) : M A :=
  fun w =>
    match m w with
    | (Raise e, w') => h e w'
    | r => r
    end.

Definition lift {A : Type} (r : Res A) : M A :=
  match r with
  | Ok a => ret a
  | Err e => raise e
  end.

Definition get_world : M World := fun w => (Ret w, w).

(** The world after one more call to the outside. *)
Definition logged (ev : Event) (w : World) : World :=
  {| db := db w; sync_status := sync_status w; clock := clock w;
     trace := trace w ++ [ev] |}.

Definition emit (ev : Event) : M unit := fun w => (Ret tt, logged ev w).

Definition with_db (d : DB) (w : World) : World :=
  {| db := d; sync_status := sync_status w; clock := clock w; trace := trace w |}.

Definition with_sync_status (s : gmap Z (gmap string SyncEntry)) (w : World) : World :=
  {| db := db w; sync_status := s; clock := clock w; trace := trace w |}.

Definition set_db (d : DB) : M unit := fun w => (Ret tt, with_db d w).

Definition set_sync_status (s : gmap Z (gmap string SyncEntry)) : M unit :=
  fun w => (Ret tt, with_sync_status s w).

(** [for x in xs: body x], threading an accumulator. *)
Fixpoint for_each {A S : Type} (xs : list A) (body : A -> S -> M S) (s : S) : M S :=
  match xs with
  | [] => ret s
  | x :: xs' => s' <- body x s ;; for_each xs' body s'
  end.

(** ** Storage queries shared by the services *)
Module Sql.

(** The value a serial primary key takes in a table none of whose inserts
    has failed: one more than the largest in use.  A failed insert takes a
    value of the sequence with it; what is said of a new row relies on its
    key being fresh. *)
Definition next_id (ids : list Z) : Z := 1 + fold_right Z.max 0 ids.

(** [ORDER BY]: a stable insertion sort; rows that compare equal keep the
    order of the table. *)
Fixpoint insert_by {A : Type} (le : A -> A -> bool) (x : A) (l : list A) : list A :=
  match l with
  | [] => [x]
  | y :: l' => if le x y then x :: l else y :: insert_by le x l'
  end.

Definition sort_by {A : Type} (le : A -> A -> bool) (l : list A) : list A :=
  fold_right (insert_by le) [] l.

(** [LIMIT n]: PostgreSQL rejects a negative count. *)
Definition limit_rows {A : Type} (n : Z) (rows : list A) : Res (list A) :=
  if n <? 0 then Err (mk_exn "DataError" "LIMIT must not be negative")
  else Ok (firstn (Z.to_nat n) rows).

(** [ORDER BY received_at DESC]: PostgreSQL puts NULLs first when descending. *)
Definition received_desc (a b : Email) : bool :=
  match received_at a, received_at b with
  | None, _ => true
  | Some _, None => false
  | Some x, Some y => y <=? x
  end.

End Sql.

(** A comparison that [ORDER BY] can sort by: any two rows compare, and the
    comparison is transitive. *)
Definition total_order {A : Type} (le : A -> A -> bool) : Prop :=
  (forall a b, le a b = true \/ le b a = true) /\
  (forall a b c, le a b = true -> le b c = true -> le a c = true).

(** ** rag_service.py *)
Section RagService.

Variable env : Env.

Definition MAX_CHARS : Z := 20000.

(** The text [get_embedding] submits: cut to its first [MAX_CHARS]
    characters when longer. *)
Definition embedding_input (text : string) : string :=
  if MAX_CHARS <? Z.of_nat (String.length text)
  then Text.take_chars (Z.to_nat MAX_CHARS) text
  else text.

Definition get_embedding (text : string) : M Vec :=
  let text := embedding_input text in
  emit (EvEmbed text) ;;;
  lift (embeddings_create env text).

(** The [or_] of the two [ilike] filters on [from_email]; a NULL sender
    matches nothing. *)
Definition sender_matches (query_lower : string) (e : Email) : bool :=
  match from_email e with
  | None => false
  | Some sender =>
      Text.ilike sender ("%" ++ query_lower ++ "%") ||
      Text.ilike sender ("%" ++ Text.remove_spaces query_lower ++ "%")
  end.

(** The same filter read as plain containment: the sender holds the query,
    or the query without its spaces, whatever the case of the letters. *)
Definition sender_contains (query_lower : string) (e : Email) : bool :=
  match from_email e with
  | None => false
  | Some sender =>
      Text.contains_ci query_lower sender ||
      Text.contains_ci (Text.remove_spaces query_lower) sender
  end.

Definition exact_rows (user_id : Z) (query_lower : string) (d : DB) : list Email :=
  Sql.sort_by Sql.received_desc
    (List.filter (fun e => (email_user_id e =? user_id) && sender_matches query_lower e)
       (emails d)).

(** [o is not None] *)
Definition not_none {A : Type} (o : option A) : bool :=
  match o with Some _ => true | None => false end.

(** [embedding <=> query] of a row that has an embedding. *)
Definition distance (qv : Vec) (o : option Vec) : Q :=
  match o with
  | Some v => cosine_distance env v qv
  | None => 0%Q
  end.

Definition nearer {A : Type} (emb : A -> option Vec) (qv : Vec) (a b : A) : bool :=
  Qle_bool (distance qv (emb a)) (distance qv (emb b)).

Definition ranked_emails (user_id : Z) (qv : Vec) (d : DB) : list Email :=
  Sql.sort_by (nearer email_embedding qv)
    (List.filter (fun e => (email_user_id e =? user_id) && not_none (email_embedding e))
       (emails d)).

Definition ranked_contacts (user_id : Z) (qv : Vec) (d : DB) : list Contact :=
  Sql.sort_by (nearer contact_embedding qv)
    (List.filter (fun c => (contact_user_id c =? user_id) && not_none (contact_embedding c))
       (contacts d)).

(** [{r.id: r for r in rows}]: a later row replaces an earlier one with the
    same key. *)
Definition dict_by_id {A : Type} (id : A -> Z) (rows : list A) : gmap Z A :=
  fold_left (fun m r => <[id r := r]> m) rows ∅.

(** [[d[i] for i in ids if i in d]] *)
Definition in_order {A : Type} (d : gmap Z A) (ids : list Z) : list A :=
  omap (fun i => d !! i) ids.

Definition search_emails (user_id : Z) (query : string) (limit : Z) : M (list Email) :=
  let query_lower := Text.strip (Text.lower query) in
  w <- get_world ;;
  exact_matches <- lift (Sql.limit_rows limit (exact_rows user_id query_lower (db w))) ;;
  match exact_matches with
  | _ :: _ => ret exact_matches
  | [] =>
      query_embedding <- get_embedding query ;;
      w <- get_world ;;
      results <- lift (Sql.limit_rows limit (ranked_emails user_id query_embedding (db w))) ;;
      let email_ids := map email_id results in
      let found := List.filter (fun e => existsb (Z.eqb (email_id e)) email_ids)
                     (emails (db w)) in
      ret (in_order (dict_by_id email_id found) email_ids)
  end.

Definition search_contacts (user_id : Z) (query : string) (limit : Z) : M (list Contact) :=
  query_embedding <- get_embedding query ;;
  w <- get_world ;;
  results <- lift (Sql.limit_rows limit (ranked_contacts user_id query_embedding (db w))) ;;
  let contact_ids := map contact_id results in
  let found := List.filter (fun c => existsb (Z.eqb (contact_id c)) contact_ids)
                 (contacts (db w)) in
  ret (in_order (dict_by_id contact_id found) contact_ids).

(** One block of the context per email; [email.body_text[:500]] raises on a
    NULL body. *)
Definition format_email (e : Email) : M string :=
  match body_text e with
  | None => raise (mk_exn "TypeError" "'NoneType' object is not subscriptable")
  | Some body =>
      ret (Text.nl ++ "From: " ++ Text.fmt_opt (from_email e) ++ Text.nl ++
           "Subject: " ++ Text.fmt_opt (subject e) ++ Text.nl ++
           "Date: " ++ Text.fmt_opt (option_map (str_datetime env) (received_at e)) ++ Text.nl ++
           "Body: " ++ Text.take_chars 500 body ++ "..." ++ Text.nl)
  end.

Definition or_empty (o : option string) : string :=
  match o with Some s => s | None => EmptyString end.

Definition format_contact (c : Contact) : string :=
  let full := Text.strip (or_empty (first_name c) ++ " " ++ or_empty (last_name c)) in
  let name := if Text.truthy full then full else "Unknown" in
  let company_text := if Text.truthy_opt (company c) then or_empty (company c) else "N/A" in
  let notes_text :=
    if Text.truthy_opt (notes c) then Text.take_chars 300 (or_empty (notes c))
    else "No notes" in
  Text.nl ++ "Name: " ++ name ++ Text.nl ++
  "Email: " ++ Text.fmt_opt (contact_email c) ++ Text.nl ++
  "Company: " ++ company_text ++ Text.nl ++
  "Notes: " ++ notes_text ++ "..." ++ Text.nl.

Definition get_relevant_context (user_id : Z) (query : string)
    (email_limit contact_limit : Z) : M string :=
  found_emails <- search_emails user_id query email_limit ;;
  found_contacts <- search_contacts user_id query contact_limit ;;
  email_parts <-
    match found_emails with
    | [] => ret []
    | _ =>
        for_each found_emails
          (fun e parts => block <- format_email e ;; ret (parts ++ [block])%list)
          ["## Relevant Emails:"]
    end ;;
  let contact_parts :=
    match found_contacts with
    | [] => []
    | _ => (Text.nl ++ "## Relevant Contacts:") :: map format_contact found_contacts
    end in
  let context_parts := (email_parts ++ contact_parts)%list in
  match context_parts with
  | [] => ret "No relevant context found."
  | _ => ret (Text.join Text.nl context_parts)
  end.

End RagService.

(** ** ai_agent.py *)
Section AIAgentService.

Variable env : Env.

Definition valid_types : list string := ["email"; "calendar"; "hubspot"; "all"].

Definition detect_prompt (instruction_text : string) : string :=
  Text.join Text.nl
    [ "Analyze this instruction and determine what type of event should trigger it:";
      Text.q instruction_text;
      EmptyString;
      "The instruction should be triggered by:";
      "- " ++ Text.q "email" ++ " if it mentions emails, messages, or receiving communications";
      "- " ++ Text.q "calendar" ++ " if it mentions calendar events, meetings, appointments, or scheduling";
      "- " ++ Text.q "hubspot" ++ " if it mentions HubSpot, contacts, CRM, or creating/updating contacts";
      "- " ++ Text.q "all" ++ " if it applies to multiple types or is general";
      EmptyString;
      "Respond with ONLY one word: email, calendar, hubspot, or all" ].

Definition detect_request (instruction_text : string) : ChatRequest :=
  {| req_messages :=
       [ MsgSystem "You are a helpful assistant that analyzes instructions and determines trigger types. Respond with only one word.";
         MsgUser (detect_prompt instruction_text) ];
     req_tools := false;
     req_temperature := Some (3 # 10)%Q;
     req_max_tokens := Some 10 |}.

(** [detect_trigger_type]: one classification call; whatever goes wrong,
    the answer is [all]. *)
Definition detect_trigger_type (instruction_text : string) : M string :=
  try_except
    (emit (EvChat (detect_request instruction_text)) ;;;
     response <- lift (chat_completions_create env (detect_request instruction_text)) ;;
     match content response with
     | None => raise (mk_exn "AttributeError" "'NoneType' object has no attribute 'strip'")
     | Some text =>
         let trigger := Text.lower (Text.strip text) in
         if existsb (String.eqb trigger) valid_types then ret trigger else ret "all"
     end)
    (fun _ => ret "all").

Record Agent : Type := {
  agent_user : User;
  google_service : option string;
  hubspot_service : option string
}.

(** [AIAgent.__init__]: a service exists when its token is set. *)
Definition AIAgent (user : User) : Agent :=
  {| agent_user := user;
     google_service :=
       if Text.truthy_opt (google_access_token user) then google_access_token user else None;
     hubspot_service :=
       if Text.truthy_opt (hubspot_access_token user) then hubspot_access_token user else None |}.

Definition ok_result (fields : list (string * json)) : json :=
  JObj (("success", JBool true) :: fields).

Definition fail_result (msg : string) : json :=
  JObj [("success", JBool false); ("error", JStr msg)].

Definition call_provider (token : string) (c : ProviderCall) : M json :=
  emit (EvProvider token c) ;;;
  lift (provider env token c).

(** A Python value bound to a text column ([String], [Text]): a text goes
    in as it is, a number or a Boolean as its text, [None] as NULL; a dict
    or a list is refused when the statement is sent. *)
Definition text_column (v : json) : Res (option string) :=
  match v with
  | JStr s => Ok (Some s)
  | JNum n => Ok (Some (pretty n))
  | JBool b => Ok (Some (if b then "true" else "false"))
  | JNull => Ok None
  | JArr _ | JObj _ =>
      Err (mk_exn "ProgrammingError" ("can't adapt type '" ++ Py.type_name v ++ "'"))
  end.

(** [db.add(task); db.commit()]: [task_type] and [description] are text
    columns, [task_type] is NOT NULL; [input_data] is a JSON column. *)
Definition add_task (user : Z) (ttype description input : json) : M Task :=
  type_text <- lift (text_column ttype) ;;
  description_text <- lift (text_column description) ;;
  match type_text with
  | None => raise (mk_exn "IntegrityError" "null value in column task_type")
  | Some stored_type =>
      w <- get_world ;;
      let d := db w in
      let t := {| task_id := Sql.next_id (map task_id (tasks d));
                  task_user_id := user; task_type := JStr stored_type;
                  task_status := "pending";
                  task_description :=
                    match description_text with Some s => JStr s | None => JNull end;
                  input_data := input |} in
      set_db {| users := users d; emails := emails d; contacts := contacts d;
                tasks := (tasks d ++ [t])%list;
                ongoing_instructions := ongoing_instructions d |} ;;;
      ret t
  end.

(** [db.add(ongoing_instruction); db.commit(); db.refresh(...)]:
    [instruction] and [trigger_type] are text columns, [instruction] is
    NOT NULL. *)
Definition add_ongoing_instruction (user : Z) (text trigger : json) : M OngoingInstruction :=
  instruction_text <- lift (text_column text) ;;
  trigger_text <- lift (text_column trigger) ;;
  match instruction_text with
  | None => raise (mk_exn "IntegrityError" "null value in column instruction")
  | Some stored_text =>
      w <- get_world ;;
      let d := db w in
      let i := {| instruction_id := Sql.next_id (map instruction_id (ongoing_instructions d));
                  instruction_user_id := user; instruction := stored_text;
                  trigger_type := trigger_text; is_active := Some true |} in
      set_db {| users := users d; emails := emails d; contacts := contacts d;
                tasks := tasks d;
                ongoing_instructions := (ongoing_instructions d ++ [i])%list |} ;;;
      ret i
  end.

(** The body of the [try] in [_execute_tool]. *)
Definition dispatch (agent : Agent) (name : string) (function_args : json) : M json :=
  if String.eqb name "search_emails_and_contacts" then
    query <- lift (Py.subscript function_args "query") ;;
    match query with
    | JStr query_text =>
        context <- get_relevant_context env (user_id (agent_user agent)) query_text 5 5 ;;
        ret (ok_result [("context", JStr context)])
    | other => raise (mk_exn "AttributeError"
                        ("'" ++ Py.type_name other ++ "' object has no attribute 'lower'"))
    end
  else if String.eqb name "send_email" then
    match google_service agent with
    | None => ret (fail_result "Google not connected")
    | Some token =>
        to <- lift (Py.subscript function_args "to") ;;
        subject_arg <- lift (Py.subscript function_args "subject") ;;
        body <- lift (Py.subscript function_args "body") ;;
        cc <- lift (Py.get function_args "cc") ;;
        result <- call_provider token (SendEmail to subject_arg body cc) ;;
        id <- lift (Py.get result "id") ;;
        ret (ok_result [("message_id", id)])
    end
  else if String.eqb name "create_calendar_event" then
    match google_service agent with
    | None => ret (fail_result "Google not connected")
    | Some token =>
        summary <- lift (Py.subscript function_args "summary") ;;
        start_time <- lift (Py.subscript function_args "start_time") ;;
        end_time <- lift (Py.subscript function_args "end_time") ;;
        attendees <- lift (Py.get function_args "attendees") ;;
        description <- lift (Py.get function_args "description") ;;
        result <- call_provider token
                    (CreateCalendarEvent summary start_time end_time attendees description) ;;
        id <- lift (Py.get result "id") ;;
        ret (ok_result [("event_id", id)])
    end
  else if String.eqb name "search_hubspot_contact" then
    match hubspot_service agent with
    | None => ret (fail_result "HubSpot not connected")
    | Some token =>
        query <- lift (Py.subscript function_args "query") ;;
        results <- call_provider token (SearchContacts query) ;;
        ret (ok_result [("contacts", results)])
    end
  else if String.eqb name "create_hubspot_contact" then
    match hubspot_service agent with
    | None => ret (fail_result "HubSpot not connected")
    | Some token =>
        email <- lift (Py.subscript function_args "email") ;;
        first <- lift (Py.get function_args "first_name") ;;
        last <- lift (Py.get function_args "last_name") ;;
        phone_arg <- lift (Py.get function_args "phone") ;;
        company_arg <- lift (Py.get function_args "company") ;;
        result <- call_provider token (CreateContact email first last phone_arg company_arg) ;;
        ret (ok_result [("contact", result)])
    end
  else if String.eqb name "create_hubspot_note" then
    match hubspot_service agent with
    | None => ret (fail_result "HubSpot not connected")
    | Some token =>
        contact <- lift (Py.subscript function_args "contact_id") ;;
        note <- lift (Py.subscript function_args "note") ;;
        result <- call_provider token (CreateNote contact note) ;;
        ret (ok_result [("note", result)])
    end
  else if String.eqb name "get_calendar_events" then
    match google_service agent with
    | None => ret (fail_result "Google not connected")
    | Some token =>
        time_min <- lift (Py.get function_args "time_min") ;;
        time_max <- lift (Py.get function_args "time_max") ;;
        results <- call_provider token (ListCalendarEvents time_min time_max) ;;
        ret (ok_result [("events", results)])
    end
  else if String.eqb name "create_task" then
    ttype <- lift (Py.subscript function_args "task_type") ;;
    description <- lift (Py.subscript function_args "description") ;;
    input <- lift (Py.subscript function_args "input_data") ;;
    task <- add_task (user_id (agent_user agent)) ttype description input ;;
    ret (ok_result [("task_id", JNum (task_id task))])
  else if String.eqb name "create_ongoing_instruction" then
    instruction_text <- lift (Py.subscript function_args "instruction") ;;
    supplied <- lift (Py.get function_args "trigger_type") ;;
    trigger <-
      (if Py.truthy supplied then ret supplied
       else
         match instruction_text with
         | JStr text => detected <- detect_trigger_type text ;; ret (JStr detected)
         | other => detected <- detect_trigger_type (json_dumps env None other) ;;
                    ret (JStr detected)
         end) ;;
    row <- add_ongoing_instruction (user_id (agent_user agent)) instruction_text trigger ;;
    ret (ok_result [ ("instruction_id", JNum (instruction_id row));
                     ("instruction", JStr (instruction row));
                     ("trigger_type",
                      match trigger_type row with Some t => JStr t | None => JNull end) ])
  else
    ret (fail_result ("Unknown tool: " ++ name)).

(** [_execute_tool]: the arguments are parsed before the [try]; everything
    after it is caught and turned into a failure payload. *)
Definition _execute_tool (agent : Agent) (tool_call : ToolCall) : M json :=
  function_args <- lift (json_loads env (function_arguments tool_call)) ;;
  try_except
    (dispatch agent (function_name tool_call) function_args)
    (fun e => ret (fail_result (exn_msg e))).

Definition active_instructions (user : Z) (d : DB) : list OngoingInstruction :=
  List.filter
    (fun i => (instruction_user_id i =? user) &&
              match is_active i with Some true => true | _ => false end)
    (ongoing_instructions d).

Definition _build_system_prompt (agent : Agent) (now : Z)
    (instructions : list OngoingInstruction) : string :=
  let current_date_str := strftime env "%Y-%m-%d" now in
  let current_time_str := strftime env "%H:%M:%S UTC" now in
  let current_weekday := strftime env "%A" now in
  Text.join Text.nl
    [ "You are an AI assistant for a Financial Advisor. You help manage client relationships by:";
      "- Answering questions about clients using information from emails and HubSpot CRM";
      "- Performing actions like scheduling appointments, sending emails, creating contacts";
      "- Remembering and following ongoing instructions";
      EmptyString;
      "CRITICAL: Today is " ++ current_date_str ++ " (" ++ current_weekday ++ ") at " ++
        current_time_str ++ ". ";
      "When someone mentions relative dates like " ++ Text.q "next Tuesday" ++ ", " ++
        Text.q "tomorrow" ++ ", " ++ Text.q "next week" ++
        ", you MUST calculate the actual date based on today's date (" ++
        current_date_str ++ ").";
      "Always use ISO 8601 format (YYYY-MM-DDTHH:MM:SSZ) for calendar event times.";
      EmptyString;
      "Available integrations:";
      EmptyString ] ++
  (if not_none (google_service agent)
   then "- Gmail: Read and send emails" ++ Text.nl ++
        "- Google Calendar: View and create events" ++ Text.nl
   else EmptyString) ++
  (if not_none (hubspot_service agent)
   then "- HubSpot CRM: Search, create, and manage contacts and notes" ++ Text.nl
   else EmptyString) ++
  (match instructions with
   | [] => EmptyString
   | _ =>
       Text.nl ++ "## Ongoing Instructions (always follow these):" ++ Text.nl ++
       fold_left (fun acc i => acc ++ "- " ++ instruction i ++ Text.nl) instructions EmptyString
   end) ++
  Text.join Text.nl
    [ EmptyString;
      "Be helpful, professional, and proactive. When scheduling appointments, handle the full flow including:";
      "1. Finding the contact";
      "2. Sending email with available times";
      "3. Waiting for response";
      "4. Creating calendar event when confirmed";
      "5. Adding notes to HubSpot";
      EmptyString;
      "Use tool calling to perform actions. Create tasks for multi-step processes that require waiting.";
      EmptyString;
      "When creating calendar events:";
      "- ALWAYS include the attendee's email address in the 'attendees' parameter so they receive an invitation";
      "- If creating an event from an email, use the sender's email address as an attendee";
      "- Calculate dates from relative terms (e.g., " ++ Text.q "next Tuesday" ++ ", " ++
        Text.q "tomorrow" ++ ") based on TODAY's date";
      "- Always use ISO 8601 format: YYYY-MM-DDTHH:MM:SSZ (e.g., 2025-01-20T14:00:00Z)";
      "- Ensure the date is in the future, not in the past";
      "- Double-check your date calculations before creating events";
      EmptyString;
      "If the user asks you to remember something or set up an automation (e.g., " ++
        Text.q "when someone emails me..." ++ ", " ++ Text.q "when I create a contact..." ++
        "), use the create_ongoing_instruction tool to save it. The system will automatically detect the trigger type from the instruction text.";
      EmptyString ].

(** What [chat] returns: [{"response": ..., "error": ...}]. *)
Record ChatResult : Type := {
  response : option string;
  chat_error : option string
}.

(** The loop over [assistant_message.tool_calls]: each result is appended
    to the messages, tagged with the id of its call. *)
Definition run_tool_calls (agent : Agent) (calls : list ToolCall)
    (messages : list Message) : M (list Message) :=
  for_each calls
    (fun tool_call msgs =>
       result <- _execute_tool agent tool_call ;;
       ret (msgs ++ [MsgTool (tool_call_id tool_call) (json_dumps env None result)])%list)
    messages.

Definition first_request (messages : list Message) : ChatRequest :=
  {| req_messages := messages; req_tools := true;
     req_temperature := None; req_max_tokens := None |}.

Definition final_request (messages : list Message) : ChatRequest :=
  {| req_messages := messages; req_tools := false;
     req_temperature := None; req_max_tokens := None |}.

(** The body of the [try] in [chat]. *)
Definition chat_body (agent : Agent) (messages : list Message) : M ChatResult :=
  emit (EvChat (first_request messages)) ;;;
  assistant_message <- lift (chat_completions_create env (first_request messages)) ;;
  let messages := (messages ++ [MsgAssistant assistant_message])%list in
  match tool_calls assistant_message with
  | [] => ret {| response := content assistant_message; chat_error := None |}
  | calls =>
      messages <- run_tool_calls agent calls messages ;;
      emit (EvChat (final_request messages)) ;;;
      final_response <- lift (chat_completions_create env (final_request messages)) ;;
      ret {| response := content final_response; chat_error := None |}
  end.

(** The messages [chat] starts from: the system prompt with the user's
    active instructions, the history, the new message. *)
Definition chat_messages (agent : Agent) (message : string)
    (conversation_history : list (string * string)) (w : World) : list Message :=
  let instructions := active_instructions (user_id (agent_user agent)) (db w) in
  let system_prompt := _build_system_prompt agent (clock w) instructions in
  (MsgSystem system_prompt ::
   map (fun h => MsgHistory (fst h) (snd h)) conversation_history ++
   [MsgUser message])%list.

Definition error_result (e : Exn) : ChatResult :=
  {| response := None;
     chat_error := Some ("Error processing message: " ++ exn_msg e) |}.

Definition chat (agent : Agent) (message : string)
    (conversation_history : list (string * string)) : M ChatResult :=
  w <- get_world ;;
  try_except
    (chat_body agent (chat_messages agent message conversation_history w))
    (fun e => ret (error_result e)).

(** The filter of [process_ongoing_instructions]: the user's active
    instructions typed for this trigger or for [all]. *)
Definition triggered_instructions (user : Z) (trigger : string) (d : DB)
    : list OngoingInstruction :=
  List.filter
    (fun i => (instruction_user_id i =? user) &&
              match is_active i with Some true => true | _ => false end &&
              match trigger_type i with
              | Some t => String.eqb t trigger || String.eqb t "all"
              | None => false
              end)
    (ongoing_instructions d).

Definition trigger_prompt (now : Z) (trigger : string) (trigger_data : json)
    (instructions : list OngoingInstruction) : string :=
  let current_date_str := strftime env "%Y-%m-%d" now in
  let current_time_str := strftime env "%H:%M:%S UTC" now in
  let current_weekday := strftime env "%A" now in
  "CRITICAL: Today is " ++ current_date_str ++ " (" ++ current_weekday ++ ") at " ++
    current_time_str ++ "." ++ Text.nl ++
  Text.nl ++
  "A " ++ trigger ++ " event occurred:" ++ Text.nl ++
  json_dumps env (Some 2) trigger_data ++ Text.nl ++
  Text.nl ++
  "You have these ongoing instructions:" ++ Text.nl ++
  fold_left (fun acc i => acc ++ "- " ++ instruction i ++ Text.nl) instructions EmptyString ++
  Text.nl ++ "Should you take any action? Use tools if needed." ++
  Text.nl ++ Text.nl ++
  "IMPORTANT: When calculating dates from relative terms (e.g., 'next Tuesday', 'tomorrow', 'next week'), use TODAY's date (" ++
    current_date_str ++
    ") to determine the actual future date. Always use ISO 8601 format (YYYY-MM-DDTHH:MM:SSZ) for calendar events. Ensure dates are in the future, not the past." ++
  Text.nl ++ Text.nl ++
  "CRITICAL: When creating calendar events, ALWAYS include the attendee's email address in the 'attendees' parameter. If this event was triggered by an email, use the sender's email address (from the 'from' field in the event data above) as an attendee so they receive an invitation.".

Definition process_ongoing_instructions (agent : Agent) (trigger : string)
    (trigger_data : json) : M (option string) :=
  w <- get_world ;;
  match triggered_instructions (user_id (agent_user agent)) trigger (db w) with
  | [] => ret None
  | instructions =>
      result <- chat agent (trigger_prompt (clock w) trigger trigger_data instructions) [] ;;
      ret (response result)
  end.

End AIAgentService.

(** ** routers/integrations.py *)
Section Integrations.

Variable env : Env.

(** *** The [sync_status] dictionary *)

(** [user_id in sync_status and
     sync_status[user_id].get(source, {}).get("syncing", False)] *)
Definition is_syncing (ss : gmap Z (gmap string SyncEntry)) (user : Z) (source : string) : bool :=
  match ss !! user with
  | Some sources =>
      match sources !! source with
      | Some entry => syncing entry
      | None => false
      end
  | None => false
  end.

Definition sync_entry (ss : gmap Z (gmap string SyncEntry)) (user : Z) (source : string)
    : option SyncEntry :=
  match ss !! user with
  | Some sources => sources !! source
  | None => None
  end.

(** The entry the endpoint writes. *)
Definition started_entry (now : Z) : SyncEntry :=
  {| syncing := true; started_at := isoformat env now;
     completed_at := None; imported_count := None; error := None |}.

(** The endpoint's "mark sync as in progress": the entry is replaced by a
    fresh one, whatever it held. *)
Definition mark_started (user : Z) (source : string) : M unit :=
  w <- get_world ;;
  let ss := sync_status w in
  let sources := match ss !! user with Some m => m | None => ∅ end in
  set_sync_status (<[user := <[source := started_entry (clock w)]> sources]> ss).

(** The entry of a run that came to its end, and of one that failed. *)
Definition completed_entry (now : Z) (count : Z) (entry : SyncEntry) : SyncEntry :=
  {| syncing := false; started_at := started_at entry;
     completed_at := Some (isoformat env now);
     imported_count := Some count; error := error entry |}.

Definition failed_entry (now : Z) (e : Exn) (entry : SyncEntry) : SyncEntry :=
  {| syncing := false; started_at := started_at entry;
     completed_at := Some (isoformat env now);
     imported_count := imported_count entry; error := Some (exn_msg e) |}.

(** "Mark sync as completed", only when the entry is there. *)
Definition mark_completed (user : Z) (source : string) (count : Z) : M unit :=
  w <- get_world ;;
  let ss := sync_status w in
  match ss !! user with
  | Some sources =>
      match sources !! source with
      | Some entry =>
          set_sync_status
            (<[user := <[source := completed_entry (clock w) count entry]> sources]> ss)
      | None => ret tt
      end
  | None => ret tt
  end.

(** "Mark sync as failed", only when the entry is there. *)
Definition mark_failed (user : Z) (source : string) (e : Exn) : M unit :=
  w <- get_world ;;
  let ss := sync_status w in
  match ss !! user with
  | Some sources =>
      match sources !! source with
      | Some entry =>
          set_sync_status
            (<[user := <[source := failed_entry (clock w) e entry]> sources]> ss)
      | None => ret tt
      end
  | None => ret tt
  end.

(** *** Storage of emails *)

(** [db.query(User).filter(User.id == user_id).first()] *)
Definition find_user (user : Z) (d : DB) : option User :=
  find (fun u => user_id u =? user) (users d).

(** [db.query(Email).filter(Email.user_id == user_id,
                            Email.gmail_id == gmail_id).first()] *)
Definition find_email (user : Z) (gid : string) (d : DB) : option Email :=
  find (fun e => (email_user_id e =? user) && String.eqb (gmail_id e) gid) (emails d).

(** What PostgreSQL raises when a unique index is violated. *)
Definition gmail_id_taken : Exn :=
  mk_exn "IntegrityError" "duplicate key value violates unique constraint ix_emails_gmail_id".

Definition hubspot_id_taken : Exn :=
  mk_exn "IntegrityError"
    "duplicate key value violates unique constraint ix_contacts_hubspot_id".

(** [db.add(email_obj); db.commit(); db.refresh(email_obj)]: [gmail_id] is
    declared [unique=True], over the whole table. *)
Definition add_email (user : Z) (gid : string) (parsed : ParsedEmail) : M Email :=
  w <- get_world ;;
  let d := db w in
  if existsb (fun e => String.eqb (gmail_id e) gid) (emails d) then
    raise gmail_id_taken
  else
    let row := {| email_id := Sql.next_id (map email_id (emails d));
                  email_user_id := user; gmail_id := gid;
                  thread_id := p_thread_id parsed;
                  subject := Some (p_subject parsed);
                  from_email := Some (p_from_email parsed);
                  to_emails := p_to_emails parsed;
                  cc_emails := p_cc_emails parsed;
                  body_text := Some (p_body_text parsed);
                  body_html := Some (p_body_html parsed);
                  received_at := p_received_at parsed;
                  email_embedding := None |} in
    set_db {| users := users d; emails := (emails d ++ [row])%list;
              contacts := contacts d; tasks := tasks d;
              ongoing_instructions := ongoing_instructions d |} ;;;
    ret row.

Definition with_email_embedding (v : Vec) (e : Email) : Email :=
  {| email_id := email_id e; email_user_id := email_user_id e; gmail_id := gmail_id e;
     thread_id := thread_id e; subject := subject e; from_email := from_email e;
     to_emails := to_emails e; cc_emails := cc_emails e; body_text := body_text e;
     body_html := body_html e; received_at := received_at e;
     email_embedding := Some v |}.

(** [email_obj.embedding = embedding; db.commit()] *)
Definition set_email_embedding (id : Z) (v : Vec) : M unit :=
  w <- get_world ;;
  let d := db w in
  set_db {| users := users d;
            emails := map (fun e => if email_id e =? id then with_email_embedding v e else e)
                        (emails d);
            contacts := contacts d; tasks := tasks d;
            ongoing_instructions := ongoing_instructions d |}.

Definition fetch_email (token gid : string) : M ParsedEmail :=
  emit (EvGetEmail token gid) ;;;
  lift (gmail_get_email env token gid).

(** What both Gmail loops do with a fetched message that is to be kept:
    persist it, embed it unless its text is blank, then hand it to the
    ongoing instructions. *)
Definition store_email (user : User) (gid : string) (parsed : ParsedEmail) : M unit :=
  email_obj <- add_email (user_id user) gid parsed ;;
  let text_content := p_subject parsed ++ " " ++ p_body_text parsed in
  (if Text.truthy (Text.strip text_content)
   then embedding <- get_embedding env text_content ;;
        set_email_embedding (email_id email_obj) embedding
   else ret tt) ;;;
  process_ongoing_instructions env (AIAgent user) "email"
    (JObj [ ("email_id", JStr gid);
            ("from", JStr (p_from_email parsed));
            ("subject", JStr (p_subject parsed));
            ("body", JStr (p_body_text parsed)) ]) ;;;
  ret tt.

(** *** Full sync of Gmail *)

(** The body of [for msg in messages] in [sync_gmail_background]. *)
Definition import_message (user : User) (token gid : string) (imported : Z) : M Z :=
  w <- get_world ;;
  match find_email (user_id user) gid (db w) with
  | Some _ => ret imported
  | None =>
      parsed <- fetch_email token gid ;;
      store_email user gid parsed ;;;
      ret (imported + 1)
  end.

(** The [while True] over the pages. *)
Fixpoint gmail_pages (fuel : nat) (user : User) (token : string)
    (page_token : option string) (imported : Z) : M Z :=
  match fuel with
  | O => diverge
  | S fuel' =>
      emit (EvListEmails token page_token None) ;;;
      result <- lift (gmail_list_emails env token page_token None) ;;
      imported' <- for_each (page_messages result) (import_message user token) imported ;;
      if Text.truthy_opt (next_page_token result)
      then gmail_pages fuel' user token (next_page_token result) imported'
      else ret imported'
  end.

Definition sync_gmail_background (fuel : nat) (user : Z) : M unit :=
  w <- get_world ;;
  match find_user user (db w) with
  | None => ret tt
  | Some u =>
      if negb (Text.truthy_opt (google_access_token u)) then ret tt
      else
        try_except
          (imported <- gmail_pages fuel u (or_empty (google_access_token u)) None 0 ;;
           mark_completed user "gmail" imported)
          (fun e => mark_failed user "gmail" e)
  end.

(** The endpoint [POST /sync/gmail], for an authenticated user: it answers
    and leaves the background task to be run. *)
Definition sync_gmail (user : User) : M string :=
  if negb (Text.truthy_opt (google_access_token user)) then
    raise (mk_exn "HTTPException" "Google not connected")
  else
    mark_started (user_id user) "gmail" ;;;
    ret "Gmail sync started".

(** The request as a whole: the endpoint, then its background task. *)
Definition post_sync_gmail (fuel : nat) (user : User) : M string :=
  message <- sync_gmail user ;;
  sync_gmail_background fuel (user_id user) ;;;
  ret message.

(** *** Full sync of HubSpot

    The session is created with [autoflush=False]: a change made to a loaded
    contact stays in the session until the next [db.commit()], and is lost
    when the session is closed without one.  [dirty] holds those changed
    objects by primary key. *)

(** [properties.get(k)]: the value, [None] when the key is absent or null. *)
Definition prop (k : string) (props : list (string * option string)) : option string :=
  match Py.assoc k props with
  | Some v => v
  | None => None
  end.

(** [properties.get(k, '')] inside an f-string. *)
Definition prop_text (k : string) (props : list (string * option string)) : string :=
  match Py.assoc k props with
  | Some v => Text.fmt_opt v
  | None => EmptyString
  end.

(** [db.query(Contact).filter(Contact.user_id == user_id,
                              Contact.hubspot_id == hubspot_id).first()] *)
Definition find_contact (user : Z) (hid : string) (d : DB) : option Contact :=
  find (fun c => (contact_user_id c =? user) && String.eqb (hubspot_id c) hid) (contacts d).

(** "Update existing": the assignments to the loaded object. *)
Definition update_contact (data : ContactData) (c : Contact) : Contact :=
  {| contact_id := contact_id c; contact_user_id := contact_user_id c;
     hubspot_id := hubspot_id c;
     contact_email := prop "email" (cd_properties data);
     first_name := prop "firstname" (cd_properties data);
     last_name := prop "lastname" (cd_properties data);
     phone := prop "phone" (cd_properties data);
     company := prop "company" (cd_properties data);
     notes := notes c; raw_data := cd_raw data;
     contact_embedding := contact_embedding c |}.

Definition with_contact_embedding (v : Vec) (c : Contact) : Contact :=
  {| contact_id := contact_id c; contact_user_id := contact_user_id c;
     hubspot_id := hubspot_id c; contact_email := contact_email c;
     first_name := first_name c; last_name := last_name c; phone := phone c;
     company := company c; notes := notes c; raw_data := raw_data c;
     contact_embedding := Some v |}.

(** The flush of the changed objects into the table. *)
Definition flush (dirty : gmap Z Contact) (rows : list Contact) : list Contact :=
  map (fun c => match dirty !! contact_id c with Some c' => c' | None => c end) rows.

(** [db.add(contact_obj); db.commit(); db.refresh(contact_obj)]: the commit
    writes the pending changes together with the new row; [hubspot_id] is
    declared [unique=True], over the whole table, and a violation undoes the
    whole transaction. *)
Definition add_contact (dirty : gmap Z Contact) (user : Z) (data : ContactData)
    (notes_text : string) : M Contact :=
  w <- get_world ;;
  let d := db w in
  if existsb (fun c => String.eqb (hubspot_id c) (cd_id data)) (contacts d) then
    raise hubspot_id_taken
  else
    let row := {| contact_id := Sql.next_id (map contact_id (contacts d));
                  contact_user_id := user; hubspot_id := cd_id data;
                  contact_email := prop "email" (cd_properties data);
                  first_name := prop "firstname" (cd_properties data);
                  last_name := prop "lastname" (cd_properties data);
                  phone := prop "phone" (cd_properties data);
                  company := prop "company" (cd_properties data);
                  notes := Some notes_text; raw_data := cd_raw data;
                  contact_embedding := None |} in
    set_db {| users := users d; emails := emails d;
              contacts := (flush dirty (contacts d) ++ [row])%list;
              tasks := tasks d; ongoing_instructions := ongoing_instructions d |} ;;;
    ret row.

(** [contact_obj.embedding = embedding; db.commit()] *)
Definition set_contact_embedding (id : Z) (v : Vec) : M unit :=
  w <- get_world ;;
  let d := db w in
  set_db {| users := users d; emails := emails d;
            contacts := map (fun c => if contact_id c =? id
                                      then with_contact_embedding v c else c)
                          (contacts d);
            tasks := tasks d; ongoing_instructions := ongoing_instructions d |}.

(** [sep.join(notes)] over the note bodies: a null body is a [TypeError]. *)
Fixpoint join_notes (bodies : list (option string)) : Res (list string) :=
  match bodies with
  | [] => Ok []
  | None :: _ => Err (mk_exn "TypeError" "sequence item: expected str instance, NoneType found")
  | Some b :: rest =>
      match join_notes rest with
      | Ok l => Ok (b :: l)
      | Err e => Err e
      end
  end.

(** The body of [for contact_data in contacts]; the state is the imported
    counter and the session's changed objects. *)
Definition import_contact (user : Z) (token : string) (data : ContactData)
    (st : Z * gmap Z Contact) : M (Z * gmap Z Contact) :=
  let '(imported, dirty) := st in
  w <- get_world ;;
  match find_contact user (cd_id data) (db w) with
  | Some row =>
      let loaded := match dirty !! contact_id row with Some c => c | None => row end in
      ret (imported, <[contact_id row := update_contact data loaded]> dirty)
  | None =>
      emit (EvGetContactNotes token (cd_id data)) ;;;
      notes_data <- lift (hubspot_get_contact_notes env token (cd_id data)) ;;
      bodies <- lift (join_notes notes_data) ;;
      let notes_text := Text.join Text.nl bodies in
      contact_obj <- add_contact dirty user data notes_text ;;
      let text_content :=
        prop_text "firstname" (cd_properties data) ++ " " ++
        prop_text "lastname" (cd_properties data) ++ " " ++
        prop_text "email" (cd_properties data) ++ " " ++ notes_text in
      (if Text.truthy (Text.strip text_content)
       then embedding <- get_embedding env text_content ;;
            set_contact_embedding (contact_id contact_obj) embedding
       else ret tt) ;;;
      ret (imported + 1, ∅)
  end.

Fixpoint hubspot_pages (fuel : nat) (user : Z) (token : string)
    (after : option string) (st : Z * gmap Z Contact) : M (Z * gmap Z Contact) :=
  match fuel with
  | O => diverge
  | S fuel' =>
      emit (EvListContacts token after) ;;;
      result <- lift (hubspot_list_all_contacts env token after) ;;
      st' <- for_each (page_results result) (import_contact user token) st ;;
      if Text.truthy_opt (paging_next_after result)
      then hubspot_pages fuel' user token (paging_next_after result) st'
      else ret st'
  end.

Definition sync_hubspot_background (fuel : nat) (user : Z) : M unit :=
  w <- get_world ;;
  match find_user user (db w) with
  | None => ret tt
  | Some u =>
      if negb (Text.truthy_opt (hubspot_access_token u)) then ret tt
      else
        try_except
          (st <- hubspot_pages fuel user (or_empty (hubspot_access_token u)) None (0, ∅) ;;
           mark_completed user "hubspot" (fst st))
          (fun e => mark_failed user "hubspot" e)
  end.

(** The endpoint [POST /sync/hubspot], for an authenticated user. *)
Definition sync_hubspot (user : User) : M string :=
  if negb (Text.truthy_opt (hubspot_access_token user)) then
    raise (mk_exn "HTTPException" "HubSpot not connected")
  else
    mark_started (user_id user) "hubspot" ;;;
    ret "HubSpot sync started".

Definition post_sync_hubspot (fuel : nat) (user : User) : M string :=
  message <- sync_hubspot user ;;
  sync_hubspot_background fuel (user_id user) ;;;
  ret message.

(** *** The incremental poll of Gmail *)

(** The body of [for msg in messages] in [poll_new_emails]: as in the full
    sync, but a message whose received date reads as older than the cutoff is
    left out. *)
Definition poll_message (user : User) (token : string) (cutoff_time : Z)
    (gid : string) (imported : Z) : M Z :=
  w <- get_world ;;
  match find_email (user_id user) gid (db w) with
  | Some _ => ret imported
  | None =>
      parsed <- fetch_email token gid ;;
      let too_old :=
        match p_received_at parsed with
        | Some t =>
            match dateutil_naive env t with
            | Some received => received <? cutoff_time
            | None => false
            end
        | None => false
        end in
      if too_old then ret imported
      else
        store_email user gid parsed ;;;
        ret (imported + 1)
  end.

Fixpoint poll_pages (fuel : nat) (user : User) (token : string) (cutoff_time : Z)
    (query : string) (page_token : option string) (imported : Z) : M Z :=
  match fuel with
  | O => diverge
  | S fuel' =>
      emit (EvListEmails token page_token (Some query)) ;;;
      result <- lift (gmail_list_emails env token page_token (Some query)) ;;
      match page_messages result with
      | [] => ret imported
      | messages =>
          imported' <- for_each messages (poll_message user token cutoff_time) imported ;;
          if Text.truthy_opt (next_page_token result)
          then poll_pages fuel' user token cutoff_time query (next_page_token result) imported'
          else ret imported'
      end
  end.

Definition poll_new_emails (fuel : nat) (user : Z) : M unit :=
  try_except
    (w <- get_world ;;
     match find_user user (db w) with
     | None => ret tt
     | Some u =>
         if negb (Text.truthy_opt (google_access_token u)) then ret tt
         else if is_syncing (sync_status w) user "gmail" then ret tt
         else
           let cutoff_time := clock w - 600 in
           let query := "after:" ++ pretty (naive_timestamp env cutoff_time) in
           poll_pages fuel u (or_empty (google_access_token u)) cutoff_time query None 0 ;;;
           ret tt
     end)
    (fun _ => ret tt).

(** One pass of the timer: every user with a Google token is polled. *)
Definition scheduled_email_polling (fuel : nat) : M unit :=
  try_except
    (w <- get_world ;;
     for_each (List.filter (fun u => not_none (google_access_token u)) (users (db w)))
       (fun u _ => poll_new_emails fuel (user_id u)) tt)
    (fun _ => ret tt).
End Integrations.

(** ** A small concrete outside and a few worlds, for running the code *)
Module Demo.

Definition advisor : User :=
  {| user_id := 1; google_access_token := Some "g-token-1";
     hubspot_access_token := Some "h-token-1" |}.

Definition colleague : User :=
  {| user_id := 2; google_access_token := Some "g-token-2";
     hubspot_access_token := Some "h-token-2" |}.

Definition mail (id user : Z) (gid sender subj : string) (received : Z)
    (emb : option Vec) : Email :=
  {| email_id := id; email_user_id := user; gmail_id := gid; thread_id := None;
     subject := Some subj; from_email := Some sender; to_emails := []; cc_emails := [];
     body_text := Some "Hello"; body_html := Some EmptyString;
     received_at := Some received; email_embedding := emb |}.

Definition parsed (sender subj : string) (received : Z) : ParsedEmail :=
  {| p_thread_id := None; p_subject := subj; p_from_email := sender;
     p_to_emails := []; p_cc_emails := []; p_body_text := "Hello";
     p_body_html := EmptyString; p_received_at := Some received |}.

Definition person (hid : string) (mail_address : option string) : ContactData :=
  {| cd_id := hid;
     cd_properties := [("email", mail_address); ("firstname", Some "Pat")];
     cd_raw := JObj [("id", JStr hid)] |}.

(** An outside built around a model and a JSON parser: an embedding is the
    length of the text; the distance of a row is the first component of its
    vector; the mailbox holds three messages on two pages; the CRM holds two
    contacts. *)
Definition make (model : ChatRequest -> Res AssistantMessage)
    (loads : string -> Res json) : Env :=
  {| embeddings_create := fun text => Ok [Z.of_nat (String.length text) # 1];
     chat_completions_create := model;
     cosine_distance := fun v _ => match v with x :: _ => x | [] => 1%Q end;
     json_loads := loads;
     json_dumps := fun _ _ => "{}";
     gmail_list_emails :=
       fun _ page _ =>
         match page with
         | None => Ok {| page_messages := ["m1"; "m2"]; next_page_token := Some "p2" |}
         | Some _ => Ok {| page_messages := ["m3"]; next_page_token := None |}
         end;
     gmail_get_email := fun _ gid => Ok (parsed "alice@x.com" ("Re: " ++ gid) 100);
     hubspot_list_all_contacts :=
       fun _ _ => Ok {| page_results := [person "h1" (Some "new@x.com"); person "h2" None];
                        paging_next_after := None |};
     hubspot_get_contact_notes := fun _ _ => Ok [Some "met in May"];
     provider := fun _ _ => Ok (JObj [("id", JStr "r1")]);
     isoformat := fun t => "T" ++ pretty t;
     strftime := fun _ t => pretty t;
     str_datetime := fun t => pretty t;
     dateutil_naive := fun t => Some t;
     naive_timestamp := fun t => t |}.

Definition no_json (_ : string) : Res json :=
  Err (mk_exn "JSONDecodeError" "Expecting value").

(** The model answers in plain text and asks for no tool. *)
Definition env : Env :=
  make (fun _ => Ok {| content := Some "Nothing to do."; tool_calls := [] |}) no_json.

Definition tool (id name arguments : string) : ToolCall :=
  {| tool_call_id := id; function_name := name; function_arguments := arguments |}.

(** A model that asks for three tools; the arguments of the second are cut
    short. *)
Definition careless_model (req : ChatRequest) : Res AssistantMessage :=
  if req_tools req then
    Ok {| content := None;
          tool_calls := [ tool "c1" "get_calendar_events" "{}";
                          tool "c2" "send_email" "{to: ";
                          tool "c3" "get_calendar_events" "{}" ] |}
  else Ok {| content := Some "Done."; tool_calls := [] |}.

Definition loads_braces (s : string) : Res json :=
  if String.eqb s "{}" then Ok (JObj [])
  else Err (mk_exn "JSONDecodeError" "Expecting property name enclosed in double quotes").

Definition careless : Env := make careless_model loads_braces.

(** A model that classifies every instruction as [ HubSpot ], and a parser
    that reads the arguments of the instruction tool. *)
Definition crm_text : string := "whenever I get a CRM contact update, notify me".

Definition classifying : Env :=
  make (fun _ => Ok {| content := Some " HubSpot "; tool_calls := [] |})
       (fun _ => Ok (JObj [("instruction", JStr crm_text)])).

Definition world_of (d : DB) : World :=
  {| db := d; sync_status := ∅; clock := 1000; trace := [] |}.

(** One communication from [alice@x.com] with subject [Re: meeting]. *)
Definition inbox : World :=
  world_of {| users := [advisor];
              emails := [mail 1 1 "g1" "alice@x.com" "Re: meeting" 50 (Some [(1 # 2)%Q])];
              contacts := []; tasks := []; ongoing_instructions := [] |}.

(** A mailbox of two users, with and without embeddings. *)
Definition mailbox : World :=
  world_of {| users := [advisor; colleague];
              emails := [ mail 1 1 "a1" "Alice <alice@x.com>" "Lunch" 200 (Some [(3 # 10)%Q]);
                          mail 2 1 "b1" "bob@y.org" "Invoice" 100 (Some [(1 # 10)%Q]);
                          mail 3 2 "c1" "alice@z.net" "Other" 300 (Some [(2 # 10)%Q]);
                          mail 4 1 "a2" "ALICE@x.com" "Later" 300 None ];
              contacts := []; tasks := []; ongoing_instructions := [] |}.

(** The same outside with another embedding provider and another distance. *)
Definition with_vectors (create : string -> Res Vec) (dist : Vec -> Vec -> Q) (e : Env)
    : Env :=
  {| embeddings_create := create;
     chat_completions_create := chat_completions_create e;
     cosine_distance := dist;
     json_loads := json_loads e;
     json_dumps := json_dumps e;
     gmail_list_emails := gmail_list_emails e;
     gmail_get_email := gmail_get_email e;
     hubspot_list_all_contacts := hubspot_list_all_contacts e;
     hubspot_get_contact_notes := hubspot_get_contact_notes e;
     provider := provider e;
     isoformat := isoformat e;
     strftime := strftime e;
     str_datetime := str_datetime e;
     dateutil_naive := dateutil_naive e;
     naive_timestamp := naive_timestamp e |}.

Fixpoint dot (a b : Vec) : Q :=
  match a, b with
  | x :: a', y :: b' => (x * y + dot a' b')%Q
  | _, _ => 0%Q
  end.

(** Every text is embedded as the unit vector (3/5, 4/5); the distance is
    the cosine distance of unit vectors, one minus their product. *)
Definition unit_vectors : Env :=
  with_vectors (fun _ => Ok [(3 # 5)%Q; (4 # 5)%Q]) (fun v q => (1 - dot v q)%Q)
    (make (fun _ => Err (mk_exn "RateLimitError" "429 Too Many Requests")) no_json).

(** Two messages of the first user, embedded along the two axes, and one of
    the second user. *)
Definition compass : World :=
  world_of {| users := [advisor; colleague];
              emails := [ mail 1 1 "a1" "Alice <alice@x.com>" "Lunch" 200
                            (Some [1%Q; 0%Q]);
                          mail 2 1 "b1" "bob@y.org" "Invoice" 100 (Some [0%Q; 1%Q]);
                          mail 3 2 "c1" "alice@z.net" "Other" 300 (Some [0%Q; 1%Q]);
                          mail 4 1 "a2" "ALICE@x.com" "Later" 300 None ];
              contacts := []; tasks := []; ongoing_instructions := [] |}.

(** The same outside with another Gmail. *)
Definition with_gmail
    (list : string -> option string -> option string -> Res EmailPage)
    (get : string -> string -> Res ParsedEmail) (e : Env) : Env :=
  {| embeddings_create := embeddings_create e;
     chat_completions_create := chat_completions_create e;
     cosine_distance := cosine_distance e;
     json_loads := json_loads e;
     json_dumps := json_dumps e;
     gmail_list_emails := list;
     gmail_get_email := get;
     hubspot_list_all_contacts := hubspot_list_all_contacts e;
     hubspot_get_contact_notes := hubspot_get_contact_notes e;
     provider := provider e;
     isoformat := isoformat e;
     strftime := strftime e;
     str_datetime := str_datetime e;
     dateutil_naive := dateutil_naive e;
     naive_timestamp := naive_timestamp e |}.

Definition unavailable : Exn := mk_exn "HTTPStatusError" "503 Service Unavailable".

(** Gmail cannot be reached. *)
Definition offline : Env :=
  with_gmail (fun _ _ _ => Err unavailable) (fun _ _ => Err unavailable) env.

(** The second message cannot be fetched. *)
Definition flaky : Env :=
  with_gmail (gmail_list_emails env)
    (fun token gid => if String.eqb gid "m2" then Err unavailable
                      else gmail_get_email env token gid)
    env.

(** Two users and empty tables. *)
Definition fresh : World :=
  world_of {| users := [advisor; colleague]; emails := []; contacts := [];
              tasks := []; ongoing_instructions := [] |}.

Definition entry (flag : bool) : SyncEntry :=
  {| syncing := flag; started_at := "T0"; completed_at := None;
     imported_count := None; error := None |}.

(** A full Gmail sync of the advisor is marked as running, or as over. *)
Definition busy : World := with_sync_status {[ 1 := {[ "gmail" := entry true ]} ]} fresh.

Definition idle : World := with_sync_status {[ 1 := {[ "gmail" := entry false ]} ]} fresh.

(** The colleague has already imported the message [m1]. *)
Definition shared : World :=
  world_of {| users := [advisor; colleague];
              emails := [mail 1 2 "m1" "carol@x.com" "Hi" 10 None];
              contacts := []; tasks := []; ongoing_instructions := [] |}.

(** The colleague has already imported the message [m3] of the second page
    and the contact [h2]. *)
Definition taken : World :=
  with_sync_status {[ 1 := {[ "gmail" := entry true; "hubspot" := entry true ]} ]}
    (world_of {| users := [advisor; colleague];
                 emails := [mail 1 2 "m3" "carol@x.com" "Hi" 10 None];
                 contacts := [ {| contact_id := 1; contact_user_id := 2; hubspot_id := "h2";
                                  contact_email := None; first_name := Some "Sam";
                                  last_name := None; phone := None; company := None;
                                  notes := Some EmptyString; raw_data := JNull;
                                  contact_embedding := None |} ];
                 tasks := []; ongoing_instructions := [] |}).

(** The advisor's copy of the contact [h1] holds an old address. *)
Definition old_contact : Contact :=
  {| contact_id := 1; contact_user_id := 1; hubspot_id := "h1";
     contact_email := Some "old@x.com"; first_name := Some "Pat"; last_name := None;
     phone := None; company := None; notes := Some EmptyString; raw_data := JNull;
     contact_embedding := None |}.

Definition crm : World :=
  world_of {| users := [advisor; colleague]; emails := []; contacts := [old_contact];
              tasks := []; ongoing_instructions := [] |}.

(** The model cannot be reached. *)
Definition rate_limited : Exn := mk_exn "RateLimitError" "429 Too Many Requests".

Definition silent : Env := make (fun _ => Err rate_limited) no_json.

Definition rule (id user : Z) (text : string) (trigger : option string)
    (active : option bool) : OngoingInstruction :=
  {| instruction_id := id; instruction_user_id := user; instruction := text;
     trigger_type := trigger; is_active := active |}.

(** The advisor's instructions: one for the calendar, one for every source,
    one for emails that is switched off; and one of the colleague. *)
Definition rules : World :=
  world_of {| users := [advisor; colleague]; emails := []; contacts := []; tasks := [];
              ongoing_instructions :=
                [ rule 1 1 "Remind me the day before a meeting" (Some "calendar") (Some true);
                  rule 2 1 "Log everything in the CRM" (Some "all") (Some true);
                  rule 3 1 "Answer booking requests" (Some "email") (Some false);
                  rule 4 2 "Forward invoices" (Some "email") (Some true) ] |}.

(** Only calendar instructions. *)
Definition calendar_only : World :=
  world_of {| users := [advisor]; emails := []; contacts := []; tasks := [];
              ongoing_instructions :=
                [ rule 1 1 "Remind me the day before a meeting" (Some "calendar") (Some true) ] |}.

End Demo.

(** ** What a piece of code may change

    [evolves w w']: the world [w'] comes from [w] by calls to the outside
    (the trace only grows), by new tasks and instructions, by changes to the
    contacts, by new emails appended to the table and by changes to emails
    that keep their user and Gmail id.  Users, [sync_status] and the clock
    are as in [w]. *)
Definition email_key (e : Email) : Z * string := (email_user_id e, gmail_id e).

Definition contact_key (c : Contact) : Z * string := (contact_user_id c, hubspot_id c).

Record evolves (w w' : World) : Prop := {
  ev_sync : sync_status w' = sync_status w;
  ev_clock : clock w' = clock w;
  ev_users : users (db w') = users (db w);
  ev_emails : exists new,
      map email_key (emails (db w')) = (map email_key (emails (db w)) ++ new)%list;
  ev_trace : exists evs, trace w' = (trace w ++ evs)%list
}.

Definition preserves {A : Type} (m : M A) : Prop :=
  forall w, evolves w (snd (m w)).

(** [terminates m]: [m] returns or raises; no loop of it can run on. *)
Definition terminates {A : Type} (m : M A) : Prop :=
  forall w, fst (m w) <> Diverge.

(** What the classification of [detect_trigger_type] comes to, as a function
    of the model's answer: the normalised answer when it is one of the four
    trigger types, [all] otherwise. *)
Definition detect_result (env : Env) (instruction_text : string) : string :=
  match chat_completions_create env (detect_request instruction_text) with
  | Ok answer =>
      match content answer with
      | Some text =>
          let trigger := Text.lower (Text.strip text) in
          if existsb (String.eqb trigger) valid_types then trigger else "all"
      | None => "all"
      end
  | Err _ => "all"
  end.

(** The calls a run makes when it only lists the source. *)
Definition is_listing (ev : Event) : Prop :=
  match ev with
  | EvListEmails _ _ _ => True
  | EvListContacts _ _ => True
  | _ => False
  end.

(** The world after some more calls to the outside. *)
Definition logged_all (evs : list Event) (w : World) : World :=
  {| db := db w; sync_status := sync_status w; clock := clock w;
     trace := (trace w ++ evs)%list |}.

(** What holds of a HubSpot session between two commits: primary keys are
    distinct, and a changed object stands for the row it was loaded from. *)
Definition session_ok (dirty : gmap Z Contact) (d : DB) : Prop :=
  List.NoDup (map contact_id (contacts d)) /\
  forall row c, In row (contacts d) -> dirty !! contact_id row = Some c ->
    contact_key c = contact_key row /\ contact_id c = contact_id row.

(** The page chains that end within a number of listings: a listing that
    fails ends the chain, and so does a page without a next token. *)
Fixpoint gmail_chain_ends (env : Env) (fuel : nat) (token : string)
    (page : option string) : bool :=
  match fuel with
  | O => false
  | S fuel' =>
      match gmail_list_emails env token page None with
      | Err _ => true
      | Ok result =>
          if Text.truthy_opt (next_page_token result)
          then gmail_chain_ends env fuel' token (next_page_token result)
          else true
      end
  end.

Fixpoint hubspot_chain_ends (env : Env) (fuel : nat) (token : string)
    (after : option string) : bool :=
  match fuel with
  | O => false
  | S fuel' =>
      match hubspot_list_all_contacts env token after with
      | Err _ => true
      | Ok result =>
          if Text.truthy_opt (paging_next_after result)
          then hubspot_chain_ends env fuel' token (paging_next_after result)
          else true
      end
  end.

(** ** What a chat turn may change

    [steady user w w']: from [w] to [w'] the tables of users, emails and
    contacts, [sync_status] and the clock are the same; tasks and ongoing
    instructions were only appended, each new row for [user]; the trace
    only grew. *)
Record steady (user : Z) (w w' : World) : Prop := {
  st_users : users (db w') = users (db w);
  st_emails : emails (db w') = emails (db w);
  st_contacts : contacts (db w') = contacts (db w);
  st_sync : sync_status w' = sync_status w;
  st_clock : clock w' = clock w;
  st_tasks : exists new,
      tasks (db w') = (tasks (db w) ++ new)%list /\
      Forall (fun t => task_user_id t = user /\ task_status t = "pending") new;
  st_instructions : exists new,
      ongoing_instructions (db w') = (ongoing_instructions (db w) ++ new)%list /\
      Forall (fun i => instruction_user_id i = user /\ is_active i = Some true) new;
  st_trace : exists evs, trace w' = (trace w ++ evs)%list
}.

Definition keeps {A : Type} (user : Z) (m : M A) : Prop :=
  forall w, steady user w (snd (m w)).

(** ** Properties of stored emails *)

(** The row has a body: [email.body_text[:500]] can be taken. *)
Definition has_body (e : Email) : bool := not_none (body_text e).

(** The row is not older than the cutoff of a poll, as the poll reads its
    date: no date, an unreadable date or a date at or after the cutoff. *)
Definition recent (env : Env) (cutoff_time : Z) (e : Email) : bool :=
  match received_at e with
  | Some t =>
      match dateutil_naive env t with
      | Some received => negb (received <? cutoff_time)
      | None => true
      end
  | None => true
  end.

(** [every P w]: all emails of the table satisfy [P]. *)
Definition every (P : Email -> bool) (w : World) : Prop :=
  Forall (fun e => P e = true) (emails (db w)).

(** The text columns of the row are set: subject, sender and both bodies. *)
Definition complete (e : Email) : bool :=
  not_none (subject e) && not_none (from_email e) && has_body e && not_none (body_html e).

(** [holds P m]: when every email satisfies [P] before [m], every email
    satisfies it after. *)
Definition holds {A : Type} (P : Email -> Prop) (m : M A) : Prop :=
  forall w, Forall P (emails (db w)) -> Forall P (emails (db (snd (m w)))).

(** The query of a poll made at [now]. *)
Definition poll_query (env : Env) (now : Z) : string :=
  "after:" ++ pretty (naive_timestamp env (now - 600)).

(** The chain of pages of a poll ends within a number of listings: a listing
    that fails ends it, and so do an empty page and a page without a next
    token. *)
Fixpoint poll_chain_ends (env : Env) (fuel : nat) (token query : string)
    (page : option string) : bool :=
  match fuel with
  | O => false
  | S fuel' =>
      match gmail_list_emails env token page (Some query) with
      | Err _ => true
      | Ok result =>
          match page_messages result with
          | [] => true
          | _ =>
              if Text.truthy_opt (next_page_token result)
              then poll_chain_ends env fuel' token query (next_page_token result)
              else true
          end
      end
  end.

(** ** The tools of the agent *)

(** The names declared in [TOOLS], in the order of the declaration. *)
Definition tool_names : list string :=
  [ "search_emails_and_contacts"; "send_email"; "create_calendar_event";
    "search_hubspot_contact"; "create_hubspot_contact"; "create_hubspot_note";
    "get_calendar_events"; "create_task"; "create_ongoing_instruction" ].

(** The tools that go through [self.google_service], and those that go
    through [self.hubspot_service]. *)
Definition google_tools : list string :=
  [ "send_email"; "create_calendar_event"; "get_calendar_events" ].

Definition hubspot_tools : list string :=
  [ "search_hubspot_contact"; "create_hubspot_contact"; "create_hubspot_note" ].

(** A tool result: a dictionary whose first key is [success], with a
    Boolean. *)
Definition is_payload (p : json) : bool :=
  match p with
  | JObj (("success", JBool _) :: _) => true
  | _ => false
  end.

(** [yields P m]: whatever [m] returns satisfies [P]. *)
Definition yields {A : Type} (P : A -> Prop) (m : M A) : Prop :=
  forall w a w', m w = (Ret a, w') -> P a.

(** The tool messages that answer a list of tool calls with a list of
    payloads, pairwise. *)
Definition tool_messages (env : Env) (calls : list ToolCall) (payloads : list json)
    : list Message :=
  map (fun cp => MsgTool (tool_call_id (fst cp)) (json_dumps env None (snd cp)))
    (combine calls payloads).

(** ** The routers: routers/chat.py, routers/tasks.py, and the handler of
    main.py *)

(** [s.split(sep)] for a separator of one character: the pieces between the
    separators, empty pieces included; the result is never empty. *)
Fixpoint split_on (sep : ascii) (s : string) : list string :=
  match s with
  | EmptyString => [EmptyString]
  | String c s' =>
      if Ascii.eqb c sep then EmptyString :: split_on sep s'
      else
        match split_on sep s' with
        | [] => [String c EmptyString]
        | piece :: pieces => String c piece :: pieces
        end
  end.

(** The table [chat_messages] of models.py: [content] is NOT NULL, [error]
    and [created_at] are nullable. *)
Record ChatMessage : Type := {
  cm_id : Z;
  cm_user_id : Z;
  cm_role : string;
  cm_content : string;
  cm_error : option bool;
  cm_created_at : option Z
}.

(** What the routers work on: the world of the services and the chat
    messages. *)
Record Site : Type := {
  site_world : World;
  site_messages : list ChatMessage
}.

(** What an endpoint hands to the framework: its return value, or the
    [HTTPException] it raised.  Any other exception is a [Raise] of the
    monad. *)
Inductive Http (A : Type) : Type :=
| Reply (a : A)
| HTTPException (status_code : Z) (detail : string).
Arguments Reply {A} a.
Arguments HTTPException {A} status_code detail.

Definition R (A : Type) : Type := Site -> Out (Http A) * Site.

Definition reply {A : Type} (a : A) : R A := fun s => (Ret (Reply a), s).

Definition refuse {A : Type} (status_code : Z) (detail : string) : R A :=
  fun s => (Ret (HTTPException status_code detail), s).

Definition and_then {A B : Type} (m : R A) (k : A -> R B) : R B :=
  fun s =>
    match m s with
    | (Ret (Reply a), s') => k a s'
    | (Ret (HTTPException c d), s') => (Ret (HTTPException c d), s')
    | (Raise e, s') => (Raise e, s')
    | (Diverge, s') => (Diverge, s')
    end.

Notation "x <~ m ;; k" := (and_then m (fun x => k))
  (at level 100, m at next level, right associativity).

Definition with_world (w : World) (s : Site) : Site :=
  {| site_world := w; site_messages := site_messages s |}.

(** Code of the services, run by an endpoint. *)
Definition in_world {A : Type} (m : M A) : R A :=
  fun s =>
    match m (site_world s) with
    | (Ret a, w') => (Ret (Reply a), with_world w' s)
    | (Raise e, w') => (Raise e, with_world w' s)
    | (Diverge, w') => (Diverge, with_world w' s)
    end.

(** main.py, [global_exception_handler]: the status and the body that
    answer an exception no endpoint caught. *)
Definition global_exception_handler (exc : Exn) : Z * list (string * string) :=
  (500, [("error", "Internal server error"); ("detail", exn_msg exc)]).

(** The status of the response: 200 for a return value, the status of an
    [HTTPException], that of the handler for any other exception. *)
Definition status_of {A : Type} (o : Out (Http A)) : option Z :=
  match o with
  | Ret (Reply _) => Some 200
  | Ret (HTTPException c _) => Some c
  | Raise e => Some (fst (global_exception_handler e))
  | Diverge => None
  end.

Module ChatRouter.

Section Endpoints.

Variable env : Env.

(** [app.auth.verify_token] is not among the sources.  For a token it
    answers with the claims of the token, of which the routers read
    [user_id] only ([None] inside when the claim is absent or null), and with
    [None] for a token it does not accept.  Tokens are issued with
    [{"user_id": user.id, "email": user.email}]. *)
Variable verify_token : string -> option (option Z).

Definition get_current_user (authorization : option string) : R User :=
  fun s =>
    if negb (Text.truthy_opt authorization) then
      refuse 401 "Missing authorization header" s
    else
      let header := or_empty authorization in
      if negb (Text.starts_with "Bearer " header) then
        refuse 401 "Invalid authorization header format. Expected 'Bearer <token>'" s
      else
        match nth_error (split_on " " header) 1 with
        | None => (Raise (mk_exn "IndexError" "list index out of range"), s)
        | Some token =>
            match verify_token token with
            | None => refuse 401 "Invalid token" s
            | Some None => refuse 404 "User not found" s
            | Some (Some id) =>
                match find_user id (db (site_world s)) with
                | Some user => reply user s
                | None => refuse 404 "User not found" s
                end
            end
        end.

(** [db.add(m); db.commit(); db.refresh(m)] for a chat message: [content]
    is NOT NULL; [created_at] is the time of the server. *)
Definition add_chat_message (user : Z) (role : string) (content : option string)
    (is_error : bool) : R ChatMessage :=
  fun s =>
    match content with
    | None => (Raise (mk_exn "IntegrityError" "null value in column content"), s)
    | Some text =>
        let row := {| cm_id := Sql.next_id (map cm_id (site_messages s));
                      cm_user_id := user; cm_role := role; cm_content := text;
                      cm_error := Some is_error;
                      cm_created_at := Some (clock (site_world s)) |} in
        (Ret (Reply row),
         {| site_world := site_world s;
            site_messages := (site_messages s ++ [row])%list |})
    end.

(** [ChatResponse] *)
Record ChatResponse : Type := {
  cr_response : option string;
  cr_error : option string;
  cr_message_id : option Z
}.

(** [result.get("response", "") or result.get("error", "")]: both keys are
    always there, so this is the response when it is a text that is not
    empty, and the error, which may be [None], otherwise. *)
Definition answer_text (result : ChatResult) : option string :=
  if Text.truthy_opt (response result) then response result else chat_error result.

(** [POST /]: the endpoint [chat]. *)
Definition chat (message : string) (conversation_history : option (list (string * string)))
    (authorization : option string) : R ChatResponse :=
  user <~ get_current_user authorization ;;
  user_message <~ add_chat_message (user_id user) "user" (Some message) false ;;
  let history := match conversation_history with Some l => l | None => [] end in
  result <~ in_world (chat env (AIAgent user) message history) ;;
  assistant_message <~
    add_chat_message (user_id user) "assistant" (answer_text result)
      (Text.truthy_opt (chat_error result)) ;;
  reply {| cr_response := response result; cr_error := chat_error result;
           cr_message_id := Some (cm_id assistant_message) |}.

(** [ORDER BY created_at DESC]: NULLs first. *)
Definition created_desc (a b : ChatMessage) : bool :=
  match cm_created_at a, cm_created_at b with
  | None, _ => true
  | Some _, None => false
  | Some x, Some y => y <=? x
  end.

(** The query of [get_chat_history] before it is ordered: the messages of
    the user; with a cursor that is neither [None] nor 0, those created
    before the message of the cursor when that message is the user's and has
    a time, and those with a smaller id otherwise. *)
Definition history_query (user : Z) (before_id : option Z) (table : list ChatMessage)
    : list ChatMessage :=
  let mine := List.filter (fun m => cm_user_id m =? user) table in
  match before_id with
  | None => mine
  | Some cursor =>
      if cursor =? 0 then mine
      else
        let by_id := List.filter (fun m => cm_id m <? cursor) mine in
        match find (fun m => (cm_id m =? cursor) && (cm_user_id m =? user)) table with
        | Some before_message =>
            match cm_created_at before_message with
            | Some t =>
                List.filter
                  (fun m => match cm_created_at m with Some c => c <? t | None => false end)
                  mine
            | None => by_id
            end
        | None => by_id
        end
  end.

(** [ChatHistoryMessage] and [ChatHistoryResponse] *)
Record ChatHistoryMessage : Type := {
  hm_id : Z;
  hm_role : string;
  hm_content : string;
  hm_error : bool;
  hm_timestamp : string
}.

Record ChatHistoryResponse : Type := {
  hr_messages : list ChatHistoryMessage;
  hr_has_more : bool
}.

(** The list of [ChatHistoryMessage]: [error] must be a Boolean. *)
Fixpoint history_messages (rows : list ChatMessage) : Res (list ChatHistoryMessage) :=
  match rows with
  | [] => Ok []
  | m :: rest =>
      match cm_error m with
      | None => Err (mk_exn "ValidationError" "error: Input should be a valid boolean")
      | Some flag =>
          match history_messages rest with
          | Ok l =>
              Ok ({| hm_id := cm_id m; hm_role := cm_role m; hm_content := cm_content m;
                     hm_error := flag;
                     hm_timestamp :=
                       match cm_created_at m with
                       | Some t => isoformat env t
                       | None => EmptyString
                       end |} :: l)
          | Err e => Err e
          end
      end
  end.

(** [GET /history]; the framework admits a [limit] from 1 to 50 only. *)
Definition get_chat_history (limit : Z) (before_id : option Z)
    (authorization : option string) : R ChatHistoryResponse :=
  user <~ get_current_user authorization ;;
  fun s =>
    let query := history_query (user_id user) before_id (site_messages s) in
    match Sql.limit_rows (limit + 1) (Sql.sort_by created_desc query) with
    | Err e => (Raise e, s)
    | Ok fetched =>
        let has_more := limit <? Z.of_nat (List.length fetched) in
        let page := if has_more then firstn (Z.to_nat limit) fetched else fetched in
        match history_messages page with
        | Ok l => reply {| hr_messages := l; hr_has_more := has_more |} s
        | Err e => (Raise e, s)
        end
    end.

(** What [POST /ongoing-instruction] returns. *)
Record InstructionView : Type := {
  iv_id : Z;
  iv_instruction : string;
  iv_trigger_type : option string
}.

(** [POST /ongoing-instruction]: a [trigger_type] that is not given is
    [all]. *)
Definition add_ongoing_instruction (instruction_text : string) (trigger : option string)
    (authorization : option string) : R InstructionView :=
  user <~ get_current_user authorization ;;
  in_world
    (w <- get_world ;;
     let d := db w in
     let row := {| instruction_id := Sql.next_id (map instruction_id (ongoing_instructions d));
                   instruction_user_id := user_id user;
                   instruction := instruction_text;
                   trigger_type := Some (match trigger with Some t => t | None => "all" end);
                   is_active := Some true |} in
     set_db {| users := users d; emails := emails d; contacts := contacts d;
               tasks := tasks d;
               ongoing_instructions := (ongoing_instructions d ++ [row])%list |} ;;;
     ret {| iv_id := instruction_id row; iv_instruction := instruction row;
            iv_trigger_type := trigger_type row |}).

End Endpoints.

End ChatRouter.

Module TasksRouter.

Section Endpoints.

Variable verify_token : string -> option (option Z).

(** [GET /{task_id}]: the row the response is made of, column by column;
    of these [Task] carries the id, the type, the status, the description
    and the input data. *)
Definition get_task (id : Z) (authorization : option string) : R Task :=
  user <~ ChatRouter.get_current_user verify_token authorization ;;
  fun s =>
    match find (fun t => (task_id t =? id) && (task_user_id t =? user_id user))
            (tasks (db (site_world s))) with
    | Some task => reply task s
    | None => refuse 404 "Task not found" s
    end.

End Endpoints.

End TasksRouter.

(** ** services/google_service.py: [_parse_email] *)

(** A message as [users.messages.get] returns it with [format=full].  A key
    that may be missing is an option; where a key is present its value has
    the type the Gmail API gives it (texts for the names and values of the
    headers, for [mimeType] and for [body.data], a list for [parts]).
    [part_data] is [body.data], [None] when [body] or [data] is missing. *)
Record Header : Type := {
  header_name : string;
  header_value : string
}.

#[local] Unset Elimination Schemes.
Inductive MessagePart : Type :=
| Part (mimeType : option string) (headers : option (list Header))
       (data : option string) (parts : option (list MessagePart)).
#[local] Set Elimination Schemes.

Definition part_mimeType (p : MessagePart) : option string :=
  match p with Part m _ _ _ => m end.
Definition part_headers (p : MessagePart) : option (list Header) :=
  match p with Part _ h _ _ => h end.
Definition part_data (p : MessagePart) : option string :=
  match p with Part _ _ d _ => d end.
Definition part_parts (p : MessagePart) : option (list MessagePart) :=
  match p with Part _ _ _ ps => ps end.

Record GmailMessage : Type := {
  msg_id : option string;
  msg_threadId : option string;
  msg_payload : option MessagePart
}.

Module GoogleService.

Section Parse.

(** [base64.urlsafe_b64decode(data).decode("utf-8", errors="ignore")], which
    raises on data that is not base64, and [parsedate_to_datetime], [None]
    when it raises: oracles of their argument. *)
Variable urlsafe_b64decode : string -> Res string.
Variable parsedate_to_datetime : string -> option Z.

(** [{h["name"]: h["value"] for h in headers}.get(name)]: the value of the
    last header of that name. *)
Definition headers_get (hs : list Header) (name : string) : option string :=
  fold_left
    (fun found h => if String.eqb (header_name h) name then Some (header_value h) else found)
    hs None.

(** [[e.strip() for e in pieces if e.strip()]] *)
Definition addresses (pieces : list string) : list string :=
  map Text.strip (List.filter (fun e => Text.truthy (Text.strip e)) pieces).

(** The body of the loop over the parts, which is also what is done with
    the payload of a message that has no [parts]: data that is there is
    decoded, whatever the type, and kept when the type is [text/plain] or
    [text/html]. *)
Definition read_body (part : MessagePart) (bodies : string * string)
    : Res (string * string) :=
  let mime_type := or_empty (part_mimeType part) in
  let body_data := or_empty (part_data part) in
  if Text.truthy body_data then
    match urlsafe_b64decode body_data with
    | Err e => Err e
    | Ok decoded =>
        if String.eqb mime_type "text/plain" then Ok (decoded, snd bodies)
        else if String.eqb mime_type "text/html" then Ok (fst bodies, decoded)
        else Ok bodies
    end
  else Ok bodies.

Fixpoint read_parts (ps : list MessagePart) (bodies : string * string)
    : Res (string * string) :=
  match ps with
  | [] => Ok bodies
  | part :: rest =>
      match read_body part bodies with
      | Ok bodies' => read_parts rest bodies'
      | Err e => Err e
      end
  end.

(** [_parse_email]: the result without its [gmail_id], and the [gmail_id],
    which is read last. *)
Definition _parse_email (email_data : GmailMessage) : Res (string * ParsedEmail) :=
  let payload :=
    match msg_payload email_data with
    | Some p => p
    | None => Part None None None None
    end in
  let headers :=
    headers_get (match part_headers payload with Some hs => hs | None => [] end) in
  let from_email := or_empty (headers "From") in
  let to_emails := split_on "," (or_empty (headers "To")) in
  let cc_emails :=
    if Text.truthy_opt (headers "Cc") then split_on "," (or_empty (headers "Cc")) else [] in
  match
    match part_parts payload with
    | Some ps => read_parts ps (EmptyString, EmptyString)
    | None => read_body payload (EmptyString, EmptyString)
    end
  with
  | Err e => Err e
  | Ok (body_text, body_html) =>
      let date_str := or_empty (headers "Date") in
      let received_at :=
        if Text.truthy date_str then parsedate_to_datetime date_str else None in
      match msg_id email_data with
      | None => Err (mk_exn "KeyError" "'id'")
      | Some id =>
          Ok (id,
              {| p_thread_id := msg_threadId email_data;
                 p_subject := or_empty (headers "Subject");
                 p_from_email := from_email;
                 p_to_emails := addresses to_emails;
                 p_cc_emails := addresses cc_emails;
                 p_body_text := body_text;
                 p_body_html := body_html;
                 p_received_at := received_at |})
      end
  end.

End Parse.

(** What [_parse_email] looks at: the payload ([{}] when missing), its
    headers, and the parts it reads, that is the [parts] of the payload or,
    without [parts], the payload itself; of a part, its type and its data. *)
Definition payload_of (m : GmailMessage) : MessagePart :=
  match msg_payload m with Some p => p | None => Part None None None None end.

Definition top_headers (m : GmailMessage) : list Header :=
  match part_headers (payload_of m) with Some hs => hs | None => [] end.

Definition top_parts (m : GmailMessage) : list MessagePart :=
  match part_parts (payload_of m) with Some ps => ps | None => [payload_of m] end.

Definition has_data (part : MessagePart) : bool :=
  Text.truthy (or_empty (part_data part)).

Definition holds_type (mime : string) (part : MessagePart) : bool :=
  String.eqb (or_empty (part_mimeType part)) mime && has_data part.

Definition seen (part : MessagePart) : option string * option string :=
  (part_mimeType part, part_data part).

End GoogleService.

(** ** routers/integrations.py: [GET /status] *)

Record GoogleStatus : Type := {
  g_connected : bool;
  g_email : option string;
  g_email_count : Z;
  g_syncing : bool
}.

Record HubSpotStatus : Type := {
  h_connected : bool;
  h_name : option string;
  h_contact_count : Z;
  h_syncing : bool
}.

Record IntegrationStatus : Type := {
  status_google : GoogleStatus;
  status_hubspot : HubSpotStatus
}.

Module IntegrationsRouter.

Section Endpoints.

Variable verify_token : string -> option (option Z).

(** [google_email] and [hubspot_name] are columns of the users table that
    [User] does not carry; the endpoint hands them on as they are. *)
Variable google_email : User -> option string.
Variable hubspot_name : User -> option string.

(** [sync_status.get(user.id, {}).get(source, {"syncing": False})
      .get("syncing", False)] *)
Definition syncing_flag (ss : gmap Z (gmap string SyncEntry)) (user : Z) (source : string)
    : bool :=
  let user_sync_status := match ss !! user with Some sources => sources | None => ∅ end in
  match user_sync_status !! source with
  | Some entry => syncing entry
  | None => false
  end.

Definition get_integration_status (authorization : option string) : R IntegrationStatus :=
  user <~ ChatRouter.get_current_user verify_token authorization ;;
  fun s =>
    let w := site_world s in
    let email_count :=
      Z.of_nat (List.length
                  (List.filter (fun e => email_user_id e =? user_id user) (emails (db w)))) in
    let contact_count :=
      Z.of_nat (List.length
                  (List.filter (fun c => contact_user_id c =? user_id user)
                     (contacts (db w)))) in
    reply
      {| status_google :=
           {| g_connected := Text.truthy_opt (google_access_token user);
              g_email := google_email user;
              g_email_count := email_count;
              g_syncing := syncing_flag (sync_status w) (user_id user) "gmail" |};
         status_hubspot :=
           {| h_connected := Text.truthy_opt (hubspot_access_token user);
              h_name := hubspot_name user;
              h_contact_count := contact_count;
              h_syncing := syncing_flag (sync_status w) (user_id user) "hubspot" |} |}
      s.

End Endpoints.

End IntegrationsRouter.

(** ** The session of a request and the tools of a turn

    The tables of a [World] are the committed ones.  The statements of a
    request go through one SQLAlchemy session, and nothing in the code rolls
    a session back: what is said of a statement that succeeds is said of a
    session in which no statement has failed.  In a chat turn the
    session is used by [chat] itself, before the model is called, and then
    only by the three tools below; every other tool talks to Google or
    HubSpot only. *)
Definition session_tools : list string :=
  ["search_emails_and_contacts"; "create_task"; "create_ongoing_instruction"].

Definition uses_session (tc : ToolCall) : bool :=
  existsb (String.eqb (function_name tc)) session_tools.

(** [quiet m]: [m] leaves the tables as they are. *)
Definition quiet {A : Type} (m : M A) : Prop :=
  forall w, db (snd (m w)) = db w.

(** ** The pages of a full sync

    [gmail_reaches env u token k s s']: the page loop of a Gmail run that is
    at the page, the count and the world [s] comes, after [k] pages that
    were listed and imported without an exception and that each named a
    next page, to [s']. *)
Inductive gmail_reaches (env : Env) (u : User) (token : string)
    : nat -> option string * Z * World -> option string * Z * World -> Prop :=
| gmail_here (s : option string * Z * World) : gmail_reaches env u token O s s
| gmail_next (k : nat) (page : option string) (n n' : Z) (w w' : World)
    (result : EmailPage) (s' : option string * Z * World) :
    gmail_list_emails env token page None = Ok result ->
    for_each (page_messages result) (import_message env u token) n
      (logged (EvListEmails token page None) w) = (Ret n', w') ->
    Text.truthy_opt (next_page_token result) = true ->
    gmail_reaches env u token k (next_page_token result, n', w') s' ->
    gmail_reaches env u token (S k) (page, n, w) s'.

(** The same for the pages of a HubSpot run, whose state is the count and
    the changed objects of the session. *)
Inductive hubspot_reaches (env : Env) (user : Z) (token : string)
    : nat -> option string * (Z * gmap Z Contact) * World ->
      option string * (Z * gmap Z Contact) * World -> Prop :=
| hubspot_here (s : option string * (Z * gmap Z Contact) * World) :
    hubspot_reaches env user token O s s
| hubspot_next (k : nat) (after : option string) (st st' : Z * gmap Z Contact)
    (w w' : World) (result : ContactPage)
    (s' : option string * (Z * gmap Z Contact) * World) :
    hubspot_list_all_contacts env token after = Ok result ->
    for_each (page_results result) (import_contact env user token) st
      (logged (EvListContacts token after) w) = (Ret st', w') ->
    Text.truthy_opt (paging_next_after result) = true ->
    hubspot_reaches env user token k (paging_next_after result, st', w') s' ->
    hubspot_reaches env user token (S k) (after, st, w) s'.

(** ** Properties of the tables that a run keeps

    [guards I m]: when the tables satisfy [I] before [m], they satisfy it
    after, however [m] ends. *)
Definition guards {A : Type} (I : DB -> Prop) (m : M A) : Prop :=
  forall w, I (db w) -> I (db (snd (m w))).

(** ** More concrete cases *)
Module Cases.

(** A user who has connected neither service; the HubSpot token is the
    empty text. *)
Definition newcomer : User :=
  {| user_id := 3; google_access_token := None; hubspot_access_token := Some EmptyString |}.

(** A model that asks for the calendar, and whose second answer still asks
    for a tool. *)
Definition eager_model (req : ChatRequest) : Res AssistantMessage :=
  if req_tools req then
    Ok {| content := None;
          tool_calls := [ Demo.tool "c1" "get_calendar_events" "{}" ] |}
  else
    Ok {| content := Some "Done.";
          tool_calls := [ Demo.tool "c2" "send_email" "{}" ] |}.

Definition eager : Env := Demo.make eager_model Demo.loads_braces.

(** The same outside with another HubSpot listing. *)
Definition with_hubspot (list : string -> option string -> Res ContactPage) (e : Env) : Env :=
  {| embeddings_create := embeddings_create e;
     chat_completions_create := chat_completions_create e;
     cosine_distance := cosine_distance e;
     json_loads := json_loads e;
     json_dumps := json_dumps e;
     gmail_list_emails := gmail_list_emails e;
     gmail_get_email := gmail_get_email e;
     hubspot_list_all_contacts := list;
     hubspot_get_contact_notes := hubspot_get_contact_notes e;
     provider := provider e;
     isoformat := isoformat e;
     strftime := strftime e;
     str_datetime := str_datetime e;
     dateutil_naive := dateutil_naive e;
     naive_timestamp := naive_timestamp e |}.

(** The CRM holds the one contact [h1], now with a new address. *)
Definition moved : Env :=
  with_hubspot
    (fun _ _ => Ok {| page_results := [Demo.person "h1" (Some "new@x.com")];
                      paging_next_after := None |})
    Demo.env.

(** The tokens of two sessions. *)
Definition session (token : string) : option (option Z) :=
  if String.eqb token "advisor-token" then Some (Some 1)
  else if String.eqb token "colleague-token" then Some (Some 2)
  else if String.eqb token "leaver-token" then Some (Some 9)
  else None.

(** The two users, no chat message yet. *)
Definition site : Site := {| site_world := Demo.fresh; site_messages := [] |}.

(** A model that answers with no text and no tool call. *)
Definition mute : Env :=
  Demo.make (fun _ => Ok {| content := None; tool_calls := [] |}) Demo.no_json.

(** A conversation: four messages of the advisor, one of the colleague in
    between. *)
Definition said (id user : Z) (role text : string) (at_time : Z) : ChatMessage :=
  {| cm_id := id; cm_user_id := user; cm_role := role; cm_content := text;
     cm_error := Some false; cm_created_at := Some at_time |}.

Definition talk : Site :=
  {| site_world := Demo.fresh;
     site_messages := [ said 1 1 "user" "Any news?" 10;
                        said 2 1 "assistant" "Nothing to do." 20;
                        said 3 2 "user" "Who is Ann?" 25;
                        said 4 1 "user" "And now?" 30;
                        said 5 1 "assistant" "Still nothing." 40 ] |}.

(** The arguments of a [create_task] call. *)
Definition follow_up : json :=
  JObj [ ("task_type", JStr "schedule_appointment");
         ("description", JStr "Wait for Ann's answer");
         ("input_data", JObj [("contact", JStr "ann@x.com")]) ].

(** A decoder that knows two texts, and a date parser that knows one
    date. *)
Definition bad_padding : Exn := mk_exn "Error" "Incorrect padding".

Definition decode (s : string) : Res string :=
  if String.eqb s "SGVsbG8=" then Ok "Hello"
  else if String.eqb s "PGI-SGk8L2I-" then Ok "<b>Hi</b>"
  else Err bad_padding.

Definition parsedate (s : string) : option Z :=
  if String.eqb s "Tue, 03 Nov 2026 09:00:00 +0000" then Some 1793696400 else None.

Definition head (name value : string) : Header :=
  {| header_name := name; header_value := value |}.

(** A message with an attachment, as mail clients build it: the two
    renderings of the text are nested in the first part. *)
Definition with_attachment : GmailMessage :=
  {| msg_id := Some "m1"; msg_threadId := Some "t1";
     msg_payload :=
       Some (Part (Some "multipart/mixed")
               (Some [ head "From" "ann@x.com";
                       head "To" "Doe, John <john@x.com>,  bob@x.com , ";
                       head "cc" "carl@x.com";
                       head "Date" "Tue, 03 Nov 2026 09:00:00 +0000" ])
               None
               (Some [ Part (Some "multipart/alternative") None None
                         (Some [ Part (Some "text/plain") None (Some "SGVsbG8=") None;
                                 Part (Some "text/html") None (Some "PGI-SGk8L2I-") None ]);
                       Part (Some "application/pdf") None None None ])) |}.

(** A text followed by a picture whose data is cut short. *)
Definition with_picture : GmailMessage :=
  {| msg_id := Some "m2"; msg_threadId := None;
     msg_payload :=
       Some (Part (Some "multipart/mixed") None None
               (Some [ Part (Some "text/plain") None (Some "SGVsbG8=") None;
                       Part (Some "image/png") None (Some "iVBORw") None ])) |}.

(** A model that, offered the tools, asks for [calls]; that answers
    [ HubSpot ] to a request of at most ten tokens, the classification; and
    that says [Done.] otherwise.  The parser knows the arguments of four
    calls. *)
Definition assistant (calls : list ToolCall) (req : ChatRequest) : Res AssistantMessage :=
  if req_tools req then Ok {| content := None; tool_calls := calls |}
  else
    match req_max_tokens req with
    | Some _ => Ok {| content := Some " HubSpot "; tool_calls := [] |}
    | None => Ok {| content := Some "Done."; tool_calls := [] |}
    end.

Definition loads (s : string) : Res json :=
  if String.eqb s "{}" then Ok (JObj [])
  else if String.eqb s "{instruction}" then Ok (JObj [("instruction", JStr Demo.crm_text)])
  else if String.eqb s "{instruction, trigger_type}" then
    Ok (JObj [("instruction", JStr "File invoices"); ("trigger_type", JStr "Email")])
  else if String.eqb s "{task_type, description, input_data}" then Ok follow_up
  else Err (mk_exn "JSONDecodeError" "Expecting value").

Definition office (calls : list ToolCall) : Env := Demo.make (assistant calls) loads.

Definition look : ToolCall := Demo.tool "c1" "get_calendar_events" "{}".
Definition remember : ToolCall := Demo.tool "c2" "create_ongoing_instruction" "{instruction}".
Definition remember_typed : ToolCall :=
  Demo.tool "c2" "create_ongoing_instruction" "{instruction, trigger_type}".
Definition plan : ToolCall :=
  Demo.tool "c2" "create_task" "{task_type, description, input_data}".

(** The state after a turn in which the model asked for the calendar and
    for a task. *)
Definition after_plan : Site :=
  {| site_world := snd (chat (office [look; plan]) (AIAgent Demo.advisor)
                          "Plan the follow-up" [] Demo.fresh);
     site_messages := [] |}.

End Cases.
Example lower_ex : Text.lower "John Smith@X.COM" = "john smith@x.com".
Proof. reflexivity. Qed.

Example strip_ex : Text.strip "  john smith  " = "john smith".
Proof. reflexivity. Qed.

Example ilike_ex :
  Text.ilike "Alice <ALICE@x.com>" "%alice%" = true /\
  Text.ilike "bob@x.com" "%alice%" = false /\
  Text.ilike "abc@x.com" "%a_c%" = true /\
  Text.ilike "johnsmith@x.com" ("%" ++ Text.remove_spaces "john smith" ++ "%") = true.
Proof. repeat split; reflexivity. Qed.

(** * Facts about the text operations *)

Lemma lower_char_meta (c : ascii) : Text.is_meta (Text.lower_char c) = Text.is_meta c.
Proof. destruct c as [[] [] [] [] [] [] [] []]; reflexivity. Qed.

Lemma lower_char_idem (c : ascii) : Text.lower_char (Text.lower_char c) = Text.lower_char c.
Proof. destruct c as [[] [] [] [] [] [] [] []]; reflexivity. Qed.

Lemma lower_app (a b : string) : Text.lower (a ++ b) = Text.lower a ++ Text.lower b.
Proof. induction a as [|c a IH]; simpl; [reflexivity | now rewrite IH]. Qed.

Lemma lower_idem (s : string) : Text.lower (Text.lower s) = Text.lower s.
Proof.
  induction s as [|c s IH]; simpl; [reflexivity|].
  now rewrite lower_char_idem, IH.
Qed.

Lemma no_meta_lower (s : string) : Text.no_meta (Text.lower s) = Text.no_meta s.
Proof.
  induction s as [|c s IH]; simpl; [reflexivity|].
  now rewrite lower_char_meta, IH.
Qed.

Lemma no_meta_lstrip (s : string) : Text.no_meta s = true -> Text.no_meta (Text.lstrip s) = true.
Proof.
  induction s as [|c s IH]; simpl; [easy|].
  intros H. apply andb_true_iff in H as [Hc Hs].
  destruct (Text.is_space c); [auto | simpl; now rewrite Hc, Hs].
Qed.

Lemma no_meta_rstrip (s : string) : Text.no_meta s = true -> Text.no_meta (Text.rstrip s) = true.
Proof.
  induction s as [|c s IH]; simpl; [easy|].
  intros H. apply andb_true_iff in H as [Hc Hs]. specialize (IH Hs).
  destruct (Text.rstrip s) eqn:E.
  - destruct (Text.is_space c); simpl; [reflexivity | now rewrite Hc].
  - change (negb (Text.is_meta c) && Text.no_meta (String a s0) = true).
    now rewrite Hc, IH.
Qed.

Lemma no_meta_strip (s : string) : Text.no_meta s = true -> Text.no_meta (Text.strip s) = true.
Proof. intros H. unfold Text.strip. now apply no_meta_rstrip, no_meta_lstrip. Qed.

Lemma no_meta_remove_spaces (s : string) :
  Text.no_meta s = true -> Text.no_meta (Text.remove_spaces s) = true.
Proof.
  induction s as [|c s IH]; simpl; [easy|].
  intros H. apply andb_true_iff in H as [Hc Hs].
  destruct (Ascii.eqb c " "); [auto | simpl; now rewrite Hc, IH].
Qed.

(** A pattern without metacharacters is read as its own characters. *)
Lemma like_tokens_lits (q rest : string) :
  Text.no_meta q = true ->
  Text.like_tokens (q ++ rest) = (Text.lits q ++ Text.like_tokens rest)%list.
Proof.
  induction q as [|c q IH]; simpl; [easy|].
  intros H. apply andb_true_iff in H as [Hc Hq].
  unfold Text.is_meta in Hc. apply negb_true_iff in Hc.
  apply orb_false_iff in Hc as [Hc H3]. apply orb_false_iff in Hc as [H1 H2].
  rewrite H1, H2, H3. now rewrite IH.
Qed.

Lemma like_match_any (p : list Text.tok) (s : string) :
  Text.like_match (Text.TAny :: p) s =
  Text.like_match p s ||
  match s with
  | EmptyString => false
  | String _ s' => Text.like_match (Text.TAny :: p) s'
  end.
Proof. destruct s; reflexivity. Qed.

Lemma like_match_any_end (s : string) : Text.like_match [Text.TAny] s = true.
Proof.
  induction s as [|c s IH]; [reflexivity|].
  rewrite like_match_any, IH. apply orb_true_r.
Qed.

Lemma like_match_lits (q s : string) :
  Text.like_match (Text.lits q ++ [Text.TAny]) s = Text.starts_with q s.
Proof.
  revert s. induction q as [|c q IH]; intros s.
  - simpl Text.lits. simpl app. rewrite like_match_any_end. reflexivity.
  - destruct s as [|d s]; simpl; [reflexivity|]. now rewrite IH.
Qed.

Lemma like_match_contains (q s : string) :
  Text.like_match (Text.TAny :: Text.lits q ++ [Text.TAny]) s = Text.contains q s.
Proof.
  induction s as [|d s IH].
  - rewrite like_match_any, like_match_lits. reflexivity.
  - rewrite like_match_any, like_match_lits, IH. reflexivity.
Qed.

(** For a query without [%], [_] and backslash, the ILIKE filter of the
    exact-match phase is plain case-insensitive containment. *)
Lemma ilike_contains_ci (q s : string) :
  Text.no_meta q = true ->
  Text.ilike s ("%" ++ q ++ "%") = Text.contains_ci q s.
Proof.
  intros H. unfold Text.ilike, Text.contains_ci.
  change ("%" ++ q ++ "%") with (String "%" (q ++ "%")).
  cbn [Text.lower]. change (Text.lower_char "%") with "%"%char.
  rewrite lower_app. cbn [Text.like_tokens].
  change (Ascii.eqb "%" "\") with false. change (Ascii.eqb "%" "%") with true.
  cbv iota.
  rewrite like_tokens_lits by (now rewrite no_meta_lower).
  change (Text.like_tokens (Text.lower "%")) with [Text.TAny].
  apply like_match_contains.
Qed.

(** Stripping a needle keeps it inside the haystack. *)
Lemma contains_tail (c : ascii) (a h : string) :
  Text.contains (String c a) h = true -> Text.contains a h = true.
Proof.
  induction h as [|d h IH]; cbn [Text.contains Text.starts_with]; [discriminate|].
  rewrite !orb_true_iff, andb_true_iff. intros [[_ H]|H].
  - right. destruct h; cbn [Text.contains]; now rewrite H.
  - right. auto.
Qed.

Lemma contains_lstrip (a h : string) :
  Text.contains a h = true -> Text.contains (Text.lstrip a) h = true.
Proof.
  induction a as [|c a IH]; cbn [Text.lstrip]; [easy|].
  destruct (Text.is_space c); [|easy].
  intros H. apply IH. now apply contains_tail in H.
Qed.

Lemma starts_with_rstrip (a h : string) :
  Text.starts_with a h = true -> Text.starts_with (Text.rstrip a) h = true.
Proof.
  revert h. induction a as [|c a IH]; intros h; cbn [Text.rstrip]; [easy|].
  destruct h as [|d h]; cbn [Text.starts_with]; [discriminate|].
  rewrite andb_true_iff. intros [Hc Ha]. specialize (IH h Ha).
  destruct (Text.rstrip a) as [|r rs].
  - destruct (Text.is_space c); cbn [Text.starts_with]; [reflexivity|].
    now rewrite Hc.
  - cbn [Text.starts_with] in *. now rewrite Hc, IH.
Qed.

Lemma contains_rstrip (a h : string) :
  Text.contains a h = true -> Text.contains (Text.rstrip a) h = true.
Proof.
  induction h as [|d h IH]; cbn [Text.contains]; rewrite !orb_true_iff.
  - intros [H|H]; [left; now apply starts_with_rstrip | discriminate].
  - intros [H|H]; [left; now apply starts_with_rstrip | right; auto].
Qed.

Lemma contains_strip (a h : string) :
  Text.contains a h = true -> Text.contains (Text.strip a) h = true.
Proof. intros H. unfold Text.strip. now apply contains_rstrip, contains_lstrip. Qed.

Lemma lower_char_space (c : ascii) : Text.is_space (Text.lower_char c) = Text.is_space c.
Proof. destruct c as [[] [] [] [] [] [] [] []]; reflexivity. Qed.

Lemma lower_lstrip (s : string) : Text.lower (Text.lstrip s) = Text.lstrip (Text.lower s).
Proof.
  induction s as [|c s IH]; cbn [Text.lstrip Text.lower]; [reflexivity|].
  rewrite lower_char_space. now destruct (Text.is_space c).
Qed.

Lemma lower_rstrip (s : string) : Text.lower (Text.rstrip s) = Text.rstrip (Text.lower s).
Proof.
  induction s as [|c s IH]; cbn [Text.rstrip Text.lower]; [reflexivity|].
  rewrite <- IH, lower_char_space.
  destruct (Text.rstrip s); cbn [Text.lower]; [now destruct (Text.is_space c) | reflexivity].
Qed.

Lemma lower_strip (s : string) : Text.lower (Text.strip s) = Text.strip (Text.lower s).
Proof. unfold Text.strip. now rewrite lower_rstrip, lower_lstrip. Qed.

(** A sender that holds the query as typed holds the stripped, lower-cased
    query. *)
Lemma contains_ci_strip (q s : string) :
  Text.contains_ci q s = true ->
  Text.contains_ci (Text.strip (Text.lower q)) s = true.
Proof.
  unfold Text.contains_ci. intros H.
  rewrite lower_strip, lower_idem. now apply contains_strip.
Qed.

(** * Facts about ORDER BY and LIMIT *)

Section SortFacts.

Context {A : Type} (le : A -> A -> bool).

Lemma insert_by_perm (x : A) (l : list A) : Permutation (Sql.insert_by le x l) (x :: l).
Proof.
  induction l as [|y l IH]; simpl; [reflexivity|].
  destruct (le x y); [reflexivity|].
  rewrite IH. apply perm_swap.
Qed.

Lemma sort_by_perm (l : list A) : Permutation (Sql.sort_by le l) l.
Proof.
  induction l as [|x l IH]; simpl; [reflexivity|].
  rewrite insert_by_perm. now constructor.
Qed.

Lemma sort_by_In (x : A) (l : list A) : In x (Sql.sort_by le l) <-> In x l.
Proof.
  split; apply Permutation_in; [apply sort_by_perm | symmetry; apply sort_by_perm].
Qed.

Lemma sort_by_length (l : list A) : List.length (Sql.sort_by le l) = List.length l.
Proof. apply Permutation_length, sort_by_perm. Qed.

Lemma sort_by_nil (l : list A) : Sql.sort_by le l = [] <-> l = [].
Proof.
  split; intros H.
  - apply Permutation_nil. rewrite <- H. apply sort_by_perm.
  - now subst.
Qed.

Lemma insert_by_sorted (x : A) (l : list A) :
  total_order le ->
  StronglySorted (fun a b => le a b = true) l ->
  StronglySorted (fun a b => le a b = true) (Sql.insert_by le x l).
Proof.
  intros [Htot Htrans] Hs. induction Hs as [|y l Hs IH Hall]; simpl.
  - repeat constructor.
  - destruct (le x y) eqn:E.
    + constructor; [now constructor|].
      constructor; [exact E|].
      eapply List.Forall_impl; [|exact Hall]. intros z Hz. now apply Htrans with y.
    + constructor; [exact IH|].
      eapply Permutation_Forall; [symmetry; apply insert_by_perm|].
      constructor; [|exact Hall].
      destruct (Htot x y) as [H|H]; [congruence | exact H].
Qed.

Lemma sort_by_sorted (l : list A) :
  total_order le -> StronglySorted (fun a b => le a b = true) (Sql.sort_by le l).
Proof.
  intros H. induction l as [|x l IH]; simpl; [constructor|].
  now apply insert_by_sorted.
Qed.

Lemma In_firstn (x : A) (n : nat) (l : list A) : In x (firstn n l) -> In x l.
Proof.
  revert n. induction l as [|y l IH]; intros [|n]; simpl; try easy.
  intros [H|H]; [now left | right; eauto].
Qed.

Lemma firstn_sorted (R : A -> A -> Prop) (n : nat) (l : list A) :
  StronglySorted R l -> StronglySorted R (firstn n l).
Proof.
  intros Hs. revert n. induction Hs as [|x l Hs IH Hall]; intros [|n]; simpl;
    try constructor; [apply IH|].
  apply List.Forall_forall. intros y Hy. apply In_firstn in Hy.
  revert y Hy. now apply List.Forall_forall.
Qed.

End SortFacts.

Lemma received_desc_total : total_order Sql.received_desc.
Proof.
  split.
  - intros a b. unfold Sql.received_desc.
    destruct (received_at a), (received_at b); auto.
    destruct (Z.leb_spec z0 z); [now left | right; apply Z.leb_le; lia].
  - intros a b c. unfold Sql.received_desc.
    destruct (received_at a), (received_at b), (received_at c); try easy.
    rewrite !Z.leb_le. lia.
Qed.

Lemma nearer_total (env : Env) {A : Type} (emb : A -> option Vec) (qv : Vec) :
  total_order (nearer env emb qv).
Proof.
  split.
  - intros a b. unfold nearer. rewrite !Qle_bool_iff.
    destruct (Qlt_le_dec (distance env qv (emb b)) (distance env qv (emb a))) as [H|H].
    + right. now apply Qlt_le_weak.
    + now left.
  - intros a b c. unfold nearer. rewrite !Qle_bool_iff. apply Qle_trans.
Qed.

Lemma limit_rows_ok {A : Type} (n : Z) (rows : list A) :
  0 <= n -> Sql.limit_rows n rows = Ok (firstn (Z.to_nat n) rows).
Proof.
  intros H. unfold Sql.limit_rows.
  destruct (Z.ltb_spec n 0); [lia | reflexivity].
Qed.

Lemma next_id_fresh (ids : list Z) : Forall (fun i => i < Sql.next_id ids) ids.
Proof.
  unfold Sql.next_id. induction ids as [|i ids IH]; simpl; constructor.
  - lia.
  - eapply List.Forall_impl; [|exact IH]. simpl. intros. lia.
Qed.

(** * rag_service: how the searches run *)

Lemma get_embedding_run (env : Env) (text : string) (w : World) :
  get_embedding env text w =
  (match embeddings_create env (embedding_input text) with
   | Ok v => Ret v
   | Err e => Raise e
   end,
   logged (EvEmbed (embedding_input text)) w).
Proof.
  unfold get_embedding, bind, emit, lift. cbn beta iota zeta.
  destruct (embeddings_create env (embedding_input text)); reflexivity.
Qed.

Section DictFacts.

Context {A : Type} (id : A -> Z).

Lemma dict_fold_absent (rows : list A) (m : gmap Z A) (k : Z) :
  ~ In k (map id rows) ->
  fold_left (fun m r => <[id r := r]> m) rows m !! k = m !! k.
Proof.
  revert m. induction rows as [|r rows IH]; intros m Hk; simpl; [reflexivity|].
  simpl in Hk. rewrite IH by tauto.
  apply lookup_insert_ne. tauto.
Qed.

Lemma dict_fold_lookup (rows : list A) (m : gmap Z A) (r : A) :
  List.NoDup (map id rows) -> In r rows ->
  fold_left (fun m r => <[id r := r]> m) rows m !! id r = Some r.
Proof.
  revert m. induction rows as [|a rows IH]; intros m Hnd Hin; [easy|].
  simpl in Hnd. apply List.NoDup_cons_iff in Hnd as [Ha Hnd].
  destruct Hin as [->|Hin]; simpl.
  - rewrite dict_fold_absent by exact Ha. apply lookup_insert_eq.
  - now apply IH.
Qed.

Lemma NoDup_map_filter (f : A -> bool) (l : list A) :
  List.NoDup (map id l) -> List.NoDup (map id (List.filter f l)).
Proof.
  induction l as [|a l IH]; simpl; intros H; [constructor|].
  apply List.NoDup_cons_iff in H as [Ha H].
  destruct (f a); simpl; [|auto].
  constructor; [|auto].
  intros Hin. apply Ha. apply in_map_iff in Hin as (x & Hx & Hxin).
  apply filter_In in Hxin as [Hxin _]. apply in_map_iff. eauto.
Qed.

Lemma in_order_all (d : gmap Z A) (rs : list A) :
  (forall r, In r rs -> d !! id r = Some r) ->
  in_order d (map id rs) = rs.
Proof.
  unfold in_order. induction rs as [|r rs IH]; intros H; simpl; [reflexivity|].
  rewrite (H r) by now left. simpl. f_equal. apply IH. intros; apply H; now right.
Qed.

(** Reading the ranked rows back by primary key gives the ranked rows. *)
Lemma in_order_rows (table rs : list A) :
  List.NoDup (map id table) ->
  (forall r, In r rs -> In r table) ->
  in_order
    (dict_by_id id (List.filter (fun r => existsb (Z.eqb (id r)) (map id rs)) table))
    (map id rs) = rs.
Proof.
  intros Hnd Hsub. apply in_order_all. intros r Hr.
  unfold dict_by_id. apply dict_fold_lookup.
  - now apply NoDup_map_filter.
  - apply filter_In. split; [auto|].
    apply existsb_exists. exists (id r). split; [now apply in_map | apply Z.eqb_refl].
Qed.

End DictFacts.

Lemma ranked_emails_sub (env : Env) (user : Z) (qv : Vec) (d : DB) (n : nat) (e : Email) :
  In e (firstn n (ranked_emails env user qv d)) -> In e (emails d).
Proof.
  intros H. apply In_firstn in H. apply sort_by_In in H.
  now apply filter_In in H as [H _].
Qed.

Lemma ranked_contacts_sub (env : Env) (user : Z) (qv : Vec) (d : DB) (n : nat) (c : Contact) :
  In c (firstn n (ranked_contacts env user qv d)) -> In c (contacts d).
Proof.
  intros H. apply In_firstn in H. apply sort_by_In in H.
  now apply filter_In in H as [H _].
Qed.

(** The exact-match phase answers: nothing is embedded, nothing changes. *)
Lemma search_emails_exact (env : Env) (user : Z) (query : string) (limit : Z) (w : World) :
  0 <= limit ->
  firstn (Z.to_nat limit) (exact_rows user (Text.strip (Text.lower query)) (db w)) <> [] ->
  search_emails env user query limit w =
  (Ret (firstn (Z.to_nat limit) (exact_rows user (Text.strip (Text.lower query)) (db w))), w).
Proof.
  intros Hl Hne. unfold search_emails, bind, get_world.
  rewrite limit_rows_ok by exact Hl. cbn [lift ret].
  destruct (firstn _ _) eqn:E; [congruence | reflexivity].
Qed.

(** The exact-match phase finds nothing: one embedding call, then the
    ranking. *)
Lemma search_emails_semantic (env : Env) (user : Z) (query : string) (limit : Z) (w : World) :
  0 <= limit ->
  List.NoDup (map email_id (emails (db w))) ->
  firstn (Z.to_nat limit) (exact_rows user (Text.strip (Text.lower query)) (db w)) = [] ->
  search_emails env user query limit w =
  (match embeddings_create env (embedding_input query) with
   | Ok qv => Ret (firstn (Z.to_nat limit) (ranked_emails env user qv (db w)))
   | Err e => Raise e
   end,
   logged (EvEmbed (embedding_input query)) w).
Proof.
  intros Hl Hnd Hnil. unfold search_emails, bind, get_world.
  rewrite limit_rows_ok by exact Hl. cbn [lift ret]. rewrite Hnil.
  rewrite get_embedding_run.
  destruct (embeddings_create env (embedding_input query)) as [qv|e]; [|reflexivity].
  rewrite limit_rows_ok by exact Hl. cbn [lift logged db]. unfold ret.
  f_equal. f_equal. apply in_order_rows; [exact Hnd|].
  intros r. apply ranked_emails_sub.
Qed.

Lemma search_contacts_run (env : Env) (user : Z) (query : string) (limit : Z) (w : World) :
  0 <= limit ->
  List.NoDup (map contact_id (contacts (db w))) ->
  search_contacts env user query limit w =
  (match embeddings_create env (embedding_input query) with
   | Ok qv => Ret (firstn (Z.to_nat limit) (ranked_contacts env user qv (db w)))
   | Err e => Raise e
   end,
   logged (EvEmbed (embedding_input query)) w).
Proof.
  intros Hl Hnd. unfold search_contacts, bind, get_world.
  rewrite get_embedding_run.
  destruct (embeddings_create env (embedding_input query)) as [qv|e]; [|reflexivity].
  rewrite limit_rows_ok by exact Hl. cbn [lift logged db]. unfold ret.
  f_equal. f_equal. apply in_order_rows; [exact Hnd|].
  intros r. apply ranked_contacts_sub.
Qed.

Lemma exact_rows_nil (user : Z) (ql : string) (d : DB) :
  exact_rows user ql d = [] <->
  (forall e, In e (emails d) -> email_user_id e = user -> sender_matches ql e = false).
Proof.
  unfold exact_rows. rewrite sort_by_nil. split.
  - intros H e He Hu. destruct (sender_matches ql e) eqn:E; [|reflexivity].
    assert (Hin : In e (List.filter
              (fun e => (email_user_id e =? user) && sender_matches ql e) (emails d))).
    { apply filter_In. split; [exact He|]. rewrite E, andb_true_r. now apply Z.eqb_eq. }
    rewrite H in Hin. destruct Hin.
  - intros H. induction (emails d) as [|e l IH]; simpl; [reflexivity|].
    destruct (Z.eqb_spec (email_user_id e) user) as [Hu|Hu]; simpl.
    + rewrite (H e) by (auto; now left). apply IH. intros; apply H; auto; now right.
    + apply IH. intros; apply H; auto; now right.
Qed.

(** * Retrieval: exact-match precedence and the semantic fallback *)

Lemma search_contacts_world (env : Env) (user : Z) (query : string) (limit : Z) (w : World) :
  snd (search_contacts env user query limit w) = logged (EvEmbed (embedding_input query)) w.
Proof.
  unfold search_contacts, bind, get_world. rewrite get_embedding_run.
  destruct (embeddings_create env (embedding_input query)); [|reflexivity].
  unfold Sql.limit_rows. destruct (limit <? 0); reflexivity.
Qed.

Lemma format_loop_world (env : Env) (es : list Email) (acc : list string) (w : World) :
  snd (for_each es
         (fun e parts => block <- format_email env e ;; ret (parts ++ [block])%list)
         acc w) = w.
Proof.
  revert acc. induction es as [|e es IH]; intros acc; [reflexivity|].
  cbn [for_each]. unfold bind at 1. unfold bind at 1. unfold format_email.
  destruct (body_text e); cbn; [apply IH | reflexivity].
Qed.

(** Once the email search has answered, the rest of [get_relevant_context]
    makes the one embedding call of the contact search and no other call. *)
Lemma get_relevant_context_world (env : Env) (user : Z) (query : string)
    (email_limit contact_limit : Z) (w w0 : World) (hits : list Email) :
  search_emails env user query email_limit w = (Ret hits, w0) ->
  snd (get_relevant_context env user query email_limit contact_limit w) =
  logged (EvEmbed (embedding_input query)) w0.
Proof.
  intros Hs. unfold get_relevant_context. unfold bind at 1. rewrite Hs.
  unfold bind at 1.
  pose proof (search_contacts_world env user query contact_limit w0) as Hc.
  destruct (search_contacts env user query contact_limit w0) as [[cs|e|] w1];
    cbn [snd] in Hc; subst w1; [|reflexivity|reflexivity].
  unfold bind at 1.
  destruct hits as [|h hits].
  - cbn [ret]. destruct cs; reflexivity.
  - pose proof (format_loop_world env (h :: hits) ["## Relevant Emails:"]
                  (logged (EvEmbed (embedding_input query)) w0)) as Hf.
    destruct (for_each (h :: hits) _ _ _) as [[parts|e|] w2];
      cbn [snd] in Hf; subst w2; [|reflexivity|reflexivity].
    destruct (parts ++ _)%list; reflexivity.
Qed.

Lemma sender_matches_contains (q : string) (e : Email) :
  Text.no_meta q = true ->
  sender_matches (Text.strip (Text.lower q)) e =
  sender_contains (Text.strip (Text.lower q)) e.
Proof.
  intros H. unfold sender_matches, sender_contains.
  destruct (from_email e) as [s|]; [|reflexivity].
  assert (Hq : Text.no_meta (Text.strip (Text.lower q)) = true)
    by (apply no_meta_strip; now rewrite no_meta_lower).
  rewrite !ilike_contains_ci; auto using no_meta_remove_spaces.
Qed.

(** A sender that holds the query as it was typed, whatever the case, passes
    the filter when the query has no LIKE metacharacter. *)
Lemma sender_holds_query (q sender : string) (e : Email) :
  Text.no_meta q = true ->
  from_email e = Some sender ->
  Text.contains_ci q sender = true ->
  sender_matches (Text.strip (Text.lower q)) e = true.
Proof.
  intros Hq Hs Hc. rewrite sender_matches_contains by exact Hq.
  unfold sender_contains. rewrite Hs.
  now rewrite (contains_ci_strip _ _ Hc).
Qed.

Lemma StronglySorted_impl {A : Type} (R R' : A -> A -> Prop) (l : list A) :
  (forall a b, R a b -> R' a b) -> StronglySorted R l -> StronglySorted R' l.
Proof.
  intros H Hs. induction Hs as [|x l Hs IH Hall]; constructor; [exact IH|].
  eapply List.Forall_impl; [|exact Hall]. auto.
Qed.

Lemma exact_rows_In (user : Z) (ql : string) (d : DB) (e : Email) :
  In e (exact_rows user ql d) <->
  In e (emails d) /\ email_user_id e = user /\ sender_matches ql e = true.
Proof.
  unfold exact_rows. rewrite sort_by_In, filter_In, andb_true_iff, Z.eqb_eq. tauto.
Qed.

(** C1 (as amended).  When at least one of the user's communications is
    matched by the exact-match filter and the email limit is positive,
    [search_emails] returns exactly the matched communications, newest
    first, cut to the limit, and leaves the world as it was: no embedding
    call, no other call.  The matched communications are those whose sender
    is matched by one of the two ILIKE patterns; for a query without [%], [_]
    and backslash that is case-insensitive containment of the stripped,
    lower-cased query or of its space-free form, so a sender that holds
    the query as typed is among them.  [get_relevant_context],
    which also runs the contact search, then makes exactly one embedding
    call, the one of the contact search. *)
Theorem C1_exact_match_precedence (env : Env) (w : World) (user : Z) (query : string)
    (email_limit contact_limit : Z) :
  0 < email_limit ->
  (exists e, In e (emails (db w)) /\ email_user_id e = user /\
             sender_matches (Text.strip (Text.lower query)) e = true) ->
  let ql := Text.strip (Text.lower query) in
  let hits := firstn (Z.to_nat email_limit) (exact_rows user ql (db w)) in
  search_emails env user query email_limit w = (Ret hits, w) /\
  hits <> [] /\
  Permutation (exact_rows user ql (db w))
    (List.filter (fun e => (email_user_id e =? user) && sender_matches ql e) (emails (db w))) /\
  StronglySorted (fun a b => Sql.received_desc a b = true) hits /\
  (forall e, In e hits ->
     In e (emails (db w)) /\ email_user_id e = user /\ sender_matches ql e = true) /\
  (Text.no_meta query = true -> forall e, sender_matches ql e = sender_contains ql e) /\
  (Text.no_meta query = true -> forall e sender,
     from_email e = Some sender -> Text.contains_ci query sender = true ->
     sender_matches ql e = true) /\
  snd (get_relevant_context env user query email_limit contact_limit w) =
  logged (EvEmbed (embedding_input query)) w.
Proof.
  intros Hl (e0 & He0 & Hu0 & Hm0) ql hits.
  assert (Hne : hits <> []).
  { subst hits. assert (Hin : In e0 (exact_rows user ql (db w)))
      by (apply exact_rows_In; auto).
    destruct (exact_rows user ql (db w)) as [|x l]; [destruct Hin|].
    destruct (Z.to_nat email_limit) eqn:E; [lia | discriminate]. }
  assert (Hrun : search_emails env user query email_limit w = (Ret hits, w))
    by (apply search_emails_exact; [lia | exact Hne]).
  repeat split.
  - exact Hrun.
  - exact Hne.
  - apply sort_by_perm.
  - apply firstn_sorted, sort_by_sorted, received_desc_total.
  - now apply In_firstn, exact_rows_In in H.
  - now apply In_firstn, exact_rows_In in H.
  - now apply In_firstn, exact_rows_In in H.
  - intros Hq e. now apply sender_matches_contains.
  - intros Hq e sender Hs Hc. now apply sender_holds_query with (sender := sender).
  - now apply get_relevant_context_world with (hits := hits).
Qed.

Lemma C1_exact_match_precedence_witness :
  search_emails Demo.env 1 "Alice" 5 Demo.mailbox =
    (Ret [ Demo.mail 4 1 "a2" "ALICE@x.com" "Later" 300 None;
           Demo.mail 1 1 "a1" "Alice <alice@x.com>" "Lunch" 200 (Some [(3 # 10)%Q]) ],
     Demo.mailbox) /\
  trace (snd (get_relevant_context Demo.env 1 "Alice" 5 5 Demo.mailbox)) = [EvEmbed "Alice"].
Proof.
  assert (H1 : 0 < 5) by lia.
  assert (H2 : exists e, In e (emails (db Demo.mailbox)) /\ email_user_id e = 1 /\
                         sender_matches (Text.strip (Text.lower "Alice")) e = true).
  { eexists. split; [left; reflexivity|]. split; reflexivity. }
  destruct (C1_exact_match_precedence Demo.env Demo.mailbox 1 "Alice" 5 5 H1 H2)
    as (Hrun & _ & _ & _ & _ & _ & _ & Hctx).
  split; [exact Hrun | now rewrite Hctx].
Defined.

(** C1 as stated fails: the user's one communication is from [alice@x.com],
    the query is [alice], and [get_relevant_context] still calls the
    embedding provider, once, for the contact search. *)
Lemma C1_counterexample :
  (exists e, In e (emails (db Demo.inbox)) /\ email_user_id e = 1 /\
             from_email e = Some "alice@x.com" /\
             Text.contains_ci "alice" "alice@x.com" = true) /\
  trace Demo.inbox = [] /\
  trace (snd (get_relevant_context Demo.env 1 "alice" 5 5 Demo.inbox)) = [EvEmbed "alice"].
Proof.
  split; [|split; reflexivity].
  eexists. split; [left; reflexivity|]. repeat split; reflexivity.
Qed.

Lemma ranked_emails_sorted (env : Env) (user : Z) (qv : Vec) (d : DB) :
  StronglySorted
    (fun a b => (distance env qv (email_embedding a) <= distance env qv (email_embedding b))%Q)
    (ranked_emails env user qv d).
Proof.
  eapply StronglySorted_impl; [|apply sort_by_sorted, nearer_total].
  intros a b H. now apply Qle_bool_iff.
Qed.

Lemma ranked_contacts_sorted (env : Env) (user : Z) (qv : Vec) (d : DB) :
  StronglySorted
    (fun a b => (distance env qv (contact_embedding a) <=
                 distance env qv (contact_embedding b))%Q)
    (ranked_contacts env user qv d).
Proof.
  eapply StronglySorted_impl; [|apply sort_by_sorted, nearer_total].
  intros a b H. now apply Qle_bool_iff.
Qed.

Lemma StronglySorted_within {A : Type} (R R' : A -> A -> Prop) (l : list A) :
  (forall a b, In a l -> In b l -> R a b -> R' a b) ->
  StronglySorted R l -> StronglySorted R' l.
Proof.
  intros H Hs. induction Hs as [|x l Hs IH Hall]; constructor.
  - apply IH. intros a b Ha Hb. apply H; now right.
  - apply List.Forall_forall. intros b Hb. rewrite List.Forall_forall in Hall.
    apply H; [now left | now right | now apply Hall].
Qed.

(** The rows ranked by the semantic search, in the terms of the outside:
    each has an embedding, and a row comes before another only when its
    embedding is at most as far from the query vector. *)
Lemma ranked_by_distance {A : Type} (env : Env) (emb : A -> option Vec) (qv : Vec)
    (rows : list A) :
  Forall (fun r => emb r <> None) rows ->
  StronglySorted
    (fun a b => exists va vb, emb a = Some va /\ emb b = Some vb /\
                              (cosine_distance env va qv <= cosine_distance env vb qv)%Q)
    (Sql.sort_by (nearer env emb qv) rows).
Proof.
  intros Hall.
  apply StronglySorted_within
    with (R := fun a b => (distance env qv (emb a) <= distance env qv (emb b))%Q).
  - intros a b Ha Hb Hab. apply sort_by_In in Ha, Hb.
    rewrite List.Forall_forall in Hall.
    pose proof (Hall a Ha) as Ea. pose proof (Hall b Hb) as Eb.
    destruct (emb a) as [va|]; [|congruence]. destruct (emb b) as [vb|]; [|congruence].
    exists va, vb. auto.
  - eapply StronglySorted_impl; [|apply sort_by_sorted, nearer_total].
    intros a b H. now apply Qle_bool_iff.
Qed.

(** C5.  When the exact-match filter matches none of the user's
    communications, [search_emails] falls back to the semantic search, and
    [search_contacts] is that search always: the embedding provider is
    called exactly once, with the query cut to its first 20000 characters,
    and nothing else is called or changed; when the provider fails, its
    error is raised; when it answers with a vector, the result is the first
    [k] of a list that holds exactly the user's rows of that type that have
    an embedding, each once, in ascending order of the cosine distance
    between the embedding of the row and that vector.  The primary keys of a
    table are distinct. *)
Theorem C5_semantic_fallback (env : Env) (w : World) (user : Z) (query : string) (k : Z) :
  0 <= k ->
  List.NoDup (map email_id (emails (db w))) ->
  List.NoDup (map contact_id (contacts (db w))) ->
  (forall e, In e (emails (db w)) -> email_user_id e = user ->
             sender_matches (Text.strip (Text.lower query)) e = false) ->
  let text :=
    if 20000 <? Z.of_nat (String.length query)
    then String.substring 0 (Z.to_nat 20000) query else query in
  let embedded := fun {A : Type} (emb : A -> option Vec) (r : A) =>
    match emb r with Some _ => true | None => false end in
  let by_distance := fun {A : Type} (emb : A -> option Vec) (qv : Vec) (a b : A) =>
    exists va vb, emb a = Some va /\ emb b = Some vb /\
                  (cosine_distance env va qv <= cosine_distance env vb qv)%Q in
  snd (search_emails env user query k w) = logged (EvEmbed text) w /\
  snd (search_contacts env user query k w) = logged (EvEmbed text) w /\
  (forall err, embeddings_create env text = Err err ->
     fst (search_emails env user query k w) = Raise err /\
     fst (search_contacts env user query k w) = Raise err) /\
  (forall qv, embeddings_create env text = Ok qv ->
     exists ranked_mail ranked_people,
       fst (search_emails env user query k w) = Ret (firstn (Z.to_nat k) ranked_mail) /\
       fst (search_contacts env user query k w) = Ret (firstn (Z.to_nat k) ranked_people) /\
       Permutation ranked_mail
         (List.filter (fun e => (email_user_id e =? user) && embedded email_embedding e)
            (emails (db w))) /\
       Permutation ranked_people
         (List.filter (fun c => (contact_user_id c =? user) && embedded contact_embedding c)
            (contacts (db w))) /\
       StronglySorted (by_distance email_embedding qv) ranked_mail /\
       StronglySorted (by_distance contact_embedding qv) ranked_people).
Proof.
  intros Hk Hne Hnc Hnone text embedded by_distance.
  assert (Hnil : firstn (Z.to_nat k)
                   (exact_rows user (Text.strip (Text.lower query)) (db w)) = []).
  { apply exact_rows_nil in Hnone. rewrite Hnone. now destruct (Z.to_nat k). }
  pose proof (search_emails_semantic env user query k w Hk Hne Hnil) as He.
  pose proof (search_contacts_run env user query k w Hk Hnc) as Hc.
  change (embedding_input query) with text in He, Hc. rewrite He, Hc. cbn [fst snd].
  split; [reflexivity|]. split; [reflexivity|]. split.
  - intros err Herr. rewrite Herr. now split.
  - intros qv Hqv. rewrite Hqv.
    exists (ranked_emails env user qv (db w)), (ranked_contacts env user qv (db w)).
    split; [reflexivity|]. split; [reflexivity|].
    split; [apply sort_by_perm|]. split; [apply sort_by_perm|].
    split.
    + apply ranked_by_distance. apply List.Forall_forall. intros e Hin.
      apply filter_In in Hin as [_ Hin]. apply andb_true_iff in Hin as [_ Hin].
      destruct (email_embedding e); [discriminate | discriminate Hin].
    + apply ranked_by_distance. apply List.Forall_forall. intros c Hin.
      apply filter_In in Hin as [_ Hin]. apply andb_true_iff in Hin as [_ Hin].
      destruct (contact_embedding c); [discriminate | discriminate Hin].
Qed.

Lemma C5_semantic_fallback_witness :
  search_emails Demo.unit_vectors 1 "reschedule my appointment" 5 Demo.compass =
    (Ret [ Demo.mail 2 1 "b1" "bob@y.org" "Invoice" 100 (Some [0%Q; 1%Q]);
           Demo.mail 1 1 "a1" "Alice <alice@x.com>" "Lunch" 200 (Some [1%Q; 0%Q]) ],
     logged (EvEmbed "reschedule my appointment") Demo.compass).
Proof.
  assert (H1 : 0 <= 5) by lia.
  assert (H2 : List.NoDup (map email_id (emails (db Demo.compass)))).
  { repeat constructor; simpl; intuition lia. }
  assert (H3 : List.NoDup (map contact_id (contacts (db Demo.compass)))) by constructor.
  assert (H4 : forall e, In e (emails (db Demo.compass)) -> email_user_id e = 1 ->
                 sender_matches (Text.strip (Text.lower "reschedule my appointment")) e = false).
  { intros e [<-|[<-|[<-|[<-|[]]]]] Hu; try reflexivity; discriminate Hu. }
  pose proof (C5_semantic_fallback Demo.unit_vectors Demo.compass 1
                "reschedule my appointment" 5 H1 H2 H3 H4) as H.
  cbv zeta in H. destruct H as (Hw & _ & _ & Hok).
  destruct (Hok [(3 # 5)%Q; (4 # 5)%Q] eq_refl) as (ranked & _ & Hr & _).
  rewrite (surjective_pairing (search_emails _ _ _ _ _)), Hw.
  reflexivity.
Defined.

(** With no sender match [get_relevant_context] embeds the query twice, once
    in each search. *)
Lemma get_relevant_context_two_calls :
  trace (snd (get_relevant_context Demo.env 1 "reschedule my appointment" 5 5 Demo.mailbox)) =
  [EvEmbed "reschedule my appointment"; EvEmbed "reschedule my appointment"].
Proof. reflexivity. Qed.

(** * The frame and termination of the building blocks *)

Lemma evolves_refl (w : World) : evolves w w.
Proof.
  constructor; try reflexivity; exists []; now rewrite app_nil_r.
Qed.

Lemma evolves_trans (w1 w2 w3 : World) : evolves w1 w2 -> evolves w2 w3 -> evolves w1 w3.
Proof.
  intros [S1 C1 U1 [n1 E1] [t1 T1]] [S2 C2 U2 [n2 E2] [t2 T2]].
  constructor; try congruence.
  - exists (n1 ++ n2)%list. rewrite E2, E1. now rewrite <- app_assoc.
  - exists (t1 ++ t2)%list. rewrite T2, T1. now rewrite <- app_assoc.
Qed.

Lemma evolves_logged (ev : Event) (w : World) : evolves w (logged ev w).
Proof.
  constructor; try reflexivity; [exists [] | exists [ev]];
    cbn; now rewrite ?app_nil_r.
Qed.

Lemma preserves_ret {A : Type} (a : A) : preserves (ret a).
Proof. intros w. apply evolves_refl. Qed.

Lemma preserves_raise {A : Type} (e : Exn) : preserves (@raise A e).
Proof. intros w. apply evolves_refl. Qed.

Lemma preserves_diverge {A : Type} : preserves (@diverge A).
Proof. intros w. apply evolves_refl. Qed.

Lemma preserves_lift {A : Type} (r : Res A) : preserves (lift r).
Proof. destruct r; [apply preserves_ret | apply preserves_raise]. Qed.

Lemma preserves_get_world : preserves get_world.
Proof. intros w. apply evolves_refl. Qed.

Lemma preserves_emit (ev : Event) : preserves (emit ev).
Proof. intros w. apply evolves_logged. Qed.

Lemma preserves_bind {A B : Type} (m : M A) (k : A -> M B) :
  preserves m -> (forall a, preserves (k a)) -> preserves (bind m k).
Proof.
  intros Hm Hk w. unfold bind. specialize (Hm w).
  destruct (m w) as [[a|e|] w1]; cbn [snd] in *; [|exact Hm|exact Hm].
  eapply evolves_trans; [exact Hm | apply Hk].
Qed.

Lemma preserves_try_except {A : Type} (m : M A) (h : Exn -> M A) :
  preserves m -> (forall e, preserves (h e)) -> preserves (try_except m h).
Proof.
  intros Hm Hh w. unfold try_except. specialize (Hm w).
  destruct (m w) as [[a|e|] w1]; cbn [snd] in *; [exact Hm| |exact Hm].
  eapply evolves_trans; [exact Hm | apply Hh].
Qed.

Lemma preserves_for_each {A S : Type} (xs : list A) (body : A -> S -> M S) (s : S) :
  (forall x s, preserves (body x s)) -> preserves (for_each xs body s).
Proof.
  intros Hb. revert s. induction xs as [|x xs IH]; intros s; cbn [for_each].
  - apply preserves_ret.
  - apply preserves_bind; [apply Hb | intros; apply IH].
Qed.

Lemma terminates_ret {A : Type} (a : A) : terminates (ret a).
Proof. intros w. discriminate. Qed.

Lemma terminates_raise {A : Type} (e : Exn) : terminates (@raise A e).
Proof. intros w. discriminate. Qed.

Lemma terminates_lift {A : Type} (r : Res A) : terminates (lift r).
Proof. destruct r; [apply terminates_ret | apply terminates_raise]. Qed.

Lemma terminates_get_world : terminates get_world.
Proof. intros w. discriminate. Qed.

Lemma terminates_emit (ev : Event) : terminates (emit ev).
Proof. intros w. discriminate. Qed.

Lemma terminates_set_db (d : DB) : terminates (set_db d).
Proof. intros w. discriminate. Qed.

Lemma terminates_set_sync_status (s : gmap Z (gmap string SyncEntry)) :
  terminates (set_sync_status s).
Proof. intros w. discriminate. Qed.

Lemma terminates_bind {A B : Type} (m : M A) (k : A -> M B) :
  terminates m -> (forall a, terminates (k a)) -> terminates (bind m k).
Proof.
  intros Hm Hk w. unfold bind. specialize (Hm w).
  destruct (m w) as [[a|e|] w1]; cbn [fst] in *; [apply Hk | discriminate | congruence].
Qed.

Lemma terminates_try_except {A : Type} (m : M A) (h : Exn -> M A) :
  terminates m -> (forall e, terminates (h e)) -> terminates (try_except m h).
Proof.
  intros Hm Hh w. unfold try_except. specialize (Hm w).
  destruct (m w) as [[a|e|] w1]; cbn [fst] in *; [discriminate | apply Hh | congruence].
Qed.

Lemma terminates_for_each {A S : Type} (xs : list A) (body : A -> S -> M S) (s : S) :
  (forall x s, terminates (body x s)) -> terminates (for_each xs body s).
Proof.
  intros Hb. revert s. induction xs as [|x xs IH]; intros s; cbn [for_each].
  - apply terminates_ret.
  - apply terminates_bind; [apply Hb | intros; apply IH].
Qed.

(** A handler that returns makes the whole [try] return, whatever the body
    raises, as long as the body does not run on. *)
Lemma try_except_returns {A : Type} (m : M A) (h : Exn -> A) (w : World) :
  fst (m w) <> Diverge ->
  exists a w', try_except m (fun e => ret (h e)) w = (Ret a, w').
Proof.
  intros H. unfold try_except. destruct (m w) as [[a|e|] w1]; cbn in *.
  - now exists a, w1.
  - now exists (h e), w1.
  - congruence.
Qed.

Lemma for_each_app {A S : Type} (xs ys : list A) (body : A -> S -> M S) (s : S) (w : World) :
  for_each (xs ++ ys) body s w =
  bind (for_each xs body s) (fun s' => for_each ys body s') w.
Proof.
  revert s w. induction xs as [|x xs IH]; intros s w; cbn [for_each app].
  - reflexivity.
  - unfold bind in *.
    destruct (body x s w) as [[s1|e|] w1]; [apply IH | reflexivity | reflexivity].
Qed.

Create HintDb frame.
#[export] Hint Resolve preserves_ret preserves_raise preserves_diverge preserves_lift
  preserves_get_world preserves_emit : frame.

Create HintDb halts.
#[export] Hint Resolve terminates_ret terminates_raise terminates_lift terminates_get_world
  terminates_emit terminates_set_db terminates_set_sync_status : halts.

(** One step of a compositional proof: take the code apart at its binds,
    handlers, loops and case distinctions. *)
Ltac frame_step :=
  match goal with
  | |- preserves (bind _ _) => apply preserves_bind; [|intros]
  | |- preserves (try_except _ _) => apply preserves_try_except; [|intros]
  | |- preserves (for_each _ _ _) => apply preserves_for_each; intros
  | |- preserves (match ?x with _ => _ end) => destruct x
  | |- preserves (let '(_, _) := ?x in _) => destruct x
  | |- terminates (bind _ _) => apply terminates_bind; [|intros]
  | |- terminates (try_except _ _) => apply terminates_try_except; [|intros]
  | |- terminates (for_each _ _ _) => apply terminates_for_each; intros
  | |- terminates (match ?x with _ => _ end) => destruct x
  | |- terminates (let '(_, _) := ?x in _) => destruct x
  end.

Ltac frame := repeat (first [ solve [auto with frame halts] | frame_step ]).

(** * The frame and termination of the agent *)

Ltac same_emails :=
  intros w; cbn; constructor; cbn; try reflexivity;
  exists []; now rewrite app_nil_r.

Lemma preserves_get_embedding (env : Env) (text : string) :
  preserves (get_embedding env text).
Proof. unfold get_embedding. frame. Qed.

Lemma terminates_get_embedding (env : Env) (text : string) :
  terminates (get_embedding env text).
Proof. unfold get_embedding. frame. Qed.

#[export] Hint Resolve preserves_get_embedding : frame.
#[export] Hint Resolve terminates_get_embedding : halts.

Lemma preserves_search_emails (env : Env) (user : Z) (query : string) (limit : Z) :
  preserves (search_emails env user query limit).
Proof. unfold search_emails. frame. Qed.

Lemma terminates_search_emails (env : Env) (user : Z) (query : string) (limit : Z) :
  terminates (search_emails env user query limit).
Proof. unfold search_emails. frame. Qed.

Lemma preserves_search_contacts (env : Env) (user : Z) (query : string) (limit : Z) :
  preserves (search_contacts env user query limit).
Proof. unfold search_contacts. frame. Qed.

Lemma terminates_search_contacts (env : Env) (user : Z) (query : string) (limit : Z) :
  terminates (search_contacts env user query limit).
Proof. unfold search_contacts. frame. Qed.

#[export] Hint Resolve preserves_search_emails preserves_search_contacts : frame.
#[export] Hint Resolve terminates_search_emails terminates_search_contacts : halts.

Lemma preserves_format_email (env : Env) (e : Email) : preserves (format_email env e).
Proof. unfold format_email. frame. Qed.

Lemma terminates_format_email (env : Env) (e : Email) : terminates (format_email env e).
Proof. unfold format_email. frame. Qed.

#[export] Hint Resolve preserves_format_email : frame.
#[export] Hint Resolve terminates_format_email : halts.

Lemma preserves_get_relevant_context (env : Env) (user : Z) (query : string) (l1 l2 : Z) :
  preserves (get_relevant_context env user query l1 l2).
Proof. unfold get_relevant_context. frame. Qed.

Lemma terminates_get_relevant_context (env : Env) (user : Z) (query : string) (l1 l2 : Z) :
  terminates (get_relevant_context env user query l1 l2).
Proof. unfold get_relevant_context. frame. Qed.

#[export] Hint Resolve preserves_get_relevant_context : frame.
#[export] Hint Resolve terminates_get_relevant_context : halts.

Lemma preserves_detect_trigger_type (env : Env) (text : string) :
  preserves (detect_trigger_type env text).
Proof. unfold detect_trigger_type. frame. Qed.

Lemma terminates_detect_trigger_type (env : Env) (text : string) :
  terminates (detect_trigger_type env text).
Proof. unfold detect_trigger_type. frame. Qed.

Lemma preserves_call_provider (env : Env) (token : string) (c : ProviderCall) :
  preserves (call_provider env token c).
Proof. unfold call_provider. frame. Qed.

Lemma terminates_call_provider (env : Env) (token : string) (c : ProviderCall) :
  terminates (call_provider env token c).
Proof. unfold call_provider. frame. Qed.

Lemma preserves_add_task (user : Z) (a b c : json) : preserves (add_task user a b c).
Proof.
  unfold add_task.
  apply preserves_bind; [auto with frame | intros type_text].
  apply preserves_bind; [auto with frame | intros description_text].
  destruct type_text; auto with frame. same_emails.
Qed.

Lemma terminates_add_task (user : Z) (a b c : json) : terminates (add_task user a b c).
Proof. unfold add_task. frame. Qed.

Lemma preserves_add_ongoing_instruction (user : Z) (a b : json) :
  preserves (add_ongoing_instruction user a b).
Proof.
  unfold add_ongoing_instruction.
  apply preserves_bind; [auto with frame | intros instruction_text].
  apply preserves_bind; [auto with frame | intros trigger_text].
  destruct instruction_text; auto with frame. same_emails.
Qed.

Lemma terminates_add_ongoing_instruction (user : Z) (a b : json) :
  terminates (add_ongoing_instruction user a b).
Proof. unfold add_ongoing_instruction. frame. Qed.

#[export] Hint Resolve preserves_detect_trigger_type preserves_call_provider
  preserves_add_task preserves_add_ongoing_instruction : frame.
#[export] Hint Resolve terminates_detect_trigger_type terminates_call_provider
  terminates_add_task terminates_add_ongoing_instruction : halts.

Lemma preserves_dispatch (env : Env) (agent : Agent) (name : string) (args : json) :
  preserves (dispatch env agent name args).
Proof. unfold dispatch. frame. Qed.

Lemma terminates_dispatch (env : Env) (agent : Agent) (name : string) (args : json) :
  terminates (dispatch env agent name args).
Proof. unfold dispatch. frame. Qed.

#[export] Hint Resolve preserves_dispatch : frame.
#[export] Hint Resolve terminates_dispatch : halts.

Lemma preserves_execute_tool (env : Env) (agent : Agent) (tc : ToolCall) :
  preserves (_execute_tool env agent tc).
Proof. unfold _execute_tool. frame. Qed.

Lemma terminates_execute_tool (env : Env) (agent : Agent) (tc : ToolCall) :
  terminates (_execute_tool env agent tc).
Proof. unfold _execute_tool. frame. Qed.

#[export] Hint Resolve preserves_execute_tool : frame.
#[export] Hint Resolve terminates_execute_tool : halts.

Lemma preserves_run_tool_calls (env : Env) (agent : Agent) (calls : list ToolCall)
    (messages : list Message) :
  preserves (run_tool_calls env agent calls messages).
Proof. unfold run_tool_calls. frame. Qed.

Lemma terminates_run_tool_calls (env : Env) (agent : Agent) (calls : list ToolCall)
    (messages : list Message) :
  terminates (run_tool_calls env agent calls messages).
Proof. unfold run_tool_calls. frame. Qed.

#[export] Hint Resolve preserves_run_tool_calls : frame.
#[export] Hint Resolve terminates_run_tool_calls : halts.

Lemma preserves_chat_body (env : Env) (agent : Agent) (messages : list Message) :
  preserves (chat_body env agent messages).
Proof. unfold chat_body. frame. Qed.

Lemma terminates_chat_body (env : Env) (agent : Agent) (messages : list Message) :
  terminates (chat_body env agent messages).
Proof. unfold chat_body. frame. Qed.

#[export] Hint Resolve preserves_chat_body : frame.
#[export] Hint Resolve terminates_chat_body : halts.

Lemma preserves_chat (env : Env) (agent : Agent) (message : string)
    (history : list (string * string)) :
  preserves (chat env agent message history).
Proof. unfold chat. frame. Qed.

Lemma terminates_chat (env : Env) (agent : Agent) (message : string)
    (history : list (string * string)) :
  terminates (chat env agent message history).
Proof. unfold chat. frame. Qed.

#[export] Hint Resolve preserves_chat : frame.
#[export] Hint Resolve terminates_chat : halts.

Lemma preserves_process_ongoing_instructions (env : Env) (agent : Agent)
    (trigger : string) (data : json) :
  preserves (process_ongoing_instructions env agent trigger data).
Proof. unfold process_ongoing_instructions. frame. Qed.

Lemma terminates_process_ongoing_instructions (env : Env) (agent : Agent)
    (trigger : string) (data : json) :
  terminates (process_ongoing_instructions env agent trigger data).
Proof. unfold process_ongoing_instructions. frame. Qed.

#[export] Hint Resolve preserves_process_ongoing_instructions : frame.
#[export] Hint Resolve terminates_process_ongoing_instructions : halts.

(** * The conversation orchestrator *)

Lemma try_except_ret_world {A : Type} (m : M A) (h : Exn -> A) (w : World) :
  snd (try_except m (fun e => ret (h e)) w) = snd (m w).
Proof. unfold try_except. now destruct (m w) as [[a|e|] w1]. Qed.

Lemma bind_emit_trace {A : Type} (ev : Event) (k : M A) (w : World) :
  preserves k ->
  exists rest, trace (snd ((emit ev ;;; k) w)) = (trace w ++ ev :: rest)%list.
Proof.
  intros Hk. unfold bind, emit. destruct (Hk (logged ev w)) as [_ _ _ _ [evs Ht]].
  exists evs. destruct (k (logged ev w)) as [[a|e|] w1]; cbn [snd] in *;
    rewrite Ht; cbn; now rewrite <- app_assoc.
Qed.

(** The first thing [chat] does is the model call with the tools on offer. *)
Lemma chat_first_call (env : Env) (agent : Agent) (message : string)
    (history : list (string * string)) (w : World) :
  exists rest,
    trace (snd (chat env agent message history w)) =
    (trace w ++ EvChat (first_request (chat_messages env agent message history w)) :: rest)%list.
Proof.
  unfold chat. unfold bind at 1. cbn [get_world]. rewrite try_except_ret_world.
  unfold chat_body. apply bind_emit_trace. frame.
Qed.

Lemma chat_body_ok (env : Env) (agent : Agent) (messages : list Message)
    (w w' : World) (r : ChatResult) :
  chat_body env agent messages w = (Ret r, w') -> chat_error r = None.
Proof.
  unfold chat_body, bind, emit, lift.
  destruct (chat_completions_create env (first_request messages)) as [am|e];
    cbn [ret raise]; [|discriminate].
  destruct (tool_calls am) as [|tc tcs].
  - unfold ret. intros [= <- _]. reflexivity.
  - destruct (run_tool_calls env agent (tc :: tcs) _ _) as [[msgs|e|] w1]; try discriminate.
    destruct (chat_completions_create env (final_request msgs)) as [fm|e];
      cbn [ret raise]; [|discriminate].
    unfold ret. intros [= <- _]. reflexivity.
Qed.

Lemma chat_run (env : Env) (agent : Agent) (message : string)
    (history : list (string * string)) (w : World) :
  chat env agent message history w =
  try_except (chat_body env agent (chat_messages env agent message history w))
    (fun e => ret (error_result e)) w.
Proof. reflexivity. Qed.

Lemma chat_catches (env : Env) (agent : Agent) (message : string)
    (history : list (string * string)) (w w1 : World) (e : Exn) :
  chat_body env agent (chat_messages env agent message history w) w = (Raise e, w1) ->
  chat env agent message history w = (Ret (error_result e), w1).
Proof. intros H. rewrite chat_run. unfold try_except. now rewrite H. Qed.

Lemma chat_returns (env : Env) (agent : Agent) (message : string)
    (history : list (string * string)) (w : World) :
  exists r w', chat env agent message history w = (Ret r, w') /\
    (chat_error r = None \/
     (response r = None /\ exists text, chat_error r = Some text)).
Proof.
  rewrite chat_run. set (messages := chat_messages env agent message history w).
  pose proof (terminates_chat_body env agent messages w) as Hterm.
  unfold try_except.
  destruct (chat_body env agent messages w) as [[r|e|] w1] eqn:E; cbn in Hterm.
  - exists r, w1. split; [reflexivity|]. left. eapply chat_body_ok; exact E.
  - exists (error_result e), w1. split; [reflexivity|]. right. cbn. eauto.
  - congruence.
Qed.

Lemma chat_first_call_fails (env : Env) (agent : Agent) (message : string)
    (history : list (string * string)) (w : World) (e : Exn) :
  let messages := chat_messages env agent message history w in
  chat_completions_create env (first_request messages) = Err e ->
  chat env agent message history w =
    (Ret (error_result e), logged (EvChat (first_request messages)) w).
Proof.
  intros messages He. apply chat_catches. fold messages.
  unfold chat_body, bind, emit, lift. now rewrite He.
Qed.

Lemma chat_tool_fails (env : Env) (agent : Agent) (message : string)
    (history : list (string * string)) (w w1 : World) (am : AssistantMessage) (e : Exn) :
  let messages := chat_messages env agent message history w in
  chat_completions_create env (first_request messages) = Ok am ->
  tool_calls am <> [] ->
  run_tool_calls env agent (tool_calls am) (messages ++ [MsgAssistant am])%list
    (logged (EvChat (first_request messages)) w) = (Raise e, w1) ->
  chat env agent message history w = (Ret (error_result e), w1).
Proof.
  intros messages Ham Hne Hrun. apply chat_catches. fold messages.
  unfold chat_body, bind, emit, lift. rewrite Ham. cbn [ret].
  destruct (tool_calls am) as [|tc tcs]; [congruence|]. now rewrite Hrun.
Qed.

Lemma chat_final_call_fails (env : Env) (agent : Agent) (message : string)
    (history : list (string * string)) (w w1 : World) (am : AssistantMessage)
    (msgs : list Message) (e : Exn) :
  let messages := chat_messages env agent message history w in
  chat_completions_create env (first_request messages) = Ok am ->
  tool_calls am <> [] ->
  run_tool_calls env agent (tool_calls am) (messages ++ [MsgAssistant am])%list
    (logged (EvChat (first_request messages)) w) = (Ret msgs, w1) ->
  chat_completions_create env (final_request msgs) = Err e ->
  chat env agent message history w =
    (Ret (error_result e), logged (EvChat (final_request msgs)) w1).
Proof.
  intros messages Ham Hne Hrun He. apply chat_catches. fold messages.
  unfold chat_body, bind, emit, lift. rewrite Ham. cbn [ret].
  destruct (tool_calls am) as [|tc tcs]; [congruence|]. rewrite Hrun, He. reflexivity.
Qed.


(** A tool call whose arguments parse is executed to a payload: it never
    raises. *)
Lemma execute_tool_returns (env : Env) (agent : Agent) (tc : ToolCall) (args : json)
    (w : World) :
  json_loads env (function_arguments tc) = Ok args ->
  exists payload w', _execute_tool env agent tc w = (Ret payload, w').
Proof.
  intros H. unfold _execute_tool. unfold bind at 1. rewrite H. cbn [lift ret].
  apply try_except_returns with (h := fun e => fail_result (exn_msg e)).
  apply terminates_dispatch.
Qed.

(** A tool call whose arguments do not parse raises the parser's error, out
    of [_execute_tool], before anything is done. *)
Lemma execute_tool_bad_arguments (env : Env) (agent : Agent) (tc : ToolCall) (e : Exn)
    (w : World) :
  json_loads env (function_arguments tc) = Err e ->
  _execute_tool env agent tc w = (Raise e, w).
Proof. intros H. unfold _execute_tool, bind. now rewrite H. Qed.

Lemma run_tool_calls_returns (env : Env) (agent : Agent) (calls : list ToolCall)
    (messages : list Message) (w : World) :
  (forall tc, In tc calls -> exists args, json_loads env (function_arguments tc) = Ok args) ->
  exists msgs w', run_tool_calls env agent calls messages w = (Ret msgs, w').
Proof.
  unfold run_tool_calls. revert messages w.
  induction calls as [|tc calls IH]; intros messages w H; cbn [for_each].
  - now exists messages, w.
  - destruct (H tc) as [args Hargs]; [now left|].
    destruct (execute_tool_returns env agent tc args w Hargs) as (payload & w1 & Hrun).
    unfold bind at 1. unfold bind at 1. rewrite Hrun. cbn [ret].
    apply IH. intros; apply H; now right.
Qed.

(** C9.  When the model asks for tool calls and the arguments of one of
    them are not valid JSON, while those before it parse: [_execute_tool]
    raises on that call instead of returning a failure payload; the turn
    ends as an error result with no response text; and the world is the one
    left by the calls before it, so neither the calls after it nor the
    second model call are made. *)
Theorem C9_unparsable_arguments (env : Env) (agent : Agent) (message : string)
    (history : list (string * string)) (w : World) (am : AssistantMessage)
    (before after : list ToolCall) (bad : ToolCall) (e : Exn) :
  let messages := chat_messages env agent message history w in
  let started := logged (EvChat (first_request messages)) w in
  chat_completions_create env (first_request messages) = Ok am ->
  tool_calls am = (before ++ bad :: after)%list ->
  (forall tc, In tc before ->
     exists args, json_loads env (function_arguments tc) = Ok args) ->
  json_loads env (function_arguments bad) = Err e ->
  (forall w1, _execute_tool env agent bad w1 = (Raise e, w1)) /\
  chat env agent message history w =
    (Ret {| response := None;
            chat_error := Some ("Error processing message: " ++ exn_msg e) |},
     snd (run_tool_calls env agent before (messages ++ [MsgAssistant am])%list started)).
Proof.
  intros messages started Ham Hcalls Hbefore Hbad.
  split; [intros w1; now apply execute_tool_bad_arguments|].
  pose proof (chat_tool_fails env agent message history w) as Htool.
  cbv zeta in Htool. fold messages started in Htool.
  destruct (run_tool_calls_returns env agent before (messages ++ [MsgAssistant am])%list
              started Hbefore) as (msgs & w1 & Hrun).
  rewrite Hrun. cbn [snd]. apply (Htool w1 am e Ham).
  - rewrite Hcalls. now destruct before.
  - rewrite Hcalls. unfold run_tool_calls in *. rewrite for_each_app.
    unfold bind at 1. rewrite Hrun. cbn [for_each]. unfold bind at 1. unfold bind at 1.
    now rewrite (execute_tool_bad_arguments env agent bad e) by exact Hbad.
Qed.

(** * The trigger evaluator *)

Lemma triggered_instructions_In (user : Z) (trigger : string) (d : DB)
    (i : OngoingInstruction) :
  In i (triggered_instructions user trigger d) <->
  In i (ongoing_instructions d) /\ instruction_user_id i = user /\
  is_active i = Some true /\
  (trigger_type i = Some trigger \/ trigger_type i = Some "all").
Proof.
  unfold triggered_instructions. rewrite filter_In, !andb_true_iff, Z.eqb_eq.
  assert (Ha : match is_active i with Some true => true | _ => false end = true <->
               is_active i = Some true).
  { destruct (is_active i) as [[|]|]; split; congruence. }
  assert (Ht : match trigger_type i with
               | Some t => String.eqb t trigger || String.eqb t "all"
               | None => false
               end = true <->
               (trigger_type i = Some trigger \/ trigger_type i = Some "all")).
  { destruct (trigger_type i) as [t|].
    - rewrite orb_true_iff, !String.eqb_eq. split; intros [H|H]; auto; left + right; congruence.
    - split; [discriminate | intros [H|H]; discriminate]. }
  rewrite Ha, Ht. tauto.
Qed.

(** C7.  [process_ongoing_instructions] selects exactly the instructions of
    the agent's user that are active and typed for the event's source or for
    [all].  When there is none it returns [None] and the world is untouched:
    no model call.  When there is one it hands the prompt built from the
    selected instructions to [chat], whose first act is a model call.  So an
    instruction typed [calendar] is never selected for an [email] event, and
    an active instruction typed [all] is selected for every source. *)
Theorem C7_trigger_filtering (env : Env) (agent : Agent) (trigger : string) (data : json)
    (w : World) :
  let user := user_id (agent_user agent) in
  let selected := triggered_instructions user trigger (db w) in
  let prompt := trigger_prompt env (clock w) trigger data selected in
  (forall i, In i selected <->
     In i (ongoing_instructions (db w)) /\ instruction_user_id i = user /\
     is_active i = Some true /\
     (trigger_type i = Some trigger \/ trigger_type i = Some "all")) /\
  (selected = [] ->
     process_ongoing_instructions env agent trigger data w = (Ret None, w)) /\
  (selected <> [] ->
     exists r w' rest,
       chat env agent prompt [] w = (Ret r, w') /\
       process_ongoing_instructions env agent trigger data w = (Ret (response r), w') /\
       trace w' =
         (trace w ++ EvChat (first_request (chat_messages env agent prompt [] w)) :: rest)%list) /\
  (forall i, trigger_type i = Some "calendar" ->
     ~ In i (triggered_instructions user "email" (db w))) /\
  (forall i source,
     In i (ongoing_instructions (db w)) -> instruction_user_id i = user ->
     is_active i = Some true -> trigger_type i = Some "all" ->
     In i (triggered_instructions user source (db w))).
Proof.
  intros user selected prompt.
  split; [intros i; apply triggered_instructions_In|].
  split; [|split; [|split]].
  - intros Hnil. unfold process_ongoing_instructions, bind, get_world.
    fold user. fold selected. now rewrite Hnil.
  - intros Hne.
    destruct (chat_returns env agent prompt [] w) as (r & w' & Hchat & _).
    destruct (chat_first_call env agent prompt [] w) as [rest Hrest].
    rewrite Hchat in Hrest. cbn [snd] in Hrest.
    exists r, w', rest. split; [exact Hchat|]. split; [|exact Hrest].
    unfold process_ongoing_instructions, bind, get_world.
    fold user. fold selected. fold prompt.
    destruct selected as [|i l] eqn:E; [congruence|].
    subst prompt. rewrite Hchat. reflexivity.
  - intros i Hcal Hin. apply triggered_instructions_In in Hin as (_ & _ & _ & [H|H]);
      rewrite Hcal in H; discriminate.
  - intros i source Hin Hu Ha Hall. apply triggered_instructions_In. auto.
Qed.

(** * The tool that creates an ongoing instruction *)

Lemma detect_trigger_type_run (env : Env) (text : string) (w : World) :
  detect_trigger_type env text w =
  (Ret (detect_result env text), logged (EvChat (detect_request text)) w).
Proof.
  unfold detect_trigger_type, detect_result, try_except, bind, emit, lift.
  destruct (chat_completions_create env (detect_request text)) as [answer|e];
    cbn [ret raise]; [|reflexivity].
  destruct (content answer) as [c|]; [|reflexivity].
  cbv zeta. now destruct (existsb _ valid_types).
Qed.

Lemma detect_result_valid (env : Env) (text : string) :
  In (detect_result env text) valid_types.
Proof.
  unfold detect_result.
  assert (Hall : In "all" valid_types) by (cbn; tauto).
  destruct (chat_completions_create env (detect_request text)) as [answer|e]; [|exact Hall].
  destruct (content answer) as [c|]; [|exact Hall].
  cbv zeta. destruct (existsb _ valid_types) eqn:E; [|exact Hall].
  apply existsb_exists in E as (t & Ht & Heq).
  apply String.eqb_eq in Heq. now subst.
Qed.


Lemma C9_unparsable_arguments_witness :
  exists first w',
    chat Demo.careless (AIAgent Demo.advisor) "What is on today?" [] Demo.inbox =
      (Ret {| response := None;
              chat_error := Some ("Error processing message: " ++
                                  "Expecting property name enclosed in double quotes") |},
       w') /\
    trace w' = [EvChat first; EvProvider "g-token-1" (ListCalendarEvents JNull JNull)].
Proof.
  pose (before := [Demo.tool "c1" "get_calendar_events" "{}"]).
  assert (Hbefore : forall tc, In tc before ->
            exists args, json_loads Demo.careless (function_arguments tc) = Ok args).
  { intros tc [<-|[]]. eexists. reflexivity. }
  destruct (C9_unparsable_arguments Demo.careless (AIAgent Demo.advisor)
              "What is on today?" [] Demo.inbox
              {| content := None;
                 tool_calls := [ Demo.tool "c1" "get_calendar_events" "{}";
                                 Demo.tool "c2" "send_email" "{to: ";
                                 Demo.tool "c3" "get_calendar_events" "{}" ] |}
              before [Demo.tool "c3" "get_calendar_events" "{}"]
              (Demo.tool "c2" "send_email" "{to: ")
              (mk_exn "JSONDecodeError" "Expecting property name enclosed in double quotes")
              eq_refl eq_refl Hbefore eq_refl) as [_ Hchat].
  eexists. eexists. split; [exact Hchat|]. reflexivity.
Defined.


Lemma C7_trigger_filtering_witness :
  map instruction_id (triggered_instructions 1 "email" (db Demo.rules)) = [2] /\
  map instruction_id (triggered_instructions 1 "calendar" (db Demo.rules)) = [1; 2] /\
  process_ongoing_instructions Demo.env (AIAgent Demo.advisor) "email" JNull
    Demo.calendar_only = (Ret None, Demo.calendar_only).
Proof.
  split; [reflexivity|]. split; [reflexivity|].
  destruct (C7_trigger_filtering Demo.env (AIAgent Demo.advisor) "email" JNull
              Demo.calendar_only) as (_ & Hnone & _).
  apply Hnone. reflexivity.
Defined.

(** * The frame of the Gmail loops *)

Lemma email_key_embedding (v : Vec) (id : Z) (l : list Email) :
  map email_key (map (fun e => if email_id e =? id then with_email_embedding v e else e) l) =
  map email_key l.
Proof.
  induction l as [|e l IH]; cbn [map]; [reflexivity|].
  rewrite IH. now destruct (email_id e =? id).
Qed.

Lemma preserves_add_email (user : Z) (gid : string) (parsed : ParsedEmail) :
  preserves (add_email user gid parsed).
Proof.
  intros w. unfold add_email, bind, get_world, set_db, raise, ret.
  destruct (existsb _ (emails (db w))); cbn [snd]; [apply evolves_refl|].
  constructor; cbn; try reflexivity.
  - rewrite map_app. eexists. reflexivity.
  - exists []. now rewrite app_nil_r.
Qed.

Lemma preserves_set_email_embedding (id : Z) (v : Vec) :
  preserves (set_email_embedding id v).
Proof.
  intros w. unfold set_email_embedding, bind, get_world, set_db. cbn [snd].
  constructor; cbn; try reflexivity.
  - rewrite email_key_embedding. exists []. now rewrite app_nil_r.
  - exists []. now rewrite app_nil_r.
Qed.

Lemma terminates_add_email (user : Z) (gid : string) (parsed : ParsedEmail) :
  terminates (add_email user gid parsed).
Proof. unfold add_email. frame. Qed.

Lemma terminates_set_email_embedding (id : Z) (v : Vec) :
  terminates (set_email_embedding id v).
Proof. unfold set_email_embedding. frame. Qed.

#[export] Hint Resolve preserves_add_email preserves_set_email_embedding : frame.
#[export] Hint Resolve terminates_add_email terminates_set_email_embedding : halts.

Lemma preserves_fetch_email (env : Env) (token gid : string) :
  preserves (fetch_email env token gid).
Proof. unfold fetch_email. frame. Qed.

Lemma terminates_fetch_email (env : Env) (token gid : string) :
  terminates (fetch_email env token gid).
Proof. unfold fetch_email. frame. Qed.

#[export] Hint Resolve preserves_fetch_email : frame.
#[export] Hint Resolve terminates_fetch_email : halts.

Lemma preserves_store_email (env : Env) (user : User) (gid : string) (parsed : ParsedEmail) :
  preserves (store_email env user gid parsed).
Proof. unfold store_email. frame. Qed.

Lemma terminates_store_email (env : Env) (user : User) (gid : string) (parsed : ParsedEmail) :
  terminates (store_email env user gid parsed).
Proof. unfold store_email. frame. Qed.

#[export] Hint Resolve preserves_store_email : frame.
#[export] Hint Resolve terminates_store_email : halts.

Lemma preserves_import_message (env : Env) (user : User) (token gid : string) (n : Z) :
  preserves (import_message env user token gid n).
Proof. unfold import_message. frame. Qed.

Lemma terminates_import_message (env : Env) (user : User) (token gid : string) (n : Z) :
  terminates (import_message env user token gid n).
Proof. unfold import_message. frame. Qed.

#[export] Hint Resolve preserves_import_message : frame.
#[export] Hint Resolve terminates_import_message : halts.

Lemma preserves_gmail_pages (env : Env) (fuel : nat) (user : User) (token : string)
    (page : option string) (n : Z) :
  preserves (gmail_pages env fuel user token page n).
Proof.
  revert page n. induction fuel as [|fuel IH]; intros page n; cbn [gmail_pages].
  - auto with frame.
  - frame.
Qed.

#[export] Hint Resolve preserves_gmail_pages : frame.

Lemma preserves_add_contact (dirty : gmap Z Contact) (user : Z) (data : ContactData)
    (notes_text : string) :
  preserves (add_contact dirty user data notes_text).
Proof.
  intros w. unfold add_contact, bind, get_world, set_db, raise, ret.
  destruct (existsb _ (contacts (db w))); cbn [snd]; [apply evolves_refl|].
  constructor; cbn; try reflexivity; exists []; now rewrite app_nil_r.
Qed.

Lemma preserves_set_contact_embedding (id : Z) (v : Vec) :
  preserves (set_contact_embedding id v).
Proof.
  intros w. unfold set_contact_embedding, bind, get_world, set_db. cbn [snd].
  constructor; cbn; try reflexivity; exists []; now rewrite app_nil_r.
Qed.

#[export] Hint Resolve preserves_add_contact preserves_set_contact_embedding : frame.

Lemma preserves_import_contact (env : Env) (user : Z) (token : string) (data : ContactData)
    (st : Z * gmap Z Contact) :
  preserves (import_contact env user token data st).
Proof. unfold import_contact. frame. Qed.

#[export] Hint Resolve preserves_import_contact : frame.

Lemma preserves_hubspot_pages (env : Env) (fuel : nat) (user : Z) (token : string)
    (after : option string) (st : Z * gmap Z Contact) :
  preserves (hubspot_pages env fuel user token after st).
Proof.
  revert after st. induction fuel as [|fuel IH]; intros after st; cbn [hubspot_pages].
  - auto with frame.
  - frame.
Qed.

#[export] Hint Resolve preserves_hubspot_pages : frame.

Lemma preserves_poll_message (env : Env) (user : User) (token : string) (cutoff : Z)
    (gid : string) (n : Z) :
  preserves (poll_message env user token cutoff gid n).
Proof. unfold poll_message. frame. Qed.

#[export] Hint Resolve preserves_poll_message : frame.

Lemma preserves_poll_pages (env : Env) (fuel : nat) (user : User) (token : string)
    (cutoff : Z) (query : string) (page : option string) (n : Z) :
  preserves (poll_pages env fuel user token cutoff query page n).
Proof.
  revert page n. induction fuel as [|fuel IH]; intros page n; cbn [poll_pages].
  - auto with frame.
  - frame.
Qed.

#[export] Hint Resolve preserves_poll_pages : frame.

Lemma preserves_poll_new_emails (env : Env) (fuel : nat) (user : Z) :
  preserves (poll_new_emails env fuel user).
Proof. unfold poll_new_emails. frame. Qed.

(** The loops come to an end when the chain of pages does: what is done for
    one record always ends. *)
Lemma terminates_import_contact (env : Env) (user : Z) (token : string) (data : ContactData)
    (st : Z * gmap Z Contact) :
  terminates (import_contact env user token data st).
Proof.
  unfold import_contact. destruct st as [n dirty].
  assert (Ha : forall d u x t, terminates (add_contact d u x t))
    by (intros; unfold add_contact; frame).
  assert (Hs : forall i v, terminates (set_contact_embedding i v))
    by (intros; unfold set_contact_embedding; frame).
  frame.
Qed.

Lemma gmail_pages_halts (env : Env) (fuel : nat) (user : User) (token : string) :
  forall (page : option string) (n : Z) (w : World),
    gmail_chain_ends env fuel token page = true ->
    fst (gmail_pages env fuel user token page n w) <> Diverge.
Proof.
  induction fuel as [|fuel IH]; intros page n w H; [discriminate|].
  cbn [gmail_pages gmail_chain_ends] in *.
  unfold bind at 1. cbn [emit]. unfold bind at 1.
  destruct (gmail_list_emails env token page None) as [result|e]; [|discriminate].
  cbn [lift ret]. unfold bind at 1.
  pose proof (terminates_for_each (page_messages result) (import_message env user token) n
                (fun x s => terminates_import_message env user token x s)
                (logged (EvListEmails token page None) w)) as Ht.
  destruct (for_each (page_messages result) _ n _) as [[n1|e|] w1];
    cbn [fst] in *; [|discriminate|congruence].
  destruct (Text.truthy_opt (next_page_token result)); [now apply IH | discriminate].
Qed.

Lemma hubspot_pages_halts (env : Env) (fuel : nat) (user : Z) (token : string) :
  forall (after : option string) (st : Z * gmap Z Contact) (w : World),
    hubspot_chain_ends env fuel token after = true ->
    fst (hubspot_pages env fuel user token after st w) <> Diverge.
Proof.
  induction fuel as [|fuel IH]; intros after st w H; [discriminate|].
  cbn [hubspot_pages hubspot_chain_ends] in *.
  unfold bind at 1. cbn [emit]. unfold bind at 1.
  destruct (hubspot_list_all_contacts env token after) as [result|e]; [|discriminate].
  cbn [lift ret]. unfold bind at 1.
  pose proof (terminates_for_each (page_results result) (import_contact env user token) st
                (fun x s => terminates_import_contact env user token x s)
                (logged (EvListContacts token after) w)) as Ht.
  destruct (for_each (page_results result) _ st _) as [[st1|e|] w1];
    cbn [fst] in *; [|discriminate|congruence].
  destruct (Text.truthy_opt (paging_next_after result)); [now apply IH | discriminate].
Qed.

(** The writes of the Gmail loops keep the primary keys of the emails
    distinct. *)
Lemma add_email_ids_distinct (user : Z) (gid : string) (parsed : ParsedEmail) (w : World) :
  List.NoDup (map email_id (emails (db w))) ->
  List.NoDup (map email_id (emails (db (snd (add_email user gid parsed w))))).
Proof.
  intros H. unfold add_email, bind, get_world, set_db, raise, ret.
  destruct (existsb _ (emails (db w))); cbn; [exact H|].
  rewrite map_app. cbn. apply List.NoDup_app; [exact H | |].
  - apply List.NoDup_cons; [intros [] | constructor].
  - intros x Hx [<-|[]].
    pose proof (next_id_fresh (map email_id (emails (db w)))) as Hf.
    rewrite List.Forall_forall in Hf. specialize (Hf _ Hx). lia.
Qed.

Lemma set_email_embedding_ids_distinct (id : Z) (v : Vec) (w : World) :
  List.NoDup (map email_id (emails (db w))) ->
  List.NoDup (map email_id (emails (db (snd (set_email_embedding id v w))))).
Proof.
  intros H. unfold set_email_embedding, bind, get_world, set_db. cbn.
  rewrite map_map.
  erewrite map_ext; [exact H|]. intros e. now destruct (email_id e =? id).
Qed.

(** * Running the Gmail sync again *)

Lemma bind_ret_inv {A B : Type} (m : M A) (k : A -> M B) (w w' : World) (b : B) :
  bind m k w = (Ret b, w') ->
  exists a w1, m w = (Ret a, w1) /\ k a w1 = (Ret b, w').
Proof.
  unfold bind. destruct (m w) as [[a|e|] w1]; intros H; try discriminate. eauto.
Qed.

Lemma find_email_present (user : Z) (gid : string) (d : DB) :
  In (user, gid) (map email_key (emails d)) <-> exists row, find_email user gid d = Some row.
Proof.
  unfold find_email. induction (emails d) as [|e l IH]; cbn [map find In].
  - split; [easy | intros [row H]; discriminate].
  - destruct (Z.eqb_spec (email_user_id e) user) as [Hu|Hu];
      destruct (String.eqb_spec (gmail_id e) gid) as [Hg|Hg]; cbn [andb];
      unfold email_key at 1.
    + split; [eauto | left; congruence].
    + rewrite <- IH. split; [intros [H|H]; [congruence | exact H] | auto].
    + rewrite <- IH. split; [intros [H|H]; [congruence | exact H] | auto].
    + rewrite <- IH. split; [intros [H|H]; [congruence | exact H] | auto].
Qed.

Lemma evolves_keys (w w' : World) (k : Z * string) :
  evolves w w' -> In k (map email_key (emails (db w))) -> In k (map email_key (emails (db w'))).
Proof. intros [_ _ _ [new E] _] H. rewrite E. apply in_or_app. now left. Qed.

(** A message that is already there is passed over: nothing is fetched,
    stored, embedded or evaluated, and the counter stays. *)
Lemma import_message_present (env : Env) (user : User) (token gid : string) (n : Z)
    (w : World) :
  In (user_id user, gid) (map email_key (emails (db w))) ->
  import_message env user token gid n w = (Ret n, w).
Proof.
  intros H. apply find_email_present in H as [row H].
  unfold import_message, bind, get_world. now rewrite H.
Qed.

Lemma add_email_key (user : Z) (gid : string) (parsed : ParsedEmail) (w w' : World)
    (row : Email) :
  add_email user gid parsed w = (Ret row, w') ->
  In (user, gid) (map email_key (emails (db w'))).
Proof.
  unfold add_email, bind, get_world, set_db, raise, ret.
  destruct (existsb _ (emails (db w))); [discriminate|].
  intros [= _ <-]. cbn. rewrite map_app. apply in_or_app. right. now left.
Qed.

(** A message that has been processed without an exception is there
    afterwards. *)
Lemma import_message_stored (env : Env) (user : User) (token gid : string) (n n' : Z)
    (w w' : World) :
  import_message env user token gid n w = (Ret n', w') ->
  In (user_id user, gid) (map email_key (emails (db w'))).
Proof.
  intros H. unfold import_message in H. unfold bind at 1 in H. cbn [get_world] in H.
  destruct (find_email (user_id user) gid (db w)) as [row|] eqn:E.
  - injection H as _ <-. apply find_email_present. eauto.
  - apply bind_ret_inv in H as (parsed & w1 & _ & H).
    apply bind_ret_inv in H as ([] & w2 & H & Hret).
    injection Hret as _ <-.
    unfold store_email in H.
    apply bind_ret_inv in H as (row & w3 & Hadd & H).
    apply add_email_key in Hadd.
    eapply evolves_keys; [|exact Hadd].
    match type of H with ?m w3 = _ =>
      assert (Hp : preserves m) by frame; specialize (Hp w3); now rewrite H in Hp end.
Qed.

Lemma import_all_present (env : Env) (user : User) (token : string) (gids : list string)
    (n : Z) (w : World) :
  (forall g, In g gids -> In (user_id user, g) (map email_key (emails (db w)))) ->
  for_each gids (import_message env user token) n w = (Ret n, w).
Proof.
  induction gids as [|g gids IH]; intros H; cbn [for_each]; [reflexivity|].
  unfold bind. rewrite import_message_present by (apply H; now left).
  apply IH. intros; apply H; now right.
Qed.

Lemma import_all_stored (env : Env) (user : User) (token : string) (gids : list string)
    (n n' : Z) (w w' : World) :
  for_each gids (import_message env user token) n w = (Ret n', w') ->
  forall g, In g gids -> In (user_id user, g) (map email_key (emails (db w'))).
Proof.
  revert n w. induction gids as [|g gids IH]; intros n w H x Hx; [destruct Hx|].
  cbn [for_each] in H. apply bind_ret_inv in H as (n1 & w1 & Hg & Hrest).
  destruct Hx as [<-|Hx].
  - apply import_message_stored in Hg.
    pose proof (preserves_for_each gids (import_message env user token) n1
                  (fun x s => preserves_import_message env user token x s) w1) as Hp.
    rewrite Hrest in Hp. eapply evolves_keys; eassumption.
  - eapply IH; eassumption.
Qed.

Lemma logged_all_app (evs evs' : list Event) (w : World) :
  logged_all evs' (logged_all evs w) = logged_all (evs ++ evs') w.
Proof. unfold logged_all. cbn. now rewrite app_assoc. Qed.

Lemma logged_is_logged_all (ev : Event) (w : World) : logged ev w = logged_all [ev] w.
Proof. reflexivity. Qed.

(** If a run of the page loop came to its end, a run from any later state of
    the table goes through the same pages and finds every message there: it
    only lists, and its counter does not move. *)
Lemma gmail_pages_again (env : Env) (fuel : nat) (user : User) (token : string) :
  forall (page : option string) (n n' : Z) (w w' : World),
    gmail_pages env fuel user token page n w = (Ret n', w') ->
    forall (m : Z) (w2 : World),
      (forall k, In k (map email_key (emails (db w'))) ->
                 In k (map email_key (emails (db w2)))) ->
      exists evs,
        gmail_pages env fuel user token page m w2 = (Ret m, logged_all evs w2) /\
        Forall is_listing evs.
Proof.
  induction fuel as [|fuel IH]; intros page n n' w w' H m w2 Hkeys; [discriminate|].
  cbn [gmail_pages] in H |- *.
  apply bind_ret_inv in H as ([] & w0 & Hemit & H). injection Hemit as <-.
  apply bind_ret_inv in H as (result & w0' & Hlist & H).
  destruct (gmail_list_emails env token page None) as [r|e] eqn:El; [|discriminate].
  injection Hlist as <- <-.
  apply bind_ret_inv in H as (n1 & w1 & Hfor & H).
  pose proof (import_all_stored env user token _ _ _ _ _ Hfor) as Hstored.
  unfold bind at 1. cbn [emit]. unfold bind at 1. cbn [lift ret].
  unfold bind at 1.
  destruct (Text.truthy_opt (next_page_token r)) eqn:Et.
  - pose proof (preserves_gmail_pages env fuel user token (next_page_token r) n1 w1) as Hp.
    rewrite H in Hp. cbn [snd] in Hp.
    rewrite import_all_present
      by (intros g Hg; apply Hkeys; eapply evolves_keys; [exact Hp | now apply Hstored]).
    destruct (IH _ _ _ _ _ H m (logged (EvListEmails token page None) w2)) as (evs & Hrun & Hev).
    { intros k Hk. now apply Hkeys. }
    exists (EvListEmails token page None :: evs). split; [|constructor; [exact I | exact Hev]].
    rewrite Hrun. now rewrite logged_is_logged_all, logged_all_app.
  - injection H as <- <-.
    rewrite import_all_present by (intros g Hg; apply Hkeys; now apply Hstored).
    exists [EvListEmails token page None]. split; [reflexivity|].
    constructor; [exact I | constructor].
Qed.

(** * The [sync_status] dictionary and the full-sync runs *)

Lemma sync_entry_insert (ss : gmap Z (gmap string SyncEntry)) (sources : gmap string SyncEntry)
    (user : Z) (source : string) (entry : SyncEntry) :
  sync_entry (<[user := <[source := entry]> sources]> ss) user source = Some entry.
Proof. unfold sync_entry. rewrite lookup_insert_eq. apply lookup_insert_eq. Qed.

Lemma is_syncing_entry (ss : gmap Z (gmap string SyncEntry)) (user : Z) (source : string) :
  is_syncing ss user source =
  match sync_entry ss user source with
  | Some entry => syncing entry
  | None => false
  end.
Proof. unfold is_syncing, sync_entry. now destruct (ss !! user). Qed.

Lemma mark_started_run (env : Env) (user : Z) (source : string) (w : World) :
  exists ss,
    mark_started env user source w = (Ret tt, with_sync_status ss w) /\
    sync_entry ss user source =
      Some {| syncing := true; started_at := isoformat env (clock w);
              completed_at := None; imported_count := None; error := None |}.
Proof.
  unfold mark_started, bind, get_world, set_sync_status.
  eexists. split; [reflexivity | apply sync_entry_insert].
Qed.

Lemma mark_completed_run (env : Env) (user : Z) (source : string) (n : Z) (w : World)
    (entry : SyncEntry) :
  sync_entry (sync_status w) user source = Some entry ->
  exists ss,
    mark_completed env user source n w = (Ret tt, with_sync_status ss w) /\
    sync_entry ss user source =
      Some {| syncing := false; started_at := started_at entry;
              completed_at := Some (isoformat env (clock w));
              imported_count := Some n; error := error entry |}.
Proof.
  unfold sync_entry, mark_completed, bind, get_world, set_sync_status.
  destruct (sync_status w !! user) as [sources|]; [|discriminate].
  intros ->. eexists. split; [reflexivity|].
  apply (sync_entry_insert (sync_status w) sources).
Qed.

Lemma mark_failed_run (env : Env) (user : Z) (source : string) (e : Exn) (w : World)
    (entry : SyncEntry) :
  sync_entry (sync_status w) user source = Some entry ->
  exists ss,
    mark_failed env user source e w = (Ret tt, with_sync_status ss w) /\
    sync_entry ss user source =
      Some {| syncing := false; started_at := started_at entry;
              completed_at := Some (isoformat env (clock w));
              imported_count := imported_count entry; error := Some (exn_msg e) |}.
Proof.
  unfold sync_entry, mark_failed, bind, get_world, set_sync_status.
  destruct (sync_status w !! user) as [sources|]; [|discriminate].
  intros ->. eexists. split; [reflexivity|].
  apply (sync_entry_insert (sync_status w) sources).
Qed.

Lemma mark_completed_absent (env : Env) (user : Z) (source : string) (n : Z) (w : World) :
  sync_entry (sync_status w) user source = None ->
  mark_completed env user source n w = (Ret tt, w).
Proof.
  unfold sync_entry, mark_completed, bind, get_world.
  destruct (sync_status w !! user) as [sources|]; [|reflexivity]. now intros ->.
Qed.

Lemma mark_failed_absent (env : Env) (user : Z) (source : string) (e : Exn) (w : World) :
  sync_entry (sync_status w) user source = None ->
  mark_failed env user source e w = (Ret tt, w).
Proof.
  unfold sync_entry, mark_failed, bind, get_world.
  destruct (sync_status w !! user) as [sources|]; [|reflexivity]. now intros ->.
Qed.

Lemma mark_completed_ret (env : Env) (user : Z) (source : string) (n : Z) (w : World) :
  exists w', mark_completed env user source n w = (Ret tt, w').
Proof.
  unfold mark_completed, bind, get_world, set_sync_status, ret.
  destruct (sync_status w !! user) as [sources|]; [|eauto].
  destruct (sources !! source); eauto.
Qed.

(** A full-sync run that gets past its first check is its page loop,
    followed by the mark that fits the way the loop ended. *)
Lemma sync_gmail_background_run (env : Env) (fuel : nat) (user : Z) (u : User) (w : World) :
  find_user user (db w) = Some u ->
  Text.truthy_opt (google_access_token u) = true ->
  sync_gmail_background env fuel user w =
  match gmail_pages env fuel u (or_empty (google_access_token u)) None 0 w with
  | (Ret n, w1) => mark_completed env user "gmail" n w1
  | (Raise e, w1) => mark_failed env user "gmail" e w1
  | (Diverge, w1) => (Diverge, w1)
  end.
Proof.
  intros Hu Ht. unfold sync_gmail_background. unfold bind at 1. cbn [get_world].
  rewrite Hu, Ht. cbn [negb]. unfold try_except, bind.
  destruct (gmail_pages env fuel u _ None 0 w) as [[n|e|] w1]; try reflexivity.
  destruct (mark_completed_ret env user "gmail" n w1) as [w' H]. now rewrite H.
Qed.

Lemma sync_hubspot_background_run (env : Env) (fuel : nat) (user : Z) (u : User) (w : World) :
  find_user user (db w) = Some u ->
  Text.truthy_opt (hubspot_access_token u) = true ->
  sync_hubspot_background env fuel user w =
  match hubspot_pages env fuel user (or_empty (hubspot_access_token u)) None (0, ∅) w with
  | (Ret st, w1) => mark_completed env user "hubspot" (fst st) w1
  | (Raise e, w1) => mark_failed env user "hubspot" e w1
  | (Diverge, w1) => (Diverge, w1)
  end.
Proof.
  intros Hu Ht. unfold sync_hubspot_background. unfold bind at 1. cbn [get_world].
  rewrite Hu, Ht. cbn [negb]. unfold try_except, bind.
  destruct (hubspot_pages env fuel user _ None (0, ∅) w) as [[st|e|] w1]; try reflexivity.
  destruct (mark_completed_ret env user "hubspot" (fst st) w1) as [w' H]. now rewrite H.
Qed.

(** What a full-sync run leaves in [sync_status], given the world its loop
    stopped in: the flag is down, and the entry, when there is one, tells
    how the loop ended. *)
Lemma marks_clear_flag (env : Env) (user : Z) (source : string) (w1 : World) :
  (forall n, exists w',
     mark_completed env user source n w1 = (Ret tt, w') /\
     db w' = db w1 /\ trace w' = trace w1 /\
     is_syncing (sync_status w') user source = false /\
     forall entry, sync_entry (sync_status w1) user source = Some entry ->
       sync_entry (sync_status w') user source =
         Some {| syncing := false; started_at := started_at entry;
                 completed_at := Some (isoformat env (clock w1));
                 imported_count := Some n; error := error entry |}) /\
  (forall e, exists w',
     mark_failed env user source e w1 = (Ret tt, w') /\
     db w' = db w1 /\ trace w' = trace w1 /\
     is_syncing (sync_status w') user source = false /\
     forall entry, sync_entry (sync_status w1) user source = Some entry ->
       sync_entry (sync_status w') user source =
         Some {| syncing := false; started_at := started_at entry;
                 completed_at := Some (isoformat env (clock w1));
                 imported_count := imported_count entry; error := Some (exn_msg e) |}).
Proof.
  split.
  - intros n. destruct (sync_entry (sync_status w1) user source) as [entry|] eqn:E.
    + destruct (mark_completed_run env user source n w1 entry E) as (ss & Hrun & Hentry).
      exists (with_sync_status ss w1). rewrite is_syncing_entry. cbn [with_sync_status sync_status].
      rewrite Hentry. repeat split; auto. now intros ? [= <-].
    + exists w1. rewrite is_syncing_entry, E.
      repeat split; auto using mark_completed_absent. discriminate.
  - intros e. destruct (sync_entry (sync_status w1) user source) as [entry|] eqn:E.
    + destruct (mark_failed_run env user source e w1 entry E) as (ss & Hrun & Hentry).
      exists (with_sync_status ss w1). rewrite is_syncing_entry. cbn [with_sync_status sync_status].
      rewrite Hentry. repeat split; auto. now intros ? [= <-].
    + exists w1. rewrite is_syncing_entry, E.
      repeat split; auto using mark_failed_absent. discriminate.
Qed.

(** * Running the HubSpot sync again *)

Lemma lift_ret_inv {A : Type} (r : Res A) (a : A) (w w' : World) :
  lift r w = (Ret a, w') -> r = Ok a /\ w' = w.
Proof. destruct r; cbn; intros [= <- <-]; auto. Qed.

Lemma find_contact_present (user : Z) (hid : string) (d : DB) :
  In (user, hid) (map contact_key (contacts d)) <->
  exists row, find_contact user hid d = Some row.
Proof.
  unfold find_contact. induction (contacts d) as [|c l IH]; cbn [map find In].
  - split; [easy | intros [row H]; discriminate].
  - destruct (Z.eqb_spec (contact_user_id c) user) as [Hu|Hu];
      destruct (String.eqb_spec (hubspot_id c) hid) as [Hg|Hg]; cbn [andb];
      unfold contact_key at 1.
    + split; [eauto | left; congruence].
    + rewrite <- IH. split; [intros [H|H]; [congruence | exact H] | auto].
    + rewrite <- IH. split; [intros [H|H]; [congruence | exact H] | auto].
    + rewrite <- IH. split; [intros [H|H]; [congruence | exact H] | auto].
Qed.

Lemma find_contact_In (user : Z) (hid : string) (d : DB) (row : Contact) :
  find_contact user hid d = Some row -> In row (contacts d).
Proof. unfold find_contact. intros H. now apply find_some in H as [H _]. Qed.

Lemma NoDup_id_eq (l : list Contact) (a b : Contact) :
  List.NoDup (map contact_id l) -> In a l -> In b l -> contact_id a = contact_id b -> a = b.
Proof.
  induction l as [|c l IH]; intros Hnd Ha Hb Heq; [destruct Ha|].
  cbn in Hnd. apply List.NoDup_cons_iff in Hnd as [Hc Hnd].
  destruct Ha as [->|Ha], Hb as [->|Hb]; auto.
  - exfalso. apply Hc. rewrite Heq. now apply in_map.
  - exfalso. apply Hc. rewrite <- Heq. now apply in_map.
Qed.

Lemma map_map_same {A B : Type} (f : A -> B) (g : A -> A) (l : list A) :
  (forall x, In x l -> f (g x) = f x) -> map f (map g l) = map f l.
Proof.
  induction l as [|x l IH]; intros H; cbn [map]; [reflexivity|].
  rewrite H by now left. f_equal. apply IH. intros; apply H; now right.
Qed.

Lemma flush_keys (dirty : gmap Z Contact) (d : DB) :
  session_ok dirty d ->
  map contact_key (flush dirty (contacts d)) = map contact_key (contacts d) /\
  map contact_id (flush dirty (contacts d)) = map contact_id (contacts d).
Proof.
  intros [_ H]. unfold flush. split; apply map_map_same; intros row Hrow;
    destruct (dirty !! contact_id row) as [c|] eqn:E; auto; now apply (H row c).
Qed.

Lemma contact_embedding_keys (v : Vec) (id : Z) (l : list Contact) :
  map contact_key (map (fun c => if contact_id c =? id
                                 then with_contact_embedding v c else c) l) =
    map contact_key l /\
  map contact_id (map (fun c => if contact_id c =? id
                                then with_contact_embedding v c else c) l) =
    map contact_id l.
Proof.
  split; apply map_map_same; intros c _; now destruct (contact_id c =? id).
Qed.

(** A contact that is already there is not imported again: its loaded
    object is changed in the session, and nothing else happens. *)
Lemma import_contact_present (env : Env) (user : Z) (token : string) (data : ContactData)
    (n : Z) (dirty : gmap Z Contact) (w : World) :
  In (user, cd_id data) (map contact_key (contacts (db w))) ->
  exists dirty', import_contact env user token data (n, dirty) w = (Ret (n, dirty'), w).
Proof.
  intros H. apply find_contact_present in H as [row H].
  unfold import_contact, bind, get_world. rewrite H. eexists. reflexivity.
Qed.

Lemma session_ok_empty (d : DB) :
  List.NoDup (map contact_id (contacts d)) -> session_ok ∅ d.
Proof. intros H. split; [exact H|]. intros row c _ Hc. now rewrite lookup_empty in Hc. Qed.

Lemma NoDup_next_id (ids : list Z) :
  List.NoDup ids -> List.NoDup (ids ++ [Sql.next_id ids]).
Proof.
  intros H. apply List.NoDup_app; [exact H | |].
  - apply List.NoDup_cons; [intros [] | constructor].
  - intros x Hx [<-|[]].
    pose proof (next_id_fresh ids) as Hf. rewrite List.Forall_forall in Hf.
    specialize (Hf _ Hx). lia.
Qed.

Lemma import_contact_step (env : Env) (user : Z) (token : string) (data : ContactData)
    (n : Z) (dirty : gmap Z Contact) (w w' : World) (st' : Z * gmap Z Contact) :
  session_ok dirty (db w) ->
  import_contact env user token data (n, dirty) w = (Ret st', w') ->
  session_ok (snd st') (db w') /\
  (forall k, In k (map contact_key (contacts (db w))) ->
             In k (map contact_key (contacts (db w')))) /\
  In (user, cd_id data) (map contact_key (contacts (db w'))).
Proof.
  intros Hok H. unfold import_contact in H. unfold bind at 1 in H. cbn [get_world] in H.
  destruct (find_contact user (cd_id data) (db w)) as [row|] eqn:E.
  - injection H as <- <-. cbn [snd].
    split; [|split; [auto | apply find_contact_present; eauto]].
    destruct Hok as [Hnd Hd]. split; [exact Hnd|].
    pose proof (find_contact_In _ _ _ _ E) as Hrow.
    intros row' c Hrow' Hc.
    destruct (Z.eq_dec (contact_id row) (contact_id row')) as [Heq|Hne].
    + rewrite Heq, lookup_insert_eq in Hc. injection Hc as <-.
      assert (row' = row) by (eapply NoDup_id_eq; eauto). subst row'.
      destruct (dirty !! contact_id row) as [c0|] eqn:E0; [|split; reflexivity].
      destruct (Hd row c0 Hrow E0) as [Hk Hi]. split; [exact Hk | exact Hi].
    + rewrite lookup_insert_ne in Hc by exact Hne. now apply Hd.
  - apply bind_ret_inv in H as ([] & w0 & Hemit & H). injection Hemit as <-.
    apply bind_ret_inv in H as (notes_data & w1 & Hn & H).
    apply lift_ret_inv in Hn as [_ ->].
    apply bind_ret_inv in H as (bodies & w2 & Hb & H).
    apply lift_ret_inv in Hb as [_ ->].
    apply bind_ret_inv in H as (obj & w3 & Hadd & H).
    apply bind_ret_inv in H as ([] & w4 & Hemb & H).
    injection H as <- <-. cbn [snd].
    unfold add_contact, bind, get_world, set_db, raise, ret in Hadd.
    cbn [logged db] in Hadd.
    destruct (existsb _ (contacts (db w))); [discriminate|].
    injection Hadd as <- <-.
    destruct (flush_keys dirty (db w) Hok) as [Hfk Hfi].
    assert (Hkeys : map contact_key (contacts (db w4)) =
                    (map contact_key (contacts (db w)) ++ [(user, cd_id data)])%list /\
                    map contact_id (contacts (db w4)) =
                    (map contact_id (contacts (db w)) ++
                     [Sql.next_id (map contact_id (contacts (db w)))])%list).
    { destruct (Text.truthy _).
      - apply bind_ret_inv in Hemb as (v & w5 & Hv & Hset).
        rewrite get_embedding_run in Hv.
        destruct (embeddings_create env _); [|discriminate]. injection Hv as _ <-.
        unfold set_contact_embedding, bind, get_world, set_db in Hset.
        injection Hset as <-. cbn.
        destruct (contact_embedding_keys v
                    (Sql.next_id (map contact_id (contacts (db w))))
                    (flush dirty (contacts (db w)) ++
                     [{| contact_id := Sql.next_id (map contact_id (contacts (db w)));
                         contact_user_id := user; hubspot_id := cd_id data;
                         contact_email := prop "email" (cd_properties data);
                         first_name := prop "firstname" (cd_properties data);
                         last_name := prop "lastname" (cd_properties data);
                         phone := prop "phone" (cd_properties data);
                         company := prop "company" (cd_properties data);
                         notes := Some (Text.join Text.nl bodies);
                         raw_data := cd_raw data; contact_embedding := None |}])%list)
          as [Hk Hi].
        rewrite Hk, Hi, !map_app, Hfk, Hfi. split; reflexivity.
      - injection Hemb as <-. cbn. rewrite !map_app, Hfk, Hfi. split; reflexivity. }
    destruct Hkeys as [Hk Hi].
    split; [|split].
    + apply session_ok_empty. rewrite Hi. apply NoDup_next_id. apply Hok.
    + intros k Hin. rewrite Hk. apply in_or_app. now left.
    + rewrite Hk. apply in_or_app. right. now left.
Qed.

Lemma import_contacts_present (env : Env) (user : Z) (token : string)
    (page : list ContactData) (n : Z) (dirty : gmap Z Contact) (w : World) :
  (forall data, In data page ->
     In (user, cd_id data) (map contact_key (contacts (db w)))) ->
  exists dirty',
    for_each page (import_contact env user token) (n, dirty) w = (Ret (n, dirty'), w).
Proof.
  revert dirty. induction page as [|data page IH]; intros dirty H; cbn [for_each].
  - eexists. reflexivity.
  - destruct (import_contact_present env user token data n dirty w) as [d1 H1];
      [apply H; now left|].
    unfold bind. rewrite H1. apply IH. intros; apply H; now right.
Qed.

Lemma import_contacts_step (env : Env) (user : Z) (token : string)
    (page : list ContactData) (st st' : Z * gmap Z Contact) (w w' : World) :
  session_ok (snd st) (db w) ->
  for_each page (import_contact env user token) st w = (Ret st', w') ->
  session_ok (snd st') (db w') /\
  (forall k, In k (map contact_key (contacts (db w))) ->
             In k (map contact_key (contacts (db w')))) /\
  (forall data, In data page ->
     In (user, cd_id data) (map contact_key (contacts (db w')))).
Proof.
  revert st w. induction page as [|data page IH]; intros st w Hok H.
  - injection H as <- <-. split; [exact Hok|]. split; [auto | intros ? []].
  - cbn [for_each] in H. apply bind_ret_inv in H as (st1 & w1 & H1 & Hrest).
    destruct st as [n dirty].
    destruct (import_contact_step env user token data n dirty w w1 st1 Hok H1)
      as (Hok1 & Hmono1 & Hin1).
    destruct (IH st1 w1 Hok1 Hrest) as (Hok' & Hmono & Hin).
    split; [exact Hok'|]. split; [auto|].
    intros x [<-|Hx]; auto.
Qed.

(** If a run of the contact loop came to its end, a run from any later state
    of the table finds every contact there: it only lists, creates no row
    and does not move its counter. *)
Lemma hubspot_pages_again (env : Env) (fuel : nat) (user : Z) (token : string) :
  forall (after : option string) (st st' : Z * gmap Z Contact) (w w' : World),
    session_ok (snd st) (db w) ->
    hubspot_pages env fuel user token after st w = (Ret st', w') ->
    session_ok (snd st') (db w') /\
    (forall k, In k (map contact_key (contacts (db w))) ->
               In k (map contact_key (contacts (db w')))) /\
    forall (m : Z) (dirty2 : gmap Z Contact) (w2 : World),
      (forall k, In k (map contact_key (contacts (db w'))) ->
                 In k (map contact_key (contacts (db w2)))) ->
      exists evs dirty3,
        hubspot_pages env fuel user token after (m, dirty2) w2 =
          (Ret (m, dirty3), logged_all evs w2) /\
        Forall is_listing evs.
Proof.
  induction fuel as [|fuel IH]; intros after st st' w w' Hok H; [discriminate|].
  cbn [hubspot_pages] in H.
  apply bind_ret_inv in H as ([] & w0 & Hemit & H). injection Hemit as <-.
  apply bind_ret_inv in H as (result & w0' & Hlist & H).
  apply lift_ret_inv in Hlist as [El ->].
  apply bind_ret_inv in H as (st1 & w1 & Hfor & H).
  destruct (import_contacts_step env user token _ st st1
              (logged (EvListContacts token after) w) w1 Hok Hfor)
    as (Hok1 & Hmono1 & Hin1).
  cbn [logged db] in Hmono1.
  destruct (Text.truthy_opt (paging_next_after result)) eqn:Et.
  - destruct (IH _ _ _ _ _ Hok1 H) as (Hok' & Hmono' & Hagain).
    split; [exact Hok'|]. split; [intros k Hk; apply Hmono', Hmono1, Hk|].
    intros m dirty2 w2 Hkeys.
    destruct (import_contacts_present env user token (page_results result) m dirty2
                (logged (EvListContacts token after) w2)) as [d3 Hp].
    { intros data Hd. apply Hkeys, Hmono', Hin1, Hd. }
    destruct (Hagain m d3 (logged (EvListContacts token after) w2)) as (evs & d4 & Hrun & Hev).
    { intros k Hk. now apply Hkeys. }
    exists (EvListContacts token after :: evs), d4.
    split; [|constructor; [exact I | exact Hev]].
    cbn [hubspot_pages]. unfold bind at 1. cbn [emit]. unfold bind at 1.
    rewrite El. cbn [lift ret]. unfold bind at 1. rewrite Hp, Et, Hrun.
    now rewrite logged_is_logged_all, logged_all_app.
  - injection H as <- <-.
    split; [exact Hok1|]. split; [exact Hmono1|].
    intros m dirty2 w2 Hkeys.
    destruct (import_contacts_present env user token (page_results result) m dirty2
                (logged (EvListContacts token after) w2)) as [d3 Hp].
    { intros data Hd. apply Hkeys, Hin1, Hd. }
    exists [EvListContacts token after], d3.
    split; [|constructor; [exact I | constructor]].
    cbn [hubspot_pages]. unfold bind at 1. cbn [emit]. unfold bind at 1.
    rewrite El. cbn [lift ret]. unfold bind at 1. rewrite Hp, Et. reflexivity.
Qed.

(** * Two full syncs in a row *)

Lemma sync_gmail_run (env : Env) (u : User) (w w' : World) (msg : string) :
  sync_gmail env u w = (Ret msg, w') ->
  Text.truthy_opt (google_access_token u) = true /\
  msg = "Gmail sync started" /\
  exists ss, w' = with_sync_status ss w /\
    sync_entry ss (user_id u) "gmail" =
      Some {| syncing := true; started_at := isoformat env (clock w);
              completed_at := None; imported_count := None; error := None |}.
Proof.
  unfold sync_gmail. destruct (Text.truthy_opt (google_access_token u)); [|discriminate].
  cbn [negb]. intros H. apply bind_ret_inv in H as ([] & w1 & Hm & Hret).
  injection Hret as <- <-.
  destruct (mark_started_run env (user_id u) "gmail" w) as (ss & Hrun & Hentry).
  rewrite Hrun in Hm. injection Hm as <-. eauto.
Qed.

Lemma sync_hubspot_run (env : Env) (u : User) (w w' : World) (msg : string) :
  sync_hubspot env u w = (Ret msg, w') ->
  Text.truthy_opt (hubspot_access_token u) = true /\
  msg = "HubSpot sync started" /\
  exists ss, w' = with_sync_status ss w /\
    sync_entry ss (user_id u) "hubspot" =
      Some {| syncing := true; started_at := isoformat env (clock w);
              completed_at := None; imported_count := None; error := None |}.
Proof.
  unfold sync_hubspot. destruct (Text.truthy_opt (hubspot_access_token u)); [|discriminate].
  cbn [negb]. intros H. apply bind_ret_inv in H as ([] & w1 & Hm & Hret).
  injection Hret as <- <-.
  destruct (mark_started_run env (user_id u) "hubspot" w) as (ss & Hrun & Hentry).
  rewrite Hrun in Hm. injection Hm as <-. eauto.
Qed.

Lemma sync_gmail_started (env : Env) (u : User) (w : World) :
  Text.truthy_opt (google_access_token u) = true ->
  exists ss, sync_gmail env u w = (Ret "Gmail sync started", with_sync_status ss w) /\
    sync_entry ss (user_id u) "gmail" =
      Some {| syncing := true; started_at := isoformat env (clock w);
              completed_at := None; imported_count := None; error := None |}.
Proof.
  intros Ht. unfold sync_gmail. rewrite Ht. cbn [negb].
  destruct (mark_started_run env (user_id u) "gmail" w) as (ss & Hrun & Hentry).
  exists ss. split; [|exact Hentry]. unfold bind. now rewrite Hrun.
Qed.

Lemma sync_hubspot_started (env : Env) (u : User) (w : World) :
  Text.truthy_opt (hubspot_access_token u) = true ->
  exists ss, sync_hubspot env u w = (Ret "HubSpot sync started", with_sync_status ss w) /\
    sync_entry ss (user_id u) "hubspot" =
      Some {| syncing := true; started_at := isoformat env (clock w);
              completed_at := None; imported_count := None; error := None |}.
Proof.
  intros Ht. unfold sync_hubspot. rewrite Ht. cbn [negb].
  destruct (mark_started_run env (user_id u) "hubspot" w) as (ss & Hrun & Hentry).
  exists ss. split; [|exact Hentry]. unfold bind. now rewrite Hrun.
Qed.

(** A Gmail sync that completed, run again on the same mailbox: it lists
    the same pages, fetches nothing, leaves the database as it is and
    reports zero imports. *)
Lemma gmail_sync_twice (env : Env) (fuel : nat) (u : User) (w w1 : World) (msg : string)
    (e1 : SyncEntry) :
  find_user (user_id u) (db w) = Some u ->
  post_sync_gmail env fuel u w = (Ret msg, w1) ->
  sync_entry (sync_status w1) (user_id u) "gmail" = Some e1 ->
  error e1 = None ->
  exists w2 evs,
    post_sync_gmail env fuel u w1 = (Ret msg, w2) /\
    db w2 = db w1 /\
    trace w2 = (trace w1 ++ evs)%list /\ Forall is_listing evs /\
    sync_entry (sync_status w2) (user_id u) "gmail" =
      Some {| syncing := false; started_at := isoformat env (clock w1);
              completed_at := Some (isoformat env (clock w1));
              imported_count := Some 0; error := None |}.
Proof.
  intros Hu H He1 Herr. unfold post_sync_gmail in H.
  apply bind_ret_inv in H as (msg0 & ws & Hstart & H).
  apply sync_gmail_run in Hstart as (Ht & -> & ss & -> & Hfresh).
  apply bind_ret_inv in H as ([] & w1' & Hbg & Hret). injection Hret as <- <-.
  rewrite (sync_gmail_background_run env fuel (user_id u) u) in Hbg by assumption.
  destruct (gmail_pages env fuel u (or_empty (google_access_token u)) None 0
              (with_sync_status ss w)) as [[n|e|] wp] eqn:Eloop; [| |discriminate].
  - pose proof (preserves_gmail_pages env fuel u (or_empty (google_access_token u)) None 0
                  (with_sync_status ss w)) as Hp.
    rewrite Eloop in Hp. cbn [snd] in Hp. destruct Hp as [Hs Hc Hus _ _].
    cbn [with_sync_status sync_status clock db] in Hs, Hc, Hus.
    destruct (mark_completed_run env (user_id u) "gmail" n wp _
                ltac:(rewrite Hs; exact Hfresh)) as (ss1 & Hrun1 & _).
    rewrite Hrun1 in Hbg. injection Hbg as <-.
    cbn [with_sync_status clock db trace].
    destruct (sync_gmail_started env u (with_sync_status ss1 wp) Ht) as (ss2 & Hrun2 & Hfresh2).
    destruct (gmail_pages_again env fuel u (or_empty (google_access_token u)) None 0 n
                _ _ Eloop 0 (with_sync_status ss2 (with_sync_status ss1 wp)))
      as (evs & Hagain & Hev); [auto|].
    destruct (mark_completed_run env (user_id u) "gmail" 0
                (logged_all evs (with_sync_status ss2 (with_sync_status ss1 wp))) _ Hfresh2)
      as (ss3 & Hrun3 & Hentry3).
    eexists. exists evs. split; [|split; [|split; [|split; [exact Hev|]]]].
    + unfold post_sync_gmail. unfold bind at 1. rewrite Hrun2. unfold bind at 1.
      rewrite (sync_gmail_background_run env fuel (user_id u) u);
        [|unfold find_user in *; cbn; rewrite Hus; exact Hu | exact Ht].
      rewrite Hagain, Hrun3. reflexivity.
    + reflexivity.
    + reflexivity.
    + cbn [with_sync_status sync_status]. rewrite Hentry3. cbn. now rewrite Hc.
  - pose proof (preserves_gmail_pages env fuel u (or_empty (google_access_token u)) None 0
                  (with_sync_status ss w)) as Hp.
    rewrite Eloop in Hp. cbn [snd] in Hp. destruct Hp as [Hs _ _ _ _].
    cbn [with_sync_status sync_status] in Hs.
    destruct (mark_failed_run env (user_id u) "gmail" e wp _
                ltac:(rewrite Hs; exact Hfresh)) as (ss1 & Hrun1 & Hentry1).
    rewrite Hrun1 in Hbg. injection Hbg as <-.
    cbn [with_sync_status sync_status] in He1. rewrite Hentry1 in He1.
    injection He1 as <-. discriminate.
Qed.

(** The same for HubSpot: the contacts that are there are changed in the
    session only, and the session is closed without a commit. *)
Lemma hubspot_sync_twice (env : Env) (fuel : nat) (u : User) (w w1 : World) (msg : string)
    (e1 : SyncEntry) :
  find_user (user_id u) (db w) = Some u ->
  List.NoDup (map contact_id (contacts (db w))) ->
  post_sync_hubspot env fuel u w = (Ret msg, w1) ->
  sync_entry (sync_status w1) (user_id u) "hubspot" = Some e1 ->
  error e1 = None ->
  exists w2 evs,
    post_sync_hubspot env fuel u w1 = (Ret msg, w2) /\
    db w2 = db w1 /\
    trace w2 = (trace w1 ++ evs)%list /\ Forall is_listing evs /\
    sync_entry (sync_status w2) (user_id u) "hubspot" =
      Some {| syncing := false; started_at := isoformat env (clock w1);
              completed_at := Some (isoformat env (clock w1));
              imported_count := Some 0; error := None |}.
Proof.
  intros Hu Hnd H He1 Herr. unfold post_sync_hubspot in H.
  apply bind_ret_inv in H as (msg0 & ws & Hstart & H).
  apply sync_hubspot_run in Hstart as (Ht & -> & ss & -> & Hfresh).
  apply bind_ret_inv in H as ([] & w1' & Hbg & Hret). injection Hret as <- <-.
  rewrite (sync_hubspot_background_run env fuel (user_id u) u) in Hbg by assumption.
  destruct (hubspot_pages env fuel (user_id u) (or_empty (hubspot_access_token u)) None
              (0, ∅) (with_sync_status ss w)) as [[st|e|] wp] eqn:Eloop; [| |discriminate].
  - pose proof (preserves_hubspot_pages env fuel (user_id u)
                  (or_empty (hubspot_access_token u)) None (0, ∅)
                  (with_sync_status ss w)) as Hp.
    rewrite Eloop in Hp. cbn [snd] in Hp. destruct Hp as [Hs Hc Hus _ _].
    cbn [with_sync_status sync_status clock db] in Hs, Hc, Hus.
    destruct (mark_completed_run env (user_id u) "hubspot" (fst st) wp _
                ltac:(rewrite Hs; exact Hfresh)) as (ss1 & Hrun1 & _).
    rewrite Hrun1 in Hbg. injection Hbg as <-.
    cbn [with_sync_status clock db trace].
    destruct (sync_hubspot_started env u (with_sync_status ss1 wp) Ht)
      as (ss2 & Hrun2 & Hfresh2).
    destruct (hubspot_pages_again env fuel (user_id u) (or_empty (hubspot_access_token u))
                None (0, ∅) st (with_sync_status ss w) wp
                (session_ok_empty _ Hnd) Eloop) as (_ & _ & Hagain).
    destruct (Hagain 0 ∅ (with_sync_status ss2 (with_sync_status ss1 wp)))
      as (evs & d3 & Hrun & Hev); [auto|].
    destruct (mark_completed_run env (user_id u) "hubspot" 0
                (logged_all evs (with_sync_status ss2 (with_sync_status ss1 wp))) _ Hfresh2)
      as (ss3 & Hrun3 & Hentry3).
    eexists. exists evs. split; [|split; [|split; [|split; [exact Hev|]]]].
    + unfold post_sync_hubspot. unfold bind at 1. rewrite Hrun2. unfold bind at 1.
      rewrite (sync_hubspot_background_run env fuel (user_id u) u);
        [|unfold find_user in *; cbn; rewrite Hus; exact Hu | exact Ht].
      rewrite Hrun. cbn [fst]. rewrite Hrun3. reflexivity.
    + reflexivity.
    + reflexivity.
    + cbn [with_sync_status sync_status]. rewrite Hentry3. cbn. now rewrite Hc.
  - pose proof (preserves_hubspot_pages env fuel (user_id u)
                  (or_empty (hubspot_access_token u)) None (0, ∅)
                  (with_sync_status ss w)) as Hp.
    rewrite Eloop in Hp. cbn [snd] in Hp. destruct Hp as [Hs _ _ _ _].
    cbn [with_sync_status sync_status] in Hs.
    destruct (mark_failed_run env (user_id u) "hubspot" e wp _
                ltac:(rewrite Hs; exact Hfresh)) as (ss1 & Hrun1 & Hentry1).
    rewrite Hrun1 in Hbg. injection Hbg as <-.
    cbn [with_sync_status sync_status] in He1. rewrite Hentry1 in He1.
    injection He1 as <-. discriminate.
Qed.

(** * Single flight *)

(** C2 (as amended).  The incremental poll checks [sync_status] before it
    starts: when a Gmail sync of the user is marked as running it returns
    at once, with no call to the outside and no change of state.  The
    full-sync endpoints make no such check: for a connected user each
    replaces the entry of its source by a fresh one marked as running,
    whatever the entry held. *)
Theorem C2_poll_yields_to_full_sync (env : Env) (fuel : nat) (user : Z) (w : World) :
  is_syncing (sync_status w) user "gmail" = true ->
  poll_new_emails env fuel user w = (Ret tt, w) /\
  (forall u w0, Text.truthy_opt (google_access_token u) = true ->
     exists ss,
       sync_gmail env u w0 = (Ret "Gmail sync started", with_sync_status ss w0) /\
       sync_entry ss (user_id u) "gmail" = Some (started_entry env (clock w0))) /\
  (forall u w0, Text.truthy_opt (hubspot_access_token u) = true ->
     exists ss,
       sync_hubspot env u w0 = (Ret "HubSpot sync started", with_sync_status ss w0) /\
       sync_entry ss (user_id u) "hubspot" = Some (started_entry env (clock w0))).
Proof.
  intros H. split; [|split].
  - unfold poll_new_emails, try_except, bind, get_world.
    destruct (find_user user (db w)) as [u|]; [|reflexivity].
    destruct (Text.truthy_opt (google_access_token u)); [|reflexivity].
    cbn [negb]. now rewrite H.
  - intros u w0. apply sync_gmail_started.
  - intros u w0. apply sync_hubspot_started.
Qed.

Lemma C2_poll_yields_to_full_sync_witness :
  poll_new_emails Demo.env 5 1 Demo.busy = (Ret tt, Demo.busy).
Proof.
  assert (H : is_syncing (sync_status Demo.busy) 1 "gmail" = true) by reflexivity.
  exact (proj1 (C2_poll_yields_to_full_sync Demo.env 5 1 Demo.busy H)).
Defined.

(** C2 as stated fails: a Gmail sync of the advisor is marked as running,
    the endpoint is called again, and it does change the state (the entry is
    rewritten with a new start) and its run does fetch records. *)
Lemma C2_counterexample :
  is_syncing (sync_status Demo.busy) 1 "gmail" = true /\
  sync_entry (sync_status Demo.busy) 1 "gmail" = Some (Demo.entry true) /\
  sync_entry (sync_status (snd (sync_gmail Demo.env Demo.advisor Demo.busy))) 1 "gmail" =
    Some {| syncing := true; started_at := "T1000"; completed_at := None;
            imported_count := None; error := None |} /\
  fst (post_sync_gmail Demo.env 5 Demo.advisor Demo.busy) = Ret "Gmail sync started" /\
  map gmail_id (emails (db (snd (post_sync_gmail Demo.env 5 Demo.advisor Demo.busy)))) =
    ["m1"; "m2"; "m3"] /\
  In (EvGetEmail "g-token-1" "m1")
    (trace (snd (post_sync_gmail Demo.env 5 Demo.advisor Demo.busy))).
Proof.
  split; [reflexivity|]. split; [reflexivity|]. split; [reflexivity|].
  split; [reflexivity|]. split; [reflexivity|].
  vm_compute. tauto.
Qed.

(** * Idempotent ingestion *)

Lemma import_contact_existing (env : Env) (user : Z) (token : string) (data : ContactData)
    (n : Z) (dirty : gmap Z Contact) (w : World) (row : Contact) :
  find_contact user (cd_id data) (db w) = Some row ->
  import_contact env user token data (n, dirty) w =
  (Ret (n, <[contact_id row :=
               update_contact data
                 (match dirty !! contact_id row with Some c => c | None => row end)]> dirty),
   w).
Proof. intros H. unfold import_contact, bind, get_world. now rewrite H. Qed.

(** C3 (as amended).  In a full sync an external record whose identifier
    the user already has creates no row, makes no call to the outside (no
    fetch, no embedding, no trigger evaluation) and leaves the counter as it
    is.  A Gmail message is passed over altogether.  A HubSpot contact is
    not: its loaded object takes the email, names, phone, company and raw
    data of the source, within the session.  A full sync that completed,
    run again on the same source, only lists the source: the database is
    the same, and the run reports zero imports. *)
Theorem C3_idempotent_ingestion (env : Env) (fuel : nat) :
  (forall (u : User) (token gid : string) (n : Z) (w : World) (row : Email),
     find_email (user_id u) gid (db w) = Some row ->
     import_message env u token gid n w = (Ret n, w)) /\
  (forall (user : Z) (token : string) (data : ContactData) (n : Z)
          (dirty : gmap Z Contact) (w : World) (row : Contact),
     find_contact user (cd_id data) (db w) = Some row ->
     exists changed,
       import_contact env user token data (n, dirty) w =
         (Ret (n, <[contact_id row := changed]> dirty), w) /\
       contact_email changed = prop "email" (cd_properties data) /\
       first_name changed = prop "firstname" (cd_properties data) /\
       last_name changed = prop "lastname" (cd_properties data) /\
       phone changed = prop "phone" (cd_properties data) /\
       company changed = prop "company" (cd_properties data) /\
       raw_data changed = cd_raw data) /\
  (forall (u : User) (w w1 : World) (msg : string) (e1 : SyncEntry),
     find_user (user_id u) (db w) = Some u ->
     post_sync_gmail env fuel u w = (Ret msg, w1) ->
     sync_entry (sync_status w1) (user_id u) "gmail" = Some e1 ->
     error e1 = None ->
     exists w2 evs,
       post_sync_gmail env fuel u w1 = (Ret msg, w2) /\
       db w2 = db w1 /\
       trace w2 = (trace w1 ++ evs)%list /\ Forall is_listing evs /\
       sync_entry (sync_status w2) (user_id u) "gmail" =
         Some {| syncing := false; started_at := isoformat env (clock w1);
                 completed_at := Some (isoformat env (clock w1));
                 imported_count := Some 0; error := None |}) /\
  (forall (u : User) (w w1 : World) (msg : string) (e1 : SyncEntry),
     find_user (user_id u) (db w) = Some u ->
     List.NoDup (map contact_id (contacts (db w))) ->
     post_sync_hubspot env fuel u w = (Ret msg, w1) ->
     sync_entry (sync_status w1) (user_id u) "hubspot" = Some e1 ->
     error e1 = None ->
     exists w2 evs,
       post_sync_hubspot env fuel u w1 = (Ret msg, w2) /\
       db w2 = db w1 /\
       trace w2 = (trace w1 ++ evs)%list /\ Forall is_listing evs /\
       sync_entry (sync_status w2) (user_id u) "hubspot" =
         Some {| syncing := false; started_at := isoformat env (clock w1);
                 completed_at := Some (isoformat env (clock w1));
                 imported_count := Some 0; error := None |}).
Proof.
  split; [|split; [|split]].
  - intros u token gid n w row H. apply import_message_present.
    apply find_email_present. eauto.
  - intros user token data n dirty w row H.
    eexists. split; [now apply import_contact_existing|].
    repeat split.
  - intros u w w1 msg e1. apply gmail_sync_twice.
  - intros u w w1 msg e1. apply hubspot_sync_twice.
Qed.

Lemma C3_idempotent_ingestion_witness :
  exists w1 w2,
    post_sync_gmail Demo.env 5 Demo.advisor Demo.fresh = (Ret "Gmail sync started", w1) /\
    map gmail_id (emails (db w1)) = ["m1"; "m2"; "m3"] /\
    option_map imported_count (sync_entry (sync_status w1) 1 "gmail") = Some (Some 3) /\
    post_sync_gmail Demo.env 5 Demo.advisor w1 = (Ret "Gmail sync started", w2) /\
    db w2 = db w1 /\
    option_map imported_count (sync_entry (sync_status w2) 1 "gmail") = Some (Some 0).
Proof.
  destruct (post_sync_gmail Demo.env 5 Demo.advisor Demo.fresh) as [out w1] eqn:E1.
  assert (Hout : out = Ret "Gmail sync started") by (now vm_compute in E1; injection E1 as <- _).
  subst out.
  destruct (sync_entry (sync_status w1) 1 "gmail") as [e1|] eqn:Ee;
    [|vm_compute in E1; injection E1 as <-; vm_compute in Ee; discriminate].
  assert (Herr : error e1 = None).
  { vm_compute in E1. injection E1 as <-. vm_compute in Ee. now injection Ee as <-. }
  destruct (C3_idempotent_ingestion Demo.env 5) as (_ & _ & Hgmail & _).
  destruct (Hgmail Demo.advisor Demo.fresh w1 "Gmail sync started" e1 eq_refl E1 Ee Herr)
    as (w2 & evs & Hrun & Hdb & _ & _ & Hentry).
  exists w1, w2. split; [reflexivity|].
  split; [vm_compute in E1; now injection E1 as <-|].
  split; [vm_compute in E1; injection E1 as <-; vm_compute in Ee; now injection Ee as <-|].
  split; [exact Hrun|]. split; [exact Hdb|].
  change (user_id Demo.advisor) with 1 in Hentry. now rewrite Hentry.
Defined.

(** C3 as stated fails for HubSpot: the advisor already has the contact
    [h1]; the source lists it with a new address, followed by a new
    contact; after the full sync the stored row of [h1] holds the new
    address and the new raw data. *)
Lemma C3_counterexample :
  find_contact 1 "h1" (db Demo.crm) = Some Demo.old_contact /\
  contact_email Demo.old_contact = Some "old@x.com" /\
  fst (sync_hubspot_background Demo.env 5 1 Demo.crm) = Ret tt /\
  option_map contact_email
    (find_contact 1 "h1" (db (snd (sync_hubspot_background Demo.env 5 1 Demo.crm)))) =
    Some (Some "new@x.com") /\
  option_map raw_data
    (find_contact 1 "h1" (db (snd (sync_hubspot_background Demo.env 5 1 Demo.crm)))) =
    Some (JObj [("id", JStr "h1")]).
Proof. repeat split; reflexivity. Qed.

(** * The end of a sync run *)

Lemma gmail_run_ends (env : Env) (fuel : nat) (user : Z) (u : User) (w : World) :
  find_user user (db w) = Some u ->
  Text.truthy_opt (google_access_token u) = true ->
  let loop := gmail_pages env fuel u (or_empty (google_access_token u)) None 0 w in
  fst loop <> Diverge ->
  exists w',
    sync_gmail_background env fuel user w = (Ret tt, w') /\
    is_syncing (sync_status w') user "gmail" = false /\
    db w' = db (snd loop) /\ trace w' = trace (snd loop) /\
    evolves w (snd loop) /\
    forall e0, sync_entry (sync_status w) user "gmail" = Some e0 ->
      sync_entry (sync_status w') user "gmail" =
        Some match fst loop with
             | Ret n => completed_entry env (clock w) n e0
             | Raise e => failed_entry env (clock w) e e0
             | Diverge => e0
             end.
Proof.
  intros Hu Ht loop Hloop.
  rewrite (sync_gmail_background_run env fuel user u w Hu Ht). fold loop.
  pose proof (preserves_gmail_pages env fuel u (or_empty (google_access_token u)) None 0 w)
    as Hp. fold loop in Hp.
  destruct loop as [[n|e|] w1]; cbn [fst snd] in *; [| |congruence].
  - destruct (marks_clear_flag env user "gmail" w1) as [Hc _].
    destruct (Hc n) as (w' & Hrun & Hdb & Htr & Hflag & Hentry).
    exists w'. repeat split; try assumption; try apply Hp.
    intros e0 He0. rewrite (ev_sync _ _ Hp) in Hentry. rewrite (Hentry e0 He0).
    unfold completed_entry. now rewrite (ev_clock _ _ Hp).
  - destruct (marks_clear_flag env user "gmail" w1) as [_ Hf].
    destruct (Hf e) as (w' & Hrun & Hdb & Htr & Hflag & Hentry).
    exists w'. repeat split; try assumption; try apply Hp.
    intros e0 He0. rewrite (ev_sync _ _ Hp) in Hentry. rewrite (Hentry e0 He0).
    unfold failed_entry. now rewrite (ev_clock _ _ Hp).
Qed.

Lemma hubspot_run_ends (env : Env) (fuel : nat) (user : Z) (u : User) (w : World) :
  find_user user (db w) = Some u ->
  Text.truthy_opt (hubspot_access_token u) = true ->
  let loop := hubspot_pages env fuel user (or_empty (hubspot_access_token u)) None (0, ∅) w in
  fst loop <> Diverge ->
  exists w',
    sync_hubspot_background env fuel user w = (Ret tt, w') /\
    is_syncing (sync_status w') user "hubspot" = false /\
    db w' = db (snd loop) /\ trace w' = trace (snd loop) /\
    evolves w (snd loop) /\
    forall e0, sync_entry (sync_status w) user "hubspot" = Some e0 ->
      sync_entry (sync_status w') user "hubspot" =
        Some match fst loop with
             | Ret st => completed_entry env (clock w) (fst st) e0
             | Raise e => failed_entry env (clock w) e e0
             | Diverge => e0
             end.
Proof.
  intros Hu Ht loop Hloop.
  rewrite (sync_hubspot_background_run env fuel user u w Hu Ht). fold loop.
  pose proof (preserves_hubspot_pages env fuel user (or_empty (hubspot_access_token u))
                None (0, ∅) w) as Hp. fold loop in Hp.
  destruct loop as [[st|e|] w1]; cbn [fst snd] in *; [| |congruence].
  - destruct (marks_clear_flag env user "hubspot" w1) as [Hc _].
    destruct (Hc (fst st)) as (w' & Hrun & Hdb & Htr & Hflag & Hentry).
    exists w'. repeat split; try assumption; try apply Hp.
    intros e0 He0. rewrite (ev_sync _ _ Hp) in Hentry. rewrite (Hentry e0 He0).
    unfold completed_entry. now rewrite (ev_clock _ _ Hp).
  - destruct (marks_clear_flag env user "hubspot" w1) as [_ Hf].
    destruct (Hf e) as (w' & Hrun & Hdb & Htr & Hflag & Hentry).
    exists w'. repeat split; try assumption; try apply Hp.
    intros e0 He0. rewrite (ev_sync _ _ Hp) in Hentry. rewrite (Hentry e0 He0).
    unfold failed_entry. now rewrite (ev_clock _ _ Hp).
Qed.

(** C6 (as amended).  A full-sync run of a user who is found with the
    source's token, when its loop ends (by coming to its end or by an
    exception): the run returns; the [syncing] flag of that user and source
    is down; the entry, when the endpoint had written one, holds the count
    of imports on success and the message of the exception on failure, with
    the time of completion; the database is the one the loop had reached
    when it stopped, which has every email of the start still in place.
    The loop does end when the chain of pages ends within the fuel.  The
    incremental poll never writes [sync_status]: neither a flag nor an
    error. *)
Theorem C6_full_sync_clears_flag (env : Env) (fuel : nat) (user : Z) (u : User) (w : World) :
  find_user user (db w) = Some u ->
  (Text.truthy_opt (google_access_token u) = true ->
   let loop := gmail_pages env fuel u (or_empty (google_access_token u)) None 0 w in
   fst loop <> Diverge ->
   exists w',
     sync_gmail_background env fuel user w = (Ret tt, w') /\
     is_syncing (sync_status w') user "gmail" = false /\
     db w' = db (snd loop) /\ trace w' = trace (snd loop) /\
     evolves w (snd loop) /\
     forall e0, sync_entry (sync_status w) user "gmail" = Some e0 ->
       sync_entry (sync_status w') user "gmail" =
         Some match fst loop with
              | Ret n => completed_entry env (clock w) n e0
              | Raise e => failed_entry env (clock w) e e0
              | Diverge => e0
              end) /\
  (Text.truthy_opt (hubspot_access_token u) = true ->
   let loop := hubspot_pages env fuel user (or_empty (hubspot_access_token u)) None (0, ∅) w in
   fst loop <> Diverge ->
   exists w',
     sync_hubspot_background env fuel user w = (Ret tt, w') /\
     is_syncing (sync_status w') user "hubspot" = false /\
     db w' = db (snd loop) /\ trace w' = trace (snd loop) /\
     evolves w (snd loop) /\
     forall e0, sync_entry (sync_status w) user "hubspot" = Some e0 ->
       sync_entry (sync_status w') user "hubspot" =
         Some match fst loop with
              | Ret st => completed_entry env (clock w) (fst st) e0
              | Raise e => failed_entry env (clock w) e e0
              | Diverge => e0
              end) /\
  (gmail_chain_ends env fuel (or_empty (google_access_token u)) None = true ->
   fst (gmail_pages env fuel u (or_empty (google_access_token u)) None 0 w) <> Diverge) /\
  (hubspot_chain_ends env fuel (or_empty (hubspot_access_token u)) None = true ->
   fst (hubspot_pages env fuel user (or_empty (hubspot_access_token u)) None (0, ∅) w)
     <> Diverge) /\
  sync_status (snd (poll_new_emails env fuel user w)) = sync_status w.
Proof.
  intros Hu. split; [|split; [|split; [|split]]].
  - intros Ht. now apply gmail_run_ends.
  - intros Ht. now apply hubspot_run_ends.
  - apply gmail_pages_halts.
  - apply hubspot_pages_halts.
  - apply (ev_sync _ _ (preserves_poll_new_emails env fuel user w)).
Qed.

Lemma C6_full_sync_clears_flag_witness :
  exists w',
    sync_gmail_background Demo.flaky 5 1 Demo.busy = (Ret tt, w') /\
    is_syncing (sync_status w') 1 "gmail" = false /\
    map gmail_id (emails (db w')) = ["m1"] /\
    sync_entry (sync_status w') 1 "gmail" =
      Some {| syncing := false; started_at := "T0"; completed_at := Some "T1000";
              imported_count := None; error := Some "503 Service Unavailable" |}.
Proof.
  destruct (C6_full_sync_clears_flag Demo.flaky 5 1 Demo.advisor Demo.busy eq_refl)
    as (Hgmail & _).
  destruct (Hgmail eq_refl ltac:(vm_compute; discriminate))
    as (w' & Hrun & Hflag & Hdb & _ & _ & Hentry).
  exists w'. split; [exact Hrun|]. split; [exact Hflag|].
  split; [now rewrite Hdb|].
  now rewrite (Hentry _ eq_refl).
Defined.

(** C6 as stated fails for the incremental poll: Gmail cannot be reached,
    the listing call of the poll raises, the poll ends, and the entry of
    [sync_status] holds no error. *)
Lemma C6_counterexample :
  gmail_list_emails Demo.offline "g-token-1" None (Some "after:400") = Err Demo.unavailable /\
  poll_new_emails Demo.offline 5 1 Demo.idle =
    (Ret tt, logged (EvListEmails "g-token-1" None (Some "after:400")) Demo.idle) /\
  option_map error
    (sync_entry (sync_status (snd (poll_new_emails Demo.offline 5 1 Demo.idle))) 1 "gmail") =
    Some None.
Proof. repeat split; reflexivity. Qed.

(** * Uniqueness of the external identifiers *)

Lemma add_email_taken (user : Z) (gid : string) (parsed : ParsedEmail) (w : World)
    (other : Email) :
  In other (emails (db w)) -> gmail_id other = gid ->
  add_email user gid parsed w = (Raise gmail_id_taken, w).
Proof.
  intros Hin Hg. unfold add_email, bind, get_world.
  assert (H : existsb (fun e => String.eqb (gmail_id e) gid) (emails (db w)) = true).
  { apply existsb_exists. exists other. split; [exact Hin|]. now apply String.eqb_eq. }
  now rewrite H.
Qed.

Lemma add_contact_taken (dirty : gmap Z Contact) (user : Z) (data : ContactData)
    (notes_text : string) (w : World) (other : Contact) :
  In other (contacts (db w)) -> hubspot_id other = cd_id data ->
  add_contact dirty user data notes_text w = (Raise hubspot_id_taken, w).
Proof.
  intros Hin Hg. unfold add_contact, bind, get_world.
  assert (H : existsb (fun c => String.eqb (hubspot_id c) (cd_id data))
                (contacts (db w)) = true).
  { apply existsb_exists. exists other. split; [exact Hin|]. now apply String.eqb_eq. }
  now rewrite H.
Qed.

Lemma import_message_taken (env : Env) (u : User) (token gid : string) (n : Z) (w : World)
    (other : Email) (parsed : ParsedEmail) :
  find_email (user_id u) gid (db w) = None ->
  In other (emails (db w)) -> gmail_id other = gid ->
  gmail_get_email env token gid = Ok parsed ->
  import_message env u token gid n w =
  (Raise gmail_id_taken, logged (EvGetEmail token gid) w).
Proof.
  intros Hnone Hin Hg Hget. unfold import_message, bind, get_world. rewrite Hnone.
  unfold fetch_email, bind, emit. rewrite Hget. cbn [lift ret].
  unfold store_email, bind.
  now rewrite (add_email_taken (user_id u) gid parsed _ other) by assumption.
Qed.

(** * More about retrieval *)

Lemma append_empty_r (s : string) : s ++ EmptyString = s.
Proof.
  induction s as [|c s IH]; [reflexivity|].
  change (String c (s ++ EmptyString) = String c s). now f_equal.
Qed.

Lemma take_chars_length (n : nat) (s : string) :
  String.length (Text.take_chars n s) = Nat.min n (String.length s).
Proof.
  unfold Text.take_chars. revert s.
  induction n as [|n IH]; intros [|c s]; cbn; auto.
Qed.

Lemma take_chars_prefix (n : nat) (s : string) :
  exists rest, s = Text.take_chars n s ++ rest.
Proof.
  unfold Text.take_chars. revert s.
  induction n as [|n IH]; intros [|c s].
  - now exists EmptyString.
  - now exists (String c s).
  - now exists EmptyString.
  - destruct (IH s) as [rest H]. exists rest.
    change (String c s = String c (substring 0 n s ++ rest)). now f_equal.
Qed.

(** X1.  [get_embedding] submits at most [MAX_CHARS] = 20000 characters:
    the text itself when it is no longer than that, its first 20000
    characters otherwise; it makes that one call, hands back the vector of
    the provider and raises what the provider raises. *)
Theorem get_embedding_truncates (env : Env) (text : string) (w : World) :
  let sent := embedding_input text in
  get_embedding env text w =
    (match embeddings_create env sent with Ok v => Ret v | Err e => Raise e end,
     logged (EvEmbed sent) w) /\
  Z.of_nat (String.length sent) <= MAX_CHARS /\
  (exists rest, text = sent ++ rest) /\
  (Z.of_nat (String.length text) <= MAX_CHARS -> sent = text) /\
  (MAX_CHARS < Z.of_nat (String.length text) -> Z.of_nat (String.length sent) = MAX_CHARS).
Proof.
  intros sent. split; [apply get_embedding_run|].
  subst sent. unfold embedding_input.
  destruct (Z.ltb_spec MAX_CHARS (Z.of_nat (String.length text))) as [Hlong|Hshort].
  - rewrite take_chars_length.
    assert (Hm : 0 <= MAX_CHARS) by (unfold MAX_CHARS; lia).
    split; [lia|]. split; [apply take_chars_prefix|]. split; lia.
  - split; [exact Hshort|]. split; [exists EmptyString; now rewrite append_empty_r|].
    split; [reflexivity | lia].
Qed.

Lemma get_embedding_truncates_witness :
  embedding_input "alice" = "alice" /\
  trace (snd (get_embedding Demo.env "alice" Demo.inbox)) = [EvEmbed "alice"].
Proof.
  destruct (get_embedding_truncates Demo.env "alice" Demo.inbox)
    as (Hrun & _ & _ & Hshort & _).
  split; [apply Hshort; unfold MAX_CHARS; cbn; lia | now rewrite Hrun].
Defined.

Lemma like_match_any_any (s : string) : Text.like_match [Text.TAny; Text.TAny] s = true.
Proof. rewrite like_match_any, like_match_any_end. reflexivity. Qed.

(** The filter of the exact-match phase for a blank query: the patterns are
    [%%], which every sender matches. *)
Lemma sender_matches_blank (e : Email) :
  sender_matches EmptyString e = not_none (from_email e).
Proof.
  unfold sender_matches. destruct (from_email e) as [sender|]; [|reflexivity].
  cbn [Text.remove_spaces not_none].
  change ("%" ++ EmptyString ++ "%") with "%%".
  unfold Text.ilike.
  change (Text.like_tokens (Text.lower "%%")) with [Text.TAny; Text.TAny].
  now rewrite like_match_any_any.
Qed.

(** X2.  A query that is empty or made of white space only is matched by
    every sender: when the user has an email with a sender and the limit is
    positive, [search_emails] returns the user's emails that have a sender,
    newest first, cut to the limit, and the embedding provider is not
    called. *)
Theorem search_emails_blank_query (env : Env) (w : World) (user : Z) (query : string)
    (limit : Z) :
  Text.strip query = EmptyString ->
  0 < limit ->
  (exists e, In e (emails (db w)) /\ email_user_id e = user /\ from_email e <> None) ->
  let rows := List.filter (fun e => (email_user_id e =? user) && not_none (from_email e))
                (emails (db w)) in
  let hits := firstn (Z.to_nat limit) (Sql.sort_by Sql.received_desc rows) in
  search_emails env user query limit w = (Ret hits, w) /\
  hits <> [] /\
  StronglySorted (fun a b => Sql.received_desc a b = true) hits.
Proof.
  intros Hblank Hl (e0 & He0 & Hu0 & Hs0) rows hits.
  assert (Hq : Text.strip (Text.lower query) = EmptyString)
    by (now rewrite <- lower_strip, Hblank).
  assert (Hrows : exact_rows user EmptyString (db w) = Sql.sort_by Sql.received_desc rows).
  { unfold exact_rows, rows. f_equal. apply filter_ext. intros e.
    now rewrite sender_matches_blank. }
  assert (Hne : hits <> []).
  { subst hits. assert (Hin : In e0 (Sql.sort_by Sql.received_desc rows)).
    { apply sort_by_In. apply filter_In. split; [exact He0|].
      apply andb_true_iff. split; [now apply Z.eqb_eq|].
      destruct (from_email e0); [reflexivity | congruence]. }
    destruct (Sql.sort_by Sql.received_desc rows) as [|x l]; [destruct Hin|].
    destruct (Z.to_nat limit) eqn:E; [lia | discriminate]. }
  split; [|split; [exact Hne|]].
  - pose proof (search_emails_exact env user query limit w) as H.
    rewrite Hq, Hrows in H. apply H; [lia | exact Hne].
  - apply firstn_sorted, sort_by_sorted, received_desc_total.
Qed.

Lemma search_emails_blank_query_witness :
  search_emails Demo.env 1 "   " 2 Demo.mailbox =
    (Ret [ Demo.mail 4 1 "a2" "ALICE@x.com" "Later" 300 None;
           Demo.mail 1 1 "a1" "Alice <alice@x.com>" "Lunch" 200 (Some [(3 # 10)%Q]) ],
     Demo.mailbox).
Proof.
  assert (H1 : Text.strip "   " = EmptyString) by reflexivity.
  assert (H2 : 0 < 2) by lia.
  assert (H3 : exists e, In e (emails (db Demo.mailbox)) /\ email_user_id e = 1 /\
                         from_email e <> None).
  { eexists. split; [left; reflexivity|]. split; [reflexivity | discriminate]. }
  exact (proj1 (search_emails_blank_query Demo.env Demo.mailbox 1 "   " 2 H1 H2 H3)).
Defined.

Section ReadBack.

Context {A : Type} (id : A -> Z).

Lemma in_order_length (d : gmap Z A) (ids : list Z) :
  (List.length (in_order d ids) <= List.length ids)%nat.
Proof.
  unfold in_order. induction ids as [|i ids IH]; simpl; [lia|].
  destruct (d !! i); simpl; [apply le_n_S | apply le_S]; exact IH.
Qed.

Lemma in_order_In (d : gmap Z A) (ids : list Z) (r : A) :
  In r (in_order d ids) -> exists i, d !! i = Some r.
Proof.
  unfold in_order. induction ids as [|i ids IH]; simpl; [easy|].
  destruct (d !! i) as [a|] eqn:E; simpl; [|exact IH].
  intros [<-|H]; [now exists i | now apply IH].
Qed.

Lemma dict_fold_In (rows : list A) (m : gmap Z A) (k : Z) (r : A) :
  fold_left (fun m r => <[id r := r]> m) rows m !! k = Some r ->
  In r rows \/ m !! k = Some r.
Proof.
  revert m. induction rows as [|a rows IH]; intros m H; simpl in *; [now right|].
  apply IH in H as [H|H]; [now left; right|].
  destruct (decide (id a = k)) as [<-|Hne].
  - rewrite lookup_insert_eq in H. injection H as <-. now left; left.
  - rewrite lookup_insert_ne in H by exact Hne. now right.
Qed.

(** What is read back by primary key comes from the table. *)
Lemma read_back_In (table : list A) (ids : list Z) (r : A) :
  In r (in_order
          (dict_by_id id (List.filter (fun r => existsb (Z.eqb (id r)) ids) table)) ids) ->
  In r table.
Proof.
  intros H. apply in_order_In in H as [i H].
  unfold dict_by_id in H. apply dict_fold_In in H as [H|H].
  - now apply filter_In in H.
  - rewrite lookup_empty in H. discriminate.
Qed.

End ReadBack.

(** How [search_emails] can return. *)
Lemma search_emails_inv (env : Env) (user : Z) (query : string) (limit : Z)
    (w w' : World) (hits : list Email) :
  search_emails env user query limit w = (Ret hits, w') ->
  0 <= limit /\
  (w' = w \/ w' = logged (EvEmbed (embedding_input query)) w) /\
  Z.of_nat (List.length hits) <= limit /\
  forall e, In e hits -> In e (emails (db w)).
Proof.
  unfold search_emails, bind, get_world.
  destruct (Z.ltb_spec limit 0) as [Hneg|Hl].
  { unfold Sql.limit_rows. destruct (Z.ltb_spec limit 0); [discriminate | lia]. }
  rewrite limit_rows_ok by exact Hl. cbn [lift ret].
  destruct (firstn (Z.to_nat limit) (exact_rows _ _ _)) as [|x l] eqn:E.
  - rewrite get_embedding_run.
    destruct (embeddings_create env (embedding_input query)) as [qv|e]; [|discriminate].
    rewrite limit_rows_ok by exact Hl. cbn [lift logged db]. unfold ret.
    intros H. injection H as <- <-.
    split; [exact Hl|]. split; [now right|]. split.
    + pose proof (in_order_length
                    (dict_by_id email_id
                       (List.filter
                          (fun e => existsb (Z.eqb (email_id e))
                                      (map email_id
                                         (firstn (Z.to_nat limit)
                                            (ranked_emails env user qv (db w)))))
                          (emails (db w))))
                    (map email_id (firstn (Z.to_nat limit)
                                     (ranked_emails env user qv (db w))))) as Hlen.
      rewrite length_map in Hlen.
      pose proof (List.firstn_le_length (Z.to_nat limit) (ranked_emails env user qv (db w))).
      lia.
    + intros e. apply read_back_In.
  - intros H. injection H as <- <-.
    split; [exact Hl|]. split; [now left|]. split.
    + rewrite <- E.
      pose proof (List.firstn_le_length (Z.to_nat limit)
                    (exact_rows user (Text.strip (Text.lower query)) (db w))).
      lia.
    + intros e He. rewrite <- E in He. apply In_firstn in He.
      now apply exact_rows_In in He.
Qed.

Lemma search_contacts_inv (env : Env) (user : Z) (query : string) (limit : Z)
    (w w' : World) (hits : list Contact) :
  search_contacts env user query limit w = (Ret hits, w') ->
  0 <= limit /\
  w' = logged (EvEmbed (embedding_input query)) w /\
  Z.of_nat (List.length hits) <= limit /\
  forall c, In c hits -> In c (contacts (db w)).
Proof.
  unfold search_contacts, bind, get_world. rewrite get_embedding_run.
  destruct (embeddings_create env (embedding_input query)) as [qv|e]; [|discriminate].
  destruct (Z.ltb_spec limit 0) as [Hneg|Hl].
  { unfold Sql.limit_rows. destruct (Z.ltb_spec limit 0); [discriminate | lia]. }
  rewrite limit_rows_ok by exact Hl. cbn [lift logged db]. unfold ret.
  intros H. injection H as <- <-.
  split; [exact Hl|]. split; [reflexivity|]. split.
  - pose proof (in_order_length
                  (dict_by_id contact_id
                     (List.filter
                        (fun c => existsb (Z.eqb (contact_id c))
                                    (map contact_id
                                       (firstn (Z.to_nat limit)
                                          (ranked_contacts env user qv (db w)))))
                        (contacts (db w))))
                  (map contact_id (firstn (Z.to_nat limit)
                                     (ranked_contacts env user qv (db w))))) as Hlen.
    rewrite length_map in Hlen.
    pose proof (List.firstn_le_length (Z.to_nat limit) (ranked_contacts env user qv (db w))).
    lia.
  - intros c. apply read_back_In.
Qed.

(** X3.  The limit of a search.  A negative limit is refused by the first
    query: [search_emails] raises before any call is made.  With limit 0 the
    exact-match phase can find nothing, so the query is embedded and the
    answer is the empty list.  Whenever [search_emails] or [search_contacts]
    returns, the limit is not negative, the result holds at most that many
    rows, and every row is a row of the table. *)
Theorem search_limits (env : Env) (w : World) (user : Z) (query : string) (limit : Z) :
  (limit < 0 ->
   search_emails env user query limit w =
     (Raise (mk_exn "DataError" "LIMIT must not be negative"), w)) /\
  (limit = 0 ->
   search_emails env user query limit w =
     (match embeddings_create env (embedding_input query) with
      | Ok _ => Ret []
      | Err e => Raise e
      end, logged (EvEmbed (embedding_input query)) w)) /\
  (forall hits w', search_emails env user query limit w = (Ret hits, w') ->
     0 <= limit /\ Z.of_nat (List.length hits) <= limit /\
     forall e, In e hits -> In e (emails (db w))) /\
  (forall hits w', search_contacts env user query limit w = (Ret hits, w') ->
     0 <= limit /\ Z.of_nat (List.length hits) <= limit /\
     forall c, In c hits -> In c (contacts (db w))).
Proof.
  split; [|split; [|split]].
  - intros Hneg. unfold search_emails, bind, get_world, Sql.limit_rows.
    destruct (Z.ltb_spec limit 0); [reflexivity | lia].
  - intros ->. unfold search_emails, bind, get_world.
    rewrite limit_rows_ok by lia. change (Z.to_nat 0) with O.
    rewrite firstn_O. cbn [lift ret].
    rewrite get_embedding_run.
    destruct (embeddings_create env (embedding_input query)); [|reflexivity].
    rewrite limit_rows_ok by lia. change (Z.to_nat 0) with O.
    rewrite firstn_O. reflexivity.
  - intros hits w' H. apply search_emails_inv in H. tauto.
  - intros hits w' H. apply search_contacts_inv in H. tauto.
Qed.

Lemma search_limits_witness :
  search_emails Demo.env 1 "alice" (-1) Demo.mailbox =
    (Raise (mk_exn "DataError" "LIMIT must not be negative"), Demo.mailbox) /\
  search_emails Demo.env 1 "alice" 0 Demo.mailbox =
    (Ret [], logged (EvEmbed "alice") Demo.mailbox).
Proof.
  destruct (search_limits Demo.env Demo.mailbox 1 "alice" (-1)) as (Hneg & _).
  destruct (search_limits Demo.env Demo.mailbox 1 "alice" 0) as (_ & Hzero & _).
  split; [apply Hneg; lia | now apply Hzero].
Defined.

Lemma ranked_emails_nil (env : Env) (user : Z) (qv : Vec) (d : DB) :
  (forall e, In e (emails d) -> email_user_id e = user -> email_embedding e = None) ->
  ranked_emails env user qv d = [].
Proof.
  intros H. unfold ranked_emails. apply sort_by_nil.
  induction (emails d) as [|e l IH]; [reflexivity|]. simpl.
  destruct (Z.eqb_spec (email_user_id e) user) as [Hu|Hu]; simpl.
  - rewrite (H e) by (auto; now left). simpl. apply IH. intros; apply H; auto; now right.
  - apply IH. intros; apply H; auto; now right.
Qed.

Lemma ranked_contacts_nil (env : Env) (user : Z) (qv : Vec) (d : DB) :
  (forall c, In c (contacts d) -> contact_user_id c = user -> contact_embedding c = None) ->
  ranked_contacts env user qv d = [].
Proof.
  intros H. unfold ranked_contacts. apply sort_by_nil.
  induction (contacts d) as [|c l IH]; [reflexivity|]. simpl.
  destruct (Z.eqb_spec (contact_user_id c) user) as [Hu|Hu]; simpl.
  - rewrite (H c) by (auto; now left). simpl. apply IH. intros; apply H; auto; now right.
  - apply IH. intros; apply H; auto; now right.
Qed.

(** X4.  When none of the user's emails has a matching sender or an
    embedding and none of the user's contacts has an embedding,
    [get_relevant_context] embeds the query twice, once for each search, and
    answers with the fixed text [No relevant context found.]; when the
    provider fails, the first call's error is raised and there is no
    second call. *)
Theorem get_relevant_context_nothing_found (env : Env) (w : World) (user : Z)
    (query : string) (email_limit contact_limit : Z) :
  0 <= email_limit -> 0 <= contact_limit ->
  (forall e, In e (emails (db w)) -> email_user_id e = user ->
     sender_matches (Text.strip (Text.lower query)) e = false /\
     email_embedding e = None) ->
  (forall c, In c (contacts (db w)) -> contact_user_id c = user ->
     contact_embedding c = None) ->
  let sent := EvEmbed (embedding_input query) in
  get_relevant_context env user query email_limit contact_limit w =
    match embeddings_create env (embedding_input query) with
    | Ok _ => (Ret "No relevant context found.", logged sent (logged sent w))
    | Err e => (Raise e, logged sent w)
    end.
Proof.
  intros Hel Hcl He Hc sent.
  assert (Hexact : exact_rows user (Text.strip (Text.lower query)) (db w) = []).
  { apply exact_rows_nil. intros e Hin Hu. now apply He. }
  unfold get_relevant_context. unfold bind at 1.
  unfold search_emails, bind at 1, get_world.
  unfold bind at 1. rewrite limit_rows_ok by exact Hel. cbn [lift ret].
  rewrite Hexact, firstn_nil. unfold bind at 1. rewrite get_embedding_run.
  destruct (embeddings_create env (embedding_input query)) as [qv|e] eqn:Eq; [|reflexivity].
  unfold bind at 1. unfold bind at 1. cbn [get_world].
  rewrite limit_rows_ok by exact Hel. cbn [lift ret logged db].
  rewrite ranked_emails_nil by (intros e Hin Hu; now apply He).
  rewrite firstn_nil. cbn [map in_order omap list_omap].
  unfold bind at 1. unfold search_contacts. unfold bind at 1.
  rewrite get_embedding_run, Eq. unfold bind at 1. cbn [get_world].
  unfold bind at 1. rewrite limit_rows_ok by exact Hcl. cbn [lift ret logged db].
  rewrite ranked_contacts_nil by exact Hc.
  rewrite firstn_nil. reflexivity.
Qed.

Lemma get_relevant_context_nothing_found_witness :
  get_relevant_context Demo.env 2 "carol" 5 5 Demo.inbox =
    (Ret "No relevant context found.",
     logged (EvEmbed "carol") (logged (EvEmbed "carol") Demo.inbox)).
Proof.
  assert (H1 : 0 <= 5) by lia.
  assert (H2 : forall e, In e (emails (db Demo.inbox)) -> email_user_id e = 2 ->
                 sender_matches (Text.strip (Text.lower "carol")) e = false /\
                 email_embedding e = None).
  { intros e [<-|[]] Hu. discriminate Hu. }
  assert (H3 : forall c, In c (contacts (db Demo.inbox)) -> contact_user_id c = 2 ->
                 contact_embedding c = None) by (intros c []).
  exact (get_relevant_context_nothing_found Demo.env Demo.inbox 2 "carol" 5 5 H1 H1 H2 H3).
Defined.

Lemma format_loop_ok (env : Env) (es : list Email) (acc : list string) (w : World) :
  Forall (fun e => has_body e = true) es ->
  exists parts,
    for_each es (fun e parts => block <- format_email env e ;; ret (parts ++ [block])%list)
      acc w = (Ret (acc ++ parts)%list, w).
Proof.
  set (body := fun e parts => _).
  revert acc. induction es as [|e es IH]; intros acc H; cbn [for_each].
  - exists []. now rewrite app_nil_r.
  - apply Forall_cons_iff in H as [He H]. unfold has_body in He.
    unfold bind at 1. unfold body at 1. unfold bind at 1. unfold format_email.
    destruct (body_text e) as [text|]; [|discriminate]. cbn [ret].
    match goal with
    | |- context [for_each es body ?a] => destruct (IH a H) as [parts Hp]
    end.
    rewrite Hp. eexists (_ :: parts). now rewrite <- app_assoc.
Qed.

Lemma format_loop_fails (env : Env) (es : list Email) (acc : list string) (w : World) :
  (exists e, In e es /\ body_text e = None) ->
  for_each es (fun e parts => block <- format_email env e ;; ret (parts ++ [block])%list)
    acc w = (Raise (mk_exn "TypeError" "'NoneType' object is not subscriptable"), w).
Proof.
  set (body := fun e parts => _).
  revert acc. induction es as [|e es IH]; intros acc (x & Hin & Hx); [destruct Hin|].
  cbn [for_each]. unfold bind at 1. unfold body at 1. unfold bind at 1. unfold format_email.
  destruct (body_text e) as [text|] eqn:E; [|reflexivity]. cbn [ret].
  apply IH. exists x. destruct Hin as [->|Hin]; [congruence | auto].
Qed.

Lemma search_emails_returns (env : Env) (user : Z) (query : string) (limit : Z)
    (w : World) (qv : Vec) :
  0 <= limit ->
  embeddings_create env (embedding_input query) = Ok qv ->
  exists hits w', search_emails env user query limit w = (Ret hits, w').
Proof.
  intros Hl Hq. unfold search_emails, bind, get_world.
  rewrite limit_rows_ok by exact Hl. cbn [lift ret].
  destruct (firstn _ _); [|eauto].
  rewrite get_embedding_run, Hq. rewrite limit_rows_ok by exact Hl. cbn [lift ret]. eauto.
Qed.

Lemma search_contacts_returns (env : Env) (user : Z) (query : string) (limit : Z)
    (w : World) (qv : Vec) :
  0 <= limit ->
  embeddings_create env (embedding_input query) = Ok qv ->
  exists hits,
    search_contacts env user query limit w =
      (Ret hits, logged (EvEmbed (embedding_input query)) w).
Proof.
  intros Hl Hq. unfold search_contacts, bind, get_world.
  rewrite get_embedding_run, Hq. rewrite limit_rows_ok by exact Hl. cbn [lift ret]. eauto.
Qed.

(** X5.  [get_relevant_context] takes [email.body_text[:500]] of every
    email it found.  With limits that are not negative and a provider that
    embeds the query: when every stored email has a body the context is
    returned; when an email among those found has a NULL body, a
    [TypeError] is raised, after both searches were made. *)
Theorem context_needs_bodies (env : Env) (w : World) (user : Z) (query : string)
    (email_limit contact_limit : Z) (qv : Vec) :
  0 <= email_limit -> 0 <= contact_limit ->
  embeddings_create env (embedding_input query) = Ok qv ->
  (every has_body w ->
   exists text w',
     get_relevant_context env user query email_limit contact_limit w = (Ret text, w') /\
     db w' = db w) /\
  (forall hits w1,
     search_emails env user query email_limit w = (Ret hits, w1) ->
     (exists e, In e hits /\ body_text e = None) ->
     get_relevant_context env user query email_limit contact_limit w =
       (Raise (mk_exn "TypeError" "'NoneType' object is not subscriptable"),
        logged (EvEmbed (embedding_input query)) w1)).
Proof.
  intros Hel Hcl Hq. split.
  - intros Hev.
    destruct (search_emails_returns env user query email_limit w qv Hel Hq)
      as (hits & w1 & Hs).
    destruct (search_emails_inv _ _ _ _ _ _ _ Hs) as (_ & Hw1 & _ & Hsub).
    destruct (search_contacts_returns env user query contact_limit w1 qv Hcl Hq)
      as [found Hc].
    assert (Hdb : db w1 = db w) by (destruct Hw1 as [->| ->]; reflexivity).
    unfold get_relevant_context. unfold bind at 1. rewrite Hs.
    unfold bind at 1. rewrite Hc. unfold bind at 1.
    destruct hits as [|h hits].
    + cbn [ret app].
      destruct found; eexists; eexists; (split; [reflexivity | exact Hdb]).
    + destruct (format_loop_ok env (h :: hits) ["## Relevant Emails:"]
                  (logged (EvEmbed (embedding_input query)) w1)) as [parts Hp].
      { apply List.Forall_forall. intros e He.
        unfold every in Hev. rewrite List.Forall_forall in Hev. apply Hev, Hsub, He. }
      rewrite Hp. cbn [app]. eexists; eexists; (split; [reflexivity | exact Hdb]).
  - intros hits w1 Hs Hbad.
    destruct (search_emails_inv _ _ _ _ _ _ _ Hs) as (_ & Hw1 & _ & Hsub).
    destruct (search_contacts_returns env user query contact_limit w1 qv Hcl Hq)
      as [found Hc].
    unfold get_relevant_context. unfold bind at 1. rewrite Hs.
    unfold bind at 1. rewrite Hc. unfold bind at 1.
    destruct hits as [|h hits]; [destruct Hbad as (e & [] & _)|].
    now rewrite format_loop_fails by exact Hbad.
Qed.

Lemma context_needs_bodies_witness :
  exists text w',
    get_relevant_context Demo.env 1 "alice" 5 5 Demo.mailbox = (Ret text, w') /\
    db w' = db Demo.mailbox.
Proof.
  assert (H1 : 0 <= 5) by lia.
  assert (H2 : embeddings_create Demo.env (embedding_input "alice") = Ok [(5 # 1)%Q])
    by reflexivity.
  assert (H3 : every has_body Demo.mailbox) by (repeat constructor).
  exact (proj1 (context_needs_bodies Demo.env Demo.mailbox 1 "alice" 5 5 _ H1 H1 H2) H3).
Defined.

(** * The footprint of a chat turn *)

Lemma steady_refl (user : Z) (w : World) : steady user w w.
Proof.
  constructor; try reflexivity; exists []; rewrite app_nil_r; auto.
Qed.

Lemma steady_trans (user : Z) (w1 w2 w3 : World) :
  steady user w1 w2 -> steady user w2 w3 -> steady user w1 w3.
Proof.
  intros [U1 E1 C1 S1 K1 (t1 & T1 & F1) (i1 & I1 & G1) (x1 & X1)]
         [U2 E2 C2 S2 K2 (t2 & T2 & F2) (i2 & I2 & G2) (x2 & X2)].
  constructor; try congruence.
  - exists (t1 ++ t2)%list. rewrite T2, T1, <- app_assoc. split; [reflexivity|].
    apply Forall_app; now split.
  - exists (i1 ++ i2)%list. rewrite I2, I1, <- app_assoc. split; [reflexivity|].
    apply Forall_app; now split.
  - exists (x1 ++ x2)%list. now rewrite X2, X1, <- app_assoc.
Qed.

Lemma steady_logged (user : Z) (ev : Event) (w : World) : steady user w (logged ev w).
Proof.
  constructor; try reflexivity; cbn.
  - exists []. now rewrite app_nil_r.
  - exists []. now rewrite app_nil_r.
  - now exists [ev].
Qed.

Section Keeps.

Variable user : Z.

Lemma keeps_ret {A : Type} (a : A) : keeps user (ret a).
Proof. intros w. apply steady_refl. Qed.

Lemma keeps_raise {A : Type} (e : Exn) : keeps user (@raise A e).
Proof. intros w. apply steady_refl. Qed.

Lemma keeps_lift {A : Type} (r : Res A) : keeps user (lift r).
Proof. destruct r; [apply keeps_ret | apply keeps_raise]. Qed.

Lemma keeps_get_world : keeps user get_world.
Proof. intros w. apply steady_refl. Qed.

Lemma keeps_emit (ev : Event) : keeps user (emit ev).
Proof. intros w. apply steady_logged. Qed.

Lemma keeps_bind {A B : Type} (m : M A) (k : A -> M B) :
  keeps user m -> (forall a, keeps user (k a)) -> keeps user (bind m k).
Proof.
  intros Hm Hk w. unfold bind. specialize (Hm w).
  destruct (m w) as [[a|e|] w1]; cbn [snd] in *; [|exact Hm|exact Hm].
  eapply steady_trans; [exact Hm | apply Hk].
Qed.

Lemma keeps_try_except {A : Type} (m : M A) (h : Exn -> M A) :
  keeps user m -> (forall e, keeps user (h e)) -> keeps user (try_except m h).
Proof.
  intros Hm Hh w. unfold try_except. specialize (Hm w).
  destruct (m w) as [[a|e|] w1]; cbn [snd] in *; [exact Hm| |exact Hm].
  eapply steady_trans; [exact Hm | apply Hh].
Qed.

Lemma keeps_for_each {A S : Type} (xs : list A) (body : A -> S -> M S) (s : S) :
  (forall x s, keeps user (body x s)) -> keeps user (for_each xs body s).
Proof.
  intros Hb. revert s. induction xs as [|x xs IH]; intros s; cbn [for_each].
  - apply keeps_ret.
  - apply keeps_bind; [apply Hb | intros; apply IH].
Qed.

End Keeps.

Create HintDb footprint.
#[export] Hint Resolve keeps_ret keeps_raise keeps_lift keeps_get_world keeps_emit
  : footprint.

Ltac keep_step :=
  match goal with
  | |- keeps _ (bind _ _) => apply keeps_bind; [|intros]
  | |- keeps _ (try_except _ _) => apply keeps_try_except; [|intros]
  | |- keeps _ (for_each _ _ _) => apply keeps_for_each; intros
  | |- keeps _ (match ?x with _ => _ end) => destruct x
  end.

Ltac keep := repeat (first [ solve [auto with footprint] | keep_step ]).

Lemma keeps_get_relevant_context (env : Env) (user who : Z) (query : string) (l1 l2 : Z) :
  keeps user (get_relevant_context env who query l1 l2).
Proof.
  unfold get_relevant_context, search_emails, search_contacts, get_embedding, format_email.
  keep.
Qed.

Lemma keeps_detect_trigger_type (env : Env) (user : Z) (text : string) :
  keeps user (detect_trigger_type env text).
Proof. unfold detect_trigger_type. keep. Qed.

Lemma keeps_call_provider (env : Env) (user : Z) (token : string) (c : ProviderCall) :
  keeps user (call_provider env token c).
Proof. unfold call_provider. keep. Qed.

(** A new task is appended for the user, as pending. *)
Lemma keeps_add_task (user : Z) (a b c : json) : keeps user (add_task user a b c).
Proof.
  unfold add_task.
  apply keeps_bind; [auto with footprint | intros type_text].
  apply keeps_bind; [auto with footprint | intros description_text].
  destruct type_text; auto with footprint.
  intros w; cbn; constructor; cbn; try reflexivity.
  - eexists. split; [reflexivity | repeat constructor].
  - exists []. rewrite app_nil_r. auto.
  - exists []. now rewrite app_nil_r.
Qed.

(** A new instruction is appended for the user, as active. *)
Lemma keeps_add_ongoing_instruction (user : Z) (a b : json) :
  keeps user (add_ongoing_instruction user a b).
Proof.
  unfold add_ongoing_instruction.
  apply keeps_bind; [auto with footprint | intros instruction_text].
  apply keeps_bind; [auto with footprint | intros trigger_text].
  destruct instruction_text; auto with footprint.
  intros w; cbn; constructor; cbn; try reflexivity.
  - exists []. rewrite app_nil_r. auto.
  - eexists. split; [reflexivity | repeat constructor].
  - exists []. now rewrite app_nil_r.
Qed.

#[export] Hint Resolve keeps_get_relevant_context keeps_detect_trigger_type
  keeps_call_provider keeps_add_task keeps_add_ongoing_instruction : footprint.

Lemma keeps_dispatch (env : Env) (agent : Agent) (name : string) (args : json) :
  keeps (user_id (agent_user agent)) (dispatch env agent name args).
Proof. unfold dispatch. keep. Qed.

#[export] Hint Resolve keeps_dispatch : footprint.

Lemma keeps_execute_tool (env : Env) (agent : Agent) (tc : ToolCall) :
  keeps (user_id (agent_user agent)) (_execute_tool env agent tc).
Proof. unfold _execute_tool. keep. Qed.

#[export] Hint Resolve keeps_execute_tool : footprint.

Lemma keeps_chat (env : Env) (agent : Agent) (message : string)
    (history : list (string * string)) :
  keeps (user_id (agent_user agent)) (chat env agent message history).
Proof. unfold chat, chat_body, run_tool_calls. keep. Qed.

#[export] Hint Resolve keeps_chat : footprint.

Lemma keeps_process_ongoing_instructions (env : Env) (agent : Agent)
    (trigger : string) (data : json) :
  keeps (user_id (agent_user agent)) (process_ongoing_instructions env agent trigger data).
Proof. unfold process_ongoing_instructions. keep. Qed.

#[export] Hint Resolve keeps_process_ongoing_instructions : footprint.

(** * More about the agent *)

(** X6.  The footprint of the agent.  A chat turn, the handling of a
    trigger event and the execution of a tool call, whatever the model asks
    for and whatever fails, leave the tables of users, emails and contacts,
    [sync_status] and the clock as they were; tasks and ongoing
    instructions are only appended, every new task for the agent's user and
    pending, every new instruction for the agent's user and active;
    the trace only grows. *)
Theorem agent_footprint (env : Env) (agent : Agent) (w : World) :
  let user := user_id (agent_user agent) in
  (forall message history, steady user w (snd (chat env agent message history w))) /\
  (forall trigger data,
     steady user w (snd (process_ongoing_instructions env agent trigger data w))) /\
  (forall tc, steady user w (snd (_execute_tool env agent tc w))).
Proof.
  intros user. split; [|split].
  - intros message history. apply keeps_chat.
  - intros trigger data. apply keeps_process_ongoing_instructions.
  - intros tc. apply keeps_execute_tool.
Qed.

Section Yields.

Context {A B : Type}.

Lemma yields_ret (P : A -> Prop) (a : A) : P a -> yields P (ret a).
Proof. intros H w a' w' E. injection E as <- _. exact H. Qed.

Lemma yields_raise (P : A -> Prop) (e : Exn) : yields P (raise e).
Proof. intros w a w' E. discriminate E. Qed.

Lemma yields_bind (P : B -> Prop) (m : M A) (k : A -> M B) :
  (forall a, yields P (k a)) -> yields P (bind m k).
Proof.
  intros Hk w b w' E. unfold bind in E.
  destruct (m w) as [[a|e|] w1]; [|discriminate|discriminate].
  exact (Hk a w1 b w' E).
Qed.

Lemma yields_try_except (P : A -> Prop) (m : M A) (h : Exn -> M A) :
  yields P m -> (forall e, yields P (h e)) -> yields P (try_except m h).
Proof.
  intros Hm Hh w a w' E. unfold try_except in E.
  destruct (m w) as [[a0|e|] w1] eqn:Em; [|exact (Hh e w1 a w' E)|discriminate].
  injection E as <- <-. exact (Hm w a0 w1 Em).
Qed.

End Yields.

Ltac payload_step :=
  match goal with
  | |- yields _ (ret _) => apply yields_ret; reflexivity
  | |- yields _ (raise _) => apply yields_raise
  | |- yields _ (bind _ _) => apply yields_bind; intros
  | |- yields _ (match ?x with _ => _ end) => destruct x
  end.

(** Whatever the body of the [try] returns is a tool result. *)
Lemma dispatch_payload (env : Env) (agent : Agent) (name : string) (args : json) :
  yields (fun p => is_payload p = true) (dispatch env agent name args).
Proof. unfold dispatch. repeat payload_step. Qed.

Lemma dispatch_unknown (env : Env) (agent : Agent) (name : string) (args : json) (w : World) :
  ~ In name tool_names ->
  dispatch env agent name args w = (Ret (fail_result ("Unknown tool: " ++ name)), w).
Proof.
  intros H. unfold dispatch.
  repeat match goal with
  | |- context [String.eqb name ?s] =>
      destruct (String.eqb_spec name s) as [->|_];
        [exfalso; apply H; unfold tool_names; simpl; tauto|]
  end.
  reflexivity.
Qed.

Lemma execute_tool_run (env : Env) (agent : Agent) (tc : ToolCall) (args : json) (w : World) :
  json_loads env (function_arguments tc) = Ok args ->
  _execute_tool env agent tc w =
    match dispatch env agent (function_name tc) args w with
    | (Raise e, w1) => (Ret (fail_result (exn_msg e)), w1)
    | r => r
    end.
Proof.
  intros H. unfold _execute_tool. unfold bind at 1. rewrite H. reflexivity.
Qed.

(** X7.  A tool call whose arguments parse always comes back as a tool
    result, a dictionary that starts with [success] and a Boolean: what the
    tool returned, or, when anything was raised while it ran, the failure
    result that carries the text of the exception, in the world the tool had
    reached.  A name that is none of the nine declared in [TOOLS] gives the
    failure [Unknown tool: name] and changes nothing. *)
Theorem execute_tool_payload (env : Env) (agent : Agent) (tc : ToolCall) (args : json)
    (w : World) :
  json_loads env (function_arguments tc) = Ok args ->
  exists payload w',
    _execute_tool env agent tc w = (Ret payload, w') /\
    is_payload payload = true /\
    (forall e w1, dispatch env agent (function_name tc) args w = (Raise e, w1) ->
       payload = fail_result (exn_msg e) /\ w' = w1) /\
    (~ In (function_name tc) tool_names ->
       payload = fail_result ("Unknown tool: " ++ function_name tc) /\ w' = w).
Proof.
  intros Hargs.
  pose proof (execute_tool_run env agent tc args w Hargs) as Hrun.
  pose proof (terminates_dispatch env agent (function_name tc) args w) as Hhalt.
  pose proof (dispatch_payload env agent (function_name tc) args w) as Hpay.
  pose proof (dispatch_unknown env agent (function_name tc) args w) as Hunk.
  destruct (dispatch env agent (function_name tc) args w) as [[p|e|] w1] eqn:Ed.
  - exists p, w1. split; [exact Hrun|]. split; [now apply (Hpay p w1)|].
    split; [intros e w2 H; discriminate H|].
    intros Hname. specialize (Hunk Hname). injection Hunk as -> ->. now split.
  - exists (fail_result (exn_msg e)), w1. split; [exact Hrun|]. split; [reflexivity|].
    split; [intros e' w2 H; injection H as <- <-; now split|].
    intros Hname. specialize (Hunk Hname). discriminate Hunk.
  - now cbn in Hhalt.
Qed.

Lemma execute_tool_payload_witness :
  _execute_tool Demo.careless (AIAgent Demo.advisor) (Demo.tool "c9" "book_flight" "{}")
    Demo.inbox =
  (Ret (fail_result "Unknown tool: book_flight"), Demo.inbox).
Proof.
  destruct (execute_tool_payload Demo.careless (AIAgent Demo.advisor)
              (Demo.tool "c9" "book_flight" "{}") (JObj []) Demo.inbox eq_refl)
    as (payload & w' & Hrun & _ & _ & Hunknown).
  destruct Hunknown as [-> ->]; [|exact Hrun].
  cbn. intuition discriminate.
Defined.

(** X8.  A tool that needs Google or HubSpot checks the connection before
    it reads its arguments: for a user without a token of that service
    (none, or an empty one) the call comes back as the failure [Google not
    connected] or [HubSpot not connected], whatever the arguments hold,
    and nothing is called or changed. *)
Theorem tools_need_connection (env : Env) (user : User) (tc : ToolCall) (args : json)
    (w : World) :
  json_loads env (function_arguments tc) = Ok args ->
  (In (function_name tc) google_tools ->
   Text.truthy_opt (google_access_token user) = false ->
   _execute_tool env (AIAgent user) tc w = (Ret (fail_result "Google not connected"), w)) /\
  (In (function_name tc) hubspot_tools ->
   Text.truthy_opt (hubspot_access_token user) = false ->
   _execute_tool env (AIAgent user) tc w = (Ret (fail_result "HubSpot not connected"), w)).
Proof.
  intros Hargs. split; intros Hin Htok.
  - rewrite (execute_tool_run _ _ _ _ _ Hargs).
    unfold google_tools in Hin. simpl in Hin.
    destruct Hin as [<-|[<-|[<-|[]]]]; unfold dispatch, AIAgent;
      cbn [String.eqb Ascii.eqb Bool.eqb google_service]; now rewrite Htok.
  - rewrite (execute_tool_run _ _ _ _ _ Hargs).
    unfold hubspot_tools in Hin. simpl in Hin.
    destruct Hin as [<-|[<-|[<-|[]]]]; unfold dispatch, AIAgent;
      cbn [String.eqb Ascii.eqb Bool.eqb hubspot_service]; now rewrite Htok.
Qed.

Lemma tools_need_connection_witness :
  _execute_tool Demo.careless (AIAgent Cases.newcomer) (Demo.tool "c1" "send_email" "{}")
    Demo.inbox = (Ret (fail_result "Google not connected"), Demo.inbox) /\
  _execute_tool Demo.careless (AIAgent Cases.newcomer)
    (Demo.tool "c2" "create_hubspot_note" "{}") Demo.inbox =
    (Ret (fail_result "HubSpot not connected"), Demo.inbox).
Proof.
  split.
  - apply (proj1 (tools_need_connection Demo.careless Cases.newcomer
                    (Demo.tool "c1" "send_email" "{}") (JObj []) Demo.inbox eq_refl)).
    + simpl. tauto.
    + reflexivity.
  - apply (proj2 (tools_need_connection Demo.careless Cases.newcomer
                    (Demo.tool "c2" "create_hubspot_note" "{}") (JObj []) Demo.inbox eq_refl)).
    + simpl. tauto.
    + reflexivity.
Defined.

(** The loop over the tool calls appends one tool message per call, in the
    order of the calls, each tagged with the id of its call and holding a
    tool result. *)
Lemma run_tool_calls_messages (env : Env) (agent : Agent) (calls : list ToolCall)
    (messages msgs : list Message) (w w1 : World) :
  run_tool_calls env agent calls messages w = (Ret msgs, w1) ->
  exists payloads,
    List.length payloads = List.length calls /\
    Forall (fun p => is_payload p = true) payloads /\
    msgs = (messages ++ tool_messages env calls payloads)%list.
Proof.
  unfold run_tool_calls.
  set (body := fun tool_call msgs => _).
  revert messages w. induction calls as [|tc calls IH]; intros messages w H.
  - injection H as <- <-. exists []. split; [reflexivity|]. split; [constructor|].
    unfold tool_messages. cbn. now rewrite app_nil_r.
  - cbn [for_each] in H. apply bind_ret_inv in H as (m1 & w0 & H1 & H).
    unfold body in H1 at 1. apply bind_ret_inv in H1 as (p & w0' & Hp & H1).
    injection H1 as <- <-.
    apply IH in H as (payloads & Hlen & Hall & Hmsgs).
    exists (p :: payloads). split; [cbn; now rewrite Hlen|]. split.
    + constructor; [|exact Hall].
      unfold _execute_tool in Hp. apply bind_ret_inv in Hp as (args & w2 & Ha & Hp).
      exact (yields_try_except (fun p => is_payload p = true) _ _
               (dispatch_payload env agent _ args)
               (fun e => yields_ret (fun p => is_payload p = true)
                           (fail_result (exn_msg e)) eq_refl) w2 p w0' Hp).
    + rewrite Hmsgs. unfold tool_messages. cbn [combine map fst snd].
      now rewrite <- app_assoc.
Qed.

(** A first answer without tool calls is the answer of the turn. *)
Lemma chat_plain_answer (env : Env) (agent : Agent) (message : string)
    (history : list (string * string)) (w : World) (am : AssistantMessage) :
  let messages := chat_messages env agent message history w in
  chat_completions_create env (first_request messages) = Ok am ->
  tool_calls am = [] ->
  chat env agent message history w =
    (Ret {| response := content am; chat_error := None |},
     logged (EvChat (first_request messages)) w).
Proof.
  intros messages Ham Hnone. unfold chat, bind at 1, get_world. fold messages.
  unfold try_except, chat_body, bind, emit, lift. rewrite Ham. cbn [ret].
  now rewrite Hnone.
Qed.

(** X9.  A chat turn has at most one round of tools.  When the model asks
    for no tool, the turn is that one model call and the answer is its
    text.  When it asks for tools and they all come back, the second
    request holds the first messages, the model's message and one tool
    message per call, in the order of the calls and tagged with their ids;
    it offers no tools; and the answer of the turn is the text of the second
    response, whatever tool calls that response holds: they are not run. *)
Theorem chat_single_round (env : Env) (agent : Agent) (message : string)
    (history : list (string * string)) (w : World) :
  let messages := chat_messages env agent message history w in
  let started := logged (EvChat (first_request messages)) w in
  (forall am,
     chat_completions_create env (first_request messages) = Ok am ->
     tool_calls am = [] ->
     chat env agent message history w =
       (Ret {| response := content am; chat_error := None |}, started)) /\
  (forall am msgs w1 fm,
     chat_completions_create env (first_request messages) = Ok am ->
     tool_calls am <> [] ->
     run_tool_calls env agent (tool_calls am) (messages ++ [MsgAssistant am])%list started =
       (Ret msgs, w1) ->
     chat_completions_create env (final_request msgs) = Ok fm ->
     chat env agent message history w =
       (Ret {| response := content fm; chat_error := None |},
        logged (EvChat (final_request msgs)) w1) /\
     req_tools (final_request msgs) = false /\
     exists payloads,
       List.length payloads = List.length (tool_calls am) /\
       Forall (fun p => is_payload p = true) payloads /\
       msgs = (messages ++ MsgAssistant am :: tool_messages env (tool_calls am) payloads)%list).
Proof.
  intros messages started. split.
  - intros am Ham Hnone. now apply chat_plain_answer.
  - intros am msgs w1 fm Ham Hcalls Hrun Hfm. split; [|split; [reflexivity|]].
    + unfold chat, bind at 1, get_world. fold messages.
      unfold try_except, chat_body, bind, emit, lift. rewrite Ham. cbn [ret].
      destruct (tool_calls am) as [|tc tcs]; [congruence|].
      fold started. rewrite Hrun, Hfm. reflexivity.
    + apply run_tool_calls_messages in Hrun as (payloads & Hlen & Hall & ->).
      exists payloads. split; [exact Hlen|]. split; [exact Hall|].
      now rewrite <- app_assoc.
Qed.

Lemma chat_single_round_witness :
  fst (chat Cases.eager (AIAgent Demo.advisor) "What is on today?" [] Demo.inbox) =
    Ret {| response := Some "Done."; chat_error := None |} /\
  List.length (trace (snd (chat Cases.eager (AIAgent Demo.advisor) "What is on today?" []
                             Demo.inbox))) = 3%nat.
Proof.
  destruct (chat_single_round Cases.eager (AIAgent Demo.advisor) "What is on today?" []
              Demo.inbox) as [_ H].
  edestruct H as (Hchat & _ & _);
    [reflexivity | discriminate | reflexivity | reflexivity |].
  rewrite Hchat. split; reflexivity.
Defined.


(** * More about the sync runs *)

Section Holds.

Variable P : Email -> Prop.

Lemma holds_ret {A : Type} (a : A) : holds P (ret a).
Proof. intros w H. exact H. Qed.

Lemma holds_raise {A : Type} (e : Exn) : holds P (@raise A e).
Proof. intros w H. exact H. Qed.

Lemma holds_diverge {A : Type} : holds P (@diverge A).
Proof. intros w H. exact H. Qed.

Lemma holds_lift {A : Type} (r : Res A) : holds P (lift r).
Proof. destruct r; [apply holds_ret | apply holds_raise]. Qed.

Lemma holds_get_world : holds P get_world.
Proof. intros w H. exact H. Qed.

Lemma holds_emit (ev : Event) : holds P (emit ev).
Proof. intros w H. exact H. Qed.

Lemma holds_set_sync_status (s : gmap Z (gmap string SyncEntry)) :
  holds P (set_sync_status s).
Proof. intros w H. exact H. Qed.

Lemma holds_bind {A B : Type} (m : M A) (k : A -> M B) :
  holds P m -> (forall a, holds P (k a)) -> holds P (bind m k).
Proof.
  intros Hm Hk w H. unfold bind. specialize (Hm w H).
  destruct (m w) as [[a|e|] w1]; cbn [snd] in *; [|exact Hm|exact Hm].
  now apply Hk.
Qed.

Lemma holds_try_except {A : Type} (m : M A) (h : Exn -> M A) :
  holds P m -> (forall e, holds P (h e)) -> holds P (try_except m h).
Proof.
  intros Hm Hh w H. unfold try_except. specialize (Hm w H).
  destruct (m w) as [[a|e|] w1]; cbn [snd] in *; [exact Hm| |exact Hm].
  now apply Hh.
Qed.

Lemma holds_for_each {A S : Type} (xs : list A) (body : A -> S -> M S) (s : S) :
  (forall x s, holds P (body x s)) -> holds P (for_each xs body s).
Proof.
  intros Hb. revert s. induction xs as [|x xs IH]; intros s; cbn [for_each].
  - apply holds_ret.
  - apply holds_bind; [apply Hb | intros; apply IH].
Qed.

(** Code that leaves the emails as they are. *)
Lemma holds_of_keeps {A : Type} (user : Z) (m : M A) : keeps user m -> holds P m.
Proof. intros Hk w H. now rewrite (st_emails _ _ _ (Hk w)). Qed.

Hypothesis P_embedding : forall v e, P e -> P (with_email_embedding v e).

Lemma holds_set_email_embedding (id : Z) (v : Vec) : holds P (set_email_embedding id v).
Proof.
  intros w H. cbn. apply List.Forall_forall. intros e He.
  apply in_map_iff in He as (x & <- & Hx).
  rewrite List.Forall_forall in H.
  destruct (email_id x =? id); [apply P_embedding|]; now apply H.
Qed.

End Holds.

Create HintDb invariant.
#[export] Hint Resolve holds_ret holds_raise holds_diverge holds_lift holds_get_world
  holds_emit holds_set_sync_status : invariant.

Ltac hold_step :=
  match goal with
  | |- holds _ (bind _ _) => apply holds_bind; [|intros]
  | |- holds _ (try_except _ _) => apply holds_try_except; [|intros]
  | |- holds _ (for_each _ _ _) => apply holds_for_each; intros
  | |- holds _ (match ?x with _ => _ end) => destruct x
  | |- holds _ (let '(_, _) := ?x in _) => destruct x
  end.

Ltac hold := repeat (first [ solve [eauto with invariant] | hold_step ]).

(** What [add_email] returns and leaves. *)
Lemma add_email_ret (user : Z) (gid : string) (parsed : ParsedEmail) (w w' : World)
    (row : Email) :
  add_email user gid parsed w = (Ret row, w') ->
  emails (db w') = (emails (db w) ++ [row])%list /\
  email_user_id row = user /\ gmail_id row = gid /\
  subject row = Some (p_subject parsed) /\
  from_email row = Some (p_from_email parsed) /\
  body_text row = Some (p_body_text parsed) /\
  body_html row = Some (p_body_html parsed) /\
  received_at row = p_received_at parsed /\
  email_embedding row = None.
Proof.
  unfold add_email, bind, get_world.
  destruct (existsb _ (emails (db w))); [discriminate|].
  cbn. intros H. injection H as <- <-. cbn. repeat split.
Qed.

Lemma holds_add_email (P : Email -> Prop) (user : Z) (gid : string) (parsed : ParsedEmail) :
  (forall row w w', add_email user gid parsed w = (Ret row, w') -> P row) ->
  holds P (add_email user gid parsed).
Proof.
  intros Hrow w H.
  destruct (add_email user gid parsed w) as [[row|e|] w'] eqn:E; cbn [snd].
  - destruct (add_email_ret _ _ _ _ _ _ E) as (-> & _).
    apply Forall_app. split; [exact H|]. constructor; [|constructor].
    eapply Hrow, E.
  - unfold add_email, bind, get_world in E.
    destruct (existsb _ (emails (db w))); [|discriminate]. now injection E as _ <-.
  - unfold add_email, bind, get_world in E.
    destruct (existsb _ (emails (db w))); discriminate.
Qed.

Lemma holds_store_email (env : Env) (P : Email -> Prop) (u : User) (gid : string)
    (parsed : ParsedEmail) :
  (forall v e, P e -> P (with_email_embedding v e)) ->
  (forall row w w', add_email (user_id u) gid parsed w = (Ret row, w') -> P row) ->
  holds P (store_email env u gid parsed).
Proof.
  intros Hemb Hrow. unfold store_email, get_embedding, fetch_email. hold.
  - now apply holds_add_email.
  - now apply holds_set_email_embedding.
  - eapply holds_of_keeps, keeps_process_ongoing_instructions.
Qed.

Lemma complete_embedding (v : Vec) (e : Email) :
  complete e = true -> complete (with_email_embedding v e) = true.
Proof. intros H. exact H. Qed.

Lemma recent_embedding (env : Env) (cutoff : Z) (v : Vec) (e : Email) :
  recent env cutoff (with_email_embedding v e) = recent env cutoff e.
Proof. reflexivity. Qed.

Section SyncInvariant.

Variable env : Env.
Variable P : Email -> Prop.
Hypothesis P_embedding : forall v e, P e -> P (with_email_embedding v e).

(** The rows the full sync writes satisfy [P]. *)
Hypothesis P_row : forall user gid parsed row w w',
  add_email user gid parsed w = (Ret row, w') -> P row.

Lemma holds_import_message (u : User) (token gid : string) (n : Z) :
  holds P (import_message env u token gid n).
Proof.
  unfold import_message, fetch_email. hold.
  apply holds_store_email; [exact P_embedding | apply P_row].
Qed.

Lemma holds_gmail_pages (fuel : nat) (u : User) (token : string) :
  forall page n, holds P (gmail_pages env fuel u token page n).
Proof.
  induction fuel as [|fuel IH]; intros page n; cbn [gmail_pages]; hold.
  apply holds_import_message.
Qed.

Lemma holds_marks (user : Z) (source : string) :
  (forall n, holds P (mark_completed env user source n)) /\
  (forall e, holds P (mark_failed env user source e)).
Proof. split; intros; unfold mark_completed, mark_failed; hold. Qed.

Lemma holds_sync_gmail_background (fuel : nat) (user : Z) :
  holds P (sync_gmail_background env fuel user).
Proof.
  unfold sync_gmail_background. hold;
    try apply holds_gmail_pages; apply holds_marks.
Qed.

End SyncInvariant.

Section PollInvariant.

Variable env : Env.
Variable P : Email -> Prop.
Variable cutoff : Z.
Hypothesis P_embedding : forall v e, P e -> P (with_email_embedding v e).

(** The rows the poll writes satisfy [P]: the message was not read as older
    than the cutoff. *)
Hypothesis P_row : forall user gid parsed row w w',
  match p_received_at parsed with
  | Some t =>
      match dateutil_naive env t with
      | Some received => received <? cutoff
      | None => false
      end
  | None => false
  end = false ->
  add_email user gid parsed w = (Ret row, w') -> P row.

Lemma holds_poll_message (u : User) (token gid : string) (n : Z) :
  holds P (poll_message env u token cutoff gid n).
Proof.
  unfold poll_message.
  apply holds_bind; [auto with invariant | intros w0].
  destruct (find_email _ _ _); [auto with invariant|].
  apply holds_bind; [unfold fetch_email; hold | intros parsed].
  match goal with
  | |- holds _ (if ?b then _ else _) => destruct b eqn:Eold
  end; [auto with invariant|].
  apply holds_bind; [|auto with invariant].
  apply holds_store_email; [exact P_embedding|].
  intros row w w'. now apply P_row.
Qed.

Lemma holds_poll_pages (fuel : nat) (u : User) (token query : string) :
  forall page n, holds P (poll_pages env fuel u token cutoff query page n).
Proof.
  induction fuel as [|fuel IH]; intros page n; cbn [poll_pages]; hold;
    apply holds_poll_message.
Qed.

End PollInvariant.

Lemma holds_poll_new_emails (env : Env) (P : Email -> Prop) (fuel : nat) (user : Z)
    (w : World) :
  (forall v e, P e -> P (with_email_embedding v e)) ->
  (forall user gid parsed row w0 w',
     match p_received_at parsed with
     | Some t =>
         match dateutil_naive env t with
         | Some received => received <? clock w - 600
         | None => false
         end
     | None => false
     end = false ->
     add_email user gid parsed w0 = (Ret row, w') -> P row) ->
  Forall P (emails (db w)) ->
  Forall P (emails (db (snd (poll_new_emails env fuel user w)))).
Proof.
  intros Hemb Hrow H. unfold poll_new_emails, try_except. unfold bind at 1. cbn [get_world].
  destruct (find_user user (db w)) as [u|]; [|exact H].
  destruct (negb _); [exact H|].
  destruct (is_syncing _ _ _); [exact H|].
  pose proof (holds_poll_pages env P (clock w - 600) Hemb Hrow fuel u
                (or_empty (google_access_token u))
                ("after:" ++ pretty (naive_timestamp env (clock w - 600))) None 0 w H) as Hp.
  unfold bind.
  destruct (poll_pages _ _ _ _ _ _ _ _ w) as [[n|e|] w1]; exact Hp.
Qed.

Lemma complete_row (user : Z) (gid : string) (parsed : ParsedEmail) (row : Email)
    (w w' : World) :
  add_email user gid parsed w = (Ret row, w') -> complete row = true.
Proof.
  intros H. apply add_email_ret in H as (_ & _ & _ & Hs & Hf & Hb & Hh & _).
  unfold complete, has_body. now rewrite Hs, Hf, Hb, Hh.
Qed.

Lemma poll_clock (env : Env) (fuel : nat) (user : Z) (w : World) :
  clock (snd (poll_new_emails env fuel user w)) = clock w.
Proof. apply (ev_clock _ _ (preserves_poll_new_emails env fuel user w)). Qed.

(** X11.  Every email the sync stores has its text columns set: subject,
    sender and both bodies are never NULL (they may be empty).  So when
    every email of the table is such a row, it is still so after a full
    Gmail sync, after a poll and after a pass of the scheduled polling,
    however they end; and each such row has a body, which is what
    [get_relevant_context] needs. *)
Theorem sync_stores_text (env : Env) (fuel : nat) (user : Z) (w : World) :
  every complete w ->
  every complete (snd (sync_gmail_background env fuel user w)) /\
  every complete (snd (poll_new_emails env fuel user w)) /\
  every complete (snd (scheduled_email_polling env fuel w)) /\
  every has_body w.
Proof.
  intros H. unfold every in *. split; [|split; [|split]].
  - apply holds_sync_gmail_background; [intros v e He; exact He | | exact H].
    intros; eapply complete_row; eassumption.
  - apply holds_poll_new_emails; [intros v e He; exact He | | exact H].
    intros; eapply complete_row; eassumption.
  - unfold scheduled_email_polling, try_except. unfold bind at 1. cbn [get_world].
    assert (Hall : forall us w0, Forall (fun e => complete e = true) (emails (db w0)) ->
              Forall (fun e => complete e = true)
                (emails (db (snd (for_each us
                   (fun u _ => poll_new_emails env fuel (user_id u)) tt w0))))).
    { induction us as [|u us IH]; intros w0 H0; cbn [for_each]; [exact H0|].
      unfold bind.
      pose proof (holds_poll_new_emails env (fun e => complete e = true) fuel (user_id u) w0
                    (fun v e He => He)
                    (fun user gid parsed row w1 w' _ Ha => complete_row _ _ _ _ _ _ Ha) H0)
        as Hp.
      destruct (poll_new_emails env fuel (user_id u) w0) as [[[]|e|] w1];
        cbn [snd] in *; [now apply IH | exact Hp | exact Hp]. }
    specialize (Hall (List.filter (fun u => not_none (google_access_token u)) (users (db w)))
                  w H).
    destruct (for_each _ _ tt w) as [[[]|e|] w1]; exact Hall.
  - eapply List.Forall_impl; [|exact H]. intros e He. unfold complete in He.
    apply andb_true_iff in He as [He _]. now apply andb_true_iff in He as [_ He].
Qed.

Lemma sync_stores_text_witness :
  every complete (snd (sync_gmail_background Demo.env 3 1 Demo.fresh)) /\
  List.length (emails (db (snd (sync_gmail_background Demo.env 3 1 Demo.fresh)))) = 3%nat.
Proof.
  assert (H : every complete Demo.fresh) by constructor.
  split; [exact (proj1 (sync_stores_text Demo.env 3 1 Demo.fresh H)) | reflexivity].
Defined.

(** X12.  The poll stores no message that it reads as older than its
    cutoff, ten minutes before the poll: every email of the table after a
    poll either was there before (same user, same Gmail id) or is recent,
    that is, has no date, a date that cannot be read, or a date at or after
    the cutoff.  A listed message that reads as older is fetched and then
    dropped: no row, no embedding, no trigger evaluation, the counter as it
    was. *)
Theorem poll_stores_recent_mail (env : Env) (fuel : nat) (user : Z) (w : World) :
  (forall e, In e (emails (db (snd (poll_new_emails env fuel user w)))) ->
     recent env (clock w - 600) e = true \/
     In (email_key e) (map email_key (emails (db w)))) /\
  (forall u token gid n cutoff parsed t received,
     find_email (user_id u) gid (db w) = None ->
     gmail_get_email env token gid = Ok parsed ->
     p_received_at parsed = Some t ->
     dateutil_naive env t = Some received ->
     received < cutoff ->
     poll_message env u token cutoff gid n w = (Ret n, logged (EvGetEmail token gid) w)).
Proof.
  split.
  - set (P := fun e => recent env (clock w - 600) e = true \/
                       In (email_key e) (map email_key (emails (db w)))).
    assert (H : Forall P (emails (db (snd (poll_new_emails env fuel user w))))).
    { apply holds_poll_new_emails.
      - intros v e He. exact He.
      - intros who gid parsed row w0 w' Hold Hadd. left.
        apply add_email_ret in Hadd as (_ & _ & _ & _ & _ & _ & _ & Hr & _).
        unfold recent. rewrite Hr.
        destruct (p_received_at parsed) as [t|]; [|reflexivity].
        destruct (dateutil_naive env t); [|reflexivity]. now rewrite Hold.
      - apply List.Forall_forall. intros e He. right. now apply in_map. }
    intros e He. rewrite List.Forall_forall in H. now apply H.
  - intros u token gid n cutoff parsed t received Hnone Hget Ht Hd Hlt.
    unfold poll_message, bind, get_world. rewrite Hnone.
    unfold fetch_email, bind, emit. rewrite Hget. cbn [lift ret].
    rewrite Ht, Hd. destruct (Z.ltb_spec received cutoff); [reflexivity | lia].
Qed.

Lemma poll_stores_recent_mail_witness :
  poll_message Demo.env Demo.advisor "g-token-1" 400 "m1" 0 Demo.fresh =
    (Ret 0, logged (EvGetEmail "g-token-1" "m1") Demo.fresh) /\
  emails (db (snd (poll_new_emails Demo.env 3 1 Demo.fresh))) = [].
Proof.
  split; [|reflexivity].
  apply (proj2 (poll_stores_recent_mail Demo.env 3 1 Demo.fresh) Demo.advisor "g-token-1"
           "m1" 0 400 (Demo.parsed "alice@x.com" "Re: m1" 100) 100 100);
    reflexivity.
Defined.

(** Writing the entry of one user and source leaves the others. *)
Lemma sync_entry_insert_other (ss : gmap Z (gmap string SyncEntry))
    (sources : gmap string SyncEntry) (user who : Z) (source what : string)
    (entry : SyncEntry) :
  (who, what) <> (user, source) ->
  sources = match ss !! user with Some m => m | None => ∅ end ->
  sync_entry (<[user := <[source := entry]> sources]> ss) who what = sync_entry ss who what.
Proof.
  intros Hne ->. unfold sync_entry.
  destruct (decide (who = user)) as [->|Hu].
  - rewrite lookup_insert_eq.
    rewrite lookup_insert_ne by (intros ->; now apply Hne).
    destruct (ss !! user); [reflexivity | apply lookup_empty].
  - now rewrite lookup_insert_ne by congruence.
Qed.

Lemma marks_leave_others (env : Env) (user who : Z) (source what : string) (w : World) :
  (who, what) <> (user, source) ->
  sync_entry (sync_status (snd (mark_started env user source w))) who what =
    sync_entry (sync_status w) who what /\
  (forall n, sync_entry (sync_status (snd (mark_completed env user source n w))) who what =
             sync_entry (sync_status w) who what) /\
  (forall e, sync_entry (sync_status (snd (mark_failed env user source e w))) who what =
             sync_entry (sync_status w) who what).
Proof.
  intros Hne. split; [|split].
  - unfold mark_started, bind, get_world, set_sync_status. cbn.
    now apply sync_entry_insert_other.
  - intros n. unfold mark_completed, bind, get_world, set_sync_status.
    destruct (sync_status w !! user) as [sources|] eqn:Es; [|reflexivity].
    destruct (sources !! source); [|reflexivity]. cbn.
    apply sync_entry_insert_other; [exact Hne | now rewrite Es].
  - intros e. unfold mark_failed, bind, get_world, set_sync_status.
    destruct (sync_status w !! user) as [sources|] eqn:Es; [|reflexivity].
    destruct (sources !! source); [|reflexivity]. cbn.
    apply sync_entry_insert_other; [exact Hne | now rewrite Es].
Qed.

Lemma background_leaves_others (env : Env) (fuel : nat) (user who : Z) (what : string)
    (w : World) :
  ((who, what) <> (user, "gmail") ->
   sync_entry (sync_status (snd (sync_gmail_background env fuel user w))) who what =
     sync_entry (sync_status w) who what) /\
  ((who, what) <> (user, "hubspot") ->
   sync_entry (sync_status (snd (sync_hubspot_background env fuel user w))) who what =
     sync_entry (sync_status w) who what).
Proof.
  split; intros Hne.
  - unfold sync_gmail_background. unfold bind at 1. cbn [get_world].
    destruct (find_user user (db w)) as [u|]; [|reflexivity].
    destruct (negb _); [reflexivity|].
    unfold try_except, bind.
    pose proof (ev_sync _ _ (preserves_gmail_pages env fuel u
                  (or_empty (google_access_token u)) None 0 w)) as Hs.
    destruct (gmail_pages env fuel u _ None 0 w) as [[n|e|] w1]; cbn [snd] in Hs.
    + destruct (marks_leave_others env user who "gmail" what w1 Hne) as (_ & Hc & _).
      specialize (Hc n). rewrite Hs in Hc.
      destruct (mark_completed_ret env user "gmail" n w1) as [w2 H2].
      now rewrite H2 in *.
    + destruct (marks_leave_others env user who "gmail" what w1 Hne) as (_ & _ & Hf).
      specialize (Hf e). now rewrite Hs in Hf.
    + cbn. now rewrite Hs.
  - unfold sync_hubspot_background. unfold bind at 1. cbn [get_world].
    destruct (find_user user (db w)) as [u|]; [|reflexivity].
    destruct (negb _); [reflexivity|].
    unfold try_except, bind.
    pose proof (ev_sync _ _ (preserves_hubspot_pages env fuel user
                  (or_empty (hubspot_access_token u)) None (0, ∅) w)) as Hs.
    destruct (hubspot_pages env fuel user _ None (0, ∅) w) as [[st|e|] w1]; cbn [snd] in Hs.
    + destruct (marks_leave_others env user who "hubspot" what w1 Hne) as (_ & Hc & _).
      specialize (Hc (fst st)). rewrite Hs in Hc.
      destruct (mark_completed_ret env user "hubspot" (fst st) w1) as [w2 H2].
      now rewrite H2 in *.
    + destruct (marks_leave_others env user who "hubspot" what w1 Hne) as (_ & _ & Hf).
      specialize (Hf e). now rewrite Hs in Hf.
    + cbn. now rewrite Hs.
Qed.

(** X13.  A full sync writes one entry of [sync_status] only, that of its
    user and its source: the request as a whole, the endpoint followed by
    its background task, leaves the entry of every other user, and of the
    same user's other source, as it was, however the run ends. *)
Theorem sync_status_isolation (env : Env) (fuel : nat) (u : User) (who : Z)
    (what : string) (w : World) :
  ((who, what) <> (user_id u, "gmail") ->
   sync_entry (sync_status (snd (post_sync_gmail env fuel u w))) who what =
     sync_entry (sync_status w) who what) /\
  ((who, what) <> (user_id u, "hubspot") ->
   sync_entry (sync_status (snd (post_sync_hubspot env fuel u w))) who what =
     sync_entry (sync_status w) who what).
Proof.
  split; intros Hne.
  - unfold post_sync_gmail, sync_gmail. unfold bind at 1.
    destruct (negb _); [reflexivity|]. unfold bind at 1.
    destruct (marks_leave_others env (user_id u) who "gmail" what w Hne) as (Hm & _ & _).
    destruct (mark_started env (user_id u) "gmail" w) as [[[]|e|] w0];
      cbn [snd ret] in *; [|exact Hm|exact Hm].
    unfold bind at 1.
    pose proof (proj1 (background_leaves_others env fuel (user_id u) who what w0) Hne) as Hb.
    rewrite Hm in Hb.
    destruct (sync_gmail_background env fuel (user_id u) w0) as [[[]|e|] w1]; exact Hb.
  - unfold post_sync_hubspot, sync_hubspot. unfold bind at 1.
    destruct (negb _); [reflexivity|]. unfold bind at 1.
    destruct (marks_leave_others env (user_id u) who "hubspot" what w Hne) as (Hm & _ & _).
    destruct (mark_started env (user_id u) "hubspot" w) as [[[]|e|] w0];
      cbn [snd ret] in *; [|exact Hm|exact Hm].
    unfold bind at 1.
    pose proof (proj2 (background_leaves_others env fuel (user_id u) who what w0) Hne) as Hb.
    rewrite Hm in Hb.
    destruct (sync_hubspot_background env fuel (user_id u) w0) as [[[]|e|] w1]; exact Hb.
Qed.

Lemma sync_status_isolation_witness :
  sync_entry (sync_status (snd (post_sync_hubspot Demo.env 3 Demo.advisor Demo.busy))) 1 "gmail"
    = Some (Demo.entry true).
Proof.
  refine (eq_trans
            (proj2 (sync_status_isolation Demo.env 3 Demo.advisor 1 "gmail" Demo.busy) _) _).
  - discriminate.
  - reflexivity.
Defined.

(** ** The counter of a run and the rows it writes *)

Lemma store_email_keys (env : Env) (u : User) (gid : string) (parsed : ParsedEmail)
    (w w' : World) :
  store_email env u gid parsed w = (Ret tt, w') ->
  map email_key (emails (db w')) = (map email_key (emails (db w)) ++ [(user_id u, gid)])%list.
Proof.
  unfold store_email. intros H.
  apply bind_ret_inv in H as (row & w1 & Hadd & H).
  apply add_email_ret in Hadd as (Hrows & Hu & Hg & _).
  apply bind_ret_inv in H as ([] & w2 & Hemb & H).
  apply bind_ret_inv in H as (answer & w3 & Hproc & H).
  injection H as <-.
  pose proof (st_emails _ _ _ (keeps_process_ongoing_instructions env (AIAgent u) "email"
                (JObj [ ("email_id", JStr gid); ("from", JStr (p_from_email parsed));
                        ("subject", JStr (p_subject parsed));
                        ("body", JStr (p_body_text parsed)) ]) w2)) as Hsame.
  rewrite Hproc in Hsame. cbn [snd] in Hsame.
  change (user_id (agent_user (AIAgent u))) with (user_id u) in Hsame.
  rewrite Hsame.
  assert (Hkeys : map email_key (emails (db w2)) = map email_key (emails (db w1))).
  { destruct (Text.truthy _); [|now injection Hemb as <-].
    apply bind_ret_inv in Hemb as (v & w1' & Hv & Hset).
    unfold get_embedding in Hv. apply bind_ret_inv in Hv as ([] & w1'' & He & Hv).
    injection He as <-. apply lift_ret_inv in Hv as [_ ->].
    injection Hset as <-. cbn. apply email_key_embedding. }
  rewrite Hkeys, Hrows, map_app. cbn [map]. unfold email_key at 2. now rewrite Hu, Hg.
Qed.

Lemma import_message_keys (env : Env) (u : User) (token gid : string) (n n' : Z)
    (w w' : World) :
  import_message env u token gid n w = (Ret n', w') ->
  exists new,
    map email_key (emails (db w')) = (map email_key (emails (db w)) ++ new)%list /\
    Z.of_nat (List.length new) = n' - n /\
    Forall (fun k => fst k = user_id u) new.
Proof.
  unfold import_message. unfold bind at 1. cbn [get_world].
  destruct (find_email (user_id u) gid (db w)).
  - intros H. injection H as <- <-. exists []. rewrite app_nil_r.
    split; [reflexivity|]. split; [cbn; lia | constructor].
  - intros H. apply bind_ret_inv in H as (parsed & w1 & Hf & H).
    apply bind_ret_inv in H as ([] & w2 & Hs & H). injection H as <- <-.
    apply store_email_keys in Hs.
    unfold fetch_email in Hf. apply bind_ret_inv in Hf as ([] & w0 & He & Hf).
    injection He as <-. apply lift_ret_inv in Hf as [_ ->].
    exists [(user_id u, gid)]. split; [exact Hs|]. split; [cbn; lia|].
    now repeat constructor.
Qed.

Lemma import_all_keys (env : Env) (u : User) (token : string) (gids : list string) :
  forall (n n' : Z) (w w' : World),
  for_each gids (import_message env u token) n w = (Ret n', w') ->
  exists new,
    map email_key (emails (db w')) = (map email_key (emails (db w)) ++ new)%list /\
    Z.of_nat (List.length new) = n' - n /\
    Forall (fun k => fst k = user_id u) new.
Proof.
  induction gids as [|g gids IH]; intros n n' w w' H.
  - injection H as <- <-. exists []. rewrite app_nil_r.
    split; [reflexivity|]. split; [cbn; lia | constructor].
  - cbn [for_each] in H. apply bind_ret_inv in H as (n1 & w1 & H1 & H).
    apply import_message_keys in H1 as (new1 & K1 & L1 & F1).
    apply IH in H as (new2 & K2 & L2 & F2).
    exists (new1 ++ new2)%list. rewrite K2, K1, <- app_assoc.
    split; [reflexivity|]. split; [rewrite length_app; lia | now apply Forall_app].
Qed.

Lemma gmail_pages_keys (env : Env) (fuel : nat) (u : User) (token : string) :
  forall (page : option string) (n n' : Z) (w w' : World),
  gmail_pages env fuel u token page n w = (Ret n', w') ->
  exists new,
    map email_key (emails (db w')) = (map email_key (emails (db w)) ++ new)%list /\
    Z.of_nat (List.length new) = n' - n /\
    Forall (fun k => fst k = user_id u) new.
Proof.
  induction fuel as [|fuel IH]; intros page n n' w w' H; [discriminate|].
  cbn [gmail_pages] in H.
  apply bind_ret_inv in H as ([] & w0 & Hemit & H). injection Hemit as <-.
  apply bind_ret_inv in H as (result & w0' & Hlist & H).
  apply lift_ret_inv in Hlist as [_ ->].
  apply bind_ret_inv in H as (n1 & w1 & Hfor & H).
  apply import_all_keys in Hfor as (new1 & K1 & L1 & F1). cbn [logged db] in K1.
  destruct (Text.truthy_opt (next_page_token result)).
  - apply IH in H as (new2 & K2 & L2 & F2).
    exists (new1 ++ new2)%list. rewrite K2, K1, <- app_assoc.
    split; [reflexivity|]. split; [rewrite length_app; lia | now apply Forall_app].
  - injection H as <- <-. exists new1. auto.
Qed.

Lemma import_contact_rows (env : Env) (user : Z) (token : string) (data : ContactData)
    (st st' : Z * gmap Z Contact) (w w' : World) :
  import_contact env user token data st w = (Ret st', w') ->
  Z.of_nat (List.length (contacts (db w'))) =
    Z.of_nat (List.length (contacts (db w))) + (fst st' - fst st).
Proof.
  destruct st as [n dirty]. unfold import_contact. unfold bind at 1. cbn [get_world].
  destruct (find_contact user (cd_id data) (db w)).
  - intros H. injection H as <- <-. cbn. lia.
  - intros H. apply bind_ret_inv in H as ([] & w0 & He & H). injection He as <-.
    apply bind_ret_inv in H as (notes_data & w1 & Hn & H).
    apply lift_ret_inv in Hn as [_ ->].
    apply bind_ret_inv in H as (bodies & w2 & Hb & H).
    apply lift_ret_inv in Hb as [_ ->].
    apply bind_ret_inv in H as (row & w3 & Hadd & H).
    apply bind_ret_inv in H as ([] & w4 & Hemb & H). injection H as <- <-.
    assert (Hrows : List.length (contacts (db w3)) = S (List.length (contacts (db w)))).
    { unfold add_contact, bind, get_world in Hadd. cbn [logged db] in Hadd.
      destruct (existsb _ (contacts (db w))); [discriminate|].
      injection Hadd as _ <-. cbn. unfold flush.
      rewrite length_app, length_map. cbn. lia. }
    assert (Hsame : List.length (contacts (db w4)) = List.length (contacts (db w3))).
    { destruct (Text.truthy _); [|now injection Hemb as <-].
      apply bind_ret_inv in Hemb as (v & w3' & Hv & Hset).
      unfold get_embedding in Hv. apply bind_ret_inv in Hv as ([] & w3'' & He & Hv).
      injection He as <-. apply lift_ret_inv in Hv as [_ ->].
      injection Hset as <-. cbn. now rewrite length_map. }
    cbn [fst]. lia.
Qed.

Lemma import_contacts_rows (env : Env) (user : Z) (token : string)
    (page : list ContactData) :
  forall (st st' : Z * gmap Z Contact) (w w' : World),
  for_each page (import_contact env user token) st w = (Ret st', w') ->
  Z.of_nat (List.length (contacts (db w'))) =
    Z.of_nat (List.length (contacts (db w))) + (fst st' - fst st).
Proof.
  induction page as [|data page IH]; intros st st' w w' H.
  - injection H as <- <-. lia.
  - cbn [for_each] in H. apply bind_ret_inv in H as (st1 & w1 & H1 & H).
    apply import_contact_rows in H1. apply IH in H. lia.
Qed.

Lemma hubspot_pages_rows (env : Env) (fuel : nat) (user : Z) (token : string) :
  forall (after : option string) (st st' : Z * gmap Z Contact) (w w' : World),
  hubspot_pages env fuel user token after st w = (Ret st', w') ->
  Z.of_nat (List.length (contacts (db w'))) =
    Z.of_nat (List.length (contacts (db w))) + (fst st' - fst st).
Proof.
  induction fuel as [|fuel IH]; intros after st st' w w' H; [discriminate|].
  cbn [hubspot_pages] in H.
  apply bind_ret_inv in H as ([] & w0 & Hemit & H). injection Hemit as <-.
  apply bind_ret_inv in H as (result & w0' & Hlist & H).
  apply lift_ret_inv in Hlist as [_ ->].
  apply bind_ret_inv in H as (st1 & w1 & Hfor & H).
  apply import_contacts_rows in Hfor. cbn [logged db] in Hfor.
  destruct (Text.truthy_opt (paging_next_after result)).
  - apply IH in H. lia.
  - injection H as <- <-. exact Hfor.
Qed.

Lemma find_user_id (user : Z) (d : DB) (u : User) :
  find_user user d = Some u -> user_id u = user.
Proof.
  unfold find_user. intros H. apply find_some in H as [_ H]. now apply Z.eqb_eq.
Qed.

(** X14.  The count a full sync reports is the number of rows it wrote.
    When the page loop of a run comes to its end, the entry of
    [sync_status] (when the endpoint had written one) holds as
    [imported_count] the number of emails that the run appended to the
    table, each of them for the user of the run and none in place of an
    earlier one; for HubSpot, the number of contacts by which the table
    grew. *)
Theorem imported_count_is_rows_added (env : Env) (fuel : nat) (user : Z) (u : User)
    (w : World) (e0 : SyncEntry) :
  find_user user (db w) = Some u ->
  (Text.truthy_opt (google_access_token u) = true ->
   sync_entry (sync_status w) user "gmail" = Some e0 ->
   forall n w1,
     gmail_pages env fuel u (or_empty (google_access_token u)) None 0 w = (Ret n, w1) ->
     exists w' new,
       sync_gmail_background env fuel user w = (Ret tt, w') /\
       option_map imported_count (sync_entry (sync_status w') user "gmail") = Some (Some n) /\
       map email_key (emails (db w')) = (map email_key (emails (db w)) ++ new)%list /\
       n = Z.of_nat (List.length new) /\
       Forall (fun k => fst k = user) new) /\
  (Text.truthy_opt (hubspot_access_token u) = true ->
   sync_entry (sync_status w) user "hubspot" = Some e0 ->
   forall st w1,
     hubspot_pages env fuel user (or_empty (hubspot_access_token u)) None (0, ∅) w =
       (Ret st, w1) ->
     exists w',
       sync_hubspot_background env fuel user w = (Ret tt, w') /\
       option_map imported_count (sync_entry (sync_status w') user "hubspot") =
         Some (Some (fst st)) /\
       Z.of_nat (List.length (contacts (db w'))) =
         Z.of_nat (List.length (contacts (db w))) + fst st).
Proof.
  intros Hu. pose proof (find_user_id _ _ _ Hu) as Hid. split.
  - intros Ht He0 n w1 Hloop.
    rewrite (sync_gmail_background_run env fuel user u w Hu Ht), Hloop.
    pose proof (ev_sync _ _ (preserves_gmail_pages env fuel u
                  (or_empty (google_access_token u)) None 0 w)) as Hs.
    rewrite Hloop in Hs. cbn [snd] in Hs.
    destruct (mark_completed_run env user "gmail" n w1 e0) as (ss & Hmark & Hentry);
      [now rewrite Hs|].
    apply gmail_pages_keys in Hloop as (new & Hkeys & Hlen & Hall).
    exists (with_sync_status ss w1), new. split; [exact Hmark|].
    split; [cbn; now rewrite Hentry|]. split; [exact Hkeys|]. split; [lia|].
    now rewrite Hid in Hall.
  - intros Ht He0 st w1 Hloop.
    rewrite (sync_hubspot_background_run env fuel user u w Hu Ht), Hloop.
    pose proof (ev_sync _ _ (preserves_hubspot_pages env fuel user
                  (or_empty (hubspot_access_token u)) None (0, ∅) w)) as Hs.
    rewrite Hloop in Hs. cbn [snd] in Hs.
    destruct (mark_completed_run env user "hubspot" (fst st) w1 e0) as (ss & Hmark & Hentry);
      [now rewrite Hs|].
    apply hubspot_pages_rows in Hloop. cbn [fst] in Hloop.
    exists (with_sync_status ss w1). split; [exact Hmark|].
    split; [cbn; now rewrite Hentry|]. cbn. lia.
Qed.

Lemma imported_count_is_rows_added_witness :
  exists w' new,
    sync_gmail_background Demo.env 3 1 Demo.idle = (Ret tt, w') /\
    option_map imported_count (sync_entry (sync_status w') 1 "gmail") = Some (Some 3) /\
    map email_key (emails (db w')) = new /\
    3 = Z.of_nat (List.length new).
Proof.
  destruct (imported_count_is_rows_added Demo.env 3 1 Demo.advisor Demo.idle
              (Demo.entry false) eq_refl) as [Hgmail _].
  assert (H1 : Text.truthy_opt (google_access_token Demo.advisor) = true) by reflexivity.
  assert (H2 : sync_entry (sync_status Demo.idle) 1 "gmail" = Some (Demo.entry false))
    by (vm_compute; reflexivity).
  destruct (gmail_pages Demo.env 3 Demo.advisor (or_empty (google_access_token Demo.advisor))
              None 0 Demo.idle) as [[n|e|] w1] eqn:Eloop;
    [|vm_compute in Eloop; discriminate Eloop|vm_compute in Eloop; discriminate Eloop].
  assert (Hn : n = 3) by (vm_compute in Eloop; injection Eloop as <- _; reflexivity).
  subst n.
  destruct (Hgmail H1 H2 3 w1 eq_refl) as (w' & new & Hrun & Hcount & Hkeys & Hlen & _).
  exists w', new. split; [exact Hrun|]. split; [exact Hcount|]. split; [exact Hkeys | exact Hlen].
Defined.

(** ** The scheduled polling *)

Lemma terminates_poll_message (env : Env) (u : User) (token : string) (cutoff : Z)
    (gid : string) (n : Z) :
  terminates (poll_message env u token cutoff gid n).
Proof. unfold poll_message. frame. Qed.

Lemma poll_pages_halts (env : Env) (fuel : nat) (u : User) (token query : string)
    (cutoff : Z) :
  forall (page : option string) (n : Z) (w : World),
    poll_chain_ends env fuel token query page = true ->
    fst (poll_pages env fuel u token cutoff query page n w) <> Diverge.
Proof.
  induction fuel as [|fuel IH]; intros page n w H; [discriminate|].
  cbn [poll_pages poll_chain_ends] in *.
  unfold bind at 1. cbn [emit]. unfold bind at 1.
  destruct (gmail_list_emails env token page (Some query)) as [result|e]; [|discriminate].
  cbn [lift ret].
  destruct (page_messages result) as [|m ms] eqn:Em; [discriminate|].
  unfold bind at 1.
  pose proof (terminates_for_each (m :: ms) (poll_message env u token cutoff) n
                (fun x s => terminates_poll_message env u token cutoff x s)
                (logged (EvListEmails token page (Some query)) w)) as Ht.
  destruct (for_each (m :: ms) _ n _) as [[n1|e|] w1];
    cbn [fst] in *; [|discriminate|congruence].
  destruct (Text.truthy_opt (next_page_token result)); [now apply IH | discriminate].
Qed.

Lemma poll_never_raises (env : Env) (fuel : nat) (user : Z) (w : World) (e : Exn) :
  fst (poll_new_emails env fuel user w) <> Raise e.
Proof.
  unfold poll_new_emails, try_except.
  destruct (bind get_world _ w) as [[[]|e0|] w1]; discriminate.
Qed.

Lemma find_user_In (user : Z) (d : DB) (u : User) :
  find_user user d = Some u -> In u (users d).
Proof. unfold find_user. intros H. now apply find_some in H. Qed.

Lemma poll_returns (env : Env) (fuel : nat) (user : Z) (w : World) :
  (forall u, In u (users (db w)) -> Text.truthy_opt (google_access_token u) = true ->
     poll_chain_ends env fuel (or_empty (google_access_token u))
       (poll_query env (clock w)) None = true) ->
  fst (poll_new_emails env fuel user w) = Ret tt.
Proof.
  intros Hends.
  unfold poll_new_emails, try_except. unfold bind at 1. cbn [get_world].
  destruct (find_user user (db w)) as [u|] eqn:Eu; [|reflexivity].
  destruct (Text.truthy_opt (google_access_token u)) eqn:Et; [|reflexivity].
  cbn [negb].
  destruct (is_syncing _ _ _); [reflexivity|].
  unfold bind.
  pose proof (poll_pages_halts env fuel u (or_empty (google_access_token u))
                (poll_query env (clock w)) (clock w - 600) None 0 w
                (Hends u (find_user_In _ _ _ Eu) Et)) as Hhalt.
  unfold poll_query in Hhalt.
  destruct (poll_pages env fuel u _ _ _ None 0 w) as [[n|e|] w1];
    cbn [fst] in *; [reflexivity | reflexivity | congruence].
Qed.

(** X15.  The scheduled polling polls every user whose Google token is not
    NULL, in the order of the table, and a failure in the poll of one user
    does not touch the polls of those after: no poll lets an exception out,
    and, when the page chains of the users end, the pass returns and leaves
    the world that the polls, made one after the other, leave. *)
Theorem polling_pass_isolation (env : Env) (fuel : nat) (w : World) :
  let polled := List.filter (fun u => not_none (google_access_token u)) (users (db w)) in
  (forall user w0 e, fst (poll_new_emails env fuel user w0) <> Raise e) /\
  ((forall u, In u (users (db w)) -> Text.truthy_opt (google_access_token u) = true ->
      poll_chain_ends env fuel (or_empty (google_access_token u))
        (poll_query env (clock w)) None = true) ->
   scheduled_email_polling env fuel w =
     (Ret tt,
      fold_left (fun w0 u => snd (poll_new_emails env fuel (user_id u) w0)) polled w)).
Proof.
  intros polled. split; [intros user w0 e; apply poll_never_raises|].
  intros Hends.
  assert (Hloop : forall us w0,
            users (db w0) = users (db w) -> clock w0 = clock w ->
            for_each us (fun u _ => poll_new_emails env fuel (user_id u)) tt w0 =
              (Ret tt,
               fold_left (fun w1 u => snd (poll_new_emails env fuel (user_id u) w1)) us w0)).
  { induction us as [|u us IH]; intros w0 Hu Hc; [reflexivity|].
    cbn [for_each fold_left]. unfold bind.
    pose proof (poll_returns env fuel (user_id u) w0) as Hret.
    rewrite Hu, Hc in Hret. specialize (Hret Hends).
    pose proof (preserves_poll_new_emails env fuel (user_id u) w0) as Hp.
    destruct (poll_new_emails env fuel (user_id u) w0) as [[[]|e|] w1];
      cbn [fst snd] in *; try discriminate.
    apply IH.
    - now rewrite (ev_users _ _ Hp).
    - now rewrite (ev_clock _ _ Hp). }
  unfold scheduled_email_polling, try_except. unfold bind at 1. cbn [get_world].
  fold polled. now rewrite Hloop.
Qed.

Lemma polling_pass_isolation_witness :
  scheduled_email_polling Demo.offline 3 Demo.fresh =
    (Ret tt,
     snd (poll_new_emails Demo.offline 3 2 (snd (poll_new_emails Demo.offline 3 1 Demo.fresh)))) /\
  List.length (trace (snd (scheduled_email_polling Demo.offline 3 Demo.fresh))) = 2%nat.
Proof.
  destruct (polling_pass_isolation Demo.offline 3 Demo.fresh) as [_ H].
  rewrite H; [split; reflexivity|].
  intros u [<-|[<-|[]]] _; reflexivity.
Defined.

(** ** Updates of existing contacts *)

Lemma hubspot_pages_step (env : Env) (fuel : nat) (user : Z) (token : string)
    (after : option string) (st st1 : Z * gmap Z Contact) (w w1 : World)
    (result : ContactPage) :
  hubspot_list_all_contacts env token after = Ok result ->
  for_each (page_results result) (import_contact env user token) st
    (logged (EvListContacts token after) w) = (Ret st1, w1) ->
  hubspot_pages env (S fuel) user token after st w =
    if Text.truthy_opt (paging_next_after result)
    then hubspot_pages env fuel user token (paging_next_after result) st1 w1
    else (Ret st1, w1).
Proof.
  intros Hl Hf. cbn [hubspot_pages]. unfold bind at 1. cbn [emit]. unfold bind at 1.
  rewrite Hl. cbn [lift ret]. unfold bind at 1. rewrite Hf.
  now destruct (Text.truthy_opt (paging_next_after result)).
Qed.

Lemma hubspot_pages_list_fails (env : Env) (fuel : nat) (user : Z) (token : string)
    (after : option string) (st : Z * gmap Z Contact) (w : World) (e : Exn) :
  hubspot_list_all_contacts env token after = Err e ->
  hubspot_pages env (S fuel) user token after st w =
    (Raise e, logged (EvListContacts token after) w).
Proof.
  intros Hl. cbn [hubspot_pages]. unfold bind at 1. cbn [emit]. unfold bind at 1.
  now rewrite Hl.
Qed.

Lemma hubspot_pages_known (env : Env) (fuel : nat) (user : Z) (token : string) (d : DB) :
  (forall after page data,
     hubspot_list_all_contacts env token after = Ok page ->
     In data (page_results page) ->
     In (user, cd_id data) (map contact_key (contacts d))) ->
  forall (after : option string) (n : Z) (dirty : gmap Z Contact) (w : World),
    db w = d ->
    hubspot_chain_ends env fuel token after = true ->
    exists evs,
      Forall is_listing evs /\
      ((exists dirty', hubspot_pages env fuel user token after (n, dirty) w =
                         (Ret (n, dirty'), logged_all evs w)) \/
       (exists e, hubspot_pages env fuel user token after (n, dirty) w =
                    (Raise e, logged_all evs w))).
Proof.
  intros Hknown.
  induction fuel as [|fuel IH]; intros after n dirty w Hd Hends; [discriminate|].
  cbn [hubspot_chain_ends] in Hends.
  destruct (hubspot_list_all_contacts env token after) as [result|e] eqn:El.
  - destruct (import_contacts_present env user token (page_results result) n dirty
                (logged (EvListContacts token after) w)) as [d1 Hp].
    { intros data Hin. cbn [logged db]. rewrite Hd. eapply Hknown; eassumption. }
    rewrite (hubspot_pages_step env fuel user token after _ _ _ _ result El Hp).
    destruct (Text.truthy_opt (paging_next_after result)).
    + destruct (IH (paging_next_after result) n d1 (logged (EvListContacts token after) w)
                  Hd Hends) as (evs & Hev & Hrun).
      exists (EvListContacts token after :: evs). split; [constructor; [exact I | exact Hev]|].
      rewrite logged_is_logged_all, logged_all_app in Hrun. exact Hrun.
    + exists [EvListContacts token after]. split; [repeat constructor|].
      left. now exists d1.
  - rewrite (hubspot_pages_list_fails env fuel user token after _ _ e El).
    exists [EvListContacts token after]. split; [repeat constructor|].
    right. now exists e.
Qed.

(** X16.  The changes made to existing contacts are not committed by the
    run itself.  In a full HubSpot sync every commit belongs to the import
    of a new contact; so a run in which every listed contact is already
    stored for the user, whatever the properties the source now gives them,
    only lists the source and leaves the database exactly as it was. *)
Theorem hubspot_updates_not_committed (env : Env) (fuel : nat) (user : Z) (u : User)
    (w : World) :
  find_user user (db w) = Some u ->
  Text.truthy_opt (hubspot_access_token u) = true ->
  let token := or_empty (hubspot_access_token u) in
  (forall after page data,
     hubspot_list_all_contacts env token after = Ok page ->
     In data (page_results page) ->
     In (user, cd_id data) (map contact_key (contacts (db w)))) ->
  hubspot_chain_ends env fuel token None = true ->
  exists w' evs,
    sync_hubspot_background env fuel user w = (Ret tt, w') /\
    db w' = db w /\
    trace w' = (trace w ++ evs)%list /\
    Forall is_listing evs.
Proof.
  intros Hu Ht token Hknown Hends.
  rewrite (sync_hubspot_background_run env fuel user u w Hu Ht). fold token.
  destruct (hubspot_pages_known env fuel user token (db w) Hknown None 0 ∅ w eq_refl Hends)
    as (evs & Hev & [[dirty' Hrun]|[e Hrun]]); rewrite Hrun.
  - destruct (proj1 (marks_clear_flag env user "hubspot" (logged_all evs w)) (fst (0, dirty')))
      as (w' & Hmark & Hdb & Htr & _).
    exists w', evs. split; [exact Hmark|]. split; [exact Hdb|]. split; [exact Htr | exact Hev].
  - destruct (proj2 (marks_clear_flag env user "hubspot" (logged_all evs w)) e)
      as (w' & Hmark & Hdb & Htr & _).
    exists w', evs. split; [exact Hmark|]. split; [exact Hdb|]. split; [exact Htr | exact Hev].
Qed.

Lemma hubspot_updates_not_committed_witness :
  exists w' evs,
    sync_hubspot_background Cases.moved 3 1 Demo.crm = (Ret tt, w') /\
    contacts (db w') = [Demo.old_contact] /\
    trace w' = evs /\ Forall is_listing evs.
Proof.
  destruct (hubspot_updates_not_committed Cases.moved 3 1 Demo.advisor Demo.crm
              eq_refl eq_refl) as (w' & evs & Hrun & Hdb & Htr & Hev).
  - intros after page data Hpage Hin. injection Hpage as <-.
    destruct Hin as [<-|[]]. now left.
  - reflexivity.
  - exists w', evs. split; [exact Hrun|]. split; [now rewrite Hdb|]. split; [exact Htr | exact Hev].
Defined.

(** * The routers *)

Lemma starts_with_append (p s : string) :
  Text.starts_with p s = true -> exists rest, s = p ++ rest.
Proof.
  revert s. induction p as [|a p IH]; intros s H.
  - now exists s.
  - destruct s as [|b s]; [discriminate|]. cbn [Text.starts_with] in H.
    apply andb_true_iff in H as [Hab H]. apply Ascii.eqb_eq in Hab as ->.
    destruct (IH s H) as [rest ->]. now exists rest.
Qed.

Lemma split_on_cons (sep : ascii) (s : string) :
  exists piece pieces, split_on sep s = piece :: pieces.
Proof.
  destruct s as [|c s]; cbn [split_on]; [eauto|].
  destruct (Ascii.eqb c sep); [eauto|]. destruct (split_on sep s); eauto.
Qed.

(** The first piece of a split: it holds no separator, and the text is that
    piece alone or that piece, a separator and a tail. *)
Lemma split_on_first (sep : ascii) (s : string) :
  exists piece pieces,
    split_on sep s = piece :: pieces /\
    Text.contains (String sep EmptyString) piece = false /\
    ((s = piece /\ pieces = []) \/ exists tail, s = piece ++ String sep tail).
Proof.
  induction s as [|c s IH].
  - exists EmptyString, []. cbn. split; [reflexivity|]. split; [reflexivity|]. now left.
  - cbn [split_on]. destruct (Ascii.eqb_spec c sep) as [->|Hc].
    + exists EmptyString, (split_on sep s). split; [reflexivity|]. split; [reflexivity|].
      right. now exists s.
    + destruct IH as (piece & pieces & -> & Hno & Hs).
      exists (String c piece), pieces. split; [reflexivity|]. split.
      * cbn [Text.contains Text.starts_with]. rewrite Hno, orb_false_r.
        destruct (Ascii.eqb_spec sep c) as [->|_]; [congruence | reflexivity].
      * destruct Hs as [[-> ->]|[tail ->]]; [now left | right; now exists tail].
Qed.

(** A text without the separator is one piece. *)
Lemma split_on_whole (sep : ascii) (s : string) :
  Text.contains (String sep EmptyString) s = false -> split_on sep s = [s].
Proof.
  induction s as [|c s IH]; [reflexivity|].
  cbn [Text.contains Text.starts_with split_on]. intros H.
  apply orb_false_iff in H as [Hc H].
  destruct (Ascii.eqb_spec sep c) as [->|Hne]; [discriminate|].
  destruct (Ascii.eqb_spec c sep) as [->|_]; [congruence|].
  now rewrite IH.
Qed.

Lemma split_bearer (rest : string) :
  split_on " " ("Bearer " ++ rest) = "Bearer" :: split_on " " rest.
Proof.
  change ("Bearer " ++ rest)
    with (String "B" (String "e" (String "a" (String "r" (String "e" (String "r"
            (String " " rest))))))).
  cbn [split_on Ascii.eqb Bool.eqb]. reflexivity.
Qed.

Section CurrentUser.

Variable verify_token : string -> option (option Z).

(** What [get_current_user] does with a header that starts with
    [Bearer ]: the token is the first piece after it. *)
Lemma current_user_bearer (rest : string) (s : Site) :
  exists token pieces,
    split_on " " rest = token :: pieces /\
    ChatRouter.get_current_user verify_token (Some ("Bearer " ++ rest)) s =
      (match verify_token token with
       | None => Ret (HTTPException 401 "Invalid token")
       | Some None => Ret (HTTPException 404 "User not found")
       | Some (Some id) =>
           match find_user id (db (site_world s)) with
           | Some user => Ret (Reply user)
           | None => Ret (HTTPException 404 "User not found")
           end
       end, s).
Proof.
  destruct (split_on_cons " " rest) as (token & pieces & Hsplit).
  exists token, pieces. split; [exact Hsplit|].
  unfold ChatRouter.get_current_user.
  change ("Bearer " ++ rest)
    with (String "B" (String "e" (String "a" (String "r" (String "e" (String "r"
            (String " " rest))))))).
  cbn [Text.truthy_opt Text.truthy negb or_empty Text.starts_with Ascii.eqb Bool.eqb andb].
  change (String "B" (String "e" (String "a" (String "r" (String "e" (String "r"
            (String " " rest)))))))
    with ("Bearer " ++ rest).
  rewrite split_bearer, Hsplit. cbn [nth_error].
  destruct (verify_token token) as [[id|]|]; try reflexivity.
  now destruct (find_user id (db (site_world s))).
Qed.

Lemma current_user_cases (authorization : option string) (s : Site) :
  ChatRouter.get_current_user verify_token authorization s =
    (Ret (HTTPException 401 "Missing authorization header"), s) \/
  ChatRouter.get_current_user verify_token authorization s =
    (Ret (HTTPException 401
            "Invalid authorization header format. Expected 'Bearer <token>'"), s) \/
  exists rest, authorization = Some ("Bearer " ++ rest).
Proof.
  unfold ChatRouter.get_current_user.
  destruct (Text.truthy_opt authorization) eqn:Et; [|now left]. cbn [negb].
  destruct (Text.starts_with "Bearer " (or_empty authorization)) eqn:Es; [|right; now left].
  right. right. apply starts_with_append in Es as [rest Hr].
  exists rest. destruct authorization as [a|]; [|discriminate]. cbn in Hr. now subst.
Qed.

(** X17.  [get_current_user] reads the token of a header that starts with
    [Bearer ] as the text between the first space and the next one (or the
    end), so taking the second piece of the split never fails, and a header
    with two spaces after [Bearer] carries the empty token.  The function
    changes nothing and raises nothing but its [HTTPException]s: 401 for a
    missing or empty header, for a header that does not start with
    [Bearer ] (which is matched letter for letter) and for a token that is
    not accepted, 404 when the token's user is not in the table.  The user it
    returns is a row of the table with the id of the token's claim. *)
Theorem bearer_token (authorization : option string) (s : Site) :
  let outcome := ChatRouter.get_current_user verify_token authorization s in
  snd outcome = s /\
  (exists answer, fst outcome = Ret answer) /\
  (forall user, fst outcome = Ret (Reply user) ->
     In user (users (db (site_world s))) /\
     exists token rest,
       authorization = Some ("Bearer " ++ token ++ rest) /\
       Text.contains " " token = false /\
       (rest = EmptyString \/ Text.starts_with " " rest = true) /\
       verify_token token = Some (Some (user_id user))) /\
  (forall token, Text.contains " " token = false ->
     ChatRouter.get_current_user verify_token (Some ("Bearer " ++ token)) s =
       (match verify_token token with
        | None => Ret (HTTPException 401 "Invalid token")
        | Some None => Ret (HTTPException 404 "User not found")
        | Some (Some id) =>
            match find_user id (db (site_world s)) with
            | Some user => Ret (Reply user)
            | None => Ret (HTTPException 404 "User not found")
            end
        end, s)) /\
  (Text.starts_with "Bearer " (or_empty authorization) = false ->
   exists detail, fst outcome = Ret (HTTPException 401 detail)).
Proof.
  intros outcome. subst outcome.
  destruct (current_user_cases authorization s) as [H|[H|[rest ->]]].
  - rewrite H. cbn [fst snd]. split; [reflexivity|]. split; [eauto|].
    split; [discriminate|]. split; [|eauto].
    intros token Hno. destruct (current_user_bearer token s) as (t & ps & Hsplit & Hrun).
    rewrite split_on_whole in Hsplit by exact Hno. injection Hsplit as <- _. exact Hrun.
  - rewrite H. cbn [fst snd]. split; [reflexivity|]. split; [eauto|].
    split; [discriminate|]. split; [|eauto].
    intros token Hno. destruct (current_user_bearer token s) as (t & ps & Hsplit & Hrun).
    rewrite split_on_whole in Hsplit by exact Hno. injection Hsplit as <- _. exact Hrun.
  - destruct (current_user_bearer rest s) as (token & pieces & Hsplit & Hrun).
    rewrite Hrun. cbn [fst snd]. split; [reflexivity|]. split.
    { destruct (verify_token token) as [[id|]|]; eauto.
      destruct (find_user id (db (site_world s))); eauto. }
    split; [|split].
    + intros user Huser.
      destruct (verify_token token) as [[id|]|] eqn:Ev; try discriminate.
      destruct (find_user id (db (site_world s))) as [u|] eqn:Eu; [|discriminate].
      injection Huser as ->. split; [now apply find_user_In in Eu|].
      destruct (split_on_first " " rest) as (piece & ps & Hs & Hno & Hshape).
      rewrite Hsplit in Hs. injection Hs as <- <-.
      apply find_user_id in Eu. subst id.
      destruct Hshape as [[-> _]|[tail ->]].
      * exists token, EmptyString. rewrite append_empty_r. auto.
      * exists token, (String " " tail). split; [reflexivity|]. split; [exact Hno|].
        split; [now right | exact Ev].
    + intros t Hno. destruct (current_user_bearer t s) as (t' & ps & Hs & Hr).
      rewrite split_on_whole in Hs by exact Hno. injection Hs as <- _. exact Hr.
    + intros Hstart. exfalso. cbn [or_empty] in Hstart.
      change ("Bearer " ++ rest)
        with (String "B" (String "e" (String "a" (String "r" (String "e" (String "r"
                (String " " rest))))))) in Hstart.
      cbn in Hstart. discriminate.
Qed.

End CurrentUser.

Lemma bearer_token_witness :
  ChatRouter.get_current_user Cases.session (Some "Bearer advisor-token") Cases.site =
    (Ret (Reply Demo.advisor), Cases.site) /\
  (exists detail,
     fst (ChatRouter.get_current_user Cases.session (Some "bearer advisor-token")
            Cases.site) = Ret (HTTPException 401 detail)).
Proof.
  destruct (bearer_token Cases.session (Some "Bearer advisor-token") Cases.site)
    as (_ & _ & _ & Htoken & _).
  destruct (bearer_token Cases.session (Some "bearer advisor-token") Cases.site)
    as (_ & _ & _ & _ & Hcase).
  split; [exact (Htoken "advisor-token" eq_refl) | exact (Hcase eq_refl)].
Defined.

Section ChatEndpoint.

Variable env : Env.
Variable verify_token : string -> option (option Z).

(** The endpoint after its user is known and the agent has answered. *)
Lemma chat_endpoint_run (message : string) (history : option (list (string * string)))
    (authorization : option string) (s : Site) (user : User) (result : ChatResult)
    (w' : World) :
  ChatRouter.get_current_user verify_token authorization s = (Ret (Reply user), s) ->
  chat env (AIAgent user) message (match history with Some l => l | None => [] end)
    (site_world s) = (Ret result, w') ->
  let user_row := {| cm_id := Sql.next_id (map cm_id (site_messages s));
                     cm_user_id := user_id user; cm_role := "user";
                     cm_content := message; cm_error := Some false;
                     cm_created_at := Some (clock (site_world s)) |} in
  ChatRouter.chat env verify_token message history authorization s =
    match ChatRouter.answer_text result with
    | Some text =>
        let assistant_row :=
          {| cm_id := Sql.next_id (map cm_id (site_messages s ++ [user_row])%list);
             cm_user_id := user_id user; cm_role := "assistant";
             cm_content := text;
             cm_error := Some (Text.truthy_opt (chat_error result));
             cm_created_at := Some (clock w') |} in
        (Ret (Reply {| ChatRouter.cr_response := response result;
                       ChatRouter.cr_error := chat_error result;
                       ChatRouter.cr_message_id := Some (cm_id assistant_row) |}),
         {| site_world := w';
            site_messages := (site_messages s ++ [user_row; assistant_row])%list |})
    | None =>
        (Raise (mk_exn "IntegrityError" "null value in column content"),
         {| site_world := w'; site_messages := (site_messages s ++ [user_row])%list |})
    end.
Proof.
  intros Hauth Hchat user_row.
  unfold ChatRouter.chat. unfold and_then at 1. rewrite Hauth.
  unfold and_then at 1. cbn [ChatRouter.add_chat_message].
  unfold and_then at 1. unfold in_world. cbn [site_world]. rewrite Hchat.
  unfold and_then at 1. unfold ChatRouter.add_chat_message, with_world.
  cbn [site_world site_messages].
  destruct (ChatRouter.answer_text result) as [text|]; [|reflexivity].
  unfold reply. cbn [cm_id]. now rewrite <- app_assoc.
Qed.

End ChatEndpoint.

Section ChatOutcomes.

Variable env : Env.
Variable verify_token : string -> option (option Z).

Lemma refused_everywhere (authorization : option string) (s : Site) (c : Z) (d : string) :
  ChatRouter.get_current_user verify_token authorization s = (Ret (HTTPException c d), s) ->
  (forall message history,
     ChatRouter.chat env verify_token message history authorization s =
       (Ret (HTTPException c d), s)) /\
  (forall limit before_id,
     ChatRouter.get_chat_history env verify_token limit before_id authorization s =
       (Ret (HTTPException c d), s)) /\
  (forall text trigger,
     ChatRouter.add_ongoing_instruction verify_token text trigger authorization s =
       (Ret (HTTPException c d), s)) /\
  (forall id, TasksRouter.get_task verify_token id authorization s =
                (Ret (HTTPException c d), s)).
Proof.
  intros H. repeat split; intros;
    unfold ChatRouter.chat, ChatRouter.get_chat_history, ChatRouter.add_ongoing_instruction,
      TasksRouter.get_task; unfold and_then at 1; now rewrite H.
Qed.

(** X19.  What the chat endpoint makes of the model.  A request that is
    not authenticated is refused as [get_current_user] refuses it, and
    neither stores a message nor calls the model; the same holds for the
    other endpoints of the two routers.  For a known user: when the first
    model call fails, the endpoint still answers with status 200, and the
    stored assistant message is the error text, flagged as an error; when
    the model answers with a text and no tool call, that text is stored,
    not flagged; when it answers with no tool call and no text (none, or
    the empty text), the request fails with status 500 after the user's
    message was stored and the model was called. *)
Theorem chat_endpoint_outcomes (message : string) (history : option (list (string * string)))
    (authorization : option string) (s : Site) :
  let outcome := ChatRouter.chat env verify_token message history authorization s in
  let past := match history with Some l => l | None => [] end in
  (forall c d,
     ChatRouter.get_current_user verify_token authorization s =
       (Ret (HTTPException c d), s) ->
     outcome = (Ret (HTTPException c d), s) /\
     (forall limit before_id,
        ChatRouter.get_chat_history env verify_token limit before_id authorization s =
          (Ret (HTTPException c d), s)) /\
     (forall text trigger,
        ChatRouter.add_ongoing_instruction verify_token text trigger authorization s =
          (Ret (HTTPException c d), s)) /\
     (forall id, TasksRouter.get_task verify_token id authorization s =
                   (Ret (HTTPException c d), s))) /\
  (forall user,
     ChatRouter.get_current_user verify_token authorization s = (Ret (Reply user), s) ->
     let request :=
       first_request (chat_messages env (AIAgent user) message past (site_world s)) in
     (forall e, chat_completions_create env request = Err e ->
        exists user_row assistant_row,
          site_messages (snd outcome) = (site_messages s ++ [user_row; assistant_row])%list /\
          cm_content user_row = message /\
          cm_content assistant_row = "Error processing message: " ++ exn_msg e /\
          cm_error assistant_row = Some true /\
          status_of (fst outcome) = Some 200 /\
          trace (site_world (snd outcome)) = (trace (site_world s) ++ [EvChat request])%list) /\
     (forall am text, chat_completions_create env request = Ok am ->
        tool_calls am = [] -> content am = Some text -> text <> EmptyString ->
        exists user_row assistant_row,
          site_messages (snd outcome) = (site_messages s ++ [user_row; assistant_row])%list /\
          cm_content user_row = message /\
          cm_content assistant_row = text /\
          cm_error assistant_row = Some false /\
          status_of (fst outcome) = Some 200) /\
     (forall am, chat_completions_create env request = Ok am ->
        tool_calls am = [] -> Text.truthy_opt (content am) = false ->
        exists user_row,
          site_messages (snd outcome) = (site_messages s ++ [user_row])%list /\
          cm_content user_row = message /\
          status_of (fst outcome) = Some 500 /\
          trace (site_world (snd outcome)) = (trace (site_world s) ++ [EvChat request])%list)).
Proof.
  intros outcome past. split.
  - intros c d H. destruct (refused_everywhere authorization s c d H) as (H1 & H2 & H3 & H4).
    split; [apply H1|]. split; [exact H2|]. split; [exact H3 | exact H4].
  - intros user Hauth request. split; [|split].
    + intros e He.
      pose proof (chat_first_call_fails env (AIAgent user) message past (site_world s) e He)
        as Hchat.
      pose proof (chat_endpoint_run env verify_token message history authorization s user
                    _ _ Hauth Hchat) as Hrun.
      cbv zeta in Hrun. fold outcome in Hrun.
      unfold ChatRouter.answer_text, error_result in Hrun.
      cbn [response chat_error Text.truthy_opt] in Hrun.
      rewrite Hrun. cbn [fst snd site_messages site_world status_of].
      eexists. eexists. split; [reflexivity|].
      cbn [cm_content cm_error chat_error Text.truthy_opt].
      repeat split.
    + intros am text Ham Hnone Htext Hne.
      pose proof (chat_plain_answer env (AIAgent user) message past (site_world s) am Ham Hnone)
        as Hchat.
      pose proof (chat_endpoint_run env verify_token message history authorization s user
                    _ _ Hauth Hchat) as Hrun.
      cbv zeta in Hrun. fold outcome in Hrun.
      unfold ChatRouter.answer_text in Hrun. cbn [response chat_error] in Hrun.
      rewrite Htext in Hrun. destruct text as [|c text]; [congruence|].
      cbn [Text.truthy_opt Text.truthy] in Hrun.
      rewrite Hrun. cbn [fst snd site_messages site_world status_of].
      eexists. eexists. split; [reflexivity|]. repeat split.
    + intros am Ham Hnone Hblank.
      pose proof (chat_plain_answer env (AIAgent user) message past (site_world s) am Ham Hnone)
        as Hchat.
      pose proof (chat_endpoint_run env verify_token message history authorization s user
                    _ _ Hauth Hchat) as Hrun.
      cbv zeta in Hrun. fold outcome in Hrun.
      unfold ChatRouter.answer_text in Hrun. cbn [response chat_error] in Hrun.
      rewrite Hblank in Hrun.
      rewrite Hrun. cbn [fst snd site_messages site_world status_of].
      eexists. split; [reflexivity|]. repeat split.
Qed.

End ChatOutcomes.

Lemma chat_endpoint_outcomes_witness :
  status_of (fst (ChatRouter.chat Demo.silent Cases.session "Any news?" None
                    (Some "Bearer advisor-token") Cases.site)) = Some 200 /\
  status_of (fst (ChatRouter.chat Cases.mute Cases.session "Any news?" None
                    (Some "Bearer advisor-token") Cases.site)) = Some 500 /\
  ChatRouter.chat Demo.env Cases.session "Any news?" None (Some "Bearer stranger")
    Cases.site = (Ret (HTTPException 401 "Invalid token"), Cases.site).
Proof.
  assert (Hauth : ChatRouter.get_current_user Cases.session (Some "Bearer advisor-token")
                    Cases.site = (Ret (Reply Demo.advisor), Cases.site)) by reflexivity.
  split; [|split].
  - destruct (proj2 (chat_endpoint_outcomes Demo.silent Cases.session "Any news?" None
                       (Some "Bearer advisor-token") Cases.site) Demo.advisor Hauth)
      as (Hfail & _ & _).
    destruct (Hfail Demo.rate_limited eq_refl) as (u & a & _ & _ & _ & _ & Hstatus & _).
    exact Hstatus.
  - destruct (proj2 (chat_endpoint_outcomes Cases.mute Cases.session "Any news?" None
                       (Some "Bearer advisor-token") Cases.site) Demo.advisor Hauth)
      as (_ & _ & Hmute).
    destruct (Hmute {| content := None; tool_calls := [] |} eq_refl eq_refl eq_refl)
      as (u & _ & _ & Hstatus & _).
    exact Hstatus.
  - apply (proj1 (chat_endpoint_outcomes Demo.env Cases.session "Any news?" None
                    (Some "Bearer stranger") Cases.site) 401 "Invalid token").
    reflexivity.
Defined.

(** ** The history of a chat *)

Lemma created_desc_total : total_order ChatRouter.created_desc.
Proof.
  split.
  - intros a b. unfold ChatRouter.created_desc.
    destruct (cm_created_at a), (cm_created_at b); auto.
    destruct (Z.leb_spec z0 z); [now left | right; apply Z.leb_le; lia].
  - intros a b c. unfold ChatRouter.created_desc.
    destruct (cm_created_at a), (cm_created_at b), (cm_created_at c); try easy.
    rewrite !Z.leb_le. lia.
Qed.

Lemma history_query_In (user : Z) (before_id : option Z) (table : list ChatMessage)
    (m : ChatMessage) :
  In m (ChatRouter.history_query user before_id table) ->
  In m table /\ cm_user_id m = user.
Proof.
  unfold ChatRouter.history_query.
  assert (Hmine : forall x, In x (List.filter (fun m => cm_user_id m =? user) table) ->
                    In x table /\ cm_user_id x = user).
  { intros x Hx. apply filter_In in Hx as [Hx Hu]. split; [exact Hx | now apply Z.eqb_eq]. }
  destruct before_id as [cursor|]; [|apply Hmine].
  destruct (cursor =? 0); [apply Hmine|].
  destruct (find _ table) as [anchor|];
    [destruct (cm_created_at anchor)|]; intros H; apply filter_In in H as [H _]; now apply Hmine.
Qed.

Lemma history_messages_ok (env : Env) (rows : list ChatMessage) :
  (forall l, ChatRouter.history_messages env rows = Ok l ->
     map ChatRouter.hm_id l = map cm_id rows /\
     map ChatRouter.hm_role l = map cm_role rows /\
     map ChatRouter.hm_content l = map cm_content rows) /\
  (Forall (fun m => cm_error m <> None) rows ->
   exists l, ChatRouter.history_messages env rows = Ok l).
Proof.
  split.
  - induction rows as [|m rows IH]; intros l H; cbn [ChatRouter.history_messages] in H.
    + injection H as <-. now repeat split.
    + destruct (cm_error m); [|discriminate].
      destruct (ChatRouter.history_messages env rows) as [l0|]; [|discriminate].
      injection H as <-. destruct (IH l0 eq_refl) as (H1 & H2 & H3).
      cbn [map ChatRouter.hm_id ChatRouter.hm_role ChatRouter.hm_content].
      now rewrite H1, H2, H3.
  - induction rows as [|m rows IH]; intros H; cbn [ChatRouter.history_messages]; [eauto|].
    apply Forall_cons_iff in H as [Hm H]. destruct (cm_error m); [|congruence].
    destruct (IH H) as [l ->]. eauto.
Qed.

Lemma firstn_firstn_succ {A : Type} (n : nat) (l : list A) :
  firstn n (firstn (S n) l) = firstn n l.
Proof.
  revert l. induction n as [|n IH]; intros [|x l]; try reflexivity.
  cbn [firstn]. f_equal. apply IH.
Qed.

Section History.

Variable env : Env.
Variable verify_token : string -> option (option Z).

Lemma history_run (limit : Z) (before_id : option Z) (authorization : option string)
    (s : Site) (user : User) :
  ChatRouter.get_current_user verify_token authorization s = (Ret (Reply user), s) ->
  0 <= limit ->
  let candidates := ChatRouter.history_query (user_id user) before_id (site_messages s) in
  let rows := firstn (Z.to_nat limit) (Sql.sort_by ChatRouter.created_desc candidates) in
  ChatRouter.get_chat_history env verify_token limit before_id authorization s =
    (match ChatRouter.history_messages env rows with
     | Ok l => Ret (Reply {| ChatRouter.hr_messages := l;
                            ChatRouter.hr_has_more :=
                              limit <? Z.of_nat (List.length candidates) |})
     | Err e => Raise e
     end, s).
Proof.
  intros Hauth Hl candidates rows.
  unfold ChatRouter.get_chat_history, and_then. rewrite Hauth.
  fold candidates. rewrite limit_rows_ok by lia.
  set (sorted := Sql.sort_by ChatRouter.created_desc candidates) in *.
  assert (Hlen : List.length sorted = List.length candidates) by apply sort_by_length.
  replace (Z.to_nat (limit + 1)) with (S (Z.to_nat limit)) by lia.
  rewrite length_firstn.
  destruct (Z.ltb_spec limit (Z.of_nat (Nat.min (S (Z.to_nat limit)) (List.length sorted))))
    as [Hmore|Hless].
  - rewrite firstn_firstn_succ. fold rows.
    destruct (Z.ltb_spec limit (Z.of_nat (List.length candidates))); [|lia].
    now destruct (ChatRouter.history_messages env rows).
  - assert (Hall : firstn (S (Z.to_nat limit)) sorted = rows).
    { unfold rows. rewrite !firstn_all2 by lia. reflexivity. }
    rewrite Hall.
    destruct (Z.ltb_spec limit (Z.of_nat (List.length candidates))); [lia|].
    now destruct (ChatRouter.history_messages env rows).
Qed.

(** X20.  A page of the chat history.  For a known user and a limit the
    framework admits (1 to 50), [get_chat_history] changes nothing; the
    page holds the first [limit] of the candidate messages ordered by
    creation time, newest first (messages without a time before the
    others); every message of the page is one of the user's own;
    [has_more] tells exactly whether there are more candidates than the
    limit.  The candidates are the user's messages; with a cursor that
    names one of the user's messages that has a time, those created
    strictly before it; the cursor 0 is no cursor.  The page is rendered
    whenever every message has a Boolean error flag. *)
Theorem chat_history_page (limit : Z) (before_id : option Z) (authorization : option string)
    (s : Site) (user : User) :
  ChatRouter.get_current_user verify_token authorization s = (Ret (Reply user), s) ->
  1 <= limit <= 50 ->
  let table := site_messages s in
  let candidates := ChatRouter.history_query (user_id user) before_id table in
  let rows := firstn (Z.to_nat limit) (Sql.sort_by ChatRouter.created_desc candidates) in
  ChatRouter.get_chat_history env verify_token limit before_id authorization s =
    (match ChatRouter.history_messages env rows with
     | Ok l => Ret (Reply {| ChatRouter.hr_messages := l;
                            ChatRouter.hr_has_more :=
                              limit <? Z.of_nat (List.length candidates) |})
     | Err e => Raise e
     end, s) /\
  Z.of_nat (List.length rows) = Z.min limit (Z.of_nat (List.length candidates)) /\
  StronglySorted (fun a b => ChatRouter.created_desc a b = true) rows /\
  (forall m, In m rows -> In m table /\ cm_user_id m = user_id user) /\
  (forall l, ChatRouter.history_messages env rows = Ok l ->
     map ChatRouter.hm_id l = map cm_id rows /\
     map ChatRouter.hm_role l = map cm_role rows /\
     map ChatRouter.hm_content l = map cm_content rows) /\
  (Forall (fun m => cm_error m <> None) table ->
   exists l, ChatRouter.history_messages env rows = Ok l) /\
  (before_id = None \/ before_id = Some 0 ->
   Permutation (Sql.sort_by ChatRouter.created_desc candidates)
     (List.filter (fun m => cm_user_id m =? user_id user) table)) /\
  (forall cursor anchor t,
     before_id = Some cursor -> cursor <> 0 ->
     find (fun m => (cm_id m =? cursor) && (cm_user_id m =? user_id user)) table =
       Some anchor ->
     cm_created_at anchor = Some t ->
     forall m, In m rows -> exists c, cm_created_at m = Some c /\ c < t).
Proof.
  intros Hauth Hlimit table candidates rows.
  split; [apply history_run; [exact Hauth | lia]|].
  split.
  { unfold rows. rewrite length_firstn, sort_by_length. lia. }
  split; [apply firstn_sorted, sort_by_sorted, created_desc_total|].
  assert (Hrows : forall m, In m rows -> In m candidates).
  { intros m Hm. apply In_firstn in Hm. now apply sort_by_In in Hm. }
  split; [intros m Hm; apply (history_query_In _ before_id), Hrows, Hm|].
  split; [apply history_messages_ok|].
  split.
  { intros Hall. apply history_messages_ok. apply List.Forall_forall. intros m Hm.
    rewrite List.Forall_forall in Hall. apply Hall.
    now apply (history_query_In (user_id user) before_id), Hrows. }
  split.
  { intros Hnone. eapply Permutation_trans; [apply sort_by_perm|].
    unfold candidates, ChatRouter.history_query.
    destruct Hnone as [->| ->]; reflexivity. }
  intros cursor anchor t -> Hc Hfind Ht m Hm.
  apply Hrows in Hm. unfold candidates, ChatRouter.history_query in Hm.
  destruct (Z.eqb_spec cursor 0) as [|_]; [contradiction|].
  fold table in Hm. rewrite Hfind, Ht in Hm.
  apply filter_In in Hm as [_ Hm].
  destruct (cm_created_at m) as [c|]; [|discriminate].
  exists c. split; [reflexivity | now apply Z.ltb_lt].
Qed.

End History.

Lemma chat_history_page_witness :
  exists l,
    ChatRouter.get_chat_history Demo.env Cases.session 2 None (Some "Bearer advisor-token")
      Cases.talk =
      (Ret (Reply {| ChatRouter.hr_messages := l; ChatRouter.hr_has_more := true |}),
       Cases.talk) /\
    map ChatRouter.hm_id l = [5; 4] /\
    map ChatRouter.hm_content l = ["Still nothing."; "And now?"].
Proof.
  assert (Hlimit : 1 <= 2 <= 50) by lia.
  pose proof (chat_history_page Demo.env Cases.session 2 None (Some "Bearer advisor-token")
                Cases.talk Demo.advisor eq_refl Hlimit) as H.
  cbv zeta in H. destruct H as (Hrun & _ & _ & _ & Hrender & Hall & _).
  destruct Hall as [l Hl]; [repeat constructor; discriminate|].
  rewrite Hl in Hrun. destruct (Hrender l Hl) as (Hid & _ & Htext).
  exists l. split; [exact Hrun|]. split; [exact Hid | exact Htext].
Defined.

(** ** Instructions and tasks *)

Section Standing.

Variable verify_token : string -> option (option Z).

(** X21.  [POST /ongoing-instruction] stores the trigger type it is given
    as it is, and [all] when none is given; it never asks the model to
    classify the instruction, whatever the text.  The row is stored for the
    user of the token, active, under a key no earlier instruction holds, and
    nothing else changes.  From then on a trigger event of that user selects
    the row exactly when the stored type is the source of the event, letter
    for letter, or [all] - so without a trigger type it is selected for
    every source, and with the empty text for none - and an event of any
    other user never selects it. *)
Theorem endpoint_instruction (text : string) (trigger : option string)
    (authorization : option string) (s : Site) (user : User) :
  ChatRouter.get_current_user verify_token authorization s = (Ret (Reply user), s) ->
  let d := db (site_world s) in
  let stored := match trigger with Some t => t | None => "all" end in
  let row := {| instruction_id := Sql.next_id (map instruction_id (ongoing_instructions d));
                instruction_user_id := user_id user;
                instruction := text;
                trigger_type := Some stored;
                is_active := Some true |} in
  exists s',
    ChatRouter.add_ongoing_instruction verify_token text trigger authorization s =
      (Ret (Reply {| ChatRouter.iv_id := instruction_id row;
                     ChatRouter.iv_instruction := text;
                     ChatRouter.iv_trigger_type := Some stored |}), s') /\
    ongoing_instructions (db (site_world s')) = (ongoing_instructions d ++ [row])%list /\
    ~ In (instruction_id row) (map instruction_id (ongoing_instructions d)) /\
    trace (site_world s') = trace (site_world s) /\
    steady (user_id user) (site_world s) (site_world s') /\
    site_messages s' = site_messages s /\
    (forall source,
       In row (triggered_instructions (user_id user) source (db (site_world s'))) <->
       (stored = source \/ stored = "all")) /\
    (trigger = None ->
     forall source, In row (triggered_instructions (user_id user) source
                              (db (site_world s')))) /\
    (trigger = Some EmptyString ->
     forall source, source <> EmptyString ->
       ~ In row (triggered_instructions (user_id user) source (db (site_world s')))) /\
    (forall other source, other <> user_id user ->
       ~ In row (triggered_instructions other source (db (site_world s')))).
Proof.
  intros Hauth d stored row.
  assert (Hsel : forall d' : DB,
            ongoing_instructions d' = (ongoing_instructions d ++ [row])%list ->
            forall source,
              In row (triggered_instructions (user_id user) source d') <->
              (stored = source \/ stored = "all")).
  { intros d' Hrows source. rewrite triggered_instructions_In, Hrows. split.
    - intros (_ & _ & _ & [H|H]); injection H as H; auto.
    - intros H. split; [apply in_or_app; right; now left|].
      split; [reflexivity|]. split; [reflexivity|].
      destruct H as [<-| ->]; auto. }
  eexists. split.
  { unfold ChatRouter.add_ongoing_instruction, and_then. rewrite Hauth.
    unfold in_world, bind, get_world, set_db. cbn [ret fst snd]. reflexivity. }
  cbn [site_world with_world site_messages db with_db ongoing_instructions trace].
  split; [reflexivity|].
  split.
  { intros Hin.
    pose proof (next_id_fresh (map instruction_id (ongoing_instructions d))) as Hfresh.
    rewrite List.Forall_forall in Hfresh. apply Hfresh in Hin. cbn in Hin. lia. }
  split; [reflexivity|].
  split.
  { split; cbn [db with_db users emails contacts sync_status clock tasks
                ongoing_instructions trace]; try reflexivity.
    - exists []. split; [now rewrite app_nil_r | constructor].
    - exists [row]. split; [reflexivity|]. repeat constructor.
    - exists []. now rewrite app_nil_r. }
  split; [reflexivity|].
  split; [apply Hsel; reflexivity|].
  split.
  { intros -> source. apply Hsel; [reflexivity | now right]. }
  split.
  { intros -> source Hsource Hin.
    apply Hsel in Hin; [|reflexivity].
    destruct Hin as [H|H]; [now apply Hsource | discriminate]. }
  intros other source Hother Hin.
  apply triggered_instructions_In in Hin as (_ & Huser & _). cbn in Huser. congruence.
Qed.

End Standing.

Lemma endpoint_instruction_witness :
  exists s',
    ChatRouter.add_ongoing_instruction Cases.session "File every invoice" None
      (Some "Bearer advisor-token") Cases.site =
      (Ret (Reply {| ChatRouter.iv_id := 1;
                     ChatRouter.iv_instruction := "File every invoice";
                     ChatRouter.iv_trigger_type := Some "all" |}), s') /\
    List.length (triggered_instructions 1 "calendar" (db (site_world s'))) = 1%nat /\
    triggered_instructions 2 "calendar" (db (site_world s')) = [].
Proof.
  pose proof (endpoint_instruction Cases.session "File every invoice" None
                (Some "Bearer advisor-token") Cases.site Demo.advisor eq_refl) as H.
  cbv zeta in H. destruct H as (s' & Hrun & Hrows & _).
  exists s'. split; [exact Hrun|].
  unfold triggered_instructions. rewrite Hrows. split; reflexivity.
Defined.


(** * The system prompt *)

Lemma starts_with_app_l (n a b : string) :
  Text.starts_with n a = true -> Text.starts_with n (a ++ b) = true.
Proof.
  revert a. induction n as [|c n IH]; intros a; cbn [Text.starts_with]; [reflexivity|].
  destruct a as [|d a]; [discriminate|].
  change (String d a ++ b) with (String d (a ++ b)).
  rewrite !andb_true_iff. intros [Hc Hn]. split; [exact Hc | now apply IH].
Qed.

Lemma starts_with_self (n r : string) : Text.starts_with n (n ++ r) = true.
Proof.
  induction n as [|c n IH]; [reflexivity|].
  change (String c n ++ r) with (String c (n ++ r)). cbn [Text.starts_with].
  now rewrite Ascii.eqb_refl, IH.
Qed.

Lemma contains_here (n h : string) :
  Text.starts_with n h = true -> Text.contains n h = true.
Proof. intros H. destruct h; cbn [Text.contains]; now rewrite H. Qed.

Lemma contains_app_r (n a b : string) :
  Text.contains n b = true -> Text.contains n (a ++ b) = true.
Proof.
  intros H. induction a as [|c a IH]; [exact H|].
  change (String c a ++ b) with (String c (a ++ b)). cbn [Text.contains].
  rewrite IH. apply orb_true_r.
Qed.

Lemma contains_app_l (n a b : string) :
  Text.contains n a = true -> Text.contains n (a ++ b) = true.
Proof.
  induction a as [|c a IH].
  - cbn [Text.contains]. rewrite orb_false_r. intros H.
    apply contains_here. now apply (starts_with_app_l n EmptyString b).
  - change (String c a ++ b) with (String c (a ++ b)). cbn [Text.contains].
    rewrite !orb_true_iff. intros [H|H]; [left | right; now apply IH].
    now apply (starts_with_app_l n (String c a) b).
Qed.

Lemma append_assoc (a b c : string) : (a ++ b) ++ c = a ++ b ++ c.
Proof.
  induction a as [|x a IH]; [reflexivity|].
  change (String x ((a ++ b) ++ c) = String x (a ++ b ++ c)). now rewrite IH.
Qed.

(** The lines of a list of instructions, as both prompts write them. *)
Lemma instruction_lines_acc (l : list OngoingInstruction) (acc : string) :
  exists lines,
    fold_left (fun acc i => acc ++ "- " ++ instruction i ++ Text.nl) l acc = acc ++ lines.
Proof.
  revert acc. induction l as [|x l IH]; intros acc; cbn [fold_left].
  - exists EmptyString. now rewrite append_empty_r.
  - destruct (IH (acc ++ "- " ++ instruction x ++ Text.nl)) as [lines ->].
    exists (("- " ++ instruction x ++ Text.nl) ++ lines).
    now rewrite append_assoc.
Qed.

Lemma instruction_lines_contain (l : list OngoingInstruction) (acc : string)
    (i : OngoingInstruction) :
  In i l ->
  Text.contains ("- " ++ instruction i ++ Text.nl)
    (fold_left (fun acc i => acc ++ "- " ++ instruction i ++ Text.nl) l acc) = true.
Proof.
  revert acc. induction l as [|x l IH]; intros acc Hin; [contradiction|].
  destruct Hin as [->|Hin]; cbn [fold_left].
  - destruct (instruction_lines_acc l (acc ++ "- " ++ instruction i ++ Text.nl))
      as [lines ->].
    apply contains_app_l, contains_app_r, contains_here.
    rewrite <- (append_empty_r ("- " ++ instruction i ++ Text.nl)) at 2.
    apply starts_with_self.
  - now apply IH.
Qed.

Lemma active_instructions_In (user : Z) (d : DB) (i : OngoingInstruction) :
  In i (active_instructions user d) <->
  In i (ongoing_instructions d) /\ instruction_user_id i = user /\ is_active i = Some true.
Proof.
  unfold active_instructions. rewrite filter_In, andb_true_iff, Z.eqb_eq.
  destruct (is_active i) as [[|]|]; split; intros (H1 & H2 & H3); repeat split;
    congruence.
Qed.

Lemma system_prompt_contains (env : Env) (agent : Agent) (now : Z)
    (l : list OngoingInstruction) (i : OngoingInstruction) :
  In i l ->
  Text.contains ("- " ++ instruction i ++ Text.nl) (_build_system_prompt env agent now l) = true.
Proof.
  intros Hin. unfold _build_system_prompt.
  do 3 apply contains_app_r. apply contains_app_l.
  destruct l as [|x l]; [contradiction|].
  do 3 apply contains_app_r. now apply instruction_lines_contain.
Qed.

(** X23.  What the model is told of the standing instructions.  The
    messages of a chat turn are the system prompt, the history as the caller
    gave it (roles included) and the new message; the system prompt holds a
    line for every active instruction of the agent's user, whatever its
    trigger type.  The evaluation of a trigger event goes through the same
    [chat]: when at least one instruction is selected for the source, the
    request to the model starts with that system prompt, so the model also
    reads the active instructions typed for other sources; the message
    after it lists the selected ones. *)
Theorem prompt_lists_active_instructions (env : Env) (agent : Agent) (w : World) :
  let user := user_id (agent_user agent) in
  let prompt := _build_system_prompt env agent (clock w) (active_instructions user (db w)) in
  (forall message history,
     exists rest,
       trace (snd (chat env agent message history w)) =
         (trace w ++
          EvChat (first_request
                    (MsgSystem prompt ::
                     map (fun h => MsgHistory (fst h) (snd h)) history ++
                     [MsgUser message])) :: rest)%list) /\
  (forall i,
     In i (ongoing_instructions (db w)) -> instruction_user_id i = user ->
     is_active i = Some true ->
     Text.contains ("- " ++ instruction i ++ Text.nl) prompt = true) /\
  (forall trigger data,
     let selected := triggered_instructions user trigger (db w) in
     selected <> [] ->
     exists rest,
       trace (snd (process_ongoing_instructions env agent trigger data w)) =
         (trace w ++
          EvChat (first_request
                    [ MsgSystem prompt;
                      MsgUser (trigger_prompt env (clock w) trigger data selected) ])
          :: rest)%list /\
       (forall i, In i selected ->
          Text.contains ("- " ++ instruction i ++ Text.nl)
            (trigger_prompt env (clock w) trigger data selected) = true) /\
       (forall i, In i selected ->
          Text.contains ("- " ++ instruction i ++ Text.nl) prompt = true)).
Proof.
  intros user prompt. split; [|split].
  - intros message history. apply chat_first_call.
  - intros i Hin Huser Hactive. apply system_prompt_contains.
    apply active_instructions_In. auto.
  - intros trigger data selected Hsome.
    destruct (chat_first_call env agent (trigger_prompt env (clock w) trigger data selected)
                [] w) as [rest Hrest].
    exists rest. split; [|split].
    + unfold process_ongoing_instructions, bind at 1, get_world.
      fold user. fold selected. destruct selected as [|x l] eqn:E; [congruence|].
      rewrite <- E in *. unfold bind.
      destruct (chat env agent (trigger_prompt env (clock w) trigger data selected) [] w)
        as [[r| |] w1]; exact Hrest.
    + intros i Hin. unfold trigger_prompt.
      do 18 apply contains_app_r. apply contains_app_l.
      now apply instruction_lines_contain.
    + intros i Hin. apply system_prompt_contains, active_instructions_In.
      apply triggered_instructions_In in Hin as (H1 & H2 & H3 & _). auto.
Qed.

Lemma prompt_lists_active_instructions_witness :
  exists prompt user_prompt rest,
    trace (snd (process_ongoing_instructions Demo.env (AIAgent Demo.advisor) "email" JNull
                  Demo.rules)) =
      (trace Demo.rules ++
       EvChat (first_request [MsgSystem prompt; MsgUser user_prompt]) :: rest)%list /\
    Text.contains ("- Remind me the day before a meeting" ++ Text.nl) prompt = true /\
    Text.contains ("- Remind me the day before a meeting" ++ Text.nl) user_prompt = false.
Proof.
  pose proof (prompt_lists_active_instructions Demo.env (AIAgent Demo.advisor) Demo.rules)
    as H.
  cbv zeta in H. destruct H as (_ & Hlines & Hevent).
  destruct (Hevent "email" JNull) as (rest & Htrace & _); [vm_compute; discriminate|].
  eexists _, _, rest. split; [exact Htrace|]. split.
  - apply (Hlines (Demo.rule 1 1 "Remind me the day before a meeting" (Some "calendar")
                     (Some true))); [now left | reflexivity | reflexivity].
  - vm_compute. reflexivity.
Defined.

(** * Parsing a Gmail message *)

Lemma join_cons (sep first next : string) (rest : list string) :
  Text.join sep (first :: next :: rest) = first ++ sep ++ Text.join sep (next :: rest).
Proof. reflexivity. Qed.

Lemma split_on_join (sep : ascii) (s : string) :
  Text.join (String sep EmptyString) (split_on sep s) = s.
Proof.
  induction s as [|c s IH]; [reflexivity|]. cbn [split_on].
  destruct (split_on_cons sep s) as (piece & pieces & E). rewrite E in *.
  destruct (Ascii.eqb_spec c sep) as [->|_].
  - rewrite join_cons, IH. reflexivity.
  - destruct pieces as [|next pieces].
    + cbn [Text.join] in *. now rewrite IH.
    + rewrite join_cons in *.
      change (String c piece ++ String sep EmptyString ++ Text.join (String sep EmptyString)
                (next :: pieces))
        with (String c (piece ++ String sep EmptyString ++ Text.join (String sep EmptyString)
                (next :: pieces))).
      now rewrite IH.
Qed.

Lemma split_on_no_sep (sep : ascii) (s : string) :
  Forall (fun piece => Text.contains (String sep EmptyString) piece = false)
    (split_on sep s).
Proof.
  induction s as [|c s IH]; [now repeat constructor|]. cbn [split_on].
  destruct (Ascii.eqb_spec c sep) as [->|Hc]; [now constructor|].
  destruct (split_on_cons sep s) as (piece & pieces & E). rewrite E in *.
  apply Forall_cons_iff in IH as [Hpiece Hrest]. constructor; [|exact Hrest].
  cbn [Text.contains Text.starts_with]. rewrite Hpiece, orb_false_r.
  destruct (Ascii.eqb_spec sep c) as [->|_]; [congruence | reflexivity].
Qed.

(** ** [strip] *)

Lemma lstrip_head (s : string) :
  Text.lstrip s = EmptyString \/
  exists c t, Text.lstrip s = String c t /\ Text.is_space c = false.
Proof.
  induction s as [|c s IH]; [now left|]. cbn [Text.lstrip].
  destruct (Text.is_space c) eqn:E; [exact IH | right; eauto].
Qed.

Lemma lstrip_suffix (s : string) : exists before, s = before ++ Text.lstrip s.
Proof.
  induction s as [|c s [before IH]]; [now exists EmptyString|]. cbn [Text.lstrip].
  destruct (Text.is_space c); [|now exists EmptyString].
  exists (String c before). change (String c s = String c (before ++ Text.lstrip s)).
  now rewrite <- IH.
Qed.

Lemma rstrip_prefix (s : string) : exists after, s = Text.rstrip s ++ after.
Proof.
  induction s as [|c s [after IH]]; [now exists EmptyString|]. cbn [Text.rstrip].
  destruct (Text.rstrip s) as [|d r].
  - destruct (Text.is_space c); [now exists (String c s)|]. now exists s.
  - exists after. change (String c s = String c (String d r ++ after)). now rewrite <- IH.
Qed.

Lemma rstrip_keeps_head (c : ascii) (t : string) :
  Text.is_space c = false -> exists r, Text.rstrip (String c t) = String c r.
Proof.
  intros Hc. cbn [Text.rstrip]. destruct (Text.rstrip t); [rewrite Hc|]; eauto.
Qed.

Lemma rstrip_idem (s : string) : Text.rstrip (Text.rstrip s) = Text.rstrip s.
Proof.
  induction s as [|c s IH]; [reflexivity|]. cbn [Text.rstrip].
  destruct (Text.rstrip s) as [|d r] eqn:E.
  - destruct (Text.is_space c) eqn:Hc; [reflexivity|]. cbn [Text.rstrip]. now rewrite Hc.
  - change (Text.rstrip (String c (String d r)))
      with (match Text.rstrip (String d r) with
            | EmptyString => if Text.is_space c then EmptyString else String c EmptyString
            | String x y => String c (String x y)
            end).
    now rewrite IH.
Qed.

Lemma strip_idem (s : string) : Text.strip (Text.strip s) = Text.strip s.
Proof.
  unfold Text.strip. destruct (lstrip_head s) as [->|(c & t & -> & Hc)]; [reflexivity|].
  destruct (rstrip_keeps_head c t Hc) as [r Hr].
  assert (Hl : Text.lstrip (Text.rstrip (String c t)) = Text.rstrip (String c t)).
  { rewrite Hr. cbn [Text.lstrip]. now rewrite Hc. }
  rewrite Hl. apply rstrip_idem.
Qed.

Lemma strip_inside (needle s : string) :
  Text.contains needle (Text.strip s) = true -> Text.contains needle s = true.
Proof.
  unfold Text.strip. intros H.
  destruct (lstrip_suffix s) as [before Hs].
  destruct (rstrip_prefix (Text.lstrip s)) as [after Hl].
  rewrite Hs, Hl. now apply contains_app_r, contains_app_l.
Qed.

(** ** The headers *)

Lemma headers_get_snoc (hs : list Header) (h : Header) (name : string) :
  GoogleService.headers_get (hs ++ [h]) name =
    if String.eqb (header_name h) name then Some (header_value h)
    else GoogleService.headers_get hs name.
Proof. unfold GoogleService.headers_get. now rewrite fold_left_app. Qed.

Lemma headers_get_after (name : string) (after : list Header) (found : option string) :
  Forall (fun x => header_name x <> name) after ->
  fold_left
    (fun found h => if String.eqb (header_name h) name then Some (header_value h) else found)
    after found = found.
Proof.
  revert found. induction after as [|x after IH]; intros found H; [reflexivity|].
  apply Forall_cons_iff in H as [Hx H]. cbn [fold_left].
  destruct (String.eqb_spec (header_name x) name); [contradiction | now apply IH].
Qed.

(** The last header of a name is the one that counts. *)
Lemma headers_get_last (hs : list Header) (name value : string) :
  GoogleService.headers_get hs name = Some value <->
  exists before h after,
    hs = (before ++ h :: after)%list /\ header_name h = name /\ header_value h = value /\
    Forall (fun x => header_name x <> name) after.
Proof.
  split.
  - induction hs as [|h hs IH] using rev_ind; [discriminate|].
    rewrite headers_get_snoc. destruct (String.eqb_spec (header_name h) name) as [E|E].
    + intros [= <-]. exists hs, h, []. auto.
    + intros H. destruct (IH H) as (before & h' & after & -> & Hn & Hv & Hafter).
      exists before, h', (after ++ [h])%list. rewrite <- app_assoc. split; [reflexivity|].
      split; [exact Hn|]. split; [exact Hv|].
      apply Forall_app. split; [exact Hafter | now constructor].
  - intros (before & h & after & -> & Hn & Hv & Hafter).
    unfold GoogleService.headers_get. rewrite fold_left_app. cbn [fold_left].
    destruct (String.eqb_spec (header_name h) name); [|contradiction].
    rewrite (headers_get_after name after _ Hafter). now rewrite Hv.
Qed.

Lemma headers_get_none (hs : list Header) (name : string) :
  Forall (fun h => header_name h <> name) hs -> GoogleService.headers_get hs name = None.
Proof. apply headers_get_after. Qed.

(** ** The recipients *)

Lemma addresses_In (pieces : list string) (e : string) :
  In e (GoogleService.addresses pieces) ->
  e <> EmptyString /\ exists piece, In piece pieces /\ e = Text.strip piece.
Proof.
  unfold GoogleService.addresses. rewrite in_map_iff.
  intros (piece & <- & Hin). apply filter_In in Hin as [Hin Hsome].
  split; [|eauto]. intros E. now rewrite E in Hsome.
Qed.

Lemma addresses_length (pieces : list string) :
  (List.length (GoogleService.addresses pieces) <= List.length pieces)%nat.
Proof.
  unfold GoogleService.addresses. rewrite length_map.
  induction pieces as [|x l IH]; [apply le_n|]. cbn [List.filter].
  destruct (Text.truthy (Text.strip x)); cbn [List.length];
    [now apply le_n_S | now apply le_S].
Qed.

Lemma addresses_clean (pieces : list string) :
  Forall (fun piece => Text.contains "," piece = false) pieces ->
  Forall (fun e => e <> EmptyString /\ Text.strip e = e /\ Text.contains "," e = false)
    (GoogleService.addresses pieces).
Proof.
  intros Hpieces. apply List.Forall_forall. intros e He.
  apply addresses_In in He as (Hne & piece & Hin & ->).
  split; [exact Hne|]. split; [apply strip_idem|].
  rewrite List.Forall_forall in Hpieces. specialize (Hpieces piece Hin).
  destruct (Text.contains "," (Text.strip piece)) eqn:E; [|reflexivity].
  apply strip_inside in E. congruence.
Qed.

Section ParseEmail.

Variable urlsafe_b64decode : string -> Res string.
Variable parsedate_to_datetime : string -> option Z.

#[local] Abbreviation parse :=
  (GoogleService._parse_email urlsafe_b64decode parsedate_to_datetime).
#[local] Abbreviation read_body := (GoogleService.read_body urlsafe_b64decode).
#[local] Abbreviation read_parts := (GoogleService.read_parts urlsafe_b64decode).

(** What a successful parse says of its parts. *)
Lemma parse_email_ok (m : GmailMessage) (id : string) (p : ParsedEmail) :
  parse m = Ok (id, p) ->
  let headers := GoogleService.headers_get (GoogleService.top_headers m) in
  msg_id m = Some id /\
  read_parts (GoogleService.top_parts m) (EmptyString, EmptyString) =
    Ok (p_body_text p, p_body_html p) /\
  p_thread_id p = msg_threadId m /\
  p_subject p = or_empty (headers "Subject") /\
  p_from_email p = or_empty (headers "From") /\
  p_to_emails p = GoogleService.addresses (split_on "," (or_empty (headers "To"))) /\
  p_cc_emails p =
    GoogleService.addresses
      (if Text.truthy_opt (headers "Cc") then split_on "," (or_empty (headers "Cc"))
       else []) /\
  p_received_at p =
    if Text.truthy (or_empty (headers "Date"))
    then parsedate_to_datetime (or_empty (headers "Date")) else None.
Proof.
  unfold GoogleService._parse_email, GoogleService.top_parts, GoogleService.top_headers,
    GoogleService.payload_of.
  set (payload := match msg_payload m with Some q => q | None => Part None None None None end).
  assert (Hread : read_parts
                    (match part_parts payload with Some ps => ps | None => [payload] end)
                    (EmptyString, EmptyString) =
                  match part_parts payload with
                  | Some ps => read_parts ps (EmptyString, EmptyString)
                  | None => read_body payload (EmptyString, EmptyString)
                  end).
  { destruct (part_parts payload); [reflexivity|]. cbn [GoogleService.read_parts].
    now destruct (read_body payload (EmptyString, EmptyString)). }
  rewrite Hread.
  destruct (match part_parts payload with
            | Some ps => read_parts ps (EmptyString, EmptyString)
            | None => read_body payload (EmptyString, EmptyString)
            end) as [[text html]|e]; [|discriminate].
  destruct (msg_id m) as [i|]; [|discriminate].
  intros [= <- <-]. cbn. repeat split.
Qed.

(** X24.  The headers and the recipients of a parsed message.  [gmail_id]
    is the id of the message.  A header is found under its exact name, and
    when the name occurs more than once the last occurrence counts.  The
    [To] header is cut at every comma - joining the pieces with commas gives
    the header back - and [to_emails] holds the pieces that are not blank,
    stripped, in order: every entry is a non-empty text without a comma and
    without white space around it, and there are no more entries than
    pieces; the same for [cc_emails].  Without a header named [To] the list
    is empty.  A received date is there only for a [Date] header that is
    not empty, and is what [parsedate_to_datetime] makes of it. *)
Theorem parse_email_recipients (m : GmailMessage) (id : string) (p : ParsedEmail) :
  parse m = Ok (id, p) ->
  let hs := GoogleService.top_headers m in
  let to_header := or_empty (GoogleService.headers_get hs "To") in
  let clean := fun e => e <> EmptyString /\ Text.strip e = e /\ Text.contains "," e = false in
  msg_id m = Some id /\
  (forall name value,
     GoogleService.headers_get hs name = Some value <->
     exists before h after,
       hs = (before ++ h :: after)%list /\ header_name h = name /\ header_value h = value /\
       Forall (fun x => header_name x <> name) after) /\
  Text.join "," (split_on "," to_header) = to_header /\
  p_to_emails p =
    map Text.strip (List.filter (fun e => Text.truthy (Text.strip e)) (split_on "," to_header)) /\
  Forall clean (p_to_emails p) /\
  Forall clean (p_cc_emails p) /\
  (List.length (p_to_emails p) <= List.length (split_on "," to_header))%nat /\
  (Forall (fun h => header_name h <> "To") hs -> p_to_emails p = []) /\
  (Forall (fun h => header_name h <> "Cc") hs -> p_cc_emails p = []) /\
  (forall t, p_received_at p = Some t ->
     exists date, GoogleService.headers_get hs "Date" = Some date /\ date <> EmptyString /\
                  parsedate_to_datetime date = Some t).
Proof.
  intros Hparse hs to_header clean.
  apply parse_email_ok in Hparse as (Hid & _ & _ & _ & _ & Hto & Hcc & Hdate).
  cbv zeta in Hto, Hcc, Hdate. fold hs in Hto, Hcc, Hdate. fold to_header in Hto.
  split; [exact Hid|].
  split; [intros name value; apply headers_get_last|].
  split; [apply (split_on_join "," to_header)|].
  split; [exact Hto|].
  split; [rewrite Hto; apply addresses_clean, (split_on_no_sep "," to_header)|].
  split.
  { rewrite Hcc. apply addresses_clean.
    destruct (Text.truthy_opt (GoogleService.headers_get hs "Cc")); [|constructor].
    apply (split_on_no_sep ","). }
  split; [rewrite Hto; apply addresses_length|].
  split.
  { intros Hnone. rewrite Hto. unfold to_header. now rewrite headers_get_none. }
  split.
  { intros Hnone. rewrite Hcc. now rewrite headers_get_none. }
  intros t Ht. rewrite Ht in Hdate.
  destruct (GoogleService.headers_get hs "Date") as [date|]; [|discriminate].
  cbn [or_empty] in Hdate. exists date. split; [reflexivity|].
  destruct date; [discriminate|]. split; [discriminate | now symmetry].
Qed.

(** ** The bodies *)

Lemma find_app {A : Type} (f : A -> bool) (l1 l2 : list A) :
  find f (l1 ++ l2) = match find f l1 with Some x => Some x | None => find f l2 end.
Proof.
  induction l1 as [|x l1 IH]; [reflexivity|]. cbn [app find]. now destruct (f x).
Qed.

(** What one step keeps of a part. *)
Lemma read_body_ok (part : MessagePart) (text html text' html' : string) :
  read_body part (text, html) = Ok (text', html') ->
  (if GoogleService.holds_type "text/plain" part
   then urlsafe_b64decode (or_empty (part_data part)) = Ok text' else text' = text) /\
  (if GoogleService.holds_type "text/html" part
   then urlsafe_b64decode (or_empty (part_data part)) = Ok html' else html' = html).
Proof.
  unfold GoogleService.read_body, GoogleService.holds_type, GoogleService.has_data.
  destruct (Text.truthy (or_empty (part_data part))).
  - destruct (urlsafe_b64decode (or_empty (part_data part))) as [decoded|e]; [|discriminate].
    destruct (String.eqb_spec (or_empty (part_mimeType part)) "text/plain") as [E|_].
    + rewrite E. cbn. intros [= <- <-]. auto.
    + destruct (String.eqb (or_empty (part_mimeType part)) "text/html");
        cbn; intros [= <- <-]; auto.
  - rewrite !andb_false_r. intros [= <- <-]. auto.
Qed.

Lemma read_parts_ok (ps : list MessagePart) (text html text' html' : string) :
  read_parts ps (text, html) = Ok (text', html') ->
  match find (GoogleService.holds_type "text/plain") (rev ps) with
  | Some part => urlsafe_b64decode (or_empty (part_data part)) = Ok text'
  | None => text' = text
  end /\
  match find (GoogleService.holds_type "text/html") (rev ps) with
  | Some part => urlsafe_b64decode (or_empty (part_data part)) = Ok html'
  | None => html' = html
  end.
Proof.
  revert text html. induction ps as [|part ps IH]; intros text html.
  - cbn. intros [= <- <-]. auto.
  - cbn [GoogleService.read_parts rev].
    destruct (read_body part (text, html)) as [[t1 h1]|e] eqn:Estep; [|discriminate].
    intros Hrest. apply IH in Hrest as [Ht Hh]. apply read_body_ok in Estep as [Ht1 Hh1].
    rewrite !find_app. cbn [find]. split.
    + destruct (find (GoogleService.holds_type "text/plain") (rev ps)); [exact Ht|].
      destruct (GoogleService.holds_type "text/plain" part); congruence.
    + destruct (find (GoogleService.holds_type "text/html") (rev ps)); [exact Hh|].
      destruct (GoogleService.holds_type "text/html" part); congruence.
Qed.

Lemma read_body_seen (a b : MessagePart) (bodies : string * string) :
  GoogleService.seen a = GoogleService.seen b -> read_body a bodies = read_body b bodies.
Proof.
  unfold GoogleService.seen, GoogleService.read_body. now intros [= -> ->].
Qed.

Lemma read_parts_seen (ps qs : list MessagePart) (bodies : string * string) :
  map GoogleService.seen ps = map GoogleService.seen qs ->
  read_parts ps bodies = read_parts qs bodies.
Proof.
  revert qs bodies. induction ps as [|a ps IH]; intros [|b qs] bodies; try discriminate.
  - reflexivity.
  - cbn [map]. intros H.
    assert (Hab : GoogleService.seen a = GoogleService.seen b) by congruence.
    assert (Hrest : map GoogleService.seen ps = map GoogleService.seen qs) by congruence.
    cbn [GoogleService.read_parts].
    rewrite (read_body_seen a b bodies Hab).
    destruct (read_body b bodies); [now apply IH | reflexivity].
Qed.

(** A part whose data is there and does not decode. *)
Lemma read_parts_fails (before after : list MessagePart) (part : MessagePart) (e : Exn)
    (bodies : string * string) :
  Forall (fun q => GoogleService.has_data q = true ->
                   exists text, urlsafe_b64decode (or_empty (part_data q)) = Ok text) before ->
  GoogleService.has_data part = true ->
  urlsafe_b64decode (or_empty (part_data part)) = Err e ->
  read_parts (before ++ part :: after) bodies = Err e.
Proof.
  intros Hbefore Hdata Herr. revert bodies.
  induction before as [|q before IH]; intros bodies; cbn [app GoogleService.read_parts].
  - unfold GoogleService.read_body. unfold GoogleService.has_data in Hdata.
    now rewrite Hdata, Herr.
  - apply Forall_cons_iff in Hbefore as [Hq Hbefore].
    assert (Hstep : exists bodies', read_body q bodies = Ok bodies').
    { unfold GoogleService.read_body. unfold GoogleService.has_data in Hq.
      destruct (Text.truthy (or_empty (part_data q))); [|eauto].
      destruct (Hq eq_refl) as [text ->].
      destruct (String.eqb _ "text/plain"); [eauto|].
      destruct (String.eqb _ "text/html"); eauto. }
    destruct Hstep as [bodies' ->]. now apply IH.
Qed.

Lemma read_parts_returns (ps : list MessagePart) (bodies : string * string) :
  Forall (fun q => GoogleService.has_data q = true ->
                   exists text, urlsafe_b64decode (or_empty (part_data q)) = Ok text) ps ->
  exists bodies', read_parts ps bodies = Ok bodies'.
Proof.
  intros Hps. revert bodies.
  induction ps as [|q ps IH]; intros bodies; cbn [GoogleService.read_parts]; [eauto|].
  apply Forall_cons_iff in Hps as [Hq Hps].
  assert (Hstep : exists bodies', read_body q bodies = Ok bodies').
  { unfold GoogleService.read_body. unfold GoogleService.has_data in Hq.
    destruct (Text.truthy (or_empty (part_data q))); [|eauto].
    destruct (Hq eq_refl) as [text ->].
    destruct (String.eqb _ "text/plain"); [eauto|].
    destruct (String.eqb _ "text/html"); eauto. }
  destruct Hstep as [bodies' ->]. now apply IH.
Qed.

(** [_parse_email] in terms of the parts it reads. *)
Lemma parse_email_run (m : GmailMessage) :
  parse m =
    match read_parts (GoogleService.top_parts m) (EmptyString, EmptyString) with
    | Err e => Err e
    | Ok (body_text, body_html) =>
        let headers := GoogleService.headers_get (GoogleService.top_headers m) in
        match msg_id m with
        | None => Err (mk_exn "KeyError" "'id'")
        | Some id =>
            Ok (id,
                {| p_thread_id := msg_threadId m;
                   p_subject := or_empty (headers "Subject");
                   p_from_email := or_empty (headers "From");
                   p_to_emails :=
                     GoogleService.addresses (split_on "," (or_empty (headers "To")));
                   p_cc_emails :=
                     GoogleService.addresses
                       (if Text.truthy_opt (headers "Cc")
                        then split_on "," (or_empty (headers "Cc")) else []);
                   p_body_text := body_text;
                   p_body_html := body_html;
                   p_received_at :=
                     if Text.truthy (or_empty (headers "Date"))
                     then parsedate_to_datetime (or_empty (headers "Date")) else None |})
        end
    end.
Proof.
  unfold GoogleService._parse_email, GoogleService.top_parts, GoogleService.top_headers,
    GoogleService.payload_of.
  set (payload := match msg_payload m with Some q => q | None => Part None None None None end).
  destruct (part_parts payload) as [ps|]; [reflexivity|].
  cbn [GoogleService.read_parts].
  now destruct (read_body payload (EmptyString, EmptyString)) as [[text html]|e].
Qed.

(** X25.  The bodies of a parsed message.  [_parse_email] reads the parts
    of the payload, or the payload itself when it has no [parts], and of
    each only the type and the data: [body_text] is the decoded data of the
    last of them that is typed [text/plain] and has data, the empty text
    when there is none, and [body_html] likewise for [text/html].  Parts
    nested in a part are never read, nor is the payload's own data when it
    has [parts]: two messages that agree on ids, headers and on type and data
    of the parts read are parsed alike.  Data that is there is decoded
    whatever the type of its part, so the first part whose data does not
    decode makes the parse raise; when all decode, the parse returns for a
    message with an id and raises [KeyError] for one without. *)
Theorem parse_email_bodies (m : GmailMessage) :
  let top := GoogleService.top_parts m in
  let decodes := fun q => GoogleService.has_data q = true ->
                          exists text, urlsafe_b64decode (or_empty (part_data q)) = Ok text in
  (forall id p, parse m = Ok (id, p) ->
     match find (GoogleService.holds_type "text/plain") (rev top) with
     | Some part => urlsafe_b64decode (or_empty (part_data part)) = Ok (p_body_text p)
     | None => p_body_text p = EmptyString
     end /\
     match find (GoogleService.holds_type "text/html") (rev top) with
     | Some part => urlsafe_b64decode (or_empty (part_data part)) = Ok (p_body_html p)
     | None => p_body_html p = EmptyString
     end /\
     Forall decodes top) /\
  (forall m',
     msg_id m' = msg_id m -> msg_threadId m' = msg_threadId m ->
     GoogleService.top_headers m' = GoogleService.top_headers m ->
     map GoogleService.seen (GoogleService.top_parts m') = map GoogleService.seen top ->
     parse m' = parse m) /\
  (forall before part after e,
     top = (before ++ part :: after)%list -> Forall decodes before ->
     GoogleService.has_data part = true ->
     urlsafe_b64decode (or_empty (part_data part)) = Err e ->
     parse m = Err e) /\
  (Forall decodes top ->
     (msg_id m = None -> parse m = Err (mk_exn "KeyError" "'id'")) /\
     (forall id, msg_id m = Some id -> exists p, parse m = Ok (id, p))).
Proof.
  intros top decodes. split; [|split; [|split]].
  - intros id p Hparse. pose proof Hparse as Hrun.
    apply parse_email_ok in Hparse as (_ & Hread & _). fold top in Hread.
    pose proof (read_parts_ok _ _ _ _ _ Hread) as [Hplain Hhtml].
    split; [exact Hplain|]. split; [exact Hhtml|].
    apply List.Forall_forall. intros q Hq Hdata.
    destruct (urlsafe_b64decode (or_empty (part_data q))) as [text|e] eqn:E; [eauto|].
    assert (Hfail : forall l b, In q l -> exists e', read_parts l b = Err e').
    { clear - Hdata E. induction l as [|x l IH]; intros b Hin; [contradiction|].
      cbn [GoogleService.read_parts].
      destruct (read_body x b) as [b'|e'] eqn:Ex; [|eauto].
      destruct Hin as [->|Hin]; [|now apply IH].
      unfold GoogleService.read_body in Ex. unfold GoogleService.has_data in Hdata.
      rewrite Hdata, E in Ex. discriminate. }
    destruct (Hfail top (EmptyString, EmptyString) Hq) as [e' He']. congruence.
  - intros m' Hid Hthread Hheaders Hparts.
    rewrite !parse_email_run, Hid, Hthread, Hheaders.
    now rewrite (read_parts_seen _ _ _ Hparts).
  - intros before part after e Htop Hbefore Hdata Herr.
    rewrite parse_email_run. fold top. rewrite Htop.
    now rewrite (read_parts_fails before after part e _ Hbefore Hdata Herr).
  - intros Hall.
    destruct (read_parts_returns top (EmptyString, EmptyString) Hall) as [[text html] Hread].
    split.
    + intros Hnone. rewrite parse_email_run. fold top. now rewrite Hread, Hnone.
    + intros id Hid. rewrite parse_email_run. fold top. rewrite Hread, Hid. eauto.
Qed.

End ParseEmail.

Lemma parse_email_recipients_witness :
  exists p,
    GoogleService._parse_email Cases.decode Cases.parsedate Cases.with_attachment =
      Ok ("m1", p) /\
    p_to_emails p = ["Doe"; "John <john@x.com>"; "bob@x.com"] /\
    p_cc_emails p = [] /\
    p_received_at p = Some 1793696400.
Proof.
  destruct (GoogleService._parse_email Cases.decode Cases.parsedate Cases.with_attachment)
    as [[id p]|e] eqn:E; [|vm_compute in E; discriminate].
  pose proof (parse_email_recipients Cases.decode Cases.parsedate Cases.with_attachment id p E)
    as H.
  cbv zeta in H. destruct H as (Hid & _ & _ & Hto & _ & _ & _ & _ & Hcc & _).
  injection Hid as <-. exists p. split; [reflexivity|]. split; [rewrite Hto; reflexivity|].
  split.
  - apply Hcc. repeat constructor; discriminate.
  - apply (f_equal (fun r => match r with Ok (_, q) => p_received_at q | Err _ => None end))
      in E.
    rewrite <- E. reflexivity.
Defined.

Lemma parse_email_bodies_witness :
  (exists p,
     GoogleService._parse_email Cases.decode Cases.parsedate Cases.with_attachment =
       Ok ("m1", p) /\
     p_body_text p = EmptyString /\ p_body_html p = EmptyString) /\
  GoogleService._parse_email Cases.decode Cases.parsedate Cases.with_picture =
    Err Cases.bad_padding.
Proof.
  pose proof (parse_email_bodies Cases.decode Cases.parsedate Cases.with_attachment) as H.
  cbv zeta in H. destruct H as (Hbodies & _ & _ & Hreturns).
  pose proof (parse_email_bodies Cases.decode Cases.parsedate Cases.with_picture) as H.
  cbv zeta in H. destruct H as (_ & _ & Hfails & _).
  split.
  - destruct Hreturns as [_ Hid].
    { repeat constructor; discriminate. }
    destruct (Hid "m1" eq_refl) as [p Hp]. exists p. split; [exact Hp|].
    destruct (Hbodies "m1" p Hp) as (Hplain & Hhtml & _). split; [exact Hplain | exact Hhtml].
  - apply (Hfails [Part (Some "text/plain") None (Some "SGVsbG8=") None]
                  (Part (Some "image/png") None (Some "iVBORw") None) []);
      [reflexivity | | reflexivity | reflexivity].
    repeat constructor. intros _. now exists "Hello".
Defined.

(** * The status of the integrations *)

Lemma syncing_flag_is_syncing (ss : gmap Z (gmap string SyncEntry)) (user : Z)
    (source : string) :
  IntegrationsRouter.syncing_flag ss user source = is_syncing ss user source.
Proof.
  unfold IntegrationsRouter.syncing_flag, is_syncing.
  destruct (ss !! user); [reflexivity | now rewrite lookup_empty].
Qed.

(** Counting the rows of a user, on the keys. *)
Lemma count_by_key (user : Z) (l : list Email) :
  List.length (List.filter (fun e => email_user_id e =? user) l) =
  List.length (List.filter (fun k => fst k =? user) (map email_key l)).
Proof.
  induction l as [|e l IH]; [reflexivity|]. cbn [List.filter map email_key fst].
  destruct (email_user_id e =? user); cbn [List.length]; now rewrite IH.
Qed.

Lemma count_all (user : Z) (keys : list (Z * string)) :
  Forall (fun k => fst k = user) keys ->
  List.length (List.filter (fun k => fst k =? user) keys) = List.length keys.
Proof.
  induction keys as [|k keys IH]; intros H; [reflexivity|].
  apply Forall_cons_iff in H as [Hk H]. cbn [List.filter].
  destruct (Z.eqb_spec (fst k) user); [|contradiction]. cbn [List.length]. now rewrite IH.
Qed.

Section Status.

Variable env : Env.
Variable verify_token : string -> option (option Z).
Variable google_email : User -> option string.
Variable hubspot_name : User -> option string.

#[local] Abbreviation status :=
  (IntegrationsRouter.get_integration_status verify_token google_email hubspot_name).

(** The user of a request is a row found under its id, and is the same in
    every world with the same users. *)
Lemma current_user_found (authorization : option string) (s : Site) (user : User) :
  ChatRouter.get_current_user verify_token authorization s = (Ret (Reply user), s) ->
  find_user (user_id user) (db (site_world s)) = Some user /\
  forall s', users (db (site_world s')) = users (db (site_world s)) ->
    ChatRouter.get_current_user verify_token authorization s' = (Ret (Reply user), s').
Proof.
  unfold ChatRouter.get_current_user, refuse, reply.
  destruct (negb (Text.truthy_opt authorization)); [discriminate|].
  destruct (negb (Text.starts_with "Bearer " (or_empty authorization))); [discriminate|].
  destruct (nth_error (split_on " " (or_empty authorization)) 1) as [token|]; [|discriminate].
  destruct (verify_token token) as [[id|]|]; try discriminate.
  destruct (find_user id (db (site_world s))) as [u|] eqn:Eu; [|discriminate].
  intros [= ->]. rewrite (find_user_id _ _ _ Eu). split; [exact Eu|].
  intros s' Husers. unfold find_user in *. now rewrite Husers, Eu.
Qed.

Lemma status_run (authorization : option string) (s : Site) (user : User) :
  ChatRouter.get_current_user verify_token authorization s = (Ret (Reply user), s) ->
  exists st,
    status authorization s = (Ret (Reply st), s) /\
    g_connected (status_google st) = Text.truthy_opt (google_access_token user) /\
    h_connected (status_hubspot st) = Text.truthy_opt (hubspot_access_token user) /\
    g_email_count (status_google st) =
      Z.of_nat (List.length (List.filter (fun k => fst k =? user_id user)
                               (map email_key (emails (db (site_world s)))))) /\
    g_syncing (status_google st) =
      is_syncing (sync_status (site_world s)) (user_id user) "gmail" /\
    h_syncing (status_hubspot st) =
      is_syncing (sync_status (site_world s)) (user_id user) "hubspot".
Proof.
  intros Hauth. eexists. split.
  { unfold IntegrationsRouter.get_integration_status, and_then. rewrite Hauth. reflexivity. }
  cbn [status_google status_hubspot g_connected h_connected g_email_count g_syncing h_syncing].
  rewrite count_by_key, !syncing_flag_is_syncing. repeat split.
Qed.

(** X26.  What [GET /status] tells of a Gmail sync.  The endpoint changes
    nothing.  It reports Google as connected exactly when [POST /sync/gmail]
    accepts the user (a token that is the empty text is not connected).
    Once [POST /sync/gmail] has answered, the status of the same user shows
    [syncing] for Google, with the count of emails as before; once the
    background task has run to its end, however it ended, [syncing] is off
    again, and when the task recorded an [imported_count] the count of
    emails has grown by exactly that number. *)
Theorem status_follows_sync (fuel : nat) (authorization : option string) (s : Site)
    (user : User) :
  ChatRouter.get_current_user verify_token authorization s = (Ret (Reply user), s) ->
  exists st,
    status authorization s = (Ret (Reply st), s) /\
    (g_connected (status_google st) = true <->
     exists message w1, sync_gmail env user (site_world s) = (Ret message, w1)) /\
    (g_connected (status_google st) = false <->
     sync_gmail env user (site_world s) =
       (Raise (mk_exn "HTTPException" "Google not connected"), site_world s)) /\
    (forall message w1,
       sync_gmail env user (site_world s) = (Ret message, w1) ->
       exists st1,
         status authorization (with_world w1 s) = (Ret (Reply st1), with_world w1 s) /\
         g_syncing (status_google st1) = true /\
         g_email_count (status_google st1) = g_email_count (status_google st)) /\
    (forall message w2,
       post_sync_gmail env fuel user (site_world s) = (Ret message, w2) ->
       exists st2,
         status authorization (with_world w2 s) = (Ret (Reply st2), with_world w2 s) /\
         g_syncing (status_google st2) = false /\
         g_email_count (status_google st) <= g_email_count (status_google st2) /\
         forall n,
           option_map imported_count
             (sync_entry (sync_status w2) (user_id user) "gmail") = Some (Some n) ->
           g_email_count (status_google st2) = g_email_count (status_google st) + n).
Proof.
  intros Hauth. destruct (current_user_found _ _ _ Hauth) as [Hfound Hstable].
  destruct (status_run _ _ _ Hauth) as (st & Hst & Hconn & _ & Hcount & _).
  exists st. split; [exact Hst|].
  assert (Hstart : forall message w1,
            sync_gmail env user (site_world s) = (Ret message, w1) ->
            Text.truthy_opt (google_access_token user) = true /\
            db w1 = db (site_world s) /\
            sync_entry (sync_status w1) (user_id user) "gmail" =
              Some (started_entry env (clock (site_world s)))).
  { intros message w1. unfold sync_gmail.
    destruct (Text.truthy_opt (google_access_token user)); [|discriminate].
    cbn [negb]. unfold bind.
    destruct (mark_started_run env (user_id user) "gmail" (site_world s)) as (ss & -> & Hentry).
    cbn [ret]. intros [= _ <-]. split; [reflexivity|]. split; [reflexivity|]. exact Hentry. }
  split; [|split; [|split]].
  - rewrite Hconn. split.
    + intros Ht. unfold sync_gmail. rewrite Ht. cbn [negb]. unfold bind.
      destruct (mark_started_run env (user_id user) "gmail" (site_world s)) as (ss & -> & _).
      cbn [ret]. eauto.
    + intros (message & w1 & Hrun). now apply Hstart in Hrun.
  - rewrite Hconn. unfold sync_gmail.
    destruct (Text.truthy_opt (google_access_token user)); cbn [negb].
    + split; [discriminate|]. unfold bind.
      destruct (mark_started_run env (user_id user) "gmail" (site_world s)) as (ss & -> & _).
      discriminate.
    + split; reflexivity.
  - intros message w1 Hrun. apply Hstart in Hrun as (_ & Hdb & Hentry).
    destruct (status_run authorization (with_world w1 s) user) as (st1 & Hst1 & _ & _ & Hc1 & Hs1 & _).
    { apply Hstable. cbn [site_world with_world]. now rewrite Hdb. }
    exists st1. split; [exact Hst1|]. cbn [site_world with_world] in Hc1, Hs1. split.
    + rewrite Hs1, is_syncing_entry, Hentry. reflexivity.
    + now rewrite Hc1, Hcount, Hdb.
  - intros message w2 Hpost. unfold post_sync_gmail in Hpost.
    apply bind_ret_inv in Hpost as (message' & w1 & Hrun & Hpost).
    apply bind_ret_inv in Hpost as ([] & w2' & Hbg & Hret). injection Hret as _ ->.
    apply Hstart in Hrun as (Ht & Hdb & Hentry).
    assert (Hu1 : find_user (user_id user) (db w1) = Some user) by now rewrite Hdb.
    rewrite (sync_gmail_background_run env fuel (user_id user) user w1 Hu1 Ht) in Hbg.
    pose proof (preserves_gmail_pages env fuel user (or_empty (google_access_token user))
                  None 0 w1) as Hp.
    destruct (gmail_pages env fuel user (or_empty (google_access_token user)) None 0 w1)
      as [[n|e|] w3] eqn:Eloop; cbn [snd] in Hp; [| |discriminate].
    + destruct (mark_completed_run env (user_id user) "gmail" n w3
                  (started_entry env (clock (site_world s)))) as (ss & Hmark & Hdone).
      { now rewrite (ev_sync _ _ Hp). }
      rewrite Hmark in Hbg. injection Hbg as <-.
      apply gmail_pages_keys in Eloop as (new & Hkeys & Hlen & Hall).
      destruct (status_run authorization (with_world (with_sync_status ss w3) s) user)
        as (st2 & Hst2 & _ & _ & Hc2 & Hs2 & _).
      { apply Hstable. cbn [site_world with_world with_sync_status db].
        now rewrite (ev_users _ _ Hp), Hdb. }
      exists st2. split; [exact Hst2|].
      cbn [site_world with_world with_sync_status db sync_status] in Hc2, Hs2.
      assert (Hgrow : g_email_count (status_google st2) =
                      g_email_count (status_google st) + n).
      { rewrite Hc2, Hcount, Hkeys, Hdb, List.filter_app, length_app, (count_all _ new Hall). lia. }
      split; [rewrite Hs2, is_syncing_entry, Hdone; reflexivity|].
      split; [lia|].
      intros n'. cbn [with_sync_status sync_status]. rewrite Hdone. cbn. intros [= <-].
      exact Hgrow.
    + destruct (mark_failed_run env (user_id user) "gmail" e w3
                  (started_entry env (clock (site_world s)))) as (ss & Hmark & Hdone).
      { now rewrite (ev_sync _ _ Hp). }
      rewrite Hmark in Hbg. injection Hbg as <-.
      destruct (status_run authorization (with_world (with_sync_status ss w3) s) user)
        as (st2 & Hst2 & _ & _ & Hc2 & Hs2 & _).
      { apply Hstable. cbn [site_world with_world with_sync_status db].
        now rewrite (ev_users _ _ Hp), Hdb. }
      exists st2. split; [exact Hst2|].
      cbn [site_world with_world with_sync_status db sync_status] in Hc2, Hs2.
      split; [rewrite Hs2, is_syncing_entry, Hdone; reflexivity|].
      split.
      * destruct (ev_emails _ _ Hp) as [new Hkeys].
        rewrite Hc2, Hcount, Hkeys, Hdb, List.filter_app, length_app. lia.
      * intros n'. cbn [with_sync_status sync_status]. rewrite Hdone. cbn. discriminate.
Qed.

End Status.

Lemma status_follows_sync_witness :
  exists st w2 st2,
    IntegrationsRouter.get_integration_status Cases.session (fun _ => None) (fun _ => None)
      (Some "Bearer advisor-token") Cases.site = (Ret (Reply st), Cases.site) /\
    post_sync_gmail Demo.env 5 Demo.advisor (site_world Cases.site) =
      (Ret "Gmail sync started", w2) /\
    IntegrationsRouter.get_integration_status Cases.session (fun _ => None) (fun _ => None)
      (Some "Bearer advisor-token") (with_world w2 Cases.site) =
      (Ret (Reply st2), with_world w2 Cases.site) /\
    g_syncing (status_google st2) = false /\
    g_email_count (status_google st) <= g_email_count (status_google st2).
Proof.
  destruct (status_follows_sync Demo.env Cases.session (fun _ => None) (fun _ => None) 5
              (Some "Bearer advisor-token") Cases.site Demo.advisor eq_refl)
    as (st & Hst & _ & _ & _ & Hafter).
  destruct (post_sync_gmail Demo.env 5 Demo.advisor (site_world Cases.site))
    as [outcome w2] eqn:Erun.
  assert (Hout : outcome = Ret "Gmail sync started").
  { apply (f_equal fst) in Erun. cbn [fst] in Erun. rewrite <- Erun. vm_compute. reflexivity. }
  subst outcome.
  destruct (Hafter _ _ eq_refl) as (st2 & Hst2 & Hoff & Hle & _).
  exists st, w2, st2. split; [exact Hst|]. split; [reflexivity|].
  split; [exact Hst2|]. split; [exact Hoff | exact Hle].
Defined.

(** * The tools of a turn and the session of the request *)

Section Quiet.

Lemma quiet_ret {A : Type} (a : A) : quiet (ret a).
Proof. intros w. reflexivity. Qed.

Lemma quiet_raise {A : Type} (e : Exn) : quiet (@raise A e).
Proof. intros w. reflexivity. Qed.

Lemma quiet_lift {A : Type} (r : Res A) : quiet (lift r).
Proof. destruct r; [apply quiet_ret | apply quiet_raise]. Qed.

Lemma quiet_emit (ev : Event) : quiet (emit ev).
Proof. intros w. reflexivity. Qed.

Lemma quiet_bind {A B : Type} (m : M A) (k : A -> M B) :
  quiet m -> (forall a, quiet (k a)) -> quiet (bind m k).
Proof.
  intros Hm Hk w. unfold bind. specialize (Hm w).
  destruct (m w) as [[a|e|] w1]; cbn [snd] in *; [|exact Hm|exact Hm].
  now rewrite Hk.
Qed.

Lemma quiet_try_except {A : Type} (m : M A) (h : Exn -> M A) :
  quiet m -> (forall e, quiet (h e)) -> quiet (try_except m h).
Proof.
  intros Hm Hh w. unfold try_except. specialize (Hm w).
  destruct (m w) as [[a|e|] w1]; cbn [snd] in *; [exact Hm| |exact Hm].
  now rewrite Hh.
Qed.

End Quiet.

Create HintDb silence.
#[export] Hint Resolve quiet_ret quiet_raise quiet_lift quiet_emit : silence.

Ltac quiet_step :=
  match goal with
  | |- quiet (bind _ _) => apply quiet_bind; [|intros]
  | |- quiet (try_except _ _) => apply quiet_try_except; [|intros]
  | |- quiet (if ?c then _ else _) => destruct c
  | |- quiet (match ?x with _ => _ end) => destruct x
  end.

Ltac hush := repeat (first [ solve [auto with silence] | quiet_step ]).

Lemma quiet_call_provider (env : Env) (token : string) (c : ProviderCall) :
  quiet (call_provider env token c).
Proof. unfold call_provider. hush. Qed.

#[export] Hint Resolve quiet_call_provider : silence.

Lemma uses_session_names (tc : ToolCall) :
  uses_session tc = false ->
  String.eqb (function_name tc) "search_emails_and_contacts" = false /\
  String.eqb (function_name tc) "create_task" = false /\
  String.eqb (function_name tc) "create_ongoing_instruction" = false.
Proof.
  unfold uses_session, session_tools. cbn [existsb].
  rewrite !orb_false_iff. tauto.
Qed.

(** A tool that does not use the session leaves the tables as they are. *)
Lemma execute_tool_outside (env : Env) (agent : Agent) (tc : ToolCall) :
  uses_session tc = false -> quiet (_execute_tool env agent tc).
Proof.
  intros H. apply uses_session_names in H as (H1 & H2 & H3).
  unfold _execute_tool. apply quiet_bind; [auto with silence | intros args].
  apply quiet_try_except; [|auto with silence].
  unfold dispatch. rewrite H1, H2, H3. hush.
Qed.

Section Round.

Variable env : Env.
Variable agent : Agent.

(** The calls of a round that come before a given one, when they parse and
    none of them uses the session: the round comes to that call, with the
    tables as they were. *)
Lemma round_before (before : list ToolCall) (messages : list Message) (w : World) :
  (forall c, In c before ->
     uses_session c = false /\
     exists a, json_loads env (function_arguments c) = Ok a) ->
  exists msgs,
    run_tool_calls env agent before messages w =
      (Ret msgs, snd (run_tool_calls env agent before messages w)) /\
    db (snd (run_tool_calls env agent before messages w)) = db w.
Proof.
  intros H.
  assert (Hdb : db (snd (run_tool_calls env agent before messages w)) = db w).
  { unfold run_tool_calls. revert messages w.
    induction before as [|c before IH]; intros messages w; cbn [for_each]; [reflexivity|].
    destruct (H c (or_introl eq_refl)) as [Hc _].
    pose proof (execute_tool_outside env agent c Hc w) as Hq.
    unfold bind at 1. unfold bind at 1.
    destruct (_execute_tool env agent c w) as [[payload|e|] w1]; cbn [snd ret] in *;
      try exact Hq.
    rewrite IH; [exact Hq | intros; apply H; now right]. }
  destruct (run_tool_calls_returns env agent before messages w) as (msgs & w1 & Hrun).
  { intros c Hc. now apply H. }
  exists msgs. split; [|exact Hdb]. rewrite Hrun. reflexivity.
Qed.

(** What a turn makes of a call of its round, once the round has come to
    it: the rest of the turn only appends rows and calls the outside. *)
Lemma round_after (message : string) (history : list (string * string)) (w : World)
    (am : AssistantMessage) (before after : list ToolCall) (tc : ToolCall)
    (payload : json) (w2 : World) :
  let messages := chat_messages env agent message history w in
  let started := logged (EvChat (first_request messages)) w in
  let reached :=
    snd (run_tool_calls env agent before (messages ++ [MsgAssistant am])%list started) in
  chat_completions_create env (first_request messages) = Ok am ->
  tool_calls am = (before ++ tc :: after)%list ->
  (forall c, In c before -> exists a, json_loads env (function_arguments c) = Ok a) ->
  _execute_tool env agent tc reached = (Ret payload, w2) ->
  steady (user_id (agent_user agent)) w2 (snd (chat env agent message history w)).
Proof.
  intros messages started reached Ham Hcalls Hparse Htool.
  rewrite chat_run. fold messages.
  rewrite (try_except_ret_world _ error_result).
  destruct (run_tool_calls_returns env agent before (messages ++ [MsgAssistant am])%list
              started Hparse) as (msgs1 & w1 & Hrun).
  assert (Hreached : reached = w1) by (unfold reached; now rewrite Hrun).
  rewrite Hreached in Htool.
  unfold chat_body. unfold bind at 1. cbn [emit]. fold started.
  unfold bind at 1. rewrite Ham. cbn [lift ret].
  destruct (tool_calls am) as [|c0 l0]; [destruct before; discriminate|].
  rewrite Hcalls.
  set (tail := fun msgs : list Message =>
         emit (EvChat (final_request msgs)) ;;;
         final_response <- lift (chat_completions_create env (final_request msgs)) ;;
         ret {| response := content final_response; chat_error := None |}).
  change (steady (user_id (agent_user agent)) w2
            (snd (bind (run_tool_calls env agent (before ++ tc :: after)
                          (messages ++ [MsgAssistant am])%list) tail started))).
  unfold run_tool_calls in *. unfold bind at 1. rewrite for_each_app.
  unfold bind at 1. rewrite Hrun. cbn [for_each]. unfold bind at 1. unfold bind at 1.
  rewrite Htool. cbn [ret].
  set (rest := for_each after
                 (fun (tool_call : ToolCall) (msgs : list Message) =>
                    result <- _execute_tool env agent tool_call ;;
                    ret (msgs ++ [MsgTool (tool_call_id tool_call)
                                    (json_dumps env None result)])%list)
                 (msgs1 ++ [MsgTool (tool_call_id tc) (json_dumps env None payload)])%list).
  assert (Hkeeps : keeps (user_id (agent_user agent)) (bind rest tail)).
  { unfold rest, tail. keep. }
  specialize (Hkeeps w2). unfold bind in Hkeeps.
  destruct (rest w2) as [[msgs|e|] w3]; exact Hkeeps.
Qed.

End Round.





(** ** A task and its reader *)

Lemma find_task_absent (id user : Z) (rows : list Task) :
  ~ In id (map task_id rows) ->
  find (fun r => (task_id r =? id) && (task_user_id r =? user)) rows = None.
Proof.
  induction rows as [|r rows IH]; intros H; [reflexivity|]. cbn [find].
  cbn [map In] in H. destruct (Z.eqb_spec (task_id r) id) as [E|_]; [tauto|].
  cbn [andb]. apply IH. tauto.
Qed.

(** In a table with distinct keys a row is found under its key by its user,
    and by nobody else. *)
Lemma find_task_by_key (user : Z) (old later : list Task) (row : Task) :
  List.NoDup (map task_id (old ++ row :: later)) ->
  find (fun r => (task_id r =? task_id row) && (task_user_id r =? user))
    (old ++ row :: later) =
    if task_user_id row =? user then Some row else None.
Proof.
  rewrite map_app. cbn [map]. intros Hkeys.
  apply List.NoDup_remove_2 in Hkeys.
  assert (Hold : ~ In (task_id row) (map task_id old))
    by (intros H; apply Hkeys, in_or_app; now left).
  assert (Hlater : ~ In (task_id row) (map task_id later))
    by (intros H; apply Hkeys, in_or_app; now right).
  clear Hkeys. induction old as [|r old IH]; cbn [app find].
  - rewrite Z.eqb_refl. cbn [andb].
    destruct (task_user_id row =? user); [reflexivity|].
    now apply find_task_absent.
  - cbn [map In] in Hold. destruct (Z.eqb_spec (task_id r) (task_id row)) as [E|_]; [tauto|].
    cbn [andb]. apply IH. tauto.
Qed.

Section TaskRoundTrip.

Variable env : Env.
Variable verify_token : string -> option (option Z).


End TaskRoundTrip.


(** ** The chat endpoint *)

(** A round none of whose calls uses the session leaves the tables as they
    are, however it ends. *)
Lemma quiet_round (env : Env) (agent : Agent) (calls : list ToolCall)
    (messages : list Message) :
  Forall (fun c => uses_session c = false) calls ->
  quiet (run_tool_calls env agent calls messages).
Proof.
  unfold run_tool_calls. revert messages.
  induction calls as [|c calls IH]; intros messages H; cbn [for_each].
  - apply quiet_ret.
  - apply Forall_cons_iff in H as [Hc H].
    apply quiet_bind; [|intros; now apply IH].
    apply quiet_bind; [now apply execute_tool_outside | intros; apply quiet_ret].
Qed.

Lemma quiet_turn (env : Env) (agent : Agent) (message : string)
    (history : list (string * string)) (w : World) :
  (forall am,
     chat_completions_create env (first_request (chat_messages env agent message history w)) =
       Ok am ->
     Forall (fun c => uses_session c = false) (tool_calls am)) ->
  db (snd (chat env agent message history w)) = db w.
Proof.
  intros H. rewrite chat_run. rewrite (try_except_ret_world _ error_result).
  set (messages := chat_messages env agent message history w) in *.
  unfold chat_body. unfold bind at 1. cbn [emit]. unfold bind at 1.
  destruct (chat_completions_create env (first_request messages)) as [am|e] eqn:Eam;
    cbn [lift ret raise]; [|reflexivity].
  destruct (tool_calls am) as [|c calls] eqn:Ecalls; [reflexivity|].
  specialize (H am eq_refl). rewrite Ecalls in H.
  assert (Hq : quiet (messages0 <- run_tool_calls env agent (c :: calls)
                                     (messages ++ [MsgAssistant am])%list ;;
                      emit (EvChat (final_request messages0)) ;;;
                      final_response <-
                        lift (chat_completions_create env (final_request messages0)) ;;
                      ret {| response := content final_response; chat_error := None |})).
  { apply quiet_bind; [now apply quiet_round | intros; hush]. }
  exact (Hq (logged (EvChat (first_request messages)) w)).
Qed.

Section ChatTurn.

Variable env : Env.
Variable verify_token : string -> option (option Z).


End ChatTurn.

(** * Uniqueness of the external identifiers over all users *)

(** ** The pages a run has been through *)

Lemma gmail_pages_reach (env : Env) (u : User) (token : string) (k : nat)
    (s0 s : option string * Z * World) :
  gmail_reaches env u token k s0 s ->
  forall fuel,
    gmail_pages env (k + fuel) u token (fst (fst s0)) (snd (fst s0)) (snd s0) =
    gmail_pages env fuel u token (fst (fst s)) (snd (fst s)) (snd s).
Proof.
  induction 1 as [s | k page n n' w w' result s' Hlist Hfor Hnext Hreach IH]; intros fuel.
  - reflexivity.
  - cbn [Nat.add gmail_pages fst snd]. unfold bind at 1. cbn [emit].
    unfold bind at 1. rewrite Hlist. cbn [lift ret]. unfold bind at 1.
    rewrite Hfor, Hnext. apply IH.
Qed.

Lemma hubspot_pages_reach (env : Env) (user : Z) (token : string) (k : nat)
    (s0 s : option string * (Z * gmap Z Contact) * World) :
  hubspot_reaches env user token k s0 s ->
  forall fuel,
    hubspot_pages env (k + fuel) user token (fst (fst s0)) (snd (fst s0)) (snd s0) =
    hubspot_pages env fuel user token (fst (fst s)) (snd (fst s)) (snd s).
Proof.
  induction 1 as [s | k after st st' w w' result s' Hlist Hfor Hnext Hreach IH]; intros fuel.
  - reflexivity.
  - cbn [Nat.add hubspot_pages fst snd]. unfold bind at 1. cbn [emit].
    unfold bind at 1. rewrite Hlist. cbn [lift ret]. unfold bind at 1.
    rewrite Hfor, Hnext. apply IH.
Qed.

(** An exception in the middle of a page ends the loop there. *)
Lemma gmail_page_stops (env : Env) (u : User) (token : string) (fuel : nat)
    (page : option string) (n n1 : Z) (wp w1 w2 : World) (before after : list string)
    (gid : string) (next : option string) (e : Exn) :
  gmail_list_emails env token page None =
    Ok {| page_messages := (before ++ gid :: after)%list; next_page_token := next |} ->
  for_each before (import_message env u token) n (logged (EvListEmails token page None) wp) =
    (Ret n1, w1) ->
  import_message env u token gid n1 w1 = (Raise e, w2) ->
  gmail_pages env (S fuel) u token page n wp = (Raise e, w2).
Proof.
  intros Hlist Hfor Himp. cbn [gmail_pages]. unfold bind at 1. cbn [emit].
  unfold bind at 1. rewrite Hlist. cbn [lift ret page_messages]. unfold bind at 1.
  rewrite for_each_app. unfold bind at 1. rewrite Hfor.
  cbn [for_each]. unfold bind at 1. now rewrite Himp.
Qed.

Lemma hubspot_page_stops (env : Env) (user : Z) (token : string) (fuel : nat)
    (after : option string) (st st1 : Z * gmap Z Contact) (wp w1 w2 : World)
    (before rest : list ContactData) (data : ContactData) (next : option string)
    (e : Exn) :
  hubspot_list_all_contacts env token after =
    Ok {| page_results := (before ++ data :: rest)%list; paging_next_after := next |} ->
  for_each before (import_contact env user token) st (logged (EvListContacts token after) wp) =
    (Ret st1, w1) ->
  import_contact env user token data st1 w1 = (Raise e, w2) ->
  hubspot_pages env (S fuel) user token after st wp = (Raise e, w2).
Proof.
  intros Hlist Hfor Himp. cbn [hubspot_pages]. unfold bind at 1. cbn [emit].
  unfold bind at 1. rewrite Hlist. cbn [lift ret page_results]. unfold bind at 1.
  rewrite for_each_app. unfold bind at 1. rewrite Hfor.
  cbn [for_each]. unfold bind at 1. now rewrite Himp.
Qed.

Lemma import_contact_taken (env : Env) (user : Z) (token : string) (data : ContactData)
    (st : Z * gmap Z Contact) (w : World) (other : Contact)
    (notes_data : list (option string)) (bodies : list string) :
  find_contact user (cd_id data) (db w) = None ->
  In other (contacts (db w)) -> hubspot_id other = cd_id data ->
  hubspot_get_contact_notes env token (cd_id data) = Ok notes_data ->
  join_notes notes_data = Ok bodies ->
  import_contact env user token data st w =
  (Raise hubspot_id_taken, logged (EvGetContactNotes token (cd_id data)) w).
Proof.
  intros Hnone Hin Hid Hnotes Hjoin. destruct st as [n dirty].
  unfold import_contact. unfold bind at 1. cbn [get_world]. rewrite Hnone.
  unfold bind at 1. cbn [emit]. unfold bind at 1. rewrite Hnotes. cbn [lift ret].
  unfold bind at 1. rewrite Hjoin. cbn [lift ret]. unfold bind at 1.
  now rewrite (add_contact_taken dirty user data _ _ other) by assumption.
Qed.

Lemma find_email_other (user : Z) (gid : string) (d : DB) (other : Email) :
  find_email user gid d = None -> In other (emails d) -> gmail_id other = gid ->
  email_user_id other <> user.
Proof.
  intros Hnone Hin Hg Heq.
  assert (Hk : In (user, gid) (map email_key (emails d))).
  { apply in_map_iff. exists other. split; [|exact Hin]. unfold email_key. now rewrite Heq, Hg. }
  apply find_email_present in Hk as [row Hrow]. congruence.
Qed.

Lemma find_contact_other (user : Z) (hid : string) (d : DB) (other : Contact) :
  find_contact user hid d = None -> In other (contacts d) -> hubspot_id other = hid ->
  contact_user_id other <> user.
Proof.
  intros Hnone Hin Hg Heq.
  assert (Hk : In (user, hid) (map contact_key (contacts d))).
  { apply in_map_iff. exists other. split; [|exact Hin]. unfold contact_key. now rewrite Heq, Hg. }
  apply find_contact_present in Hk as [row Hrow]. congruence.
Qed.

(** A Gmail run that comes, after [k] pages, to a message that another
    user's row holds and no row of this user. *)
Lemma gmail_run_aborts (env : Env) (fuel k : nat) (user : Z) (u : User) (w : World)
    (page : option string) (n n1 : Z) (wp w1 : World) (before after : list string)
    (gid : string) (next : option string) (other : Email) (parsed : ParsedEmail) :
  find_user user (db w) = Some u ->
  Text.truthy_opt (google_access_token u) = true ->
  let token := or_empty (google_access_token u) in
  gmail_reaches env u token k (None, 0, w) (page, n, wp) ->
  gmail_list_emails env token page None =
    Ok {| page_messages := (before ++ gid :: after)%list; next_page_token := next |} ->
  for_each before (import_message env u token) n (logged (EvListEmails token page None) wp) =
    (Ret n1, w1) ->
  find_email user gid (db w1) = None ->
  In other (emails (db w1)) -> gmail_id other = gid ->
  gmail_get_email env token gid = Ok parsed ->
  exists w',
    sync_gmail_background env (k + S fuel) user w = (Ret tt, w') /\
    db w' = db w1 /\
    trace w' = (trace w1 ++ [EvGetEmail token gid])%list /\
    is_syncing (sync_status w') user "gmail" = false /\
    forall e0, sync_entry (sync_status w) user "gmail" = Some e0 ->
      sync_entry (sync_status w') user "gmail" =
        Some (failed_entry env (clock w) gmail_id_taken e0).
Proof.
  intros Hu Ht token Hreach Hlist Hfor Hnone Hin Hg Hget.
  pose proof (find_user_id _ _ _ Hu) as Hid.
  assert (Hloop : gmail_pages env (k + S fuel) u token None 0 w =
                  (Raise gmail_id_taken, logged (EvGetEmail token gid) w1)).
  { pose proof (gmail_pages_reach env u token k _ _ Hreach (S fuel)) as Hr.
    cbn [fst snd] in Hr. rewrite Hr.
    eapply gmail_page_stops; [exact Hlist | exact Hfor |].
    apply import_message_taken with (other := other) (parsed := parsed);
      try assumption. now rewrite Hid. }
  destruct (gmail_run_ends env (k + S fuel) user u w Hu Ht)
    as (w' & Hrun & Hflag & Hdb & Htr & _ & He).
  { fold token. rewrite Hloop. discriminate. }
  fold token in Hdb, Htr, He. rewrite Hloop in Hdb, Htr, He. cbn [fst snd] in *.
  exists w'. split; [exact Hrun|]. split; [exact Hdb|].
  split; [exact Htr|]. split; [exact Hflag | exact He].
Qed.

Lemma hubspot_run_aborts (env : Env) (fuel k : nat) (user : Z) (u : User) (w : World)
    (after : option string) (st st1 : Z * gmap Z Contact) (wp w1 : World)
    (before rest : list ContactData) (data : ContactData) (next : option string)
    (other : Contact) (notes_data : list (option string)) (bodies : list string) :
  find_user user (db w) = Some u ->
  Text.truthy_opt (hubspot_access_token u) = true ->
  let token := or_empty (hubspot_access_token u) in
  hubspot_reaches env user token k (None, (0, ∅), w) (after, st, wp) ->
  hubspot_list_all_contacts env token after =
    Ok {| page_results := (before ++ data :: rest)%list; paging_next_after := next |} ->
  for_each before (import_contact env user token) st (logged (EvListContacts token after) wp) =
    (Ret st1, w1) ->
  find_contact user (cd_id data) (db w1) = None ->
  In other (contacts (db w1)) -> hubspot_id other = cd_id data ->
  hubspot_get_contact_notes env token (cd_id data) = Ok notes_data ->
  join_notes notes_data = Ok bodies ->
  exists w',
    sync_hubspot_background env (k + S fuel) user w = (Ret tt, w') /\
    db w' = db w1 /\
    trace w' = (trace w1 ++ [EvGetContactNotes token (cd_id data)])%list /\
    is_syncing (sync_status w') user "hubspot" = false /\
    forall e0, sync_entry (sync_status w) user "hubspot" = Some e0 ->
      sync_entry (sync_status w') user "hubspot" =
        Some (failed_entry env (clock w) hubspot_id_taken e0).
Proof.
  intros Hu Ht token Hreach Hlist Hfor Hnone Hin Hg Hnotes Hjoin.
  assert (Hloop : hubspot_pages env (k + S fuel) user token None (0, ∅) w =
                  (Raise hubspot_id_taken,
                   logged (EvGetContactNotes token (cd_id data)) w1)).
  { pose proof (hubspot_pages_reach env user token k _ _ Hreach (S fuel)) as Hr.
    cbn [fst snd] in Hr. rewrite Hr.
    eapply hubspot_page_stops; [exact Hlist | exact Hfor |].
    now apply import_contact_taken with (other := other) (notes_data := notes_data)
                                        (bodies := bodies). }
  destruct (hubspot_run_ends env (k + S fuel) user u w Hu Ht)
    as (w' & Hrun & Hflag & Hdb & Htr & _ & He).
  { fold token. rewrite Hloop. discriminate. }
  fold token in Hdb, Htr, He. rewrite Hloop in Hdb, Htr, He. cbn [fst snd] in *.
  exists w'. split; [exact Hrun|]. split; [exact Hdb|].
  split; [exact Htr|]. split; [exact Hflag | exact He].
Qed.

(** ** The identifiers of the table stay distinct *)

Section Guards.

Variable I : DB -> Prop.

Lemma guards_ret {A : Type} (a : A) : guards I (ret a).
Proof. intros w H. exact H. Qed.

Lemma guards_raise {A : Type} (e : Exn) : guards I (@raise A e).
Proof. intros w H. exact H. Qed.

Lemma guards_diverge {A : Type} : guards I (@diverge A).
Proof. intros w H. exact H. Qed.

Lemma guards_lift {A : Type} (r : Res A) : guards I (lift r).
Proof. destruct r; [apply guards_ret | apply guards_raise]. Qed.

Lemma guards_get_world : guards I get_world.
Proof. intros w H. exact H. Qed.

Lemma guards_emit (ev : Event) : guards I (emit ev).
Proof. intros w H. exact H. Qed.

Lemma guards_set_sync_status (s : gmap Z (gmap string SyncEntry)) :
  guards I (set_sync_status s).
Proof. intros w H. exact H. Qed.

Lemma guards_bind {A B : Type} (m : M A) (k : A -> M B) :
  guards I m -> (forall a, guards I (k a)) -> guards I (bind m k).
Proof.
  intros Hm Hk w H. unfold bind. specialize (Hm w H).
  destruct (m w) as [[a|e|] w1]; cbn [snd] in *; [|exact Hm|exact Hm].
  now apply Hk.
Qed.

Lemma guards_try_except {A : Type} (m : M A) (h : Exn -> M A) :
  guards I m -> (forall e, guards I (h e)) -> guards I (try_except m h).
Proof.
  intros Hm Hh w H. unfold try_except. specialize (Hm w H).
  destruct (m w) as [[a|e|] w1]; cbn [snd] in *; [exact Hm| |exact Hm].
  now apply Hh.
Qed.

Lemma guards_for_each {A S : Type} (xs : list A) (body : A -> S -> M S) (s : S) :
  (forall x s, guards I (body x s)) -> guards I (for_each xs body s).
Proof.
  intros Hb. revert s. induction xs as [|x xs IH]; intros s; cbn [for_each].
  - apply guards_ret.
  - apply guards_bind; [apply Hb | intros; apply IH].
Qed.

(** A property of the emails alone is kept by code that leaves them as
    they are. *)
Hypothesis I_emails : forall d d', emails d' = emails d -> I d -> I d'.

Lemma guards_of_keeps {A : Type} (user : Z) (m : M A) : keeps user m -> guards I m.
Proof. intros Hk w. apply I_emails. apply (st_emails _ _ _ (Hk w)). Qed.

End Guards.

Create HintDb guard.
#[export] Hint Resolve guards_ret guards_raise guards_diverge guards_lift guards_get_world
  guards_emit guards_set_sync_status : guard.

Ltac guard_step :=
  match goal with
  | |- guards _ (bind _ _) => apply guards_bind; [|intros]
  | |- guards _ (try_except _ _) => apply guards_try_except; [|intros]
  | |- guards _ (for_each _ _ _) => apply guards_for_each; intros
  | |- guards _ (match ?x with _ => _ end) => destruct x
  end.

Ltac uphold := repeat (first [ solve [eauto with guard] | guard_step ]).

Section GmailIds.

Variable env : Env.

#[local] Abbreviation distinct := (fun d : DB => List.NoDup (map gmail_id (emails d))).

Lemma guards_add_email (user : Z) (gid : string) (parsed : ParsedEmail) :
  guards distinct (add_email user gid parsed).
Proof.
  intros w H. unfold add_email, bind, get_world, set_db, raise, ret.
  destruct (existsb _ (emails (db w))) eqn:E; cbn; [exact H|].
  rewrite map_app. cbn. apply List.NoDup_app; [exact H | |].
  - apply List.NoDup_cons; [intros [] | constructor].
  - intros x Hx [<-|[]]. apply in_map_iff in Hx as (e & Hg & He).
    assert (Ht : existsb (fun e => String.eqb (gmail_id e) gid) (emails (db w)) = true).
    { apply existsb_exists. exists e. split; [exact He|]. now apply String.eqb_eq. }
    congruence.
Qed.

Lemma guards_set_email_embedding (id : Z) (v : Vec) :
  guards distinct (set_email_embedding id v).
Proof.
  intros w H. unfold set_email_embedding, bind, get_world, set_db. cbn.
  rewrite map_map. erewrite map_ext; [exact H|].
  intros e. now destruct (email_id e =? id).
Qed.

Lemma guards_import_message (u : User) (token gid : string) (n : Z) :
  guards distinct (import_message env u token gid n).
Proof.
  unfold import_message, fetch_email, store_email, get_embedding. uphold.
  - apply guards_add_email.
  - apply guards_set_email_embedding.
  - eapply guards_of_keeps; [|apply keeps_process_ongoing_instructions].
    intros d d' Hd. cbn. now rewrite Hd.
Qed.

Lemma guards_gmail_pages (fuel : nat) (u : User) (token : string) :
  forall page n, guards distinct (gmail_pages env fuel u token page n).
Proof.
  induction fuel as [|fuel IH]; intros page n; cbn [gmail_pages]; uphold.
  apply guards_import_message.
Qed.

Lemma guards_sync_gmail_background (fuel : nat) (user : Z) :
  guards distinct (sync_gmail_background env fuel user).
Proof.
  unfold sync_gmail_background, mark_completed, mark_failed. uphold.
  apply guards_gmail_pages.
Qed.

End GmailIds.

(** The contacts after one contact of a page, however its import ends: the
    identifiers are those of before, or those and the new one, which no row
    held. *)
Lemma import_contact_ids (env : Env) (user : Z) (token : string) (data : ContactData)
    (st : Z * gmap Z Contact) (w : World) :
  session_ok (snd st) (db w) ->
  let w' := snd (import_contact env user token data st w) in
  map hubspot_id (contacts (db w')) = map hubspot_id (contacts (db w)) \/
  (map hubspot_id (contacts (db w')) = (map hubspot_id (contacts (db w)) ++ [cd_id data])%list /\
   ~ In (cd_id data) (map hubspot_id (contacts (db w)))).
Proof.
  intros Hok. destruct st as [n dirty]. cbn [snd] in Hok. cbv zeta.
  remember (snd (import_contact env user token data (n, dirty) w)) as w' eqn:Hw'.
  unfold import_contact in Hw'. unfold bind at 1 in Hw'. cbn [get_world] in Hw'.
  destruct (find_contact user (cd_id data) (db w)) as [row|]; [left; now subst w'|].
  unfold bind at 1 in Hw'. cbn [emit] in Hw'. unfold bind at 1 in Hw'.
  destruct (hubspot_get_contact_notes env token (cd_id data)) as [notes_data|e];
    cbn [lift ret raise] in Hw'; [|left; now subst w'].
  unfold bind at 1 in Hw'. destruct (join_notes notes_data) as [bodies|e];
    cbn [lift ret raise] in Hw'; [|left; now subst w'].
  unfold bind at 1 in Hw'. unfold add_contact at 1 in Hw'. unfold bind at 1 in Hw'.
  cbn [get_world logged db] in Hw'.
  destruct (existsb _ (contacts (db w))) eqn:E; cbn [raise] in Hw'; [left; now subst w'|].
  right.
  assert (Hfresh : ~ In (cd_id data) (map hubspot_id (contacts (db w)))).
  { intros Hx. apply in_map_iff in Hx as (c & Hg & Hc).
    assert (Ht : existsb (fun c => String.eqb (hubspot_id c) (cd_id data))
                   (contacts (db w)) = true).
    { apply existsb_exists. exists c. split; [exact Hc|]. now apply String.eqb_eq. }
    congruence. }
  split; [|exact Hfresh].
  assert (Hflush : map hubspot_id (flush dirty (contacts (db w))) =
                   map hubspot_id (contacts (db w))).
  { destruct (flush_keys dirty (db w) Hok) as [Hk _].
    apply (f_equal (map snd)) in Hk. now rewrite !map_map in Hk. }
  unfold bind at 1 in Hw'. cbn [set_db] in Hw'. unfold bind at 1 in Hw'. cbn [ret] in Hw'.
  destruct (Text.truthy _).
  - unfold bind at 1 in Hw'. rewrite get_embedding_run in Hw'.
    destruct (embeddings_create env _) as [v|e].
    + unfold set_contact_embedding, bind in Hw'.
      cbn in Hw'. subst w'. cbn. rewrite map_map.
      rewrite (map_ext _ hubspot_id)
        by (intros c; destruct (contact_id c =? _); reflexivity).
      now rewrite map_app, Hflush.
    + subst w'. cbn. now rewrite map_app, Hflush.
  - subst w'. cbn. now rewrite map_app, Hflush.
Qed.

Lemma NoDup_snoc {A : Type} (l : list A) (x : A) :
  List.NoDup l -> ~ In x l -> List.NoDup (l ++ [x]).
Proof.
  intros H Hx. apply List.NoDup_app; [exact H | |].
  - apply List.NoDup_cons; [intros [] | constructor].
  - intros y Hy [<-|[]]. now apply Hx.
Qed.

Lemma import_contact_distinct (env : Env) (user : Z) (token : string) (data : ContactData)
    (st : Z * gmap Z Contact) (w : World) :
  session_ok (snd st) (db w) ->
  List.NoDup (map hubspot_id (contacts (db w))) ->
  List.NoDup (map hubspot_id (contacts (db (snd (import_contact env user token data st w))))).
Proof.
  intros Hok H.
  destruct (import_contact_ids env user token data st w Hok) as [E|[E Hfresh]]; rewrite E.
  - exact H.
  - now apply NoDup_snoc.
Qed.

Lemma import_contacts_distinct (env : Env) (user : Z) (token : string)
    (page : list ContactData) :
  forall (st : Z * gmap Z Contact) (w : World),
    session_ok (snd st) (db w) ->
    List.NoDup (map hubspot_id (contacts (db w))) ->
    let run := for_each page (import_contact env user token) st w in
    List.NoDup (map hubspot_id (contacts (db (snd run)))) /\
    forall st', fst run = Ret st' -> session_ok (snd st') (db (snd run)).
Proof.
  induction page as [|data page IH]; intros st w Hok H; cbn [for_each].
  - split; [exact H|]. now intros st' [= <-].
  - unfold bind.
    pose proof (import_contact_distinct env user token data st w Hok H) as H1.
    destruct (import_contact env user token data st w) as [[st1|e|] w1] eqn:E;
      cbn [fst snd] in *; try (split; [exact H1 | discriminate]).
    destruct st as [n dirty].
    destruct (import_contact_step env user token data n dirty w w1 st1 Hok E) as (Hok1 & _).
    now apply IH.
Qed.

Lemma hubspot_pages_distinct (env : Env) (fuel : nat) (user : Z) (token : string) :
  forall (after : option string) (st : Z * gmap Z Contact) (w : World),
    session_ok (snd st) (db w) ->
    List.NoDup (map hubspot_id (contacts (db w))) ->
    List.NoDup (map hubspot_id
                  (contacts (db (snd (hubspot_pages env fuel user token after st w))))).
Proof.
  induction fuel as [|fuel IH]; intros after st w Hok H; [exact H|].
  cbn [hubspot_pages]. unfold bind at 1. cbn [emit]. unfold bind at 1.
  destruct (hubspot_list_all_contacts env token after) as [result|e];
    cbn [lift ret raise snd]; [|exact H].
  unfold bind at 1.
  destruct (import_contacts_distinct env user token (page_results result) st
              (logged (EvListContacts token after) w) Hok H) as [Hd Hs].
  destruct (for_each (page_results result) (import_contact env user token) st
              (logged (EvListContacts token after) w)) as [[st1|e|] w1];
    cbn [fst snd] in *; try exact Hd.
  destruct (Text.truthy_opt (paging_next_after result)); [|exact Hd].
  apply IH; [now apply Hs | exact Hd].
Qed.

Lemma sync_hubspot_background_distinct (env : Env) (fuel : nat) (user : Z) (w : World) :
  List.NoDup (map contact_id (contacts (db w))) ->
  List.NoDup (map hubspot_id (contacts (db w))) ->
  List.NoDup (map hubspot_id
                (contacts (db (snd (sync_hubspot_background env fuel user w))))).
Proof.
  intros Hid H.
  destruct (find_user user (db w)) as [u|] eqn:Eu;
    [|unfold sync_hubspot_background, bind, get_world; now rewrite Eu].
  destruct (Text.truthy_opt (hubspot_access_token u)) eqn:Et;
    [|unfold sync_hubspot_background, bind, get_world; now rewrite Eu, Et].
  rewrite (sync_hubspot_background_run env fuel user u w Eu Et).
  pose proof (hubspot_pages_distinct env fuel user (or_empty (hubspot_access_token u))
                None (0, ∅) w (session_ok_empty _ Hid) H) as Hd.
  destruct (hubspot_pages env fuel user (or_empty (hubspot_access_token u)) None (0, ∅) w)
    as [[st|e|] w1]; cbn [snd] in *; [| |exact Hd].
  - destruct (marks_clear_flag env user "hubspot" w1) as [Hc _].
    destruct (Hc (fst st)) as (w' & -> & Hdb & _). cbn [snd]. now rewrite Hdb.
  - destruct (marks_clear_flag env user "hubspot" w1) as [_ Hf].
    destruct (Hf e) as (w' & -> & Hdb & _). cbn [snd]. now rewrite Hdb.
Qed.

(** ** A Gmail run writes emails only

    when the model asks for no tool that uses the session. *)
Section OnlyEmails.

Variable env : Env.
Hypothesis outside_only : forall req am,
  chat_completions_create env req = Ok am ->
  Forall (fun c => uses_session c = false) (tool_calls am).

Variable d0 : DB.

#[local] Abbreviation others_as_before :=
  (fun d : DB => users d = users d0 /\ contacts d = contacts d0 /\
                 tasks d = tasks d0 /\ ongoing_instructions d = ongoing_instructions d0).

Lemma quiet_process_ongoing_instructions (agent : Agent) (trigger : string)
    (trigger_data : json) :
  quiet (process_ongoing_instructions env agent trigger trigger_data).
Proof.
  intros w. unfold process_ongoing_instructions, bind, get_world.
  destruct (triggered_instructions _ trigger (db w)) as [|i rest]; [reflexivity|].
  pose proof (quiet_turn env agent
                (trigger_prompt env (clock w) trigger trigger_data (i :: rest)) [] w
                (fun am _ => outside_only _ am ltac:(eassumption))) as Hq.
  now destruct (chat env agent _ [] w) as [[r|e|] w1].
Qed.

Lemma guards_of_quiet {A : Type} (I : DB -> Prop) (m : M A) : quiet m -> guards I m.
Proof. intros Hq w H. now rewrite Hq. Qed.

Lemma only_emails_import_message (u : User) (token gid : string) (n : Z) :
  guards others_as_before (import_message env u token gid n).
Proof.
  unfold import_message, fetch_email, store_email, get_embedding. uphold;
    try (apply guards_of_quiet, quiet_process_ongoing_instructions);
    intros w H; unfold add_email, set_email_embedding, bind, get_world, set_db, raise, ret;
    try destruct (existsb _ (emails (db w))); exact H.
Qed.

Lemma only_emails_reach (u : User) (token : string) (k : nat)
    (s0 s : option string * Z * World) :
  gmail_reaches env u token k s0 s ->
  others_as_before (db (snd s0)) -> others_as_before (db (snd s)).
Proof.
  induction 1 as [s | k page n n' w w' result s' Hlist Hfor Hnext Hreach IH]; intros H.
  - exact H.
  - apply IH. cbn [snd] in *.
    pose proof (guards_for_each others_as_before (page_messages result)
                  (import_message env u token) n
                  (fun x s => only_emails_import_message u token x s)
                  (logged (EvListEmails token page None) w) H) as Hg.
    now rewrite Hfor in Hg.
Qed.

End OnlyEmails.


